(** * SpeakPro: the resilient AI-call orchestration core

    A shallow embedding of the service layer of the repository:
    credential resolution ([getApiKey]), the sliding-window rate governor
    ([waitForRateLimit]), the model fallback orchestrator
    ([callWithModelFallback]), the rubric normalizer inside
    [evaluatePresentation] and the PCM decoder ([decodeAudioData]).

    The repository holds two generations of the service file.  The one with
    the rate governor and the not-found short-circuit (chain
    gemini-2.5-flash-lite, gemini-2.5-flash; backoff from 3000 ms, doubled)
    is embedded in [Module RateLimited]; the one with the gemini-1.5 chain
    (backoff from 1500 ms, times 2.5) is embedded in [Module Basic].  The
    normalizer and the decoder are the same in both.

    Strings stand as the bytes of their UTF-8 encoding.  Numbers are the
    rationals that binary64 numbers are, with NaN and the infinities; the
    normalizer computes with the rounding of the machine.

    Asynchronous code is read as state passing over a [World] that holds
    the clock, the [requestTimestamps] array and a trace; an [await] on a
    timer moves the clock.  The interleaving of several callers of the rate
    governor is a step function of its own, [Governor.step].

    Around the service layer the file embeds the generation of the service
    file that has a plain retry loop ([callWithRetry], [Module Retry]), the
    requests for the illustration and the script ([Module Generation]) and
    the component that calls the services: its state and handlers
    ([Module App]) and the WAV file it makes of the teacher's voice
    ([Module Wav]). *)

From Stdlib Require Import ZArith QArith Qround Qpower Qabs String Ascii List Lia Lqa.
From Stdlib Require Floats.
From Stdlib.Strings Require Import Byte.
From stdpp Require Import gmap strings list pretty sorting.

Local Open Scope Z_scope.

(** ** JavaScript strings

    A string stands as the bytes of its UTF-8 encoding.  [trim] strips the
    code points of the ECMAScript classes WhiteSpace and LineTerminator from
    both ends. *)

(** The UTF-8 encoding of a code point of the basic multilingual plane. *)
Definition utf8 (codePoint : N) : string :=
  if (codePoint <? 128)%N then
    String (ascii_of_N codePoint) EmptyString
  else if (codePoint <? 2048)%N then
    String (ascii_of_N (192 + codePoint / 64))
      (String (ascii_of_N (128 + codePoint mod 64)) EmptyString)
  else
    String (ascii_of_N (224 + codePoint / 4096))
      (String (ascii_of_N (128 + (codePoint / 64) mod 64))
         (String (ascii_of_N (128 + codePoint mod 64)) EmptyString)).

(** U+0009 to U+000D, U+0020, U+00A0, U+1680, U+2000 to U+200A, U+2028,
    U+2029, U+202F, U+205F, U+3000 and U+FEFF. *)
Definition whiteSpaceCodePoints : list N :=
  [9; 10; 11; 12; 13; 32; 160; 5760;
   8192; 8193; 8194; 8195; 8196; 8197; 8198; 8199; 8200; 8201; 8202;
   8232; 8233; 8239; 8287; 12288; 65279]%N.

Definition whiteSpace : list string := utf8 <$> whiteSpaceCodePoints.

(** What follows [p] in [s], when [s] begins with [p]. *)
Fixpoint stripPrefix (p s : string) : option string :=
  match p, s with
  | EmptyString, _ => Some s
  | String a p', String b s' => if Ascii.eqb a b then stripPrefix p' s' else None
  | String _ _, EmptyString => None
  end.

(** What follows the first character of [s], when that is one of [chars]. *)
Fixpoint stripAny (chars : list string) (s : string) : option string :=
  match chars with
  | [] => None
  | p :: others =>
      match stripPrefix p s with
      | Some rest => Some rest
      | None => stripAny others s
      end
  end.

(** [s] without the characters of [chars] it begins with; [fuel] bounds
    their number. *)
Fixpoint dropLeading (chars : list string) (fuel : nat) (s : string) : string :=
  match fuel with
  | O => s
  | S fuel' =>
      match stripAny chars s with
      | Some rest => dropLeading chars fuel' rest
      | None => s
      end
  end.

(** [s.trimStart()]: a string has no more white-space characters than
    bytes. *)
Definition trimStart (s : string) : string :=
  dropLeading whiteSpace (String.length s) s.

(** [s.trimEnd()]: the same from the other end, on the reversed bytes. *)
Definition trimEnd (s : string) : string :=
  String.rev (dropLeading (String.rev <$> whiteSpace) (String.length s) (String.rev s)).

(** [s.trim()] *)
Definition trim (s : string) : string := trimEnd (trimStart s).

(** [s] in a boolean position: the empty string is falsy. *)
Definition nonEmpty (s : string) : bool :=
  match s with EmptyString => false | String _ _ => true end.

(** A value of type [string | null | undefined] in a boolean position. *)
Definition truthyStr (o : option string) : bool :=
  match o with Some s => nonEmpty s | None => false end.

(** [a || b] on [string | undefined]. *)
Definition orStr (a b : option string) : option string :=
  if truthyStr a then a else b.

(** Results of fallible code: a returned value or a thrown one. *)
Inductive result (A E : Type) : Type :=
| Ok (a : A)
| Throw (e : E).
Arguments Ok {A E} a.
Arguments Throw {A E} e.

(** ** Credential resolver *)

(** What [getApiKey] reads: the [speakpro_api_key] entry of localStorage
    ([getItem] gives [null] when absent) and the two environment values. *)
Record KeySources : Type := {
  stored_speakpro_api_key : option string;
  env_API_KEY : option string;
  env_GEMINI_API_KEY : option string
}.

Definition missingKeyMessage : string :=
  "⚠️ Chưa có API Key! Vào Settings (⚙️) để nhập key.".

(** [userKey && userKey.trim()] then [return userKey.trim()]. *)
Definition usable (k : option string) : option string :=
  match k with
  | Some s => if nonEmpty s && nonEmpty (trim s) then Some (trim s) else None
  | None => None
  end.

(** ** JavaScript numbers and parsed JSON values

    A number is NaN, an infinity or a finite value, held as the rational it
    is.  [num_mul], [num_div] and [num_add] are the exact operations;
    [fmul], [fdiv] and [fadd] round their result to binary64 as the machine
    does, and are what the normalizer computes with.  The decoder and the
    WAV writer divide and multiply by 32768 and 32767 only, which is exact
    on the samples they handle, and keep the exact operations.  The sign of
    zero is not part of the model. *)

Inductive Num : Type :=
| NaN
| Infinity (negative : bool)
| Finite (q : Q).

Definition negativeQ (q : Q) : bool := Qle_bool q 0 && negb (Qeq_bool q 0).

Definition num_mul (a b : Num) : Num :=
  match a, b with
  | NaN, _ | _, NaN => NaN
  | Infinity s, Infinity s' => Infinity (xorb s s')
  | Infinity s, Finite q | Finite q, Infinity s =>
      if Qeq_bool q 0 then NaN else Infinity (xorb s (negativeQ q))
  | Finite p, Finite q => Finite (p * q)
  end.

Definition num_div (a b : Num) : Num :=
  match a, b with
  | NaN, _ | _, NaN => NaN
  | Infinity _, Infinity _ => NaN
  | Infinity s, Finite q => Infinity (xorb s (negativeQ q))
  | Finite _, Infinity _ => Finite 0
  | Finite p, Finite q =>
      if Qeq_bool q 0
      then (if Qeq_bool p 0 then NaN else Infinity (negativeQ p))
      else Finite (p / q)
  end.

Definition num_add (a b : Num) : Num :=
  match a, b with
  | NaN, _ | _, NaN => NaN
  | Infinity s, Infinity s' => if Bool.eqb s s' then Infinity s else NaN
  | Infinity s, Finite _ | Finite _, Infinity s => Infinity s
  | Finite p, Finite q => Finite (p + q)
  end.

(** *** Binary64

    The arithmetic of JavaScript numbers rounds every result to the nearest
    number of the binary64 format, a tie going to the number whose
    significand is even. *)

(** The nearest integer, a tie going to the even one. *)
Definition roundHalfEven (x : Q) : Z :=
  let f := Qfloor x in
  match (x - inject_Z f ?= 1 # 2)%Q with
  | Lt => f
  | Gt => f + 1
  | Eq => if Z.even f then f else f + 1
  end.

(** The exponent [e] with [2 ^ e <= |q| < 2 ^ (e + 1)], for [q] other
    than 0. *)
Definition binade (q : Q) : Z :=
  let c := Z.log2 (Z.abs (Qnum q)) - Z.log2 (Zpos (Qden q)) in
  if Qle_bool (2 ^ c) (Qabs q) then c else c - 1.

(** The distance between neighbouring binary64 numbers around [q]: 52
    binary digits below the leading one, and [2 ^ -1074] where the numbers
    are subnormal. *)
Definition ulp (q : Q) : Q := (2 ^ Z.max (binade q - 52) (-1074))%Q.

(** [q] as a number of JavaScript. *)
Definition binary64 (q : Q) : Num :=
  if Qeq_bool q 0 then Finite 0
  else
    let r := (inject_Z (roundHalfEven (q / ulp q)) * ulp q)%Q in
    if Qle_bool (2 ^ 1024) (Qabs r) then Infinity (negativeQ q)
    else Finite (Qred r).

(** The result of an operation, rounded. *)
Definition rounded (x : Num) : Num :=
  match x with
  | Finite q => binary64 q
  | _ => x
  end.

(** [a * b], [a / b] and [a + b] on numbers. *)
Definition fmul (a b : Num) : Num := rounded (num_mul a b).

Definition fdiv (a b : Num) : Num := rounded (num_div a b).

Definition fadd (a b : Num) : Num := rounded (num_add a b).

(** The number that a decimal literal denotes. *)
Definition literal (q : Q) : Num := binary64 q.

(** [Math.round]: the nearest integer, halves going up. *)
Definition Math_round (a : Num) : Num :=
  match a with
  | Finite q => Finite (inject_Z (Qfloor (q + (1 # 2))%Q))
  | _ => a
  end.

Definition Math_max (a b : Num) : Num :=
  match a, b with
  | NaN, _ | _, NaN => NaN
  | Infinity false, _ | _, Infinity false => Infinity false
  | Infinity true, x | x, Infinity true => x
  | Finite p, Finite q => if Qle_bool p q then Finite q else Finite p
  end.

Definition Math_min (a b : Num) : Num :=
  match a, b with
  | NaN, _ | _, NaN => NaN
  | Infinity true, _ | _, Infinity true => Infinity true
  | Infinity false, x | x, Infinity false => x
  | Finite p, Finite q => if Qle_bool p q then Finite p else Finite q
  end.

(** Values that [JSON.parse] can produce, and [undefined]. *)
#[warnings="-register-all"]
Inductive JsVal : Type :=
| JUndefined
| JNull
| JBool (b : bool)
| JNum (x : Num)
| JStr (s : string)
| JArr (items : list JsVal)
| JObj (props : gmap string JsVal).

(** A value in a boolean position. *)
Definition truthy (v : JsVal) : bool :=
  match v with
  | JUndefined | JNull => false
  | JBool b => b
  | JNum NaN => false
  | JNum (Finite q) => negb (Qeq_bool q 0)
  | JNum (Infinity _) => true
  | JStr s => nonEmpty s
  | JArr _ | JObj _ => true
  end.

(** [a || b] *)
Definition orElse (a b : JsVal) : JsVal := if truthy a then a else b.

(** [obj.key]: reading a property named like a rubric field; only objects
    carry one. *)
Definition getProp (obj : JsVal) (key : string) : JsVal :=
  match obj with
  | JObj props => default JUndefined (props !! key)
  | _ => JUndefined
  end.

Definition charItems (s : string) : list JsVal :=
  (fun c => JStr (String c EmptyString)) <$> list_ascii_of_string s.

Definition indexed (items : list JsVal) : gmap string JsVal :=
  list_to_map (imap (fun i v => (pretty i, v)) items).

(** The own enumerable properties copied by [{ ...v }]. *)
Definition spread (v : JsVal) : gmap string JsVal :=
  match v with
  | JObj props => props
  | JArr items => indexed items
  | JStr s => indexed (charItems s)
  | _ => ∅
  end.

(** ** Errors thrown by a unit of work and their classification *)

(** A caught value as the orchestrator inspects it: [err?.status],
    [JSON.stringify(err)] and [err?.message]. *)
Record JsError : Type := {
  status : option Z;
  stringified : string;
  message : option string
}.

(** [toLowerCase] on the letters A to Z.  The bytes of a letter outside
    ASCII stay as they are: the lowering of such letters is not modelled.
    For the searches of the classifier that loses nothing: what it searches
    for is ASCII, and the only ASCII letters that the lowering of a letter
    outside ASCII yields are the k of the Kelvin sign and the i of the
    dotted capital I, which a combining dot follows; no string searched for
    holds a k, or an i before anything but a letter. *)
Definition lowerChar (c : ascii) : ascii :=
  let n := nat_of_ascii c in
  if (65 <=? n)%nat && (n <=? 90)%nat then ascii_of_nat (n + 32) else c.

Fixpoint toLowerCase (s : string) : string :=
  match s with
  | EmptyString => EmptyString
  | String c rest => String (lowerChar c) (toLowerCase rest)
  end.

(** [s.includes(needle)]. *)
Fixpoint includes (needle s : string) : bool :=
  String.prefix needle s ||
  match s with
  | EmptyString => false
  | String _ rest => includes needle rest
  end.

Definition errorStr (err : JsError) : string := toLowerCase (stringified err).

Definition statusIs (err : JsError) (code : Z) : bool :=
  match status err with Some n => n =? code | None => false end.

Definition statusAtLeast (err : JsError) (code : Z) : bool :=
  match status err with Some n => code <=? n | None => false end.

(** ** The world an orchestration run acts on

    The clock ([Date.now()], in milliseconds), the module-level
    [requestTimestamps] array and a trace of what the run did. *)

Inductive Event : Type :=
| EvAttempt (model : string)      (* [fn(model)] was invoked *)
| EvBackoff (ms : Q)              (* retry delay: [setTimeout(resolve, ms)] *)
| EvRateWait (ms : Z).            (* suspension inside [waitForRateLimit] *)

Record World : Type := {
  clock : Z;
  requestTimestamps : list Z;
  trace : list Event
}.

Definition isAttempt (e : Event) : bool :=
  match e with EvAttempt _ => true | _ => false end.

(** Number of invocations of the unit of work recorded in a trace. *)
Definition attempts (t : list Event) : nat := length (List.filter isAttempt t).

(** Invocations against one given model. *)
Definition isAttemptOn (model : string) (e : Event) : bool :=
  match e with EvAttempt m => String.eqb m model | _ => false end.

Definition attemptsOn (model : string) (t : list Event) : nat :=
  length (List.filter (isAttemptOn model) t).

(** A unit of work [fn : (model) => Promise<T>].  Its [k]-th invocation
    (counting from 0 over the whole trace), made against [model], settles
    after [took] milliseconds with a value or a thrown error. *)
Record Reply (T : Type) : Type := {
  outcome : result T JsError;
  took : Z
}.
Arguments outcome {T} r.
Arguments took {T} r.

Definition Work (T : Type) : Type := string -> nat -> Reply T.

(** State-passing computations over the world. *)
Definition M (A : Type) : Type := World -> A * World.

#[global] Instance M_ret : MRet M := fun A a w => (a, w).

#[global] Instance M_bind : MBind M :=
  fun A B k m w => let '(a, w') := m w in k a w'.

(** [Date.now()]. *)
Definition Date_now : M Z := fun w => (clock w, w).

(** [await new Promise(resolve => setTimeout(resolve, ms))]: the timer fires
    when it is due; a negative delay counts as zero. *)
Definition elapse (ms : Z) (w : World) : World :=
  {| clock := clock w + Z.max 0 ms;
     requestTimestamps := requestTimestamps w;
     trace := trace w |}.

Definition record (e : Event) (w : World) : World :=
  {| clock := clock w;
     requestTimestamps := requestTimestamps w;
     trace := trace w ++ [e] |}.

(** [await fn(model)] *)
Definition invoke {T} (fn : Work T) (model : string) : M (result T JsError) :=
  fun w =>
    let r := fn model (attempts (trace w)) in
    (outcome r, elapse (took r) (record (EvAttempt model) w)).

(** What one pass of the retry loop over a model ends in. *)
Inductive LoopExit (T : Type) : Type :=
| Returned (v : T)            (* [return await fn(model)] *)
| Rethrown (err : JsError)    (* [throw err] *)
| NextModel.                  (* [break], or the loop bound was reached *)
Arguments Returned {T} v.
Arguments Rethrown {T} err.
Arguments NextModel {T}.

(** How a run of the orchestrator ends. *)
Inductive Outcome (T : Type) : Type :=
| Success (v : T)                 (* a value was returned *)
| RawError (err : JsError)        (* the caught provider error was rethrown *)
| Exhausted (msg : string).       (* the final [throw new Error(...)] *)
Arguments Success {T} v.
Arguments RawError {T} err.
Arguments Exhausted {T} msg.

(** [models.indexOf(model)]: first position, or -1. *)
Fixpoint indexOf (model : string) (models : list string) : Z :=
  match models with
  | [] => -1
  | m :: rest =>
      if String.eqb m model then 0
      else let i := indexOf model rest in if i <? 0 then -1 else i + 1
  end.

(** [models.indexOf(model) < models.length - 1] *)
Definition hasNext (model : string) (models : list string) : bool :=
  indexOf model models <? Z.of_nat (length models) - 1.

Definition getTimestamps : M (list Z) := fun w => (requestTimestamps w, w).

Definition setTimestamps (ts : list Z) : M unit := fun w =>
  (tt, {| clock := clock w; requestTimestamps := ts; trace := trace w |}).

(** ** The response normalizer of [evaluatePresentation] *)

Inductive CEFRLevel : Type :=
| Starters | Movers | Flyers | A1 | A2 | B1 | B2 | C1 | C2.

(** The string a level is at run time. *)
Definition levelName (level : CEFRLevel) : string :=
  match level with
  | Starters => "Starters" | Movers => "Movers" | Flyers => "Flyers"
  | A1 => "A1" | A2 => "A2" | B1 => "B1" | B2 => "B2" | C1 => "C1" | C2 => "C2"
  end.

(** [new Error(msg)] and the TypeError of a property read on [null]; neither
    has an enumerable property, so both stringify to an empty object. *)
Definition newError (msg : string) : JsError :=
  {| status := None; stringified := "{}"; message := Some msg |}.

Definition nullReadError : JsError :=
  newError "Cannot read properties of null (reading 'pronunciation')".

Section Normalizer.

(** [ToNumber] of a string or of an array parses a numeric literal; that
    parser is left open. *)
Variable parseNumber : JsVal -> Num.

Definition ToNumber (v : JsVal) : Num :=
  match v with
  | JUndefined => NaN
  | JNull => Finite 0
  | JBool b => Finite (if b then 1 else 0)
  | JNum x => x
  | JStr _ | JArr _ => parseNumber v
  | JObj _ => NaN
  end.

(** [const num = val || 0;
     return Math.min(10, Math.max(0, Math.round(num * 10) / 10));] *)
Definition normalize (val : JsVal) : Num :=
  let num := orElse val (JNum (Finite 0)) in
  Math_min (Finite 10)
    (Math_max (Finite 0)
       (fdiv (Math_round (fmul (ToNumber num) (Finite 10))) (Finite 10))).

(** From [const raw = JSON.parse(...)] to the returned object. *)
Definition postprocess (raw : JsVal) (level : CEFRLevel)
  : result (gmap string JsVal) JsError :=
  match raw with
  | JNull | JUndefined => Throw nullReadError
  | _ =>
      let pronunciation := normalize (getProp raw "pronunciation") in
      let fluency := normalize (getProp raw "fluency") in
      let intonation := normalize (getProp raw "intonation") in
      let vocabulary := normalize (getProp raw "vocabulary") in
      let grammar := normalize (getProp raw "grammar") in
      let taskFulfillment := normalize (getProp raw "taskFulfillment") in
      let evalResult : gmap string JsVal :=
        <["taskFulfillment" := JNum taskFulfillment]>
        (<["grammar" := JNum grammar]>
        (<["vocabulary" := JNum vocabulary]>
        (<["intonation" := JNum intonation]>
        (<["fluency" := JNum fluency]>
        (<["pronunciation" := JNum pronunciation]> (spread raw)))))) in
      let avg :=
        fdiv
          (fadd (fadd (fadd (fadd (fadd
             pronunciation fluency) intonation) vocabulary) grammar)
             taskFulfillment)
          (Finite 6) in
      let score := normalize (JNum avg) in
      Ok (<["mistakes" := JArr []]>
         (<["keyVocabulary" := JArr []]>
         (<["perceivedLevel" := JStr (levelName level)]>
         (<["score" := JNum score]> evalResult))))
  end.

(** The unit of work of [evaluatePresentation]: [createAIClient()] reads
    the key, the remote call answers with the parsed [response.text] (or
    throws), and the answer is post-processed. *)
Definition evaluationWork (resolveKey : result string string)
    (remote : Work JsVal) (level : CEFRLevel) : Work (gmap string JsVal) :=
  fun model k =>
    match resolveKey with
    | Throw msg => {| outcome := Throw (newError msg); took := 0 |}
    | Ok _ =>
        let r := remote model k in
        {| outcome :=
             match outcome r with
             | Ok raw => postprocess raw level
             | Throw err => Throw err
             end;
           took := took r |}
    end.

End Normalizer.

(** ** The service file with the rate governor *)

Module RateLimited.

(** [process.env.API_KEY || process.env.GEMINI_API_KEY] *)
Definition envKey (src : KeySources) : option string :=
  orStr (env_API_KEY src) (env_GEMINI_API_KEY src).

Definition getApiKey (src : KeySources) : result string string :=
  let userKey := stored_speakpro_api_key src in
  match usable userKey with
  | Some k => Ok k
  | None =>
      match usable (envKey src) with
      | Some k => Ok k
      | None => Throw missingKeyMessage
      end
  end.

Definition MODEL_FALLBACK_CHAIN : list string :=
  ["gemini-2.5-flash-lite"; "gemini-2.5-flash"]%string.

Definition MAX_RPM : nat := 8.

(** The loop that shifts timestamps older than 60 seconds off the front. *)
Fixpoint prune (now : Z) (ts : list Z) : list Z :=
  match ts with
  | [] => []
  | t :: rest => if t <? now - 60000 then prune now rest else ts
  end.

(** [waitForRateLimit] up to its [await]: the pruned array and, when the
    cap is reached, the time to wait. *)
Definition admitCheck (now : Z) (ts : list Z) : list Z * option Z :=
  let kept := prune now ts in
  (kept,
   if (MAX_RPM <=? length kept)%nat
   then Some (nth 0 kept 0 + 60000 - now + 500)
   else None).

(** [requestTimestamps.push(Date.now())] *)
Definition admitRecord (now : Z) (ts : list Z) : list Z := ts ++ [now].

Definition rateWait (ms : Z) : M unit := fun w =>
  (tt, elapse ms (record (EvRateWait ms) w)).

Definition waitForRateLimit : M unit :=
  now ← Date_now;
  ts ← getTimestamps;
  let '(kept, wait) := admitCheck now ts in
  setTimestamps kept;;
  match wait with
  | Some waitTime => rateWait waitTime
  | None => mret tt
  end;;
  now' ← Date_now;
  ts' ← getTimestamps;
  setTimestamps (admitRecord now' ts').

Definition isNotFound (err : JsError) : bool :=
  statusIs err 404 || includes "not_found" (errorStr err).

Definition isRateLimit (err : JsError) : bool :=
  statusIs err 429 || includes "quota" (errorStr err)
  || includes "rate limit" (errorStr err)
  || includes "resource_exhausted" (errorStr err).

Definition isServerError (err : JsError) : bool :=
  statusAtLeast err 500 || includes "internal error" (errorStr err).

Definition backoff (ms : Z) : M unit := fun w =>
  (tt, elapse ms (record (EvBackoff (inject_Z ms)) w)).

Definition exhaustedMessage : string :=
  "⚠️ API Key hết quota!

Hãy:
1. Nhấn nút ⚙️ để đổi key mới
2. Hoặc chờ 1 phút rồi thử lại".

Section Orchestrator.
Context {T : Type}.
Variable fn : Work T.
Variable models : list string.
Variable maxRetries : Z.

(** The inner [for] loop over one model; [remaining] counts the
    iterations left before [attempt < maxRetries] fails.  The variable
    [lastError] is assigned in the catch block and never read in this
    file, so it is left out. *)
Fixpoint tryModel (model : string) (remaining : nat) (attempt delay : Z)
  : M (LoopExit T) :=
  match remaining with
  | O => mret NextModel
  | S remaining' =>
      waitForRateLimit;;
      r ← invoke fn model;
      match r with
      | Ok v => mret (Returned v)
      | Throw err =>
          if isNotFound err then mret NextModel
          else if isRateLimit err && (attempt <? maxRetries - 1) then
            backoff (delay * 2);;
            tryModel model remaining' (attempt + 1) (delay * 2)
          else if isServerError err && (attempt <? maxRetries - 1) then
            backoff delay;;
            tryModel model remaining' (attempt + 1) (delay * 2)
          else if hasNext model models then mret NextModel
          else mret (Rethrown err)
      end
  end.

(** The outer [for (const model of models)] loop and the final throw. *)
Fixpoint overModels (rest : list string) : M (Outcome T) :=
  match rest with
  | [] => mret (Exhausted exhaustedMessage)
  | model :: rest' =>
      x ← tryModel model (Z.to_nat maxRetries) 0 3000;
      match x with
      | Returned v => mret (Success v)
      | Rethrown err => mret (RawError err)
      | NextModel => overModels rest'
      end
  end.

Definition runChain : M (Outcome T) := overModels models.

End Orchestrator.

Inductive ModelType : Type := text | image.

Definition defaultMaxRetries : Z := 2.

(** [models] is always [MODEL_FALLBACK_CHAIN], whatever [modelType]. *)
Definition callWithModelFallback {T} (fn : Work T) (modelType : ModelType)
    (maxRetries : Z) : M (Outcome T) :=
  runChain fn MODEL_FALLBACK_CHAIN maxRetries.

Definition evaluatePresentation (parseNumber : JsVal -> Num)
    (src : KeySources) (remote : Work JsVal) (level : CEFRLevel)
  : M (Outcome (gmap string JsVal)) :=
  callWithModelFallback
    (evaluationWork parseNumber (getApiKey src) remote level)
    text defaultMaxRetries.

End RateLimited.

(** ** The service file with the gemini-1.5 chain *)

Module Basic.

Definition getApiKey (src : KeySources) : result string string :=
  let userKey := stored_speakpro_api_key src in
  match usable userKey with
  | Some k => Ok k
  | None =>
      match usable (env_API_KEY src) with
      | Some k => Ok k
      | None => Throw missingKeyMessage
      end
  end.

Definition MODEL_FALLBACK_CHAIN : list string :=
  ["gemini-1.5-flash"; "gemini-1.5-pro"; "gemini-1.0-pro"]%string.

Inductive ModelType : Type := text | image.

Definition modelsFor (modelType : ModelType) : list string :=
  match modelType with
  | image => ["gemini-1.5-flash"; "gemini-1.5-pro"]%string
  | text => MODEL_FALLBACK_CHAIN
  end.

Definition isRateLimit (err : JsError) : bool :=
  statusIs err 429 || includes "quota" (errorStr err)
  || includes "rate limit" (errorStr err).

Definition isServerError (err : JsError) : bool :=
  statusAtLeast err 500 || includes "internal error" (errorStr err).

(** The delay is multiplied by 2.5 and stops being an integer; the timer
    is taken to fire after the whole milliseconds of it. *)
Definition backoff (ms : Q) : M unit := fun w =>
  (tt, elapse (Qfloor ms) (record (EvBackoff ms) w)).

(** The template string of the final [throw new Error(...)]. *)
Definition exhaustedMessage (count : nat) (lastError : option JsError) : string :=
  let detail :=
    match orStr (lastError ≫= message) (Some "Lỗi không xác định"%string) with
    | Some s => s
    | None => "undefined"%string
    end in
  ("⚠️ LỖI MÁY CHỦ: Tất cả " +:+ pretty count +:+ " model AI đều gặp lỗi.

Vui lòng:
1. Kiểm tra API Key còn quota
2. Chờ 30 giây rồi thử lại

Chi tiết: " +:+ detail)%string.

Section Orchestrator.
Context {T : Type}.
Variable fn : Work T.
Variable models : list string.
Variable maxRetries : Z.

(** The inner [for] loop; the second component is [lastError]. *)
Fixpoint tryModel (model : string) (remaining : nat) (attempt : Z)
    (delay : Q) (lastError : option JsError)
  : M (LoopExit T * option JsError) :=
  match remaining with
  | O => mret (NextModel, lastError)
  | S remaining' =>
      r ← invoke fn model;
      match r with
      | Ok v => mret (Returned v, lastError)
      | Throw err =>
          if (isRateLimit err || isServerError err)
             && (attempt <? maxRetries - 1) then
            backoff delay;;
            tryModel model remaining' (attempt + 1) (delay * 2.5)%Q (Some err)
          else if hasNext model models then mret (NextModel, Some err)
          else mret (Rethrown err, Some err)
      end
  end.

Fixpoint overModels (rest : list string) (lastError : option JsError)
  : M (Outcome T) :=
  match rest with
  | [] => mret (Exhausted (exhaustedMessage (length models) lastError))
  | model :: rest' =>
      x ← tryModel model (Z.to_nat maxRetries) 0 1500%Q lastError;
      match x with
      | (Returned v, _) => mret (Success v)
      | (Rethrown err, _) => mret (RawError err)
      | (NextModel, lastError') => overModels rest' lastError'
      end
  end.

Definition runChain : M (Outcome T) := overModels models None.

End Orchestrator.

Definition defaultMaxRetries : Z := 3.

Definition callWithModelFallback {T} (fn : Work T) (modelType : ModelType)
    (maxRetries : Z) : M (Outcome T) :=
  runChain fn (modelsFor modelType) maxRetries.

Definition evaluatePresentation (parseNumber : JsVal -> Num)
    (src : KeySources) (remote : Work JsVal) (level : CEFRLevel)
  : M (Outcome (gmap string JsVal)) :=
  callWithModelFallback
    (evaluationWork parseNumber (getApiKey src) remote level)
    text defaultMaxRetries.

End Basic.

(** ** Driving the rate governor *)

Module Governor.
Import RateLimited.

(** *** One caller, one admission after the other *)

(** The wait recorded by one admission, if it waited. *)
Definition suspension (t : list Event) : option Z :=
  match t with
  | [EvRateWait ms] => Some ms
  | _ => None
  end.

(** An admission requested at time [t] (or as soon as the previous one has
    returned): how long it suspended, and the world it leaves. *)
Definition admitAt (t : Z) (w : World) : option Z * World :=
  let w1 := {| clock := Z.max t (clock w);
               requestTimestamps := requestTimestamps w;
               trace := [] |} in
  let w2 := (waitForRateLimit w1).2 in
  (suspension (trace w2), w2).

Fixpoint admitAll (times : list Z) (w : World) : list (option Z) :=
  match times with
  | [] => []
  | t :: rest => (admitAt t w).1 :: admitAll rest (admitAt t w).2
  end.




(** The state of a freshly loaded module at time [t0]. *)
Definition boot (t0 : Z) : World :=
  {| clock := t0; requestTimestamps := []; trace := [] |}.

(** *** Several callers on the cooperative scheduler

    A call of [waitForRateLimit] runs without interruption up to its
    [await]; what follows the [await] runs when the timer has fired.
    Other callers may run in between. *)

Inductive Step : Type :=
| Request (task : nat) (now : Z)   (* a caller enters [waitForRateLimit] *)
| Resume (task : nat) (now : Z).   (* the timer of a suspended caller fires *)

(** What a caller finds at its decision point. *)
Record Decision : Type := {
  seen : nat;          (* recorded timestamps inside the trailing 60 s *)
  overlapping : nat    (* other callers suspended in [waitForRateLimit] *)
}.

Record Sched : Type := {
  stamps : list Z;             (* [requestTimestamps] *)
  time : Z;                    (* the clock at the last step *)
  suspended : gmap nat Z;      (* suspended callers and when they are due *)
  decisions : list Decision
}.

(** The recorded timestamps that lie inside the 60 seconds before [now]. *)
Definition windowCount (now : Z) (ts : list Z) : nat :=
  length (List.filter (fun t => now - 60000 <=? t) ts).

Definition step (s : Sched) (e : Step) : option Sched :=
  match e with
  | Request task now =>
      match suspended s !! task with
      | Some _ => None
      | None =>
          if now <? time s then None
          else
            let '(kept, wait) := admitCheck now (stamps s) in
            let d := {| seen := windowCount now (stamps s);
                        overlapping := size (suspended s) |} in
            match wait with
            | None =>
                Some {| stamps := admitRecord now kept;
                        time := now;
                        suspended := suspended s;
                        decisions := decisions s ++ [d] |}
            | Some ms =>
                Some {| stamps := kept;
                        time := now;
                        suspended := <[task := now + ms]> (suspended s);
                        decisions := decisions s ++ [d] |}
            end
      end
  | Resume task now =>
      match suspended s !! task with
      | None => None
      | Some due =>
          if (now <? time s) || (now <? due) then None
          else
            Some {| stamps := admitRecord now (stamps s);
                    time := now;
                    suspended := delete task (suspended s);
                    decisions := decisions s |}
      end
  end.

Fixpoint run (s : Sched) (steps : list Step) : option Sched :=
  match steps with
  | [] => Some s
  | e :: rest =>
      match step s e with
      | Some s' => run s' rest
      | None => None
      end
  end.

Definition start (t0 : Z) : Sched :=
  {| stamps := []; time := t0; suspended := ∅; decisions := [] |}.

End Governor.

(** ** The PCM decoder *)

Module Audio.

(** One element of the [Int16Array] view: two bytes, low byte first, read
    as a two's-complement number. *)
Definition int16 (lo hi : byte) : Z :=
  let u := Z.of_N (Byte.to_N lo) + 256 * Z.of_N (Byte.to_N hi) in
  if u <? 32768 then u else u - 65536.

(** [new Int16Array(data.buffer)]; a buffer of odd length is refused with
    a RangeError. *)
Fixpoint Int16Array (data : list byte) : option (list Z) :=
  match data with
  | [] => Some []
  | [_] => None
  | lo :: hi :: rest => cons (int16 lo hi) <$> Int16Array rest
  end.

Record AudioBuffer : Type := {
  numberOfChannels : nat;
  frames : nat;                     (* the [length] of the buffer *)
  sampleRate : Z;
  channelData : list (list Num)     (* one array of samples per channel *)
}.

(** [ctx.createBuffer(numChannels, frameCount, sampleRate)]: zero-filled
    channels.  The validation of the arguments by the audio context is
    not modelled. *)
Definition createBuffer (numChannels frameCount : nat) (rate : Z) : AudioBuffer :=
  {| numberOfChannels := numChannels;
     frames := frameCount;
     sampleRate := rate;
     channelData := replicate numChannels (replicate frameCount (Finite 0)) |}.

(** [dataInt16[k] / 32768.0]; reading past the end gives [undefined]. *)
Definition scaled (dataInt16 : list Z) (k : nat) : Num :=
  match dataInt16 !! k with
  | Some s => num_div (Finite (inject_Z s)) (Finite 32768)
  | None => NaN
  end.

(** The inner loop: [channelData[i] = dataInt16[i * numChannels + channel] / 32768.0]. *)
Definition fillChannel (dataInt16 : list Z) (numChannels frameCount channel : nat)
    (samples : list Num) : list Num :=
  foldl (fun acc i => <[i := scaled dataInt16 (i * numChannels + channel)]> acc)
        samples (seq 0 frameCount).

(** A fractional [frameCount] would be cut to whole frames by the buffer;
    the quotient is taken rounded down. *)
Definition decodeAudioData (data : list byte) (rate : Z) (numChannels : nat)
  : option AudioBuffer :=
  dataInt16 ← Int16Array data;
  if (numChannels =? 0)%nat then None
  else
    let frameCount := (length dataInt16 / numChannels)%nat in
    let buffer := createBuffer numChannels frameCount rate in
    Some
      {| numberOfChannels := numberOfChannels buffer;
         frames := frames buffer;
         sampleRate := sampleRate buffer;
         channelData :=
           foldl (fun chans channel =>
                    <[channel := fillChannel dataInt16 numChannels frameCount channel
                                   (default [] (chans !! channel))]> chans)
                 (channelData buffer) (seq 0 numChannels) |}.

(** *** Re-encoding, as the specification words it

    Scale by 32768, round, clamp to [-32768, 32767], and write the
    samples back as little-endian 16-bit values interleaved by channel. *)

Definition toInt16 (x : Num) : Z :=
  match Math_min (Finite 32767)
          (Math_max (Finite (-32768)) (Math_round (num_mul x (Finite 32768)))) with
  | Finite q => Qfloor q
  | _ => 0
  end.

Definition byteOf (z : Z) : byte :=
  default Byte.x00 (Byte.of_N (Z.to_N z)).

Definition int16Bytes (s : Z) : list byte :=
  let u := s mod 65536 in
  [byteOf (u mod 256); byteOf (u / 256)].

Definition frameBytes (buffer : AudioBuffer) (i : nat) : list byte :=
  mjoin ((fun samples => int16Bytes (toInt16 (default NaN (samples !! i))))
           <$> channelData buffer).

Definition reencode (buffer : AudioBuffer) : list byte :=
  mjoin (frameBytes buffer <$> seq 0 (frames buffer)).

End Audio.

(** ** The service file with the plain retry loop

    Another generation of the service file has no chain of models: every
    exported function wraps its request in [callWithRetry], and the request
    names the one model it is made against. *)

Module Retry.

(** [err?.status === 429 || errorStr.includes('quota')] *)
Definition isQuota (err : JsError) : bool :=
  statusIs err 429 || includes "quota" (errorStr err).

Definition busyMessage : string :=
  "MÁY CHỦ BẬN: Bé vui lòng chờ 30 giây rồi nhấn 'Thử lại' nhé!".

(** The delay is multiplied by 2.5 and stops being an integer; the timer
    is taken to fire after the whole milliseconds of it. *)
Definition backoff (ms : Q) : M unit := fun w =>
  (tt, elapse (Qfloor ms) (record (EvBackoff ms) w)).

Section Loop.
Context {T : Type}.

(** The unit of work [fn : () => Promise<T>] takes no argument; [model] is
    the model its closure names, passed along for the trace. *)
Variable fn : Work T.
Variable model : string.
Variable maxRetries : Z.

(** The [for] loop; [remaining] counts the iterations left before
    [i < maxRetries] fails. *)
Fixpoint retryLoop (remaining : nat) (i : Z) (delay : Q) : M (Outcome T) :=
  match remaining with
  | O => mret (Exhausted busyMessage)
  | S remaining' =>
      r ← invoke fn model;
      match r with
      | Ok v => mret (Success v)
      | Throw err =>
          if isQuota err && (i <? maxRetries - 1) then
            backoff delay;;
            retryLoop remaining' (i + 1) (delay * 2.5)%Q
          else mret (RawError err)
      end
  end.

Definition callWithRetry : M (Outcome T) :=
  retryLoop (Z.to_nat maxRetries) 0 1500%Q.

End Loop.

Definition defaultMaxRetries : Z := 4.

End Retry.

(** ** The WAV file made for the download button

    [generateAudioForDownload] writes the decoded voice into an
    [ArrayBuffer] through a [DataView]: a 44-byte RIFF header and the
    samples as 16-bit integers. *)

Module Wav.
Import Audio.

(** Storing [bytes] at [offset] of the buffer a [DataView] looks at; a
    write that does not fit in the buffer throws a RangeError. *)
Definition store (offset : nat) (bytes : list byte) (view : list byte)
  : option (list byte) :=
  if (offset + length bytes <=? length view)%nat
  then Some (take offset view ++ bytes ++ drop (offset + length bytes) view)
  else None.

(** The [n] low bytes of an integer, lowest first: what the setters with
    [littleEndian = true] store after the modulo conversion of the value. *)
Fixpoint littleEndian (n : nat) (v : Z) : list byte :=
  match n with
  | O => []
  | S k => byteOf (v mod 256) :: littleEndian k (v / 256)
  end.

Definition setUint8 (offset : nat) (v : Z) : list byte -> option (list byte) :=
  store offset (littleEndian 1 v).

Definition setUint16 (offset : nat) (v : Z) : list byte -> option (list byte) :=
  store offset (littleEndian 2 v).

Definition setUint32 (offset : nat) (v : Z) : list byte -> option (list byte) :=
  store offset (littleEndian 4 v).

(** The integer part of a number, the fraction dropped. *)
Definition truncate (q : Q) : Z :=
  if Qle_bool 0 q then Qfloor q else Qceiling q.

(** [view.setInt16(offset, x, true)]: NaN and the infinities count as 0. *)
Definition setInt16 (offset : nat) (x : Num) : list byte -> option (list byte) :=
  store offset (littleEndian 2 (match x with Finite q => truncate q | _ => 0 end)).

Definition charCodeAt (c : ascii) : Z := Z.of_nat (nat_of_ascii c).

(** [for (let i = 0; i < s.length; i++) view.setUint8(offset + i, s.charCodeAt(i))] *)
Fixpoint writeString (offset : nat) (s : string) (view : list byte)
  : option (list byte) :=
  match s with
  | EmptyString => Some view
  | String c rest =>
      view' ← setUint8 offset (charCodeAt c) view;
      writeString (S offset) rest view'
  end.

(** A counting [for] loop whose body may throw. *)
Fixpoint forEach {S : Type} (body : nat -> S -> option S) (indices : list nat) (s : S)
  : option S :=
  match indices with
  | [] => Some s
  | i :: rest => s' ← body i s; forEach body rest s'
  end.

(** The body of the inner loop; the state is [offset] and the buffer.
    [getChannelData] throws for a channel the buffer does not have, and a
    frame past the end reads as [undefined]. *)
Definition writeSample (buffer : AudioBuffer) (i ch : nat) (st : nat * list byte)
  : option (nat * list byte) :=
  samples ← channelData buffer !! ch;
  let sample :=
    Math_max (Finite (-1)) (Math_min (Finite 1) (default NaN (samples !! i))) in
  view ← setInt16 st.1 (num_mul sample (Finite 32767)) st.2;
  Some (st.1 + 2, view)%nat.

(** The part under the comment [// WAV header]. *)
Definition writeHeader (numChannels sampleRate length : Z) (view : list byte)
  : option (list byte) :=
  view ← writeString 0 "RIFF" view;
  view ← setUint32 4 (36 + length * numChannels * 2) view;
  view ← writeString 8 "WAVE" view;
  view ← writeString 12 "fmt " view;
  view ← setUint32 16 16 view;
  view ← setUint16 20 1 view;
  view ← setUint16 22 numChannels view;
  view ← setUint32 24 sampleRate view;
  view ← setUint32 28 (sampleRate * numChannels * 2) view;
  view ← setUint16 32 (numChannels * 2) view;
  view ← setUint16 34 16 view;
  view ← writeString 36 "data" view;
  setUint32 40 (length * numChannels * 2) view.

(** The part under the comment [// Audio data]: the two nested loops,
    started with [offset = 44]. *)
Definition writeSamples (buffer : AudioBuffer) (view : list byte)
  : option (list byte) :=
  st ← forEach (fun i =>
                  forEach (fun ch => writeSample buffer i ch)
                          (seq 0 (numberOfChannels buffer)))
               (seq 0 (frames buffer)) (44%nat, view);
  Some st.2.

(** From [const numChannels = buffer.numberOfChannels] to the filled
    [arrayBuffer]. *)
Definition wavFile (buffer : AudioBuffer) : option (list byte) :=
  let numChannels := Z.of_nat (numberOfChannels buffer) in
  let sampleRate := sampleRate buffer in
  let length := Z.of_nat (frames buffer) in
  let view := replicate (Z.to_nat (44 + length * numChannels * 2)) Byte.x00 in
  view ← writeHeader numChannels sampleRate length view;
  writeSamples buffer view.

(** [generateAudioForDownload]: [voice] is what [generateTeacherVoice]
    settled with, the state [teacherAudioUrl] is identified with the bytes
    of the blob its URL stands for; whatever is thrown is caught and
    logged. *)
Definition generateAudioForDownload (voice : result AudioBuffer JsError)
    (teacherAudioUrl : option (list byte)) : option (list byte) :=
  match voice with
  | Ok buffer =>
      match wavFile buffer with
      | Some bytes => Some bytes
      | None => teacherAudioUrl
      end
  | Throw _ => teacherAudioUrl
  end.

End Wav.

(** ** The application component

    The state of [App] and the handlers that move it.  The state updates a
    handler makes between two [await]s take effect together; an [async]
    handler is therefore read as the step it makes when it is called and
    the step it makes when what it awaits has settled, and other handlers
    may run in between.  References to audio nodes, recorders and timers
    are left out, and so are the handlers that only touch those. *)

(** What an awaited promise settles with. *)
Definition Awaited (T : Type) : Type := result T JsError.

(** A string in a template literal. *)
Definition interpolate (v : option string) : string :=
  default "undefined"%string v.

(** [s.split(sep)] for a separator of one character: the pieces between
    the separators, empty ones included. *)
Fixpoint split (sep : ascii) (s : string) : list string :=
  match s with
  | EmptyString => [EmptyString]
  | String c rest =>
      if Ascii.eqb c sep then EmptyString :: split sep rest
      else match split sep rest with
           | piece :: pieces => String c piece :: pieces
           | [] => [String c EmptyString]
           end
  end.

(** [s.replace(/[...]/g, '')]: the characters of the class are dropped. *)
Fixpoint dropChars (class : list ascii) (s : string) : string :=
  match s with
  | EmptyString => EmptyString
  | String c rest =>
      if bool_decide (c ∈ class) then dropChars class rest
      else String c (dropChars class rest)
  end.

(** [s.padStart(targetLength, pad)] for a pad of one character. *)
Definition padStart (targetLength : nat) (pad : ascii) (s : string) : string :=
  (string_of_list_ascii (replicate (targetLength - String.length s) pad) +:+ s)%string.

Module App.

Inductive AppStatus : Type :=
| IDLE | GENERATING | READY | RECORDING | REVIEWING | EVALUATING | RESULT | ERROR.

Record Theme : Type := {
  id : string;
  label : string;
  icon : string;
  description : string
}.

(** The fields are those the response schema of the script request makes
    obligatory for an item. *)
Record VocabularyItem : Type := {
  word : string;
  translation : string;
  ipa : string;
  emoji : string          (* [icon] *)
}.

(** What [generatePresentationScript] resolves with, as the response
    schema types it; no property of the object is obligatory. *)
Record ScriptData : Type := {
  intro : option string;
  points : option (list string);
  conclusion : option string;
  lessonVocab : option (list VocabularyItem)
}.

(** [{ imageUri: img, ...scriptData, script: fullScript, level }] *)
Record PresentationData : Type := {
  imageUri : string;
  scriptData : ScriptData;
  script : string;
  presentedLevel : CEFRLevel       (* [level] *)
}.

Record Blob : Type := {
  size : Z;
  type : string
}.

(** The state variables of the component, the [localStorage] of the page
    and the alerts shown so far.  The variables that only the playback of
    audio, the downloads and the certificate use ([childName],
    [isAudioLoading], [audioState], [playbackSpeed], [showCertificate],
    [isReplayingRecorded]) are left out: no handler below reads them. *)
Record State : Type := {
  selectedTheme : option Theme;
  customTheme : string;
  status : AppStatus;
  errorMessage : option string;
  presentation : option PresentationData;
  level : CEFRLevel;
  result : option (gmap string JsVal);
  showSettings : bool;
  apiKey : string;
  recordedBlob : option Blob;
  recordedUrl : option Blob;
  recordingTime : nat;
  teacherAudioUrl : option (list byte);
  localStorage : gmap string string;
  alerts : list string
}.

Definition setSelectedTheme (v : option Theme) (s : State) : State :=
  {| selectedTheme := v;
     customTheme := customTheme s;
     status := status s;
     errorMessage := errorMessage s;
     presentation := presentation s;
     level := level s;
     result := result s;
     showSettings := showSettings s;
     apiKey := apiKey s;
     recordedBlob := recordedBlob s;
     recordedUrl := recordedUrl s;
     recordingTime := recordingTime s;
     teacherAudioUrl := teacherAudioUrl s;
     localStorage := localStorage s;
     alerts := alerts s |}.

Definition setCustomTheme (v : string) (s : State) : State :=
  {| selectedTheme := selectedTheme s;
     customTheme := v;
     status := status s;
     errorMessage := errorMessage s;
     presentation := presentation s;
     level := level s;
     result := result s;
     showSettings := showSettings s;
     apiKey := apiKey s;
     recordedBlob := recordedBlob s;
     recordedUrl := recordedUrl s;
     recordingTime := recordingTime s;
     teacherAudioUrl := teacherAudioUrl s;
     localStorage := localStorage s;
     alerts := alerts s |}.

Definition setStatus (v : AppStatus) (s : State) : State :=
  {| selectedTheme := selectedTheme s;
     customTheme := customTheme s;
     status := v;
     errorMessage := errorMessage s;
     presentation := presentation s;
     level := level s;
     result := result s;
     showSettings := showSettings s;
     apiKey := apiKey s;
     recordedBlob := recordedBlob s;
     recordedUrl := recordedUrl s;
     recordingTime := recordingTime s;
     teacherAudioUrl := teacherAudioUrl s;
     localStorage := localStorage s;
     alerts := alerts s |}.

Definition setErrorMessage (v : option string) (s : State) : State :=
  {| selectedTheme := selectedTheme s;
     customTheme := customTheme s;
     status := status s;
     errorMessage := v;
     presentation := presentation s;
     level := level s;
     result := result s;
     showSettings := showSettings s;
     apiKey := apiKey s;
     recordedBlob := recordedBlob s;
     recordedUrl := recordedUrl s;
     recordingTime := recordingTime s;
     teacherAudioUrl := teacherAudioUrl s;
     localStorage := localStorage s;
     alerts := alerts s |}.

Definition setPresentation (v : option PresentationData) (s : State) : State :=
  {| selectedTheme := selectedTheme s;
     customTheme := customTheme s;
     status := status s;
     errorMessage := errorMessage s;
     presentation := v;
     level := level s;
     result := result s;
     showSettings := showSettings s;
     apiKey := apiKey s;
     recordedBlob := recordedBlob s;
     recordedUrl := recordedUrl s;
     recordingTime := recordingTime s;
     teacherAudioUrl := teacherAudioUrl s;
     localStorage := localStorage s;
     alerts := alerts s |}.

Definition setLevel (v : CEFRLevel) (s : State) : State :=
  {| selectedTheme := selectedTheme s;
     customTheme := customTheme s;
     status := status s;
     errorMessage := errorMessage s;
     presentation := presentation s;
     level := v;
     result := result s;
     showSettings := showSettings s;
     apiKey := apiKey s;
     recordedBlob := recordedBlob s;
     recordedUrl := recordedUrl s;
     recordingTime := recordingTime s;
     teacherAudioUrl := teacherAudioUrl s;
     localStorage := localStorage s;
     alerts := alerts s |}.

Definition setResult (v : option (gmap string JsVal)) (s : State) : State :=
  {| selectedTheme := selectedTheme s;
     customTheme := customTheme s;
     status := status s;
     errorMessage := errorMessage s;
     presentation := presentation s;
     level := level s;
     result := v;
     showSettings := showSettings s;
     apiKey := apiKey s;
     recordedBlob := recordedBlob s;
     recordedUrl := recordedUrl s;
     recordingTime := recordingTime s;
     teacherAudioUrl := teacherAudioUrl s;
     localStorage := localStorage s;
     alerts := alerts s |}.

Definition setShowSettings (v : bool) (s : State) : State :=
  {| selectedTheme := selectedTheme s;
     customTheme := customTheme s;
     status := status s;
     errorMessage := errorMessage s;
     presentation := presentation s;
     level := level s;
     result := result s;
     showSettings := v;
     apiKey := apiKey s;
     recordedBlob := recordedBlob s;
     recordedUrl := recordedUrl s;
     recordingTime := recordingTime s;
     teacherAudioUrl := teacherAudioUrl s;
     localStorage := localStorage s;
     alerts := alerts s |}.

Definition setApiKey (v : string) (s : State) : State :=
  {| selectedTheme := selectedTheme s;
     customTheme := customTheme s;
     status := status s;
     errorMessage := errorMessage s;
     presentation := presentation s;
     level := level s;
     result := result s;
     showSettings := showSettings s;
     apiKey := v;
     recordedBlob := recordedBlob s;
     recordedUrl := recordedUrl s;
     recordingTime := recordingTime s;
     teacherAudioUrl := teacherAudioUrl s;
     localStorage := localStorage s;
     alerts := alerts s |}.

Definition setRecordedBlob (v : option Blob) (s : State) : State :=
  {| selectedTheme := selectedTheme s;
     customTheme := customTheme s;
     status := status s;
     errorMessage := errorMessage s;
     presentation := presentation s;
     level := level s;
     result := result s;
     showSettings := showSettings s;
     apiKey := apiKey s;
     recordedBlob := v;
     recordedUrl := recordedUrl s;
     recordingTime := recordingTime s;
     teacherAudioUrl := teacherAudioUrl s;
     localStorage := localStorage s;
     alerts := alerts s |}.

Definition setRecordedUrl (v : option Blob) (s : State) : State :=
  {| selectedTheme := selectedTheme s;
     customTheme := customTheme s;
     status := status s;
     errorMessage := errorMessage s;
     presentation := presentation s;
     level := level s;
     result := result s;
     showSettings := showSettings s;
     apiKey := apiKey s;
     recordedBlob := recordedBlob s;
     recordedUrl := v;
     recordingTime := recordingTime s;
     teacherAudioUrl := teacherAudioUrl s;
     localStorage := localStorage s;
     alerts := alerts s |}.

Definition setRecordingTime (v : nat) (s : State) : State :=
  {| selectedTheme := selectedTheme s;
     customTheme := customTheme s;
     status := status s;
     errorMessage := errorMessage s;
     presentation := presentation s;
     level := level s;
     result := result s;
     showSettings := showSettings s;
     apiKey := apiKey s;
     recordedBlob := recordedBlob s;
     recordedUrl := recordedUrl s;
     recordingTime := v;
     teacherAudioUrl := teacherAudioUrl s;
     localStorage := localStorage s;
     alerts := alerts s |}.

Definition setTeacherAudioUrl (v : option (list byte)) (s : State) : State :=
  {| selectedTheme := selectedTheme s;
     customTheme := customTheme s;
     status := status s;
     errorMessage := errorMessage s;
     presentation := presentation s;
     level := level s;
     result := result s;
     showSettings := showSettings s;
     apiKey := apiKey s;
     recordedBlob := recordedBlob s;
     recordedUrl := recordedUrl s;
     recordingTime := recordingTime s;
     teacherAudioUrl := v;
     localStorage := localStorage s;
     alerts := alerts s |}.

(** [localStorage.setItem(key, value)] *)
Definition setItem (key value : string) (s : State) : State :=
  {| selectedTheme := selectedTheme s;
     customTheme := customTheme s;
     status := status s;
     errorMessage := errorMessage s;
     presentation := presentation s;
     level := level s;
     result := result s;
     showSettings := showSettings s;
     apiKey := apiKey s;
     recordedBlob := recordedBlob s;
     recordedUrl := recordedUrl s;
     recordingTime := recordingTime s;
     teacherAudioUrl := teacherAudioUrl s;
     localStorage := <[key := value]> (localStorage s);
     alerts := alerts s |}.

(** [alert(text)] *)
Definition alert (text : string) (s : State) : State :=
  {| selectedTheme := selectedTheme s;
     customTheme := customTheme s;
     status := status s;
     errorMessage := errorMessage s;
     presentation := presentation s;
     level := level s;
     result := result s;
     showSettings := showSettings s;
     apiKey := apiKey s;
     recordedBlob := recordedBlob s;
     recordedUrl := recordedUrl s;
     recordingTime := recordingTime s;
     teacherAudioUrl := teacherAudioUrl s;
     localStorage := localStorage s;
     alerts := alerts s ++ [text] |}.

(** The state after the [useState] initialisers. *)
Definition initial (storage : gmap string string) : State :=
  {| selectedTheme := None;
     customTheme := "";
     status := IDLE;
     errorMessage := None;
     presentation := None;
     level := Starters;
     result := None;
     showSettings := false;
     apiKey := "";
     recordedBlob := None;
     recordedUrl := None;
     recordingTime := 0;
     teacherAudioUrl := None;
     localStorage := storage;
     alerts := [] |}.

(** What [getApiKey] reads when the page holds the state [s]. *)
Definition keySources (s : State) (API_KEY GEMINI_API_KEY : option string) : KeySources :=
  {| stored_speakpro_api_key := localStorage s !! "speakpro_api_key"%string;
     env_API_KEY := API_KEY;
     env_GEMINI_API_KEY := GEMINI_API_KEY |}.

(** The effect run on mount: the stored key fills the input, and the
    settings open by themselves (after half a second) when neither the
    store nor [process.env.API_KEY] holds anything. *)
Definition opensSettings (s : State) (API_KEY : option string) : bool :=
  negb (truthyStr (orStr (localStorage s !! "speakpro_api_key"%string) API_KEY)).

Definition onMount (s : State) : State :=
  let savedApiKey := localStorage s !! "speakpro_api_key"%string in
  if truthyStr savedApiKey then setApiKey (default ""%string savedApiKey) s else s.

(** [customTheme || selectedTheme?.label] *)
Definition themeText (s : State) : option string :=
  orStr (Some (customTheme s)) (label <$> selectedTheme s).

(** [handleGenerate] up to its first [await]: the theme the requests are
    made for, if any, and the state. *)
Definition handleGenerate (s : State) : option string * State :=
  if truthyStr (themeText s)
  then (themeText s, setErrorMessage None (setStatus GENERATING s))
  else (None, s).

Definition joinWith (sep : string) (items : list string) : string :=
  match items with
  | [] => ""
  | first :: rest => fold_left (fun acc item => acc +:+ sep +:+ item) rest first
  end.

(** The TypeError of [scriptData.points.join] on a response without
    [points]. *)
Definition noPointsError : JsError :=
  newError "Cannot read properties of undefined (reading 'join')".

(** [handleGenerate] from the moment the two requests have settled;
    [requestLevel] is the [level] of the render the handler was made in.
    The export of the voice that is started at the end settles in a step
    of its own, [voiceExported]. *)
Definition generated (requestLevel : CEFRLevel)
    (answer : Awaited (string * ScriptData)) (s : State) : State :=
  let failed (err : JsError) :=
    let errorMsg :=
      default ""%string (orStr (message err) (Some "Oops! Có lỗi rồi bé ơi."%string)) in
    setStatus ERROR (setErrorMessage (Some errorMsg) s) in
  match answer with
  | Ok (img, data) =>
      match points data with
      | Some items =>
          let fullScript :=
            (interpolate (intro data) +:+ " " +:+ joinWith " " items +:+ " "
             +:+ interpolate (conclusion data))%string in
          setStatus READY
            (setPresentation
               (Some {| imageUri := img;
                        scriptData := data;
                        script := fullScript;
                        presentedLevel := requestLevel |}) s)
      | None => failed noPointsError
      end
  | Throw err => failed err
  end.

(** [generateAudioForDownload] has settled. *)
Definition voiceExported (voice : Awaited Audio.AudioBuffer) (s : State) : State :=
  setTeacherAudioUrl (Wav.generateAudioForDownload voice (teacherAudioUrl s)) s.

(** [startRecording] up to its [await]. *)
Definition startRecording (s : State) : State :=
  setRecordingTime 0 (setRecordedUrl None (setRecordedBlob None s)).

(** [startRecording] once [getUserMedia] has settled: [granted] says that
    the [try] block ran to its end, otherwise the catch block has run. *)
Definition microphone (granted : bool) (s : State) : State :=
  if granted then setStatus RECORDING s
  else setStatus READY (alert "Bé ơi, hãy cho phép dùng Microphone nhé!" s).

(** The timer of the recording. *)
Definition tick (s : State) : State := setRecordingTime (recordingTime s + 1) s.

(** [mediaRecorder.onstop]; [recorded] is the blob made of the chunks, if
    there are any. *)
Definition onstop (recorded : option Blob) (s : State) : State :=
  match recorded with
  | None => setStatus READY (alert "Không có dữ liệu âm thanh. Bé hãy thử lại nhé!" s)
  | Some blob => setRecordedUrl (Some blob) (setRecordedBlob (Some blob) s)
  end.

Definition stopRecording (s : State) : State := setStatus REVIEWING s.

(** [handleSubmitEvaluation] up to its first [await]: whether the
    evaluation is requested, and the state. *)
Definition handleSubmitEvaluation (s : State) : bool * State :=
  match recordedBlob s with
  | Some blob =>
      if size blob <? 1000
      then (false, alert "Bản ghi âm quá ngắn hoặc trống. Bé hãy thử nói lại nhé!" s)
      else (true, setStatus EVALUATING s)
  | None => (false, alert "Bản ghi âm quá ngắn hoặc trống. Bé hãy thử nói lại nhé!" s)
  end.

Definition evaluationFailed : string :=
  "❌ Lỗi khi chấm bài

".

(** [handleSubmitEvaluation] from the moment the body of its [try] block
    has settled. *)
Definition evaluated (answer : Awaited (gmap string JsVal)) (s : State) : State :=
  match answer with
  | Ok evalRes => setStatus RESULT (setResult (Some evalRes) s)
  | Throw err =>
      let detail :=
        default ""%string
          (orStr (message err)
                 (Some "Vui lòng thử ghi âm lại hoặc kiểm tra API Key."%string)) in
      setStatus ERROR (setErrorMessage (Some (evaluationFailed +:+ detail)%string) s)
  end.

Definition reset (s : State) : State :=
  setTeacherAudioUrl None
    (setRecordedUrl None
       (setRecordedBlob None
          (setStatus IDLE (setResult None (setPresentation None (setSelectedTheme None s)))))).

Definition saveSettings (s : State) : State :=
  if negb (nonEmpty (trim (apiKey s))) then alert "Vui lòng nhập API Key!" s
  else
    let s1 := setItem "speakpro_api_key" (trim (apiKey s)) s in
    let s2 :=
      if truthyStr (errorMessage s) then
        let s' := setErrorMessage None s1 in
        match status s with
        | ERROR =>
            match presentation s with
            | Some _ => setStatus READY s'
            | None => setStatus IDLE s'
            end
        | _ => s'
        end
      else s1 in
    alert "✅ Đã lưu cài đặt thành công! Bạn có thể thử lại ngay." (setShowSettings false s2).

(** The button of the error panel that tries again. *)
Definition retry (s : State) : State := setStatus READY (setErrorMessage None s).

(** The button of the result panel that tries again. *)
Definition tryAgain (s : State) : State := setStatus READY s.

(** A theme card is clicked. *)
Definition selectTheme (theme : Theme) (s : State) : State :=
  setCustomTheme "" (setSelectedTheme (Some theme) s).

(** [seconds] is the counter of the recording, a whole number. *)
Definition formatTime (seconds : nat) : string :=
  let mins := (seconds / 60)%nat in
  let secs := (seconds mod 60)%nat in
  (pretty mins +:+ ":" +:+ padStart 2 "0" (pretty secs))%string.

(** A [<span>] of the script: its class and its text. *)
Record Span : Type := {
  className : string;
  children : string
}.

Definition newWordClass : string :=
  "text-orange-600 font-black border-b-2 border-orange-200".

(** The class of the regular expression: the full stop, the comma, the
    exclamation and the question mark, the semicolon, the colon and the
    quotation mark. *)
Definition punctuation : list ascii :=
  ["."; ","; "!"; "?"; ";"; ":"; ascii_of_nat 34]%char.

Definition cleanWord (word : string) : string :=
  dropChars punctuation (toLowerCase word).

(** [null] without a presentation; the TypeError of [lessonVocab.map] on
    a presentation whose response had no [lessonVocab]. *)
Definition renderEnhancedScript (s : State) (text sectionColor : string)
  : option (Awaited (list Span)) :=
  match presentation s with
  | None => None
  | Some p =>
      let words := split " " text in
      match lessonVocab (scriptData p) with
      | None =>
          Some (Throw (newError "Cannot read properties of undefined (reading 'map')"))
      | Some vocab =>
          let vocabWords := (fun v => toLowerCase (word v)) <$> vocab in
          Some (Ok ((fun word =>
                       let isNewWord := bool_decide (cleanWord word ∈ vocabWords) in
                       {| className := if isNewWord then newWordClass else sectionColor;
                          children := (word +:+ " ")%string |}) <$> words))
      end
  end.

(** What can happen to the component. *)
Inductive Event : Type :=
| Mounted
| ThemeSelected (theme : Theme)
| ThemeTyped (text : string)
| LevelChosen (l : CEFRLevel)
| KeyTyped (text : string)
| SettingsShown (open : bool)
| SettingsSaved
| GenerateClicked
| Generated (requestLevel : CEFRLevel) (answer : Awaited (string * ScriptData))
| VoiceExported (voice : Awaited Audio.AudioBuffer)
| RecordClicked
| Microphone (granted : bool)
| Tick
| RecorderStopped (recorded : option Blob)
| StopClicked
| SubmitClicked
| Evaluated (answer : Awaited (gmap string JsVal))
| RetryClicked
| TryAgainClicked
| ResetClicked.

Definition step (s : State) (e : Event) : State :=
  match e with
  | Mounted => onMount s
  | ThemeSelected theme => selectTheme theme s
  | ThemeTyped text => setCustomTheme text s
  | LevelChosen l => setLevel l s
  | KeyTyped text => setApiKey text s
  | SettingsShown open => setShowSettings open s
  | SettingsSaved => saveSettings s
  | GenerateClicked => (handleGenerate s).2
  | Generated requestLevel answer => generated requestLevel answer s
  | VoiceExported voice => voiceExported voice s
  | RecordClicked => startRecording s
  | Microphone granted => microphone granted s
  | Tick => tick s
  | RecorderStopped recorded => onstop recorded s
  | StopClicked => stopRecording s
  | SubmitClicked => (handleSubmitEvaluation s).2
  | Evaluated answer => evaluated answer s
  | RetryClicked => retry s
  | TryAgainClicked => tryAgain s
  | ResetClicked => reset s
  end.

Definition run (s : State) (events : list Event) : State := foldl step s events.

End App.

(** What the caller of an orchestrator gets: the value, or the thrown
    error. *)
Definition settled {T} (o : Outcome T) : result T JsError :=
  match o with
  | Success v => Ok v
  | RawError err => Throw err
  | Exhausted msg => Throw (newError msg)
  end.

(** ** The requests for the illustration and the script

    [generateIllustration] and [generatePresentationScript] are the same in
    both service files but for the orchestrator they run under.  The remote
    call is given what the request holds. *)

Module Generation.

Definition quotationMark : string := String (ascii_of_nat 34) EmptyString.

(** A part of the first candidate of a response: its [inlineData], if it
    has one, and the [data] of that. *)
Record ResponsePart : Type := {
  inlineData : option (option string)
}.

Definition noIllustration : string :=
  "❌ Không thể tạo ảnh minh họa.

Vui lòng thử lại hoặc chọn chủ đề khác.".

(** The loop over the parts. *)
Fixpoint firstImage (parts : list ResponsePart) : result string JsError :=
  match parts with
  | [] => Throw (newError noIllustration)
  | part :: rest =>
      match inlineData part with
      | Some data => Ok ("data:image/png;base64," +:+ interpolate data)%string
      | None => firstImage rest
      end
  end.

Definition illustrationPrompt (theme : string) : string :=
  ("A vibrant, very colorful, high-quality 3D Pixar style illustration for children: "
   +:+ theme +:+ ". Bright saturated colors, happy characters, 16:9 ratio.")%string.

(** The unit of work of [generateIllustration]; the remote call answers
    with [response.candidates?.[0]?.content?.parts || []]. *)
Definition illustrationWork (resolveKey : result string string)
    (remote : string -> Work (list ResponsePart)) (theme : string) : Work string :=
  fun model k =>
    match resolveKey with
    | Throw msg => {| outcome := Throw (newError msg); took := 0 |}
    | Ok _ =>
        let r := remote (illustrationPrompt theme) model k in
        {| outcome :=
             match outcome r with
             | Ok parts => firstImage parts
             | Throw err => Throw err
             end;
           took := took r |}
    end.

Definition levelConstraints (level : CEFRLevel) : option string :=
  match level with
  | Starters =>
      Some ("Strictly 20 words. Grammar: Extremely simple nouns/verbs. Example: "
            +:+ quotationMark +:+ "I see a cat. It is red." +:+ quotationMark)%string
  | Movers => Some "Strictly 50 words. Grammar: Simple present, clear sentences."%string
  | Flyers => Some "Strictly 80 words. Grammar: Present continuous, basic conjunctions."%string
  | A1 => Some "100-120 words. Grammar: Basic daily routine, simple compound sentences."%string
  | A2 => Some "150-180 words. Grammar: Past simple, linking words (because, so)."%string
  | B1 => Some "200-250 words. Grammar: Relative clauses, expressing opinions."%string
  | B2 => Some "250-300 words. Grammar: Passive voice, conditionals."%string
  | C1 | C2 => None
  end.

(** A part of the request for the script. *)
Inductive RequestPart : Type :=
| InlineData (mimeType : string) (data : option string)
| Text (text : string).

Definition answerFormat : string :=
  ("               Return JSON with " +:+ quotationMark +:+ "intro" +:+ quotationMark +:+ ", " +:+ quotationMark +:+ "points" +:+ quotationMark +:+ " (array), " +:+ quotationMark +:+ "conclusion" +:+ quotationMark +:+ ", and " +:+ quotationMark +:+ "lessonVocab" +:+ quotationMark +:+ " (array of {word, ipa, translation, icon}).
               MANDATORY: " +:+ quotationMark +:+ "translation" +:+ quotationMark +:+ " MUST BE IN VIETNAMESE. " +:+ quotationMark +:+ "icon" +:+ quotationMark +:+ " is a single emoji.")%string.

Definition scriptParts (imageUri theme : string) (level : CEFRLevel) : list RequestPart :=
  if nonEmpty imageUri && (0 <? Z.of_nat (String.length imageUri))
  then
    [InlineData "image/png" (split "," imageUri !! 1%nat);
     Text ("Create an English presentation script for a child at " +:+ levelName level +:+ " level about this image. 
               Theme: " +:+ quotationMark +:+ theme +:+ quotationMark +:+ ".
               CONSTRAINTS: " +:+ interpolate (levelConstraints level) +:+ ".
" +:+ answerFormat)%string]
  else
    [Text ("Create an English presentation script for a child at " +:+ levelName level +:+ " level about " +:+ quotationMark +:+ theme +:+ quotationMark +:+ ". 
               CONSTRAINTS: " +:+ interpolate (levelConstraints level) +:+ ".
" +:+ answerFormat)%string].

(** The unit of work of [generatePresentationScript]; the remote call
    answers with the parsed [response.text || '{}']. *)
Definition scriptWork (resolveKey : result string string)
    (remote : list RequestPart -> Work JsVal) (imageUri theme : string)
    (level : CEFRLevel) : Work JsVal :=
  fun model k =>
    match resolveKey with
    | Throw msg => {| outcome := Throw (newError msg); took := 0 |}
    | Ok _ => remote (scriptParts imageUri theme level) model k
    end.

End Generation.

Module RateLimitedGeneration.

Definition generateIllustration (src : KeySources)
    (remote : string -> Work (list Generation.ResponsePart)) (theme : string)
  : M (Outcome string) :=
  RateLimited.callWithModelFallback
    (Generation.illustrationWork (RateLimited.getApiKey src) remote theme)
    RateLimited.image RateLimited.defaultMaxRetries.

Definition generatePresentationScript (src : KeySources)
    (remote : list Generation.RequestPart -> Work JsVal) (imageUri theme : string)
    (level : CEFRLevel) : M (Outcome JsVal) :=
  RateLimited.callWithModelFallback
    (Generation.scriptWork (RateLimited.getApiKey src) remote imageUri theme level)
    RateLimited.text RateLimited.defaultMaxRetries.

End RateLimitedGeneration.

Module BasicGeneration.

Definition generateIllustration (src : KeySources)
    (remote : string -> Work (list Generation.ResponsePart)) (theme : string)
  : M (Outcome string) :=
  Basic.callWithModelFallback
    (Generation.illustrationWork (Basic.getApiKey src) remote theme)
    Basic.image Basic.defaultMaxRetries.

Definition generatePresentationScript (src : KeySources)
    (remote : list Generation.RequestPart -> Work JsVal) (imageUri theme : string)
    (level : CEFRLevel) : M (Outcome JsVal) :=
  Basic.callWithModelFallback
    (Generation.scriptWork (Basic.getApiKey src) remote imageUri theme level)
    Basic.text Basic.defaultMaxRetries.

End BasicGeneration.

(** * The vocabulary of the properties *)

(** The trimmed value a source offers; an absent source offers nothing. *)
Definition trimmed (k : option string) : string :=
  match k with Some s => trim s | None => EmptyString end.

(** [s] is made of the characters of [chars]. *)
Inductive MadeOf (chars : list string) : string -> Prop :=
| MadeOf_nil : MadeOf chars EmptyString
| MadeOf_cons (p s : string) : p ∈ chars -> MadeOf chars s -> MadeOf chars (p +:+ s).

(** [s] is white space from end to end; the empty string is. *)
Definition Blank (s : string) : Prop := MadeOf whiteSpace s.

(** [s] begins with white space. *)
Definition BeginsWhite (s : string) : Prop :=
  exists p rest, p ∈ whiteSpace /\ s = (p +:+ rest)%string.

(** [s] ends with white space. *)
Definition EndsWhite (s : string) : Prop :=
  exists p front, p ∈ whiteSpace /\ s = (front +:+ p)%string.

(** [t] is [s] without the white space at its two ends. *)
Definition Trimmed (s t : string) : Prop :=
  exists before after,
    s = (before +:+ t +:+ after)%string /\
    Blank before /\ Blank after /\ ~ BeginsWhite t /\ ~ EndsWhite t.

(** No character of [chars] begins with another one. *)
Definition prefixFree (chars : list string) : bool :=
  forallb (fun p => forallb (fun q =>
    match stripPrefix p q with
    | Some _ => String.eqb p q
    | None => true
    end) chars) chars.

(** The ends of [s] that are not empty. *)
Fixpoint tails (s : string) : list string :=
  match s with
  | EmptyString => []
  | String _ rest => s :: tails rest
  end.

Definition firstByte (s : string) : option ascii :=
  match s with EmptyString => None | String c _ => Some c end.

(** No character of [chars] begins with a byte that another one holds
    after its first. *)
Definition selfSynchronizing (chars : list string) : bool :=
  forallb (fun p =>
    match p with
    | EmptyString => true
    | String _ rest =>
        forallb (fun a =>
          forallb (fun q =>
            match firstByte a, firstByte q with
            | Some x, Some y => negb (Ascii.eqb x y)
            | _, _ => true
            end) chars) (tails rest)
    end) chars.

(** No character of [chars] is the empty string. *)
Definition AllNonEmpty (chars : list string) : Prop := Forall (fun p => p <> EmptyString) chars.

(** [t] is what the source [k] offers: its value without the white space at
    its two ends, and the empty string when the source is absent. *)
Definition Offers (k : option string) (t : string) : Prop :=
  match k with
  | Some s => Trimmed s t
  | None => t = EmptyString
  end.

(** The source [k] is absent, empty or white space from end to end. *)
Definition NothingIn (k : option string) : Prop :=
  match k with
  | Some s => Blank s
  | None => True
  end.

(** The events that are suspensions inside [waitForRateLimit]. *)
Definition isRateWait (e : Event) : bool :=
  match e with EvRateWait _ => true | _ => false end.

(** A trace without the suspensions of the rate governor. *)
Definition visible (t : list Event) : list Event :=
  List.filter (fun e => negb (isRateWait e)) t.

(** The models the unit of work was invoked against, in order. *)
Fixpoint calls (t : list Event) : list string :=
  match t with
  | [] => []
  | EvAttempt m :: rest => m :: calls rest
  | _ :: rest => calls rest
  end.

(** How the last invocation recorded in a trace settled. *)
Definition lastOutcome {T} (fn : Work T) (t : list Event) : option (result T JsError) :=
  match last (calls t) with
  | Some m => Some (outcome (fn m (length (calls t) - 1)%nat))
  | None => None
  end.

(** Every invocation of the unit of work throws. *)
Definition AllFail {T} (fn : Work T) : Prop :=
  forall model k, exists err, outcome (fn model k) = Throw err.

(** [w'] continues [w]: its trace is the trace of [w] followed by [d]. *)
Definition continues (w w' : World) (d : list Event) : Prop :=
  trace w' = trace w ++ d.

(** The part of a trace that a run added to the trace [before]. *)
Definition added {A} (before after : list A) : list A :=
  drop (length before) after.

(** The failure kinds, in the order in which the catch block tests them. *)
Inductive FailureKind : Type :=
| NotFound | RateLimit | TransientServer | OtherFailure.

(** The kind of a caught error: the first test of the catch block that it
    passes. *)
Definition failureKind (err : JsError) : FailureKind :=
  if RateLimited.isNotFound err then NotFound
  else if RateLimited.isRateLimit err then RateLimit
  else if RateLimited.isServerError err then TransientServer
  else OtherFailure.

(** The relative error of one rounding, [2 ^ -53], and the absolute error
    of one among the subnormal numbers, [2 ^ -1075]. *)
Definition eps : Q := 1 # 9007199254740992.

Definition tiny : Q := (2 ^ (-1075))%Q.

(** The multiple of [ulp q] nearest to [q]. *)
Definition nearest (q : Q) : Q := (inject_Z (roundHalfEven (q / ulp q)) * ulp q)%Q.

(** The grid of a number: the exponent of its unit in the last place. *)
Definition grid (q : Q) : Z := Z.max (binade q - 52) (-1074).

(** The value of a number of the machine. *)
Definition machine (f : PrimFloat.float) : Num :=
  match FloatOps.Prim2SF f with
  | SpecFloat.S754_zero _ => Finite 0
  | SpecFloat.S754_infinity s => Infinity s
  | SpecFloat.S754_nan => NaN
  | SpecFloat.S754_finite s m e =>
      Finite (Qred ((if s then - (1) else 1) * inject_Z (Zpos m) * 2 ^ e))
  end.

(** [n] tenths as a number of JavaScript: the one nearest to [n / 10]. *)
Definition tenths (n : Z) : Num := binary64 (inject_Z n / 10).

(** The decimal that [n] tenths stand for. *)
Definition decimal (n : Z) : Q := inject_Z n / 10.

(** The tenths that [normalize] returns for a product [t]. *)
Definition clamped (t : Q) : Z := Z.max 0 (Z.min 100 (Qfloor (t + (1 # 2)))).

(** [num * 10] as the machine computes it, with a number of the same side
    standing for an infinite product. *)
Definition product (x : Q) : Q :=
  match binary64 (x * 10) with
  | Finite t => t
  | Infinity true => -1
  | Infinity false => 1000
  | NaN => 0
  end.

(** [n] tenths are [p] clamped to [0, 10] and rounded to a nearest tenth,
    to within what the rounding of [p * 10] can add. *)
Definition Rounded (p : Q) (n : Z) : Prop :=
  ((p < 0 -> n = 0%Z) /\
   (10 < p -> n = 100%Z) /\
   (0 <= p <= 10 -> Qabs (decimal n - p) <= (1 # 20) + (1 # 2 ^ 48)))%Q.

(** [n] tenths are the normalized form of a rubric field supplied as
    [input]: between 0 and 100 of them, none for a missing or not-a-number
    field, and the clamped and rounded value otherwise. *)
Definition Normalized (input : JsVal) (n : Z) : Prop :=
  0 <= n <= 100 /\
  match input with
  | JNum (Finite p) => Rounded p n
  | JNum (Infinity false) => n = 100
  | _ => n = 0
  end.

(** A rubric field as the response schema types it: a number, or nothing. *)
Definition NumberOrUndefined (v : JsVal) : Prop :=
  v = JUndefined \/ exists x, v = JNum x.

(** The six rubric sub-scores. *)
Definition rubricFields : list string :=
  ["pronunciation"; "fluency"; "intonation"; "vocabulary"; "grammar";
   "taskFulfillment"]%string.

(** A rubric field of the returned object [r]: the normalized form, in
    tenths, of what [raw] supplied under that name. *)
Definition Field (r : gmap string JsVal) (raw : JsVal) (name : string) (n : Z) : Prop :=
  r !! name = Some (JNum (tenths n)) /\ Normalized (getProp raw name) n.

Section RunVocabulary.
Import RateLimited.
Context {T : Type}.
Variable fn : Work T.
Variable models : list string.
Variable maxRetries : Z.

(** The world after the rate governor, and after the invocation that
    follows it. *)
Definition admitted (w : World) : World := (waitForRateLimit w).2.

Definition invoked (model : string) (w : World) : World :=
  elapse (took (fn model (attempts (trace (admitted w)))))
         (record (EvAttempt model) (admitted w)).

Definition backedOff (ms : Z) (w : World) : World :=
  elapse ms (record (EvBackoff (inject_Z ms)) w).

(** What a pass of the retry loop over one model leaves behind. *)
Definition exitSpec (model : string) (remaining : nat) (d : list Event)
    (w' : World) (x : LoopExit T) : Prop :=
  match x with
  | Returned v => lastOutcome fn (trace w') = Some (Ok v)
  | Rethrown err =>
      lastOutcome fn (trace w') = Some (Throw err) /\
      isNotFound err = false /\ hasNext model models = false
  | NextModel =>
      (remaining = 0%nat /\ d = []) \/
      (exists err, lastOutcome fn (trace w') = Some (Throw err) /\
                   (isNotFound err = true \/ hasNext model models = true))
  end.

(** What a run over the models [rest] leaves behind. *)
Definition chainSpec (rest : list string) (d : list Event) (w' : World)
    (r : Outcome T) : Prop :=
  match r with
  | Success v => lastOutcome fn (trace w') = Some (Ok v)
  | RawError err =>
      lastOutcome fn (trace w') = Some (Throw err) /\
      isNotFound err = false /\
      exists m, In m rest /\ hasNext m models = false
  | Exhausted msg =>
      msg = exhaustedMessage /\
      (((Z.to_nat maxRetries = 0%nat \/ rest = []) /\ calls d = []) \/
       (exists err m,
           last rest = Some m /\
           lastOutcome fn (trace w') = Some (Throw err) /\
           (isNotFound err = true \/ hasNext m models = true)))
  end.

End RunVocabulary.

Section BasicVocabulary.
Import Basic.
Context {T : Type}.
Variable fn : Work T.
Variable models : list string.
Variable maxRetries : Z.

Definition invokedB (model : string) (w : World) : World :=
  elapse (took (fn model (attempts (trace w)))) (record (EvAttempt model) w).

Definition backedOffB (ms : Q) (w : World) : World :=
  elapse (Qfloor ms) (record (EvBackoff ms) w).

Definition exitSpecB (model : string) (remaining : nat) (lastError : option JsError)
    (d : list Event) (w' : World) (x : LoopExit T * option JsError) : Prop :=
  match x with
  | (Returned v, _) => lastOutcome fn (trace w') = Some (Ok v)
  | (Rethrown err, _) =>
      lastOutcome fn (trace w') = Some (Throw err) /\ hasNext model models = false
  | (NextModel, lastError') =>
      (remaining = 0%nat /\ d = [] /\ lastError' = lastError) \/
      ((0 < attempts d)%nat /\
       exists err, lastOutcome fn (trace w') = Some (Throw err) /\
                   hasNext model models = true /\ lastError' = Some err)
  end.

Definition chainSpecB (rest : list string) (lastError : option JsError)
    (d : list Event) (w' : World) (r : Outcome T) : Prop :=
  match r with
  | Success v => lastOutcome fn (trace w') = Some (Ok v)
  | RawError err =>
      lastOutcome fn (trace w') = Some (Throw err) /\
      exists m, In m rest /\ hasNext m models = false
  | Exhausted msg =>
      ((Z.to_nat maxRetries = 0%nat \/ rest = []) /\ calls d = [] /\
       msg = exhaustedMessage (length models) lastError) \/
      (exists err m,
          last rest = Some m /\
          lastOutcome fn (trace w') = Some (Throw err) /\
          hasNext m models = true /\
          msg = exhaustedMessage (length models) (Some err))
  end.

End BasicVocabulary.

Section GovernorVocabulary.
Import RateLimited Governor.

(** At this decision point the window held at most [MAX_RPM] timestamps. *)
Definition WithinCap (d : Decision) : Prop := (seen d <= MAX_RPM)%nat.

(** At this decision point no other caller was suspended in
    [waitForRateLimit]. *)
Definition Alone (d : Decision) : Prop := overlapping d = 0%nat.

(** The states of a run in which no caller overlaps another. *)
Definition Idle (s : Sched) : Prop :=
  suspended s = ∅ /\
  StronglySorted Z.le (stamps s) /\
  Forall (fun t => t <= time s) (stamps s) /\
  (windowCount (time s) (stamps s) <= MAX_RPM)%nat.

Definition Waiting (s : Sched) : Prop :=
  exists task oldest rest,
    suspended s = {[task := oldest + 60000 + 500]} /\
    stamps s = oldest :: rest /\
    StronglySorted Z.le (stamps s) /\
    Forall (fun t => t <= time s) (stamps s) /\
    (length (stamps s) <= MAX_RPM)%nat.

Definition Orderly (s : Sched) : Prop := Idle s \/ Waiting s.

End GovernorVocabulary.

Section GovernorLedgerVocabulary.
Import RateLimited Governor.

(** The timestamp a step records: a caller that is admitted at once records
    the time of its request, a caller whose timer has fired records the time
    it wakes at, and a caller that is suspended records nothing yet. *)
Definition recordedBy (s : Sched) (e : Step) : list Z :=
  match e with
  | Request _ now =>
      match (admitCheck now (stamps s)).2 with
      | None => [now]
      | Some _ => []
      end
  | Resume _ now => [now]
  end.

(** The timestamps recorded in the course of a run, in order. *)
Fixpoint recordedDuring (s : Sched) (steps : list Step) : list Z :=
  match steps with
  | [] => []
  | e :: rest =>
      match step s e with
      | Some s' => recordedBy s e ++ recordedDuring s' rest
      | None => []
      end
  end.

(** The calls of [waitForRateLimit] made in the course of a run. *)
Definition requestsIn (steps : list Step) : nat :=
  length (List.filter (fun e => match e with Request _ _ => true | Resume _ _ => false end)
                      steps).

End GovernorLedgerVocabulary.

(** What the two nested loops leave in the buffer. *)
Definition deinterleaved (dataInt16 : list Z) (numChannels frameCount : nat)
  : list (list Num) :=
  (fun channel =>
     (fun i => Audio.scaled dataInt16 (i * numChannels + channel)) <$> seq 0 frameCount)
    <$> seq 0 numChannels.

(** The retry delays recorded in a trace, in order. *)
Fixpoint backoffs (t : list Event) : list Q :=
  match t with
  | [] => []
  | EvBackoff ms :: rest => ms :: backoffs rest
  | _ :: rest => backoffs rest
  end.

(** One pass of the retry loop over a model as the trace shows it: an
    invocation, then a delay and one more invocation for every retry. *)
Definition pass (model : string) (delays : list Q) : list Event :=
  EvAttempt model :: flat_map (fun ms => [EvBackoff ms; EvAttempt model]) delays.

(** Passes over the leading models of a chain, one list of delays each. *)
Fixpoint passes (delays : list (list Q)) (models : list string) : list Event :=
  match delays, models with
  | ds :: delays', m :: models' => pass m ds ++ passes delays' models'
  | _, _ => []
  end.

(** [counts] invocations against the leading models of a chain. *)
Fixpoint blocks (counts : list nat) (models : list string) : list string :=
  match counts, models with
  | n :: counts', m :: models' => replicate n m ++ blocks counts' models'
  | _, _ => []
  end.

(** The invocation settled with a thrown error. *)
Definition threw {T} (r : result T JsError) : Prop := exists err, r = Throw err.

(** Every event of the kind [EvBackoff] in [t] has an invocation right
    before it and one right after it, both against the same model. *)
Definition BackoffsBetweenAttempts (t : list Event) : Prop :=
  forall i ms, t !! i = Some (EvBackoff ms) ->
    exists m, (1 <= i)%nat /\
              t !! (i - 1)%nat = Some (EvAttempt m) /\
              t !! (i + 1)%nat = Some (EvAttempt m).

(** The delay that started as [first] after [j] multiplications by
    [factor]. *)
Definition grown (factor first : Q) (j : nat) : Q :=
  Nat.iter j (fun d => (d * factor)%Q) first.

(** The delays between [n] invocations against one model in the
    gemini-1.5 service file. *)
Definition basicDelays (n : nat) : list Q :=
  grown 2.5 1500 <$> seq 0 (n - 1).

(** The delays of one pass of a run with [maxRetries] tries per model. *)
Definition PassDelaysX (maxRetries : Z) (ds : list Z) : Prop :=
  Z.of_nat (length ds) < maxRetries /\
  forall j b, ds !! j = Some b -> 3000 * 2 ^ Z.of_nat j <= b <= 3000 * 2 ^ Z.of_nat (S j).

(** Of the invocations [cs] of a run that began at invocation number
    [base], every one threw. *)
Definition AllThrew {T} (fn : Work T) (base : nat) (cs : list string) : Prop :=
  forall i m, cs !! i = Some m -> threw (outcome (fn m (base + i)%nat)).

(** Every one but the last threw. *)
Definition EarlierThrew {T} (fn : Work T) (base : nat) (cs : list string) : Prop :=
  forall i m, cs !! i = Some m -> (i + 1 < length cs)%nat ->
              threw (outcome (fn m (base + i)%nat)).

(** The last of the invocations [cs] settled as [o]. *)
Definition FinalOutcome {T} (fn : Work T) (base : nat) (cs : list string)
    (o : result T JsError) : Prop :=
  exists m, last cs = Some m /\ outcome (fn m (base + length cs - 1)%nat) = o.

(** How the outcome of a run relates to the invocations it made. *)
Definition StopsAtFirstSuccess {T} (fn : Work T) (base : nat) (cs : list string)
    (r : Outcome T) : Prop :=
  match r with
  | Success v => FinalOutcome fn base cs (Ok v) /\ EarlierThrew fn base cs
  | RawError err => FinalOutcome fn base cs (Throw err) /\ AllThrew fn base cs
  | Exhausted _ => AllThrew fn base cs
  end.

(** What a pass of the retry loop leaves, seen from the invocations. *)
Definition PassStops {T} (fn : Work T) (base : nat) (cs : list string)
    (x : LoopExit T) : Prop :=
  match x with
  | Returned v => FinalOutcome fn base cs (Ok v) /\ EarlierThrew fn base cs
  | Rethrown err => FinalOutcome fn base cs (Throw err) /\ AllThrew fn base cs
  | NextModel => AllThrew fn base cs
  end.

(** The state of the rate governor between the calls of a caller that
    runs alone: the recorded timestamps are in time order and none lies in
    the future, and there are at most [MAX_RPM] of them, or one more when
    the last admission had to wait -- the oldest one has then left the
    window. *)
Definition Settled (w : World) : Prop :=
  StronglySorted Z.le (requestTimestamps w) /\
  Forall (fun t => t <= clock w) (requestTimestamps w) /\
  ((length (requestTimestamps w) <= RateLimited.MAX_RPM)%nat \/
   ((length (requestTimestamps w) = S RateLimited.MAX_RPM)%nat /\
    exists oldest, head (requestTimestamps w) = Some oldest /\
                   oldest + 60000 + 500 <= clock w)).

(** [n] invocations against one model with the delays [first],
    [first * 2.5], ... between them. *)
Definition paced (model : string) (first : Q) (n : nat) : list Event :=
  match n with
  | O => []
  | S k => pass model (grown 2.5 first <$> seq 0 k)
  end.

(** The invocation settled with a thrown quota error. *)
Definition threwQuota {T} (r : result T JsError) : Prop :=
  exists err, r = Throw err /\ Retry.isQuota err = true.

(** How a run of [callWithRetry] that began at invocation number [base] and
    made [n] invocations ended. *)
Definition RetryEnd {T} (fn : Work T) (model : string) (budget : nat) (base n : nat)
    (r : Outcome T) : Prop :=
  match r with
  | Success v => (1 <= n)%nat /\ outcome (fn model (base + n - 1)%nat) = Ok v
  | RawError err =>
      (1 <= n)%nat /\ outcome (fn model (base + n - 1)%nat) = Throw err /\
      (Retry.isQuota err = false \/ n = budget)
  | Exhausted msg => msg = Retry.busyMessage /\ n = 0%nat /\ budget = 0%nat
  end.

(** The unsigned integer that bytes stand for, lowest byte first. *)
Definition uint (bytes : list byte) : Z :=
  foldr (fun b acc => Z.of_N (Byte.to_N b) + 256 * acc) 0 bytes.

(** The field of [n] bytes at [offset] of a file, read as an unsigned
    little-endian integer. *)
Definition field (offset n : nat) (file : list byte) : Z :=
  uint (take n (drop offset file)).

(** The bytes of the characters of a string. *)
Definition asciiBytes (s : string) : list byte :=
  (fun c => Audio.byteOf (Wav.charCodeAt c)) <$> list_ascii_of_string s.

(** The canonical 44-byte header of a PCM WAV file with 16 bits per
    sample. *)
Definition wavHeader (numChannels frames rate : Z) : list byte :=
  asciiBytes "RIFF" ++ Wav.littleEndian 4 (36 + frames * numChannels * 2) ++
  asciiBytes "WAVE" ++
  asciiBytes "fmt " ++ Wav.littleEndian 4 16 ++
  Wav.littleEndian 2 1 ++ Wav.littleEndian 2 numChannels ++
  Wav.littleEndian 4 rate ++ Wav.littleEndian 4 (rate * numChannels * 2) ++
  Wav.littleEndian 2 (numChannels * 2) ++ Wav.littleEndian 2 16 ++
  asciiBytes "data" ++ Wav.littleEndian 4 (frames * numChannels * 2).

(** A sample as the export stores it: clamped to [-1, 1], scaled by
    32767, the fraction dropped. *)
Definition pcm16 (x : Num) : Z :=
  match num_mul (Math_max (Finite (-1)) (Math_min (Finite 1) x)) (Finite 32767) with
  | Finite q => Wav.truncate q
  | _ => 0
  end.

(** The samples of the export: frame by frame, the channels of a frame
    next to each other, two bytes each, low byte first. *)
Definition wavPayload (buffer : Audio.AudioBuffer) : list byte :=
  i ← seq 0 (Audio.frames buffer);
  samples ← Audio.channelData buffer;
  Wav.littleEndian 2 (pcm16 (default NaN (samples !! i))).

(** A 16-bit sample one step closer to zero. *)
Definition towardZero (s : Z) : Z :=
  if 0 <? s then s - 1 else if s <? 0 then s + 1 else 0.

(** The panels of the component are shown under these conditions: the
    error panel needs a message, the result panel a result. *)
Definition PanelsHaveContent (s : App.State) : Prop :=
  (App.status s = App.ERROR ->
   exists text, App.errorMessage s = Some text /\ text <> EmptyString) /\
  (App.status s = App.RESULT -> exists r, App.result s = Some r).


(** The character [c] occurs in [s]. *)
Definition occurs (c : ascii) (s : string) : Prop := c ∈ list_ascii_of_string s.

(** A text of ASCII characters alone. *)
Definition AsciiText (s : string) : Prop :=
  forallb (fun c => (nat_of_ascii c <? 128)%nat) (list_ascii_of_string s) = true.

(** The value of a decimal digit. *)
Definition digitValue (c : ascii) : option nat :=
  let n := nat_of_ascii c in
  if (48 <=? n)%nat && (n <=? 57)%nat then Some (n - 48)%nat else None.

(** The text the spans show, one after the other. *)
Definition shown (spans : list App.Span) : string :=
  foldr (fun span rest => (App.children span +:+ rest)%string) EmptyString spans.

(** The [inlineData] of the first part that has one. *)
Definition firstInline (parts : list Generation.ResponsePart) : option (option string) :=
  head (omap Generation.inlineData parts).

(** * Sample inputs *)

(** The double-quote character. *)
Definition dquote : string := String (ascii_of_nat 34) EmptyString.

(** An error object whose only enumerable property is its [status]. *)
Definition statusError (code : Z) (digits msg : string) : JsError :=
  {| status := Some code;
     stringified := ("{" +:+ dquote +:+ "status" +:+ dquote +:+ ":" +:+ digits +:+ "}")%string;
     message := Some msg |}.

Definition quotaError : JsError := statusError 429 "429" "Too Many Requests".

Definition notFoundError : JsError := statusError 404 "404" "Not Found".

Definition serverError : JsError := statusError 503 "503" "Service Unavailable".

(** A unit of work that is throttled on every invocation. *)
Definition alwaysThrottled : Work nat :=
  fun _ _ => {| outcome := Throw quotaError; took := 200 |}.

(** A unit of work that meets a server error on every invocation. *)
Definition alwaysDown : Work nat :=
  fun _ _ => {| outcome := Throw serverError; took := 50 |}.

(** The first model of the chain is unknown to the backend, the second
    answers. *)
Definition unknownThenFine : Work nat :=
  fun model _ =>
    if String.eqb model "gemini-2.5-flash-lite"
    then {| outcome := Throw notFoundError; took := 120 |}
    else {| outcome := Ok 7%nat; took := 900 |}.


(** A sample response that tries to set the three fields itself, with
    rubric values out of range, fractional and missing. *)
Definition sampleProps : gmap string JsVal :=
  list_to_map
    [("pronunciation"%string, JNum (literal 12.3));
     ("fluency"%string, JNum (literal (-4)));
     ("intonation"%string, JNum (literal 7.25));
     ("grammar"%string, JNum (literal 8.04));
     ("taskFulfillment"%string, JUndefined);
     ("score"%string, JNum (literal 99));
     ("perceivedLevel"%string, JStr "C2");
     ("mistakes"%string, JArr [JStr "word"]);
     ("keyVocabulary"%string, JArr [JStr "cat"]);
     ("feedback"%string, JStr "Good")].

Definition sampleResponse : JsVal := JObj sampleProps.

(** A response whose only rubric field is a pronunciation of 0.3. *)
Definition lonePronunciation : gmap string JsVal :=
  {[ "pronunciation"%string := JNum (literal 0.3) ]}.

(** A remote service that answers with the sample response every time. *)
Definition sampleRemote : Work JsVal :=
  fun _ _ => {| outcome := Ok sampleResponse; took := 1500 |}.

Definition sampleKeys : KeySources :=
  {| stored_speakpro_api_key := Some "  sk-user "%string;
     env_API_KEY := None;
     env_GEMINI_API_KEY := None |}.

(** A stored key between a no-break space and a line separator, and an
    environment key after a tab. *)
Definition paddedKeys : KeySources :=
  {| stored_speakpro_api_key := Some (utf8 160 +:+ "sk-user" +:+ utf8 8232)%string;
     env_API_KEY := Some (utf8 9 +:+ "sk-env")%string;
     env_GEMINI_API_KEY := None |}.

(** A stand-in for the parser of numeric strings. *)
Definition noParse : JsVal -> Num := fun _ => NaN.

Definition sampleEvaluation : Outcome (gmap string JsVal) * World :=
  RateLimited.evaluatePresentation noParse sampleKeys sampleRemote B1 (Governor.boot 0).

Definition sampleResult : gmap string JsVal :=
  match sampleEvaluation.1 with
  | Success r => r
  | _ => ∅
  end.

(** Two stereo frames: samples 1 and -1, then -32768 and 32767. *)
Definition samplePcm : list byte :=
  [Byte.x01; Byte.x00; Byte.xff; Byte.xff; Byte.x00; Byte.x80; Byte.xff; Byte.x7f].

Section SampleSchedules.
Import Governor.

(** Ten callers: eight are admitted at once, the ninth and the tenth both
    find the cap reached and suspend, both wake when the oldest timestamp
    has left the window, and an eleventh caller arrives right after. *)
Definition overlappingCallers : list Step :=
  [Request 1 0; Request 2 1000; Request 3 2000; Request 4 3000;
   Request 5 4000; Request 6 5000; Request 7 6000; Request 8 7000;
   Request 9 8000; Request 10 8001;
   Resume 9 60500; Resume 10 60500;
   Request 11 60501].

(** Nine callers taking turns: the ninth suspends and wakes before anyone
    else arrives. *)
Definition callersInTurn : list Step :=
  [Request 1 0; Request 2 1000; Request 3 2000; Request 4 3000;
   Request 5 4000; Request 6 5000; Request 7 6000; Request 8 7000;
   Request 9 8000; Resume 9 60500; Request 10 60501].

Definition callersInTurnEnd : Sched :=
  default (start 0) (run (start 0) callersInTurn).

End SampleSchedules.

(** A unit of work that no model of the chain knows. *)
Definition alwaysUnknown : Work nat :=
  fun _ _ => {| outcome := Throw notFoundError; took := 80 |}.

(** A unit of work that throws an error of its own making every time. *)
Definition alwaysBroken : Work nat :=
  fun _ _ => {| outcome := Throw (newError "no image"); took := 700 |}.

(** No key anywhere. *)
Definition noKeys : KeySources :=
  {| stored_speakpro_api_key := None; env_API_KEY := None; env_GEMINI_API_KEY := None |}.

Definition sampleBuffer : Audio.AudioBuffer :=
  default (Audio.createBuffer 0 0 0) (Audio.decodeAudioData samplePcm 24000 2).

(** A presentation on the screen, with nothing in the store. *)
Definition samplePresentation : App.PresentationData :=
  {| App.imageUri := "data:image/png;base64,AAAA";
     App.scriptData :=
       {| App.intro := Some "Hello!"%string;
          App.points := Some ["I see a cat."%string; "It is red."%string];
          App.conclusion := Some "Thank you."%string;
          App.lessonVocab := Some [] |};
     App.script := "Hello! I see a cat. It is red. Thank you.";
     App.presentedLevel := Starters |}.

Definition samplePage : App.State :=
  App.setPresentation (Some samplePresentation) (App.initial ∅).

(** A service that answers every request for an illustration with a part
    of text and a part that holds the image. *)
Definition sampleImageRemote : string -> Work (list Generation.ResponsePart) :=
  fun _ _ _ =>
    {| outcome := Ok [ {| Generation.inlineData := None |};
                       {| Generation.inlineData := Some (Some "QUJD"%string) |} ];
       took := 900 |}.

(** The presentation of the sample with two entries of vocabulary, one of
    them of two words. *)
Definition sampleLesson : App.State :=
  App.setPresentation
    (Some {| App.imageUri := "data:image/png;base64,QUJD";
             App.scriptData :=
               {| App.intro := Some "Hello!"%string;
                  App.points := Some ["I see a cat."%string];
                  App.conclusion := Some "I like ice cream."%string;
                  App.lessonVocab :=
                    Some [ {| App.word := "Cat"; App.translation := "con mèo";
                              App.ipa := "/kæt/"; App.emoji := "🐱" |};
                           {| App.word := "ice cream"; App.translation := "kem";
                              App.ipa := "/ˈaɪs kriːm/"; App.emoji := "🍦" |} ] |};
             App.script := "Hello! I see a cat. I like ice cream.";
             App.presentedLevel := Starters |})
    (App.initial ∅).

(** * Properties *)

(** ** The embedding on concrete inputs *)

Example trim_strips_blanks : trim "  sk-env  " = "sk-env"%string.
Proof. reflexivity. Qed.

(** White space outside ASCII is stripped from the ends and kept inside. *)
Example trim_strips_no_break_spaces :
  trim (utf8 160 +:+ "sk" +:+ utf8 160 +:+ "env" +:+ utf8 65279 +:+ utf8 8232)
  = ("sk" +:+ utf8 160 +:+ "env")%string.
Proof. reflexivity. Qed.

(** A blank [API_KEY] is truthy, so [GEMINI_API_KEY] is not looked at. *)
Example blank_API_KEY_hides_GEMINI_API_KEY :
  RateLimited.getApiKey
    {| stored_speakpro_api_key := None;
       env_API_KEY := Some "  "%string;
       env_GEMINI_API_KEY := Some "sk-gem"%string |}
  = Throw missingKeyMessage.
Proof. reflexivity. Qed.

Example classification_of_samples :
  (RateLimited.isRateLimit quotaError, RateLimited.isNotFound quotaError,
   RateLimited.isNotFound notFoundError, RateLimited.isServerError serverError,
   RateLimited.isRateLimit (newError "boom"))
  = (true, false, true, true, false).
Proof. reflexivity. Qed.

(** Server errors are retried on each model after the plain backoff, and
    the last one is rethrown. *)
Example server_errors_back_off :
  let run := RateLimited.callWithModelFallback alwaysDown RateLimited.text 2
               (Governor.boot 0) in
  run.1 = RawError serverError /\
  trace run.2 =
    [EvAttempt "gemini-2.5-flash-lite"; EvBackoff 3000;
     EvAttempt "gemini-2.5-flash-lite"; EvAttempt "gemini-2.5-flash";
     EvBackoff 3000; EvAttempt "gemini-2.5-flash"] /\
  requestTimestamps run.2 = [0; 3050; 3100; 6150].
Proof. vm_compute. repeat split. Qed.

(** In the gemini-1.5 file the delay grows by 2.5. *)
Example basic_backoff_grows :
  trace (Basic.callWithModelFallback alwaysDown Basic.image 3 (Governor.boot 0)).2 =
    [EvAttempt "gemini-1.5-flash"; EvBackoff 1500;
     EvAttempt "gemini-1.5-flash"; EvBackoff (1500 * 2.5);
     EvAttempt "gemini-1.5-flash"; EvAttempt "gemini-1.5-pro";
     EvBackoff 1500; EvAttempt "gemini-1.5-pro";
     EvBackoff (1500 * 2.5); EvAttempt "gemini-1.5-pro"].
Proof. reflexivity. Qed.

Module MachineArithmetic.
Import Floats.
Local Open Scope float_scope.

(** The rounding of the embedding against the arithmetic of the machine
    this file is checked on. *)
#[warnings="-inexact-float"]
Example binary64_is_the_arithmetic_of_the_machine :
  machine 0.3 = literal 0.3 /\
  machine (0.3 * 10) = fmul (literal 0.3) (Finite 10) /\
  machine (0.3 / 6) = fdiv (literal 0.3) (Finite 6) /\
  machine (0.3 / 6 * 10) = fmul (fdiv (literal 0.3) (Finite 6)) (Finite 10) /\
  machine (0.1 + 0.2) = fadd (literal 0.1) (literal 0.2) /\
  machine (7.25 * 10) = fmul (literal 7.25) (Finite 10) /\
  machine (8.04 * 10) = fmul (literal 8.04) (Finite 10) /\
  machine (1.005 * 10) = fmul (literal 1.005) (Finite 10) /\
  machine (73 / 10) = fdiv (Finite 73) (Finite 10) /\
  machine (1e308 * 10) = fmul (literal 1e308) (Finite 10) /\
  machine (-1e308 * 10) = fmul (literal (-1e308)) (Finite 10) /\
  machine (5e-324 / 10) = fdiv (literal 5e-324) (Finite 10) /\
  machine (3e-324 * 10) = fmul (literal 3e-324) (Finite 10).
Proof. vm_compute. repeat split. Qed.

End MachineArithmetic.

Example normalize_rounds_half_up :
  normalize noParse (JNum (literal 7.25)) = literal 7.3.
Proof. vm_compute. reflexivity. Qed.

Example normalize_clamps :
  (normalize noParse (JNum (literal 12.3)), normalize noParse (JNum (literal (-4))),
   normalize noParse JUndefined)
  = (Finite 10, Finite 0, Finite 0).
Proof. vm_compute. reflexivity. Qed.

(** The sum of the sub-scores is rounded at every step: the mean of 0.3
    and five times 0 is just below 0.05, and the score is 0. *)
Example mean_of_a_lone_pronunciation :
  fdiv (fadd (fadd (fadd (fadd (fadd (literal 0.3) (Finite 0)) (Finite 0)) (Finite 0))
                (Finite 0)) (Finite 0)) (Finite 6)
  = Finite (7205759403792793 # 144115188075855872) /\
  (7205759403792793 # 144115188075855872 < 0.05)%Q.
Proof. vm_compute. split; reflexivity. Qed.

Example ninth_admission_waits :
  Governor.admitAll [0; 1; 2; 3; 4; 5; 6; 7; 8; 9; 60600] (Governor.boot 0) =
    [None; None; None; None; None; None; None; None; Some 60492; None; None].
Proof. reflexivity. Qed.

Example decode_sample :
  Audio.channelData <$> Audio.decodeAudioData samplePcm 24000 2 =
    Some [[Finite (inject_Z 1 / 32768); Finite (inject_Z (-32768) / 32768)];
          [Finite (inject_Z (-1) / 32768); Finite (inject_Z 32767 / 32768)]].
Proof. reflexivity. Qed.

(** ** Credential resolver *)

Section TrimFacts.

Local Open Scope string_scope.

Lemma app_String (c : ascii) (a b : string) : String c a +:+ b = String c (a +:+ b).
Proof. reflexivity. Qed.

Lemma app_empty_r (a : string) : a +:+ "" = a.
Proof. induction a as [|c a IH]; [reflexivity|]. now rewrite app_String, IH. Qed.

Lemma app_assoc_s (a b c : string) : (a +:+ b) +:+ c = a +:+ (b +:+ c).
Proof. induction a as [|x a IH]; [reflexivity|]. now rewrite !app_String, IH. Qed.

Lemma length_app_s (a b : string) :
  String.length (a +:+ b) = (String.length a + String.length b)%nat.
Proof. induction a as [|x a IH]; [reflexivity|]. rewrite app_String. cbn. now rewrite IH. Qed.

Lemma rev_app_acc (s acc : string) :
  String.rev_app s acc = String.rev_app s "" +:+ acc.
Proof.
  revert acc. induction s as [|c s IH]; intros acc; [reflexivity|].
  cbn [String.rev_app]. rewrite (IH (String c acc)), (IH (String c "")).
  now rewrite app_assoc_s.
Qed.

Lemma rev_String (c : ascii) (s : string) :
  String.rev (String c s) = String.rev s +:+ String c "".
Proof. unfold String.rev. cbn [String.rev_app]. apply rev_app_acc. Qed.

Lemma rev_app_s (a b : string) : String.rev (a +:+ b) = String.rev b +:+ String.rev a.
Proof.
  induction a as [|c a IH]; [cbn; now rewrite app_empty_r|].
  now rewrite app_String, !rev_String, IH, app_assoc_s.
Qed.

Lemma rev_rev (s : string) : String.rev (String.rev s) = s.
Proof.
  induction s as [|c s IH]; [reflexivity|].
  now rewrite rev_String, rev_app_s, IH.
Qed.

Lemma rev_length (s : string) : String.length (String.rev s) = String.length s.
Proof.
  induction s as [|c s IH]; [reflexivity|].
  rewrite rev_String, length_app_s, IH. cbn. lia.
Qed.

Lemma stripPrefix_Some (p s rest : string) :
  stripPrefix p s = Some rest <-> s = p +:+ rest.
Proof.
  revert s. induction p as [|a p IH]; intros s.
  - change ("" +:+ rest) with rest. cbn. split; congruence.
  - destruct s as [|b s]; cbn [stripPrefix]; rewrite app_String.
    + split; discriminate.
    + destruct (Ascii.eqb_spec a b) as [->|Hab].
      * rewrite IH. split; [intros ->; reflexivity|intros [= ->]; reflexivity].
      * split; [discriminate|intros [= ->]; contradiction].
Qed.

Lemma stripAny_Some (chars : list string) (s rest : string) :
  stripAny chars s = Some rest -> exists p, p ∈ chars /\ s = p +:+ rest.
Proof.
  induction chars as [|p chars IH]; [discriminate|].
  cbn [stripAny]. destruct (stripPrefix p s) as [r|] eqn:E.
  - intros [= ->]. exists p. split; [left|now apply stripPrefix_Some].
  - intros H. destruct (IH H) as (q & Hq & Hs). exists q. split; [now right|exact Hs].
Qed.

Lemma stripAny_None (chars : list string) (s : string) :
  stripAny chars s = None -> forall p rest, p ∈ chars -> s <> p +:+ rest.
Proof.
  induction chars as [|q chars IH]; intros H p rest Hp; [now apply elem_of_nil in Hp|].
  cbn [stripAny] in H. destruct (stripPrefix q s) as [r|] eqn:E; [discriminate|].
  apply elem_of_cons in Hp as [->|Hp]; [|now apply IH].
  intros Hs. apply stripPrefix_Some in Hs. congruence.
Qed.

Lemma MadeOf_app (chars : list string) (a b : string) :
  MadeOf chars a -> MadeOf chars b -> MadeOf chars (a +:+ b).
Proof.
  induction 1 as [|p s Hp Hs IH]; intros Hb; [exact Hb|].
  rewrite app_assoc_s. constructor; auto.
Qed.

Lemma MadeOf_one (chars : list string) (p : string) : p ∈ chars -> MadeOf chars p.
Proof.
  intros Hp. rewrite <- (app_empty_r p). constructor; [exact Hp|constructor].
Qed.

(** Characters are not empty. *)
Lemma dropLeading_spec (chars : list string) (fuel : nat) :
  AllNonEmpty chars ->
  forall s, (String.length s <= fuel)%nat ->
    exists before,
      s = before +:+ dropLeading chars fuel s /\
      MadeOf chars before /\
      (forall p rest, p ∈ chars -> dropLeading chars fuel s <> p +:+ rest).
Proof.
  intros Hproper. unfold AllNonEmpty in Hproper. rewrite Forall_forall in Hproper.
  induction fuel as [|fuel IH]; intros s Hlen.
  - destruct s; [|cbn in Hlen; lia]. exists "". cbn.
    split; [reflexivity|]. split; [constructor|].
    intros p rest Hp Heq.
    apply (Hproper p Hp). destruct p; [reflexivity|discriminate].
  - cbn [dropLeading]. destruct (stripAny chars s) as [r|] eqn:E.
    + destruct (stripAny_Some _ _ _ E) as (p & Hp & ->).
      pose proof (Hproper p Hp) as Hne.
      rewrite length_app_s in Hlen.
      assert (0 < String.length p)%nat by (destruct p; [congruence|cbn; lia]).
      destruct (IH r) as (before & Heq & Hmade & Hstop); [lia|].
      exists (p +:+ before). split; [now rewrite app_assoc_s, <- Heq|].
      split; [now constructor|exact Hstop].
    + exists "". split; [reflexivity|]. split; [constructor|].
      now apply stripAny_None.
Qed.

Lemma dropLeading_done (chars : list string) (fuel : nat) (s : string) :
  (forall p rest, p ∈ chars -> s <> p +:+ rest) -> dropLeading chars fuel s = s.
Proof.
  intros Hs. destruct fuel as [|fuel]; [reflexivity|]. cbn [dropLeading].
  destruct (stripAny chars s) as [r|] eqn:E; [|reflexivity].
  destruct (stripAny_Some _ _ _ E) as (p & Hp & Heq). now destruct (Hs p r Hp).
Qed.

Lemma whiteSpace_nonempty : AllNonEmpty whiteSpace.
Proof. unfold AllNonEmpty. apply Forall_forall. intros p Hp.
  unfold whiteSpace in Hp. apply list_elem_of_fmap in Hp as (n & -> & _).
  unfold utf8. destruct (n <? 128)%N; [discriminate|].
  destruct (n <? 2048)%N; discriminate.
Qed.

Lemma rev_nonempty (p : string) : p <> "" -> String.rev p <> "".
Proof.
  intros Hp H. apply Hp. rewrite <- (rev_rev p), H. reflexivity.
Qed.

Lemma reversed_nonempty : AllNonEmpty (String.rev <$> whiteSpace).
Proof.
  unfold AllNonEmpty. apply Forall_fmap. eapply Forall_impl; [exact whiteSpace_nonempty|].
  intros p. apply rev_nonempty.
Qed.

Lemma MadeOf_snoc (chars : list string) (s p : string) :
  MadeOf chars s -> p ∈ chars -> MadeOf chars (s +:+ p).
Proof. intros Hs Hp. apply MadeOf_app; [exact Hs|now apply MadeOf_one]. Qed.

Lemma MadeOf_rev (chars : list string) (s : string) :
  MadeOf (String.rev <$> chars) s -> MadeOf chars (String.rev s).
Proof.
  induction 1 as [|p s Hp Hs IH]; [constructor|].
  rewrite rev_app_s. apply MadeOf_snoc; [exact IH|].
  apply list_elem_of_fmap in Hp as (q & -> & Hq). now rewrite rev_rev.
Qed.

Lemma trimStart_spec (s : string) :
  exists before,
    s = before +:+ trimStart s /\ Blank before /\ ~ BeginsWhite (trimStart s).
Proof.
  destruct (dropLeading_spec whiteSpace (String.length s) whiteSpace_nonempty s (le_n _))
    as (before & Heq & Hmade & Hstop).
  exists before. split; [exact Heq|]. split; [exact Hmade|].
  intros (p & rest & Hp & Hs). exact (Hstop p rest Hp Hs).
Qed.

Lemma trimEnd_spec (s : string) :
  exists after,
    s = trimEnd s +:+ after /\ Blank after /\ ~ EndsWhite (trimEnd s).
Proof.
  destruct (dropLeading_spec (String.rev <$> whiteSpace) (String.length s)
              reversed_nonempty (String.rev s)) as (before & Heq & Hmade & Hstop).
  { now rewrite rev_length. }
  exists (String.rev before). unfold trimEnd. split; [|split].
  - rewrite <- rev_app_s, <- Heq. symmetry. apply rev_rev.
  - now apply MadeOf_rev.
  - intros (p & front & Hp & Hs).
    apply (Hstop (String.rev p) (String.rev front)); [now apply list_elem_of_fmap_2|].
    rewrite <- rev_app_s, <- Hs. symmetry. apply rev_rev.
Qed.

(** [trim] gives the string without the white space at its two ends. *)
Lemma trim_spec (s : string) : Trimmed s (trim s).
Proof.
  destruct (trimStart_spec s) as (before & Hs & Hbefore & Hstart).
  destruct (trimEnd_spec (trimStart s)) as (after & Ht & Hafter & Hend).
  exists before, after. unfold trim. split; [now rewrite <- Ht|].
  split; [exact Hbefore|]. split; [exact Hafter|]. split; [|exact Hend].
  intros (p & rest & Hp & Heq). apply Hstart. exists p, (rest +:+ after).
  split; [exact Hp|]. rewrite Ht at 1. rewrite Heq. apply app_assoc_s.
Qed.

Lemma trimStart_fixed (s : string) : ~ BeginsWhite s -> trimStart s = s.
Proof.
  intros Hs. apply dropLeading_done. intros p rest Hp Heq. apply Hs. now exists p, rest.
Qed.

Lemma trimEnd_fixed (s : string) : ~ EndsWhite s -> trimEnd s = s.
Proof.
  intros Hs. unfold trimEnd. rewrite dropLeading_done; [apply rev_rev|].
  intros p rest Hp Heq. apply list_elem_of_fmap in Hp as (q & -> & Hq).
  apply Hs. exists q, (String.rev rest). split; [exact Hq|].
  rewrite <- (rev_rev s), Heq, rev_app_s. now rewrite rev_rev.
Qed.

Lemma trim_fixed (s : string) : ~ BeginsWhite s -> ~ EndsWhite s -> trim s = s.
Proof. intros Hb He. unfold trim. now rewrite (trimStart_fixed s Hb), trimEnd_fixed. Qed.

Lemma trim_trim (s : string) : trim (trim s) = trim s.
Proof.
  destruct (trim_spec s) as (before & after & _ & _ & _ & Hb & He).
  now apply trim_fixed.
Qed.

(** A string that is not white space throughout keeps something. *)
Lemma trim_nonblank (s : string) : ~ Blank s -> trim s <> "".
Proof.
  intros Hs Ht. destruct (trim_spec s) as (before & after & Heq & Hb & Ha & _).
  rewrite Ht in Heq. apply Hs. rewrite Heq. now apply MadeOf_app.
Qed.

Lemma app_inv_head_s (p a b : string) : p +:+ a = p +:+ b -> a = b.
Proof.
  induction p as [|c p IH]; [now intros H|].
  rewrite !app_String. intros [= H]. auto.
Qed.

Lemma app_overlap (p q a b : string) :
  p +:+ a = q +:+ b -> (exists c, q = p +:+ c) \/ (exists c, p = q +:+ c).
Proof.
  revert q. induction p as [|x p IH]; intros q H.
  - left. now exists q.
  - destruct q as [|y q]; [right; now exists (String x p)|].
    rewrite !app_String in H. injection H as -> H.
    destruct (IH q H) as [[c ->]|[c ->]]; [left|right]; now exists c.
Qed.

(** No white-space character begins with another one. *)
Lemma whiteSpace_prefix_free (p q c : string) :
  p ∈ whiteSpace -> q ∈ whiteSpace -> q = p +:+ c -> q = p.
Proof.
  intros Hp Hq Heq.
  assert (Hcheck : forallb (fun p => forallb (fun q =>
                     match stripPrefix p q with
                     | Some _ => String.eqb p q
                     | None => true
                     end) whiteSpace) whiteSpace = true) by (vm_compute; reflexivity).
  rewrite forallb_forall in Hcheck.
  specialize (Hcheck p (proj1 (list_elem_of_In _ _) Hp)).
  rewrite forallb_forall in Hcheck.
  specialize (Hcheck q (proj1 (list_elem_of_In _ _) Hq)).
  apply stripPrefix_Some in Heq. rewrite Heq in Hcheck.
  apply String.eqb_eq in Hcheck. now symmetry.
Qed.

Lemma dropLeading_Blank (s : string) :
  Blank s -> forall fuel, (String.length s <= fuel)%nat ->
             dropLeading whiteSpace fuel s = "".
Proof.
  induction 1 as [|p s Hp Hs IH]; intros fuel Hlen.
  - destruct fuel; reflexivity.
  - pose proof whiteSpace_nonempty as Hproper. unfold AllNonEmpty in Hproper.
    rewrite Forall_forall in Hproper. pose proof (Hproper p Hp) as Hne.
    rewrite length_app_s in Hlen.
    assert (0 < String.length p)%nat by (destruct p; [congruence|cbn; lia]).
    destruct fuel as [|fuel]; [lia|]. cbn [dropLeading].
    destruct (stripAny whiteSpace (p +:+ s)) as [r|] eqn:E.
    + destruct (stripAny_Some _ _ _ E) as (q & Hq & Heq).
      assert (q = p) as ->.
      { destruct (app_overlap _ _ _ _ Heq) as [[c Hc]|[c Hc]].
        - now apply (whiteSpace_prefix_free p q c).
        - symmetry. now apply (whiteSpace_prefix_free q p c). }
      apply app_inv_head_s in Heq as <-. apply IH. lia.
    + now destruct (stripAny_None _ _ E p s Hp).
Qed.

(** Of a string that is white space throughout nothing is left. *)
Lemma trim_Blank (s : string) : Blank s -> trim s = "".
Proof.
  intros Hs. unfold trim, trimStart. now rewrite (dropLeading_Blank s Hs).
Qed.


Lemma prefixFree_spec (chars : list string) (p q c : string) :
  prefixFree chars = true -> p ∈ chars -> q ∈ chars -> q = p +:+ c -> q = p.
Proof.
  intros Hcheck Hp Hq Heq. unfold prefixFree in Hcheck.
  rewrite forallb_forall in Hcheck.
  specialize (Hcheck p (proj1 (list_elem_of_In _ _) Hp)).
  rewrite forallb_forall in Hcheck.
  specialize (Hcheck q (proj1 (list_elem_of_In _ _) Hq)).
  apply stripPrefix_Some in Heq. rewrite Heq in Hcheck.
  apply String.eqb_eq in Hcheck. now symmetry.
Qed.

Lemma in_tails (t a : string) : a <> "" -> In a (tails (t +:+ a)).
Proof.
  intros Ha. induction t as [|c t IH].
  - change ("" +:+ a) with a. destruct a; [congruence|]. now left.
  - rewrite app_String. cbn [tails]. now right.
Qed.

Lemma selfSynchronizing_spec (chars : list string) (p t a q r r' : string) :
  selfSynchronizing chars = true -> AllNonEmpty chars ->
  p ∈ chars -> p = t +:+ a -> t <> "" -> a <> "" ->
  q ∈ chars -> a +:+ r <> q +:+ r'.
Proof.
  intros Hcheck Hproper Hp -> Ht Ha Hq Heq.
  unfold selfSynchronizing in Hcheck. rewrite forallb_forall in Hcheck.
  specialize (Hcheck _ (proj1 (list_elem_of_In _ _) Hp)).
  destruct t as [|c t]; [congruence|]. rewrite app_String in Hcheck.
  rewrite forallb_forall in Hcheck. specialize (Hcheck a (in_tails t a Ha)).
  rewrite forallb_forall in Hcheck.
  specialize (Hcheck q (proj1 (list_elem_of_In _ _) Hq)).
  unfold AllNonEmpty in Hproper. rewrite Forall_forall in Hproper.
  pose proof (Hproper q Hq) as Hne.
  destruct a as [|x a]; [congruence|]. destruct q as [|y q]; [congruence|].
  rewrite !app_String in Heq. injection Heq as -> _.
  cbn in Hcheck. now rewrite Ascii.eqb_refl in Hcheck.
Qed.

Lemma dropLeading_made (chars : list string) (b r : string) :
  prefixFree chars = true -> AllNonEmpty chars ->
  MadeOf chars b -> stripAny chars r = None ->
  forall fuel, (String.length b <= fuel)%nat ->
               dropLeading chars fuel (b +:+ r) = r.
Proof.
  intros Hfree Hproper Hb Hr. induction Hb as [|p b Hp Hb IH]; intros fuel Hlen.
  - change ("" +:+ r) with r. apply dropLeading_done. now apply stripAny_None.
  - pose proof Hproper as Hproper'. unfold AllNonEmpty in Hproper'.
    rewrite Forall_forall in Hproper'. pose proof (Hproper' p Hp) as Hne.
    rewrite length_app_s in Hlen.
    assert (0 < String.length p)%nat by (destruct p; [congruence|cbn; lia]).
    destruct fuel as [|fuel]; [lia|]. cbn [dropLeading]. rewrite app_assoc_s.
    destruct (stripAny chars (p +:+ b +:+ r)) as [r0|] eqn:E.
    + destruct (stripAny_Some _ _ _ E) as (q & Hq & Heq).
      assert (q = p) as ->.
      { destruct (app_overlap _ _ _ _ Heq) as [[c Hc]|[c Hc]].
        - now apply (prefixFree_spec chars p q c).
        - symmetry. now apply (prefixFree_spec chars q p c). }
      apply app_inv_head_s in Heq as <-. apply IH. lia.
    + now destruct (stripAny_None _ _ E p (b +:+ r) Hp).
Qed.

Lemma stripAny_tight (t after : string) :
  t <> "" -> ~ BeginsWhite t -> Blank after -> stripAny whiteSpace (t +:+ after) = None.
Proof.
  intros Ht Hbegin Hafter.
  destruct (stripAny whiteSpace (t +:+ after)) as [rest|] eqn:E; [|reflexivity].
  exfalso. destruct (stripAny_Some _ _ _ E) as (q & Hq & Heq).
  destruct (app_overlap _ _ _ _ Heq) as [[c Hc]|[c Hc]].
  - destruct c as [|x c].
    + apply Hbegin. exists q, "". split; [exact Hq|].
      rewrite Hc, !app_empty_r. reflexivity.
    + rewrite Hc, app_assoc_s in Heq. apply app_inv_head_s in Heq.
      destruct Hafter as [|p after Hp Hafter]; [discriminate|].
      symmetry in Heq. revert Heq.
      apply (selfSynchronizing_spec whiteSpace q t (String x c) p rest after);
        [vm_compute; reflexivity|apply whiteSpace_nonempty|exact Hq|exact Hc|exact Ht|
         discriminate|exact Hp].
  - apply Hbegin. exists q, c. split; assumption.
Qed.

Lemma stripAny_end (t : string) :
  ~ EndsWhite t -> stripAny (String.rev <$> whiteSpace) (String.rev t) = None.
Proof.
  intros Hend.
  destruct (stripAny _ (String.rev t)) as [rest|] eqn:E; [|reflexivity].
  exfalso. destruct (stripAny_Some _ _ _ E) as (q & Hq & Heq).
  apply list_elem_of_fmap in Hq as (p & -> & Hp).
  apply Hend. exists p, (String.rev rest). split; [exact Hp|].
  rewrite <- (rev_rev t), Heq, rev_app_s, rev_rev. reflexivity.
Qed.

(** What [trim] returns is the only string that [Trimmed] allows. *)
Lemma Trimmed_trim (s t : string) : Trimmed s t -> trim s = t.
Proof.
  intros (before & after & -> & Hbefore & Hafter & Hbegin & Hend).
  destruct (string_dec t "") as [->|Ht].
  - change ("" +:+ after) with after. apply trim_Blank. now apply MadeOf_app.
  - unfold trim.
    assert (Estart : trimStart (before +:+ t +:+ after) = t +:+ after).
    { unfold trimStart. apply dropLeading_made;
        [vm_compute; reflexivity|apply whiteSpace_nonempty|exact Hbefore|
         now apply stripAny_tight|rewrite length_app_s; lia]. }
    rewrite Estart. unfold trimEnd. rewrite rev_app_s.
    rewrite dropLeading_made;
      [apply rev_rev|vm_compute; reflexivity|apply reversed_nonempty| |
       now apply stripAny_end|rewrite rev_length, length_app_s; lia].
    apply MadeOf_rev.
    change (String.rev <$> (String.rev <$> whiteSpace)) with whiteSpace.
    exact Hafter.
Qed.

Lemma Trimmed_iff (s t : string) : Trimmed s t <-> t = trim s.
Proof.
  split; [intros H; symmetry; now apply Trimmed_trim|intros ->; apply trim_spec].
Qed.

End TrimFacts.

Lemma nonEmpty_true (s : string) : nonEmpty s = true <-> s <> EmptyString.
Proof. destruct s; simpl; split; congruence. Qed.

Lemma usable_trimmed (k : option string) :
  usable k = if nonEmpty (trimmed k) then Some (trimmed k) else None.
Proof.
  destruct k as [s|]; cbn [usable trimmed]; [|reflexivity].
  destruct s as [|c s]; [reflexivity|].
  cbn [nonEmpty andb]. reflexivity.
Qed.

Lemma Offers_trimmed (k : option string) (t : string) : Offers k t <-> t = trimmed k.
Proof. destruct k as [s|]; [apply Trimmed_iff|reflexivity]. Qed.

Lemma NothingIn_trimmed (k : option string) : NothingIn k -> trimmed k = EmptyString.
Proof. destruct k as [s|]; [apply trim_Blank|reflexivity]. Qed.

Lemma getApiKey_cases (user env : option string) :
  match usable user with
  | Some k => Ok k
  | None => match usable env with
            | Some k => Ok k
            | None => Throw missingKeyMessage
            end
  end
  = (if nonEmpty (trimmed user) then Ok (trimmed user)
     else if nonEmpty (trimmed env) then Ok (trimmed env)
     else @Throw string string missingKeyMessage).
Proof.
  rewrite !usable_trimmed.
  destruct (nonEmpty (trimmed user)); [reflexivity|].
  destruct (nonEmpty (trimmed env)); reflexivity.
Qed.

Lemma resolution_laws (user env : string) (r : result string string) :
  r = (if nonEmpty user then Ok user
       else if nonEmpty env then Ok env else Throw missingKeyMessage) ->
  (user <> EmptyString -> r = Ok user) /\
  (user = EmptyString -> env <> EmptyString -> r = Ok env) /\
  ((exists e, r = Throw e) <-> user = EmptyString /\ env = EmptyString) /\
  (forall e, r = Throw e -> e = missingKeyMessage).
Proof.
  intros ->. repeat split.
  - intros H. apply nonEmpty_true in H. now rewrite H.
  - intros -> H. apply nonEmpty_true in H. simpl. now rewrite H.
  - destruct H as [e H]. destruct user; [reflexivity|discriminate].
  - destruct H as [e H]. destruct user; [|discriminate].
    destruct env; [reflexivity|discriminate].
  - intros [-> ->]. eexists. reflexivity.
  - intros e H. destruct (nonEmpty user); [discriminate|].
    destruct (nonEmpty env); [discriminate|]. congruence.
Qed.

(** C7. [getApiKey] returns the local-store value without the white space
    at its ends whenever that is not empty, whatever the environment holds;
    otherwise the environment value without the white space at its ends
    when that is not empty; and it throws, with the message that sends the
    user to the settings, exactly when both are empty.  This holds for both
    service files, the environment value being [API_KEY || GEMINI_API_KEY]
    in the one and [API_KEY] in the other.  In particular a local-store
    value that is absent, empty or white space with environment value
    "sk-env" gives "sk-env", and a local-store value "sk-user" gives
    "sk-user". *)
Theorem getApiKey_priority (src : KeySources) (user env env' : string) :
  Offers (stored_speakpro_api_key src) user ->
  Offers (RateLimited.envKey src) env ->
  Offers (env_API_KEY src) env' ->
  ((user <> EmptyString -> RateLimited.getApiKey src = Ok user) /\
   (user = EmptyString -> env <> EmptyString -> RateLimited.getApiKey src = Ok env) /\
   ((exists e, RateLimited.getApiKey src = Throw e) <->
      user = EmptyString /\ env = EmptyString) /\
   (forall e, RateLimited.getApiKey src = Throw e -> e = missingKeyMessage)) /\
  ((user <> EmptyString -> Basic.getApiKey src = Ok user) /\
   (user = EmptyString -> env' <> EmptyString -> Basic.getApiKey src = Ok env') /\
   ((exists e, Basic.getApiKey src = Throw e) <->
      user = EmptyString /\ env' = EmptyString) /\
   (forall e, Basic.getApiKey src = Throw e -> e = missingKeyMessage)) /\
  (NothingIn (stored_speakpro_api_key src) -> env_API_KEY src = Some "sk-env"%string ->
     RateLimited.getApiKey src = Ok "sk-env"%string /\
     Basic.getApiKey src = Ok "sk-env"%string) /\
  (stored_speakpro_api_key src = Some "sk-user"%string ->
     RateLimited.getApiKey src = Ok "sk-user"%string /\
     Basic.getApiKey src = Ok "sk-user"%string).
Proof.
  intros Hu He He'. apply Offers_trimmed in Hu, He, He'. subst user env env'.
  assert (HR : RateLimited.getApiKey src =
               if nonEmpty (trimmed (stored_speakpro_api_key src))
               then Ok (trimmed (stored_speakpro_api_key src))
               else if nonEmpty (trimmed (RateLimited.envKey src))
                    then Ok (trimmed (RateLimited.envKey src))
                    else Throw missingKeyMessage)
    by apply getApiKey_cases.
  assert (HB : Basic.getApiKey src =
               if nonEmpty (trimmed (stored_speakpro_api_key src))
               then Ok (trimmed (stored_speakpro_api_key src))
               else if nonEmpty (trimmed (env_API_KEY src))
                    then Ok (trimmed (env_API_KEY src))
                    else Throw missingKeyMessage)
    by apply getApiKey_cases.
  split; [exact (resolution_laws _ _ _ HR)|].
  split; [exact (resolution_laws _ _ _ HB)|].
  split.
  - intros Hnone Henv. apply NothingIn_trimmed in Hnone.
    rewrite HR, HB, Hnone. unfold RateLimited.envKey. rewrite Henv.
    split; reflexivity.
  - intros Hs. rewrite HR, HB, Hs. split; reflexivity.
Qed.

Lemma getApiKey_priority_witness :
  Offers (stored_speakpro_api_key paddedKeys) "sk-user" /\
  Offers (RateLimited.envKey paddedKeys) "sk-env" /\
  Offers (env_API_KEY paddedKeys) "sk-env" /\
  RateLimited.getApiKey paddedKeys = Ok "sk-user"%string /\
  Basic.getApiKey paddedKeys = Ok "sk-user"%string.
Proof.
  assert (Hu : Offers (stored_speakpro_api_key paddedKeys) "sk-user")
    by (apply Offers_trimmed; reflexivity).
  assert (He : Offers (RateLimited.envKey paddedKeys) "sk-env")
    by (apply Offers_trimmed; reflexivity).
  assert (He' : Offers (env_API_KEY paddedKeys) "sk-env")
    by (apply Offers_trimmed; reflexivity).
  destruct (getApiKey_priority paddedKeys _ _ _ Hu He He') as ((H1 & _) & (H2 & _) & _).
  repeat (split; [assumption|]).
  split; [apply H1|apply H2]; discriminate.
Defined.

(** ** Traces *)


Lemma attempts_app (a b : list Event) : attempts (a ++ b) = (attempts a + attempts b)%nat.
Proof. unfold attempts. now rewrite List.filter_app, length_app. Qed.


Lemma visible_app (a b : list Event) : visible (a ++ b) = visible a ++ visible b.
Proof. unfold visible. apply List.filter_app. Qed.

Lemma calls_app (a b : list Event) : calls (a ++ b) = calls a ++ calls b.
Proof.
  induction a as [|e a IH]; [reflexivity|].
  destruct e; simpl; now rewrite IH.
Qed.

Lemma attempts_calls (t : list Event) : attempts t = length (calls t).
Proof.
  induction t as [|e t IH]; [reflexivity|].
  destruct e; simpl; unfold attempts in *; simpl; now rewrite IH.
Qed.


Lemma continues_refl (w : World) : continues w w [].
Proof. unfold continues. now rewrite app_nil_r. Qed.

Lemma continues_trans (w1 w2 w3 : World) (d1 d2 : list Event) :
  continues w1 w2 d1 -> continues w2 w3 d2 -> continues w1 w3 (d1 ++ d2).
Proof. unfold continues. intros H1 H2. now rewrite H2, H1, app_assoc. Qed.

(** ** Facts about the rate governor inside a run *)

Lemma waitForRateLimit_eq (w : World) :
  RateLimited.waitForRateLimit w =
  let '(kept, wait) := RateLimited.admitCheck (clock w) (requestTimestamps w) in
  match wait with
  | Some ms =>
      (tt, {| clock := clock w + Z.max 0 ms;
              requestTimestamps := RateLimited.admitRecord (clock w + Z.max 0 ms) kept;
              trace := trace w ++ [EvRateWait ms] |})
  | None =>
      (tt, {| clock := clock w;
              requestTimestamps := RateLimited.admitRecord (clock w) kept;
              trace := trace w |})
  end.
Proof.
  unfold RateLimited.waitForRateLimit, mbind, M_bind, Date_now, getTimestamps.
  destruct (RateLimited.admitCheck (clock w) (requestTimestamps w)) as [kept [ms|]];
    reflexivity.
Qed.

Lemma waitForRateLimit_continues (w : World) :
  exists d, continues w (RateLimited.waitForRateLimit w).2 d /\
            attempts d = 0%nat /\ visible d = [] /\ calls d = [].
Proof.
  rewrite waitForRateLimit_eq.
  destruct (RateLimited.admitCheck (clock w) (requestTimestamps w)) as [kept [ms|]].
  - exists [EvRateWait ms]. repeat split; reflexivity.
  - exists []. repeat split; try reflexivity.
    unfold continues. simpl. now rewrite app_nil_r.
Qed.

(** ** The orchestrator of the rate-limited service file *)

Section RateLimitedRun.
Import RateLimited.
Context {T : Type}.
Variable fn : Work T.
Variable models : list string.
Variable maxRetries : Z.


(** One iteration of the retry loop, with the binds carried out. *)
Lemma tryModel_S (model : string) (r : nat) (attempt delay : Z) (w : World) :
  tryModel fn models maxRetries model (S r) attempt delay w =
  match outcome (fn model (attempts (trace (admitted w)))) with
  | Ok v => (Returned v, invoked fn model w)
  | Throw err =>
      if isNotFound err then (NextModel, invoked fn model w)
      else if isRateLimit err && (attempt <? maxRetries - 1) then
        tryModel fn models maxRetries model r (attempt + 1) (delay * 2)
          (backedOff (delay * 2) (invoked fn model w))
      else if isServerError err && (attempt <? maxRetries - 1) then
        tryModel fn models maxRetries model r (attempt + 1) (delay * 2)
          (backedOff delay (invoked fn model w))
      else if hasNext model models then (NextModel, invoked fn model w)
      else (Rethrown err, invoked fn model w)
  end.
Proof.
  unfold invoked, admitted. simpl tryModel.
  unfold mbind, M_bind, mret, M_ret, invoke.
  destruct (waitForRateLimit w) as [[] w1]. simpl.
  destruct (outcome (fn model (attempts (trace w1)))) as [v|err]; [reflexivity|].
  destruct (isNotFound err); [reflexivity|].
  destruct (isRateLimit err && (attempt <? maxRetries - 1)); [reflexivity|].
  destruct (isServerError err && (attempt <? maxRetries - 1)); [reflexivity|].
  destruct (hasNext model models); reflexivity.
Qed.

Lemma overModels_cons (model : string) (rest : list string) (w : World) :
  overModels fn models maxRetries (model :: rest) w =
  match tryModel fn models maxRetries model (Z.to_nat maxRetries) 0 3000 w with
  | (Returned v, w') => (Success v, w')
  | (Rethrown err, w') => (RawError err, w')
  | (NextModel, w') => overModels fn models maxRetries rest w'
  end.
Proof.
  simpl overModels. unfold mbind, M_bind, mret, M_ret.
  destruct (tryModel fn models maxRetries model (Z.to_nat maxRetries) 0 3000 w)
    as [[v|err|] w']; reflexivity.
Qed.

Lemma admitted_continues (w : World) :
  exists d, continues w (admitted w) d /\
            attempts d = 0%nat /\ visible d = [] /\ calls d = [].
Proof. apply waitForRateLimit_continues. Qed.

Lemma invoked_continues (model : string) (w : World) :
  exists d, continues w (invoked fn model w) (d ++ [EvAttempt model]) /\
            attempts d = 0%nat /\ visible d = [] /\ calls d = [].
Proof.
  destruct (admitted_continues w) as (d & Hd & Ha & Hv & Hc).
  exists d. repeat split; try assumption.
  unfold continues, invoked in *. simpl. now rewrite Hd, app_assoc.
Qed.

Lemma lastOutcome_invoked (model : string) (w : World) :
  lastOutcome fn (trace (invoked fn model w)) =
  Some (outcome (fn model (attempts (trace (admitted w))))).
Proof.
  unfold lastOutcome, invoked. simpl.
  rewrite calls_app. simpl. rewrite last_snoc, length_app. simpl.
  rewrite attempts_calls. do 3 f_equal. lia.
Qed.


Lemma backedOff_continues (ms : Z) (w : World) :
  continues w (backedOff ms w) [EvBackoff (inject_Z ms)].
Proof. reflexivity. Qed.

End RateLimitedRun.

Section RateLimitedSpec.
Import RateLimited.
Context {T : Type}.
Variable fn : Work T.
Variable models : list string.
Variable maxRetries : Z.


Lemma tryModel_spec (model : string) (remaining : nat) :
  forall (attempt delay : Z) (w : World),
    maxRetries - attempt <= Z.of_nat remaining ->
    exists d,
      continues w (tryModel fn models maxRetries model remaining attempt delay w).2 d /\
      (attempts d <= remaining)%nat /\
      calls d = replicate (attempts d) model /\
      exitSpec fn models model remaining d
        (tryModel fn models maxRetries model remaining attempt delay w).2
        (tryModel fn models maxRetries model remaining attempt delay w).1.
Proof.
  induction remaining as [|r IH]; intros attempt delay w Hfuel.
  - exists []. simpl. repeat split; try reflexivity.
    + apply continues_refl.
    + left. split; reflexivity.
  - rewrite tryModel_S.
    destruct (invoked_continues fn model w) as (d0 & Hd0 & Ha0 & Hv0 & Hc0).
    assert (Hone : attempts (d0 ++ [EvAttempt model]) = 1%nat)
      by (rewrite attempts_app, Ha0; reflexivity).
    assert (Hcalls : calls (d0 ++ [EvAttempt model]) = [model])
      by (rewrite calls_app, Hc0; reflexivity).
    pose proof (lastOutcome_invoked fn model w) as Hlast.
    (* what the iteration yields when it stops after this invocation *)
    assert (Hstop : forall x,
               exitSpec fn models model (S r) (d0 ++ [EvAttempt model]) (invoked fn model w) x ->
               exists d,
                 continues w (x, invoked fn model w).2 d /\
                 (attempts d <= S r)%nat /\
                 calls d = replicate (attempts d) model /\
                 exitSpec fn models model (S r) d (x, invoked fn model w).2 (x, invoked fn model w).1).
    { intros x Hx. exists (d0 ++ [EvAttempt model]). cbn [fst snd].
      rewrite Hone, Hcalls. repeat split; try assumption; try reflexivity. lia. }
    (* and when it goes round again after a delay *)
    assert (Hagain : forall ms delay',
               (attempt <? maxRetries - 1) = true ->
               (exists err, outcome (fn model (attempts (trace (admitted w)))) = Throw err) ->
               exists d,
                 continues w
                   (tryModel fn models maxRetries model r (attempt + 1) delay'
                      (backedOff ms (invoked fn model w))).2 d /\
                 (attempts d <= S r)%nat /\
                 calls d = replicate (attempts d) model /\
                 exitSpec fn models model (S r) d
                   (tryModel fn models maxRetries model r (attempt + 1) delay'
                      (backedOff ms (invoked fn model w))).2
                   (tryModel fn models maxRetries model r (attempt + 1) delay'
                      (backedOff ms (invoked fn model w))).1).
    { intros ms delay' Hlt [err Herr]. apply Z.ltb_lt in Hlt.
      destruct (IH (attempt + 1) delay' (backedOff ms (invoked fn model w)))
        as (d & Hd & Ha & Hc & Hx); [lia|].
      exists ((d0 ++ [EvAttempt model]) ++ [EvBackoff (inject_Z ms)] ++ d).
      repeat split.
      - eapply continues_trans; [exact Hd0|].
        eapply continues_trans; [apply backedOff_continues|exact Hd].
      - rewrite (attempts_app (d0 ++ _)), Hone, attempts_app. cbn. lia.
      - rewrite (attempts_app (d0 ++ _)), Hone, attempts_app.
        rewrite (calls_app (d0 ++ _)), Hcalls, calls_app. cbn.
        now rewrite Hc at 1.
      - destruct (tryModel fn models maxRetries model r (attempt + 1) delay'
                    (backedOff ms (invoked fn model w))) as [x w'] eqn:E.
        simpl in *. destruct x as [v|e|]; try exact Hx.
        destruct Hx as [[-> ->]|Hx]; [|right; exact Hx].
        exfalso. lia. }
    destruct (outcome (fn model (attempts (trace (admitted w))))) as [v|err] eqn:Eo.
    + apply Hstop. exact Hlast.
    + destruct (isNotFound err) eqn:Enf.
      { apply Hstop. right. exists err. split; [exact Hlast|]. now left. }
      destruct (isRateLimit err && (attempt <? maxRetries - 1)) eqn:Erl.
      { apply andb_true_iff in Erl as [_ Hlt]. apply Hagain; eauto. }
      destruct (isServerError err && (attempt <? maxRetries - 1)) eqn:Ese.
      { apply andb_true_iff in Ese as [_ Hlt]. apply Hagain; eauto. }
      destruct (hasNext model models) eqn:Ehn.
      { apply Hstop. right. exists err. split; [exact Hlast|]. now right. }
      apply Hstop. repeat split; assumption.
Qed.

End RateLimitedSpec.

Lemma indexOf_snoc (m : string) (l : list string) :
  ~ In m l -> indexOf m (l ++ [m]) = Z.of_nat (length l).
Proof.
  induction l as [|a l IH]; intros Hin.
  - simpl. now rewrite String.eqb_refl.
  - simpl app. simpl indexOf.
    destruct (String.eqb a m) eqn:E.
    + apply String.eqb_eq in E. exfalso. apply Hin. now left.
    + rewrite IH by (intros H; apply Hin; now right).
      destruct (Z.ltb_spec (Z.of_nat (length l)) 0); [lia|].
      simpl length. lia.
Qed.

Lemma hasNext_last (m : string) (models : list string) :
  List.NoDup models -> last models = Some m -> hasNext m models = false.
Proof.
  intros Hnd Hlast.
  destruct (last_Some models m) as [Hex _].
  destruct (Hex Hlast) as [l ->].
  apply List.NoDup_remove_2 in Hnd. rewrite app_nil_r in Hnd.
  unfold hasNext. rewrite indexOf_snoc by exact Hnd.
  apply Z.ltb_ge. rewrite length_app. simpl. lia.
Qed.

Section RateLimitedChain.
Import RateLimited.
Context {T : Type}.
Variable fn : Work T.
Variable models : list string.
Variable maxRetries : Z.


Lemma lastOutcome_calls (t t' : list Event) :
  calls t = calls t' -> lastOutcome fn t = lastOutcome fn t'.
Proof. unfold lastOutcome. now intros ->. Qed.

Lemma overModels_spec (rest : list string) :
  forall w : World,
    exists d,
      continues w (overModels fn models maxRetries rest w).2 d /\
      (attempts d <= Z.to_nat maxRetries * length rest)%nat /\
      chainSpec fn models maxRetries rest d (overModels fn models maxRetries rest w).2
                (overModels fn models maxRetries rest w).1.
Proof.
  induction rest as [|model rest IH]; intros w.
  - exists []. simpl. repeat split; try reflexivity.
    + apply continues_refl.
    + apply Nat.le_0_l.
    + left. split; [now right|reflexivity].
  - rewrite overModels_cons.
    destruct (tryModel_spec fn models maxRetries model (Z.to_nat maxRetries) 0 3000 w)
      as (d1 & Hd1 & Ha1 & Hc1 & Hx1); [lia|].
    destruct (tryModel fn models maxRetries model (Z.to_nat maxRetries) 0 3000 w)
      as [x w1]. cbn [fst snd] in *.
    destruct x as [v|err|].
    + exists d1. cbn [fst snd]. repeat split; [assumption| simpl length; lia |exact Hx1].
    + exists d1. cbn [fst snd]. destruct Hx1 as (Hl & Hnf & Hhn).
      repeat split; [assumption| simpl length; lia |assumption|assumption|].
      exists model. split; [now left|assumption].
    + destruct (IH w1) as (d2 & Hd2 & Ha2 & Hx2).
      exists (d1 ++ d2). repeat split.
      * eapply continues_trans; eassumption.
      * rewrite attempts_app. simpl length. lia.
      * destruct (overModels fn models maxRetries rest w1) as [r w2].
        cbn [fst snd] in *.
        destruct r as [v|err|msg]; cbn [chainSpec] in *.
        -- exact Hx2.
        -- destruct Hx2 as (Hl & Hnf & m & Hin & Hhn).
           repeat split; try assumption. exists m. split; [now right|assumption].
        -- destruct Hx2 as [-> Hx2]. split; [reflexivity|].
           destruct Hx2 as [[Hz Hc2]|(err & m & Hlast & Hlo & Hwhy)].
           ++ destruct Hx1 as [[Hr ->]|(err & Hlo & Hwhy)].
              ** left. split; [now left|exact Hc2].
              ** destruct Hz as [Hz| ->].
                 { left. split; [now left|].
                   rewrite calls_app, Hc2, Hc1.
                   replace (attempts d1) with 0%nat by lia. reflexivity. }
                 right. exists err, model. split; [reflexivity|]. split; [|exact Hwhy].
                 rewrite <- Hlo. apply lastOutcome_calls.
                 rewrite Hd2, calls_app, Hc2. now rewrite app_nil_r.
           ++ right. exists err, m. split; [|split; assumption].
              destruct rest as [|m' rest']; [discriminate|]. exact Hlast.
Qed.

End RateLimitedChain.

(** ** The orchestrator of the gemini-1.5 service file *)

Section BasicRun.
Import Basic.
Context {T : Type}.
Variable fn : Work T.
Variable models : list string.
Variable maxRetries : Z.


Lemma basic_tryModel_S (model : string) (r : nat) (attempt : Z) (delay : Q)
    (lastError : option JsError) (w : World) :
  tryModel fn models maxRetries model (S r) attempt delay lastError w =
  match outcome (fn model (attempts (trace w))) with
  | Ok v => ((Returned v, lastError), invokedB fn model w)
  | Throw err =>
      if (isRateLimit err || isServerError err) && (attempt <? maxRetries - 1) then
        tryModel fn models maxRetries model r (attempt + 1) (delay * 2.5)%Q (Some err)
          (backedOffB delay (invokedB fn model w))
      else if hasNext model models then ((NextModel, Some err), invokedB fn model w)
      else ((Rethrown err, Some err), invokedB fn model w)
  end.
Proof.
  unfold invokedB. simpl tryModel.
  unfold mbind, M_bind, mret, M_ret, invoke.
  destruct (outcome (fn model (attempts (trace w)))) as [v|err]; [reflexivity|].
  destruct ((isRateLimit err || isServerError err) && (attempt <? maxRetries - 1));
    [reflexivity|].
  destruct (hasNext model models); reflexivity.
Qed.

Lemma basic_overModels_cons (model : string) (rest : list string)
    (lastError : option JsError) (w : World) :
  overModels fn models maxRetries (model :: rest) lastError w =
  match tryModel fn models maxRetries model (Z.to_nat maxRetries) 0 1500%Q lastError w with
  | ((Returned v, _), w') => (Success v, w')
  | ((Rethrown err, _), w') => (RawError err, w')
  | ((NextModel, lastError'), w') => overModels fn models maxRetries rest lastError' w'
  end.
Proof.
  simpl overModels. unfold mbind, M_bind, mret, M_ret.
  destruct (tryModel fn models maxRetries model (Z.to_nat maxRetries) 0 1500%Q lastError w)
    as [[[v|err|] le] w']; reflexivity.
Qed.

Lemma lastOutcome_invokedB (model : string) (w : World) :
  lastOutcome fn (trace (invokedB fn model w)) =
  Some (outcome (fn model (attempts (trace w)))).
Proof.
  unfold lastOutcome, invokedB. simpl.
  rewrite calls_app. simpl. rewrite last_snoc, length_app. simpl.
  rewrite attempts_calls. do 3 f_equal. lia.
Qed.


Lemma basic_tryModel_spec (model : string) (remaining : nat) :
  forall (attempt : Z) (delay : Q) (lastError : option JsError) (w : World),
    maxRetries - attempt <= Z.of_nat remaining ->
    exists d,
      continues w (tryModel fn models maxRetries model remaining attempt delay lastError w).2 d /\
      (attempts d <= remaining)%nat /\
      calls d = replicate (attempts d) model /\
      exitSpecB fn models model remaining lastError d
        (tryModel fn models maxRetries model remaining attempt delay lastError w).2
        (tryModel fn models maxRetries model remaining attempt delay lastError w).1.
Proof.
  induction remaining as [|r IH]; intros attempt delay lastError w Hfuel.
  - exists []. simpl. repeat split; try reflexivity.
    + apply continues_refl.
    + left. repeat split; reflexivity.
  - rewrite basic_tryModel_S.
    pose proof (lastOutcome_invokedB model w) as Hlast.
    assert (Hd0 : continues w (invokedB fn model w) [EvAttempt model]) by reflexivity.
    destruct (outcome (fn model (attempts (trace w)))) as [v|err] eqn:Eo.
    + exists [EvAttempt model]. cbn [fst snd exitSpecB].
      repeat split; try assumption; try reflexivity. cbn. lia.
    + destruct ((isRateLimit err || isServerError err) && (attempt <? maxRetries - 1))
        eqn:Eretry.
      * apply andb_true_iff in Eretry as [_ Hlt]. apply Z.ltb_lt in Hlt.
        destruct (IH (attempt + 1) (delay * 2.5)%Q (Some err)
                     (backedOffB delay (invokedB fn model w)))
          as (d & Hd & Ha & Hc & Hx); [lia|].
        exists ([EvAttempt model] ++ [EvBackoff delay] ++ d).
        repeat split.
        -- eapply continues_trans; [exact Hd0|].
           eapply continues_trans; [|exact Hd]. reflexivity.
        -- rewrite !attempts_app. cbn. lia.
        -- rewrite !attempts_app, !calls_app. cbn. now rewrite Hc at 1.
        -- destruct (tryModel fn models maxRetries model r (attempt + 1)
                       (delay * 2.5)%Q (Some err) (backedOffB delay (invokedB fn model w)))
             as [[x le] w'] eqn:E.
           cbn [fst snd exitSpecB] in *. destruct x as [v|e|]; try exact Hx.
           destruct Hx as [(-> & _ & _)|[_ Hx]]; [exfalso; lia|].
           right. split; [|exact Hx]. rewrite !attempts_app. cbn. lia.
      * destruct (hasNext model models) eqn:Ehn.
        -- exists [EvAttempt model]. cbn [fst snd exitSpecB].
           repeat split; try assumption; try reflexivity; [cbn; lia|].
           right. split; [cbn; lia|]. exists err. repeat split; assumption.
        -- exists [EvAttempt model]. cbn [fst snd exitSpecB].
           repeat split; try assumption; try reflexivity. cbn. lia.
Qed.


Lemma basic_overModels_spec (rest : list string) :
  forall (lastError : option JsError) (w : World),
    exists d,
      continues w (overModels fn models maxRetries rest lastError w).2 d /\
      (attempts d <= Z.to_nat maxRetries * length rest)%nat /\
      chainSpecB fn models maxRetries rest lastError d (overModels fn models maxRetries rest lastError w).2
                 (overModels fn models maxRetries rest lastError w).1.
Proof.
  induction rest as [|model rest IH]; intros lastError w.
  - exists []. simpl. repeat split; try reflexivity.
    + apply continues_refl.
    + apply Nat.le_0_l.
    + left. repeat split. now right.
  - rewrite basic_overModels_cons.
    destruct (basic_tryModel_spec model (Z.to_nat maxRetries) 0 1500%Q lastError w)
      as (d1 & Hd1 & Ha1 & Hc1 & Hx1); [lia|].
    destruct (tryModel fn models maxRetries model (Z.to_nat maxRetries) 0 1500%Q lastError w)
      as [[x le] w1]. cbn [fst snd exitSpecB] in *.
    destruct x as [v|err|].
    + exists d1. cbn [fst snd]. repeat split; [assumption| simpl length; lia |exact Hx1].
    + exists d1. cbn [fst snd]. destruct Hx1 as (Hl & Hhn).
      repeat split; [assumption| simpl length; lia |assumption|].
      exists model. split; [now left|assumption].
    + destruct (IH le w1) as (d2 & Hd2 & Ha2 & Hx2).
      exists (d1 ++ d2). repeat split.
      * eapply continues_trans; eassumption.
      * rewrite attempts_app. simpl length. lia.
      * destruct (overModels fn models maxRetries rest le w1) as [r w2].
        cbn [fst snd] in *.
        destruct r as [v|err|msg]; cbn [chainSpecB] in *.
        -- exact Hx2.
        -- destruct Hx2 as (Hl & m & Hin & Hhn).
           split; [assumption|]. exists m. split; [now right|assumption].
        -- destruct Hx2 as [(Hz & Hc2 & ->)|(err & m & Hlast & Hlo & Hhn & ->)].
           ++ destruct Hx1 as [(Hr & -> & ->)|(Hpos & err & Hlo & Hhn & ->)].
              ** left. repeat split; [now left|exact Hc2].
              ** destruct Hz as [Hz| ->]; [exfalso; lia|].
                 right. exists err, model. repeat split; try assumption.
                 rewrite <- Hlo. apply lastOutcome_calls.
                 rewrite Hd2, calls_app, Hc2. now rewrite app_nil_r.
           ++ right. exists err, m. repeat split; try assumption.
              destruct rest as [|m' rest']; [discriminate|]. exact Hlast.
Qed.

End BasicRun.

(** ** Termination and the attempt budget *)

(** C9. Every orchestration run ends, in a returned value or in a thrown
    error, and the number of invocations of the unit of work it made is at
    most [maxRetries] times the length of the chain -- whatever the unit of
    work does, also when it fails every time.  Both service files. *)
Theorem attempts_bounded {T : Type} (fn : Work T) (models : list string)
    (maxRetries : Z) (w : World) :
  (exists r w' d,
      RateLimited.runChain fn models maxRetries w = (r, w') /\
      continues w w' d /\
      (attempts d <= Z.to_nat maxRetries * length models)%nat) /\
  (exists r w' d,
      Basic.runChain fn models maxRetries w = (r, w') /\
      continues w w' d /\
      (attempts d <= Z.to_nat maxRetries * length models)%nat).
Proof.
  split.
  - destruct (overModels_spec fn models maxRetries models w) as (d & Hd & Ha & _).
    unfold RateLimited.runChain.
    destruct (RateLimited.overModels fn models maxRetries models w) as [r w'].
    exists r, w', d. repeat split; assumption.
  - destruct (basic_overModels_spec fn models maxRetries models None w) as (d & Hd & Ha & _).
    unfold Basic.runChain.
    destruct (Basic.overModels fn models maxRetries models None w) as [r w'].
    exists r, w', d. repeat split; assumption.
Qed.

(** ** How an exhausted run fails *)

Lemma lastOutcome_is_reply {T : Type} (fn : Work T) (t : list Event)
    (o : result T JsError) :
  lastOutcome fn t = Some o -> exists m k, o = outcome (fn m k).
Proof.
  unfold lastOutcome. destruct (last (calls t)) as [m|]; [|discriminate].
  intros [= <-]. eauto.
Qed.

Lemma allFail_no_success {T : Type} (fn : Work T) (t : list Event) (v : T) :
  AllFail fn -> lastOutcome fn t <> Some (Ok v).
Proof.
  intros Hall H. apply lastOutcome_is_reply in H as (m & k & H).
  destruct (Hall m k) as [err Herr]. congruence.
Qed.

Lemma continues_calls (w w' : World) (d : list Event) :
  continues w w' d -> calls d = [] -> calls (trace w') = calls (trace w).
Proof. intros -> Hc. now rewrite calls_app, Hc, app_nil_r. Qed.

(** What the code does where C1 applies.  When every invocation fails, a
    run never returns a value.  In the rate-limited service file it throws the
    synthesized quota message only when it made no invocation at all or
    when its last invocation failed with a not-found error; otherwise it
    rethrows the provider error of its last invocation unchanged.  In the
    gemini-1.5 service file it rethrows the provider error of its last
    invocation unless it made no invocation at all. *)
Theorem exhausted_run_outcome {T : Type} (fn : Work T) (models : list string)
    (maxRetries : Z) (w : World) :
  AllFail fn ->
  List.NoDup models ->
  match RateLimited.runChain fn models maxRetries w with
  | (Success _, _) => False
  | (RawError err, w') =>
      lastOutcome fn (trace w') = Some (Throw err) /\
      RateLimited.isNotFound err = false
  | (Exhausted msg, w') =>
      msg = RateLimited.exhaustedMessage /\
      (calls (trace w') = calls (trace w) \/
       exists err, lastOutcome fn (trace w') = Some (Throw err) /\
                   RateLimited.isNotFound err = true)
  end /\
  match Basic.runChain fn models maxRetries w with
  | (Success _, _) => False
  | (RawError err, w') => lastOutcome fn (trace w') = Some (Throw err)
  | (Exhausted msg, w') =>
      msg = Basic.exhaustedMessage (length models) None /\
      calls (trace w') = calls (trace w)
  end.
Proof.
  intros Hall Hnd. split.
  - destruct (overModels_spec fn models maxRetries models w) as (d & Hd & _ & Hx).
    unfold RateLimited.runChain.
    destruct (RateLimited.overModels fn models maxRetries models w) as [r w'].
    cbn [fst snd] in *. destruct r as [v|err|msg]; cbn [chainSpec] in Hx.
    + eapply allFail_no_success; eassumption.
    + destruct Hx as (Hl & Hnf & _). now split.
    + destruct Hx as [-> Hx]. split; [reflexivity|].
      destruct Hx as [[_ Hc]|(err & m & Hlast & Hlo & [Hnf|Hhn])].
      * left. eapply continues_calls; eassumption.
      * right. exists err. now split.
      * rewrite (hasNext_last m models Hnd Hlast) in Hhn. discriminate.
  - destruct (basic_overModels_spec fn models maxRetries models None w) as (d & Hd & _ & Hx).
    unfold Basic.runChain.
    destruct (Basic.overModels fn models maxRetries models None w) as [r w'].
    cbn [fst snd] in *. destruct r as [v|err|msg]; cbn [chainSpecB] in Hx.
    + eapply allFail_no_success; eassumption.
    + now destruct Hx.
    + destruct Hx as [(_ & Hc & ->)|(err & m & Hlast & _ & Hhn & _)].
      * split; [reflexivity|]. eapply continues_calls; eassumption.
      * rewrite (hasNext_last m models Hnd Hlast) in Hhn. discriminate.
Qed.


(** C1. The code at the failing input: a unit of work that is throttled
    every time exhausts both models, and the caller receives the provider's
    own 429 error where the synthesized message is due.  The catch block of
    the last model reaches its [throw err] before the [throw new Error] that
    ends the function.  Both service files. *)
Lemma raw_error_reaches_caller :
  AllFail alwaysThrottled /\
  (RateLimited.callWithModelFallback alwaysThrottled RateLimited.text 2
     (Governor.boot 0)).1 = RawError quotaError /\
  (Basic.callWithModelFallback alwaysThrottled Basic.text 3
     (Governor.boot 0)).1 = RawError quotaError /\
  ~ (exists msg,
        (RateLimited.callWithModelFallback alwaysThrottled RateLimited.text 2
           (Governor.boot 0)).1 = Exhausted msg).
Proof.
  split; [intros model k; eexists; reflexivity|].
  split; [vm_compute; reflexivity|].
  split; [vm_compute; reflexivity|].
  intros [msg H]. vm_compute in H. discriminate.
Qed.

Lemma alwaysThrottled_fails : AllFail alwaysThrottled.
Proof. intros model k. eexists. reflexivity. Qed.

Lemma fallback_chain_NoDup : List.NoDup RateLimited.MODEL_FALLBACK_CHAIN.
Proof. repeat constructor; simpl; intuition discriminate. Qed.

Lemma exhausted_run_outcome_witness :
  AllFail alwaysThrottled /\
  List.NoDup RateLimited.MODEL_FALLBACK_CHAIN /\
  (match RateLimited.runChain alwaysThrottled RateLimited.MODEL_FALLBACK_CHAIN 2
           (Governor.boot 0) with
   | (Success _, _) => False
   | (RawError err, w') =>
       lastOutcome alwaysThrottled (trace w') = Some (Throw err) /\
       RateLimited.isNotFound err = false
   | (Exhausted msg, w') =>
       msg = RateLimited.exhaustedMessage /\
       (calls (trace w') = calls (trace (Governor.boot 0)) \/
        exists err, lastOutcome alwaysThrottled (trace w') = Some (Throw err) /\
                    RateLimited.isNotFound err = true)
   end /\
   match Basic.runChain alwaysThrottled RateLimited.MODEL_FALLBACK_CHAIN 2
           (Governor.boot 0) with
   | (Success _, _) => False
   | (RawError err, w') => lastOutcome alwaysThrottled (trace w') = Some (Throw err)
   | (Exhausted msg, w') =>
       msg = Basic.exhaustedMessage (length RateLimited.MODEL_FALLBACK_CHAIN) None /\
       calls (trace w') = calls (trace (Governor.boot 0))
   end).
Proof.
  split; [exact alwaysThrottled_fails|].
  split; [exact fallback_chain_NoDup|].
  exact (exhausted_run_outcome alwaysThrottled RateLimited.MODEL_FALLBACK_CHAIN 2
           (Governor.boot 0) alwaysThrottled_fails fallback_chain_NoDup).
Defined.

(** ** Scenarios over a two-model chain *)


Lemma failureKind_NotFound (err : JsError) :
  failureKind err = NotFound <-> RateLimited.isNotFound err = true.
Proof.
  unfold failureKind. destruct (RateLimited.isNotFound err).
  - tauto.
  - destruct (RateLimited.isRateLimit err), (RateLimited.isServerError err);
      split; intros; discriminate.
Qed.


Lemma attemptsOn_visible (m : string) (d : list Event) :
  attemptsOn m (visible d) = attemptsOn m d.
Proof.
  induction d as [|e d IH]; [reflexivity|].
  destruct e; unfold attemptsOn, visible in *; simpl.
  - destruct (String.eqb model m); simpl; now rewrite IH.
  - exact IH.
  - exact IH.
Qed.


Section TwoModels.
Import RateLimited.
Context {T : Type}.
Variable fn : Work T.
Variable models : list string.
Variable maxRetries : Z.

Lemma admitted_attempts (w : World) :
  attempts (trace (admitted w)) = attempts (trace w).
Proof.
  destruct (admitted_continues w) as (d & Hd & Ha & _).
  rewrite Hd, attempts_app, Ha. lia.
Qed.

Lemma invoked_attempts (model : string) (w : World) :
  attempts (trace (invoked fn model w)) = S (attempts (trace w)).
Proof.
  destruct (invoked_continues fn model w) as (d & Hd & Ha & _).
  rewrite Hd, !attempts_app, Ha. cbn. lia.
Qed.

Lemma invoked_visible (model : string) (w : World) :
  visible (trace (invoked fn model w)) = visible (trace w) ++ [EvAttempt model].
Proof.
  destruct (invoked_continues fn model w) as (d & Hd & _ & Hv & _).
  rewrite Hd, !visible_app, Hv. reflexivity.
Qed.

Lemma backedOff_attempts (ms : Z) (w : World) :
  attempts (trace (backedOff ms w)) = attempts (trace w).
Proof. unfold backedOff. simpl. rewrite attempts_app. cbn. lia. Qed.


(** Every run extends the trace it starts from. *)
Lemma runChain_continues (w : World) :
  exists d, continues w (runChain fn models maxRetries w).2 d.
Proof.
  destruct (overModels_spec fn models maxRetries models w) as (d & Hd & _).
  exists d. exact Hd.
Qed.

End TwoModels.


Lemma added_app {A} (t d : list A) : added t (t ++ d) = d.
Proof. unfold added. now rewrite drop_app_length. Qed.

Lemma visible_added (w w' : World) (d v : list Event) :
  continues w w' d ->
  visible (trace w') = visible (trace w) ++ v ->
  visible (added (trace w) (trace w')) = v.
Proof.
  intros Hd Hv. rewrite Hd, added_app. rewrite Hd, visible_app in Hv.
  now apply app_inv_head in Hv.
Qed.

(** C3. Over a chain [A, B] where the work fails against A with a not-found
    error and succeeds against B, the run returns the result B gave, having
    invoked the work once against A and once against B: the not-found error
    ends the retries on A at once. *)
Theorem not_found_skips_to_next_model {T : Type} (fn : Work T) (A B : string)
    (maxRetries : Z) (w : World) :
  1 <= maxRetries ->
  (forall k, exists err,
      outcome (fn A k) = Throw err /\ failureKind err = NotFound) ->
  (forall k, exists v, outcome (fn B k) = Ok v) ->
  exists v w',
    RateLimited.runChain fn [A; B] maxRetries w = (Success v, w') /\
    outcome (fn B (S (attempts (trace w)))) = Ok v /\
    visible (added (trace w) (trace w')) = [EvAttempt A; EvAttempt B] /\
    attemptsOn A (added (trace w) (trace w')) = 1%nat.
Proof.
  intros Hmax HA HB.
  assert (Hne : String.eqb B A = false).
  { apply String.eqb_neq. intros ->.
    destruct (HA 0%nat) as (err & He & _), (HB 0%nat) as (v & Hv). congruence. }
  destruct (runChain_continues fn [A; B] maxRetries w) as (d & Hd).
  revert Hd. unfold RateLimited.runChain.
  rewrite overModels_cons.
  destruct (Z.to_nat maxRetries) as [|n] eqn:En; [lia|].
  rewrite tryModel_S.
  destruct (HA (attempts (trace (admitted w)))) as (err & -> & Hk).
  apply failureKind_NotFound in Hk. rewrite Hk.
  rewrite overModels_cons, En, tryModel_S.
  destruct (HB (attempts (trace (admitted (invoked fn A w))))) as (v & Hv).
  rewrite Hv. cbn [fst snd]. intros Hd.
  exists v, (invoked fn B (invoked fn A w)).
  assert (Hvis : visible (added (trace w) (trace (invoked fn B (invoked fn A w))))
                 = [EvAttempt A; EvAttempt B]).
  { eapply visible_added; [exact Hd|].
    rewrite !invoked_visible, <- app_assoc. reflexivity. }
  repeat split.
  - rewrite <- Hv. rewrite admitted_attempts, invoked_attempts. reflexivity.
  - exact Hvis.
  - rewrite <- attemptsOn_visible, Hvis. unfold attemptsOn. simpl.
    now rewrite String.eqb_refl, Hne.
Qed.



Lemma not_found_skips_to_next_model_witness :
  1 <= 2 /\
  (forall k, exists err,
      outcome (unknownThenFine "gemini-2.5-flash-lite" k) = Throw err /\
      failureKind err = NotFound) /\
  (forall k, exists v, outcome (unknownThenFine "gemini-2.5-flash" k) = Ok v) /\
  exists v w',
    RateLimited.runChain unknownThenFine ["gemini-2.5-flash-lite"; "gemini-2.5-flash"]%string
      2 (Governor.boot 0) = (Success v, w') /\
    outcome (unknownThenFine "gemini-2.5-flash" (S (attempts (trace (Governor.boot 0))))) = Ok v /\
    visible (added (trace (Governor.boot 0)) (trace w')) =
      [EvAttempt "gemini-2.5-flash-lite"; EvAttempt "gemini-2.5-flash"] /\
    attemptsOn "gemini-2.5-flash-lite" (added (trace (Governor.boot 0)) (trace w')) = 1%nat.
Proof.
  assert (H0 : 1 <= 2) by lia.
  assert (H1 : forall k, exists err,
             outcome (unknownThenFine "gemini-2.5-flash-lite" k) = Throw err /\
             failureKind err = NotFound)
    by (intros k; exists notFoundError; split; reflexivity).
  assert (H2 : forall k, exists v, outcome (unknownThenFine "gemini-2.5-flash" k) = Ok v)
    by (intros k; exists 7%nat; reflexivity).
  split; [exact H0|]. split; [exact H1|]. split; [exact H2|].
  exact (not_found_skips_to_next_model unknownThenFine
           "gemini-2.5-flash-lite" "gemini-2.5-flash" 2 (Governor.boot 0) H0 H1 H2).
Defined.


(** ** The rate governor, one caller *)

Section GovernorFacts.
Import RateLimited Governor.



(** The oldest timestamp kept by the pruning loop is inside the window. *)
Lemma prune_head (now : Z) (ts : list Z) (t : Z) (rest : list Z) :
  prune now ts = t :: rest -> now - 60000 <= t.
Proof.
  induction ts as [|a ts IH]; [discriminate|].
  simpl. destruct (Z.ltb_spec a (now - 60000)); [exact IH|].
  intros [= <- _]. assumption.
Qed.

(** When the governor decides to wait, the array is not empty, the wait
    runs until the oldest kept timestamp leaves the window plus the margin
    of 500 ms, and it is at least that margin. *)
Lemma admitCheck_wait (now : Z) (ts kept : list Z) (ms : Z) :
  admitCheck now ts = (kept, Some ms) ->
  exists oldest rest,
    kept = oldest :: rest /\ (MAX_RPM <= length kept)%nat /\
    ms = oldest + 60000 - now + 500 /\ 500 <= ms.
Proof.
  unfold admitCheck. intros H.
  destruct (Nat.leb_spec MAX_RPM (length (prune now ts))) as [Hlen|Hlen];
    [|discriminate].
  injection H as <- <-.
  destruct (prune now ts) as [|oldest rest] eqn:Ep.
  - unfold MAX_RPM in Hlen. simpl in Hlen. lia.
  - exists oldest, rest. apply prune_head in Ep. simpl nth.
    repeat split; [exact Hlen|lia].
Qed.









End GovernorFacts.



(** ** The rate governor, several callers *)

Section Interleaving.
Import RateLimited Governor.

Lemma windowCount_le_length (now : Z) (ts : list Z) :
  (windowCount now ts <= length ts)%nat.
Proof. unfold windowCount. apply List.filter_length_le. Qed.

Lemma windowCount_app (now : Z) (a b : list Z) :
  windowCount now (a ++ b) = (windowCount now a + windowCount now b)%nat.
Proof. unfold windowCount. now rewrite List.filter_app, length_app. Qed.

Lemma windowCount_mono (now now' : Z) (ts : list Z) :
  now <= now' -> (windowCount now' ts <= windowCount now ts)%nat.
Proof.
  intros Hle. unfold windowCount.
  induction ts as [|t ts IH]; [reflexivity|].
  simpl.
  destruct (Z.leb_spec (now' - 60000) t), (Z.leb_spec (now - 60000) t);
    simpl; lia.
Qed.

Lemma windowCount_recent (now : Z) (ts : list Z) :
  Forall (fun t => now - 60000 <= t) ts -> windowCount now ts = length ts.
Proof.
  unfold windowCount. induction ts as [|t ts IH]; [reflexivity|].
  intros H. apply Forall_cons in H as [Ht H]. simpl.
  destruct (Z.leb_spec (now - 60000) t); [|lia]. simpl. now rewrite IH.
Qed.

(** On an array in time order the pruning loop keeps exactly the timestamps
    inside the window. *)
Lemma prune_sorted (now : Z) (ts : list Z) :
  StronglySorted Z.le ts ->
  StronglySorted Z.le (prune now ts) /\
  Forall (fun t => now - 60000 <= t) (prune now ts) /\
  length (prune now ts) = windowCount now ts /\
  (forall hi, Forall (fun t => t <= hi) ts -> Forall (fun t => t <= hi) (prune now ts)).
Proof.
  induction ts as [|t ts IH]; intros Hs.
  - simpl. repeat split; constructor.
  - apply StronglySorted_cons in Hs as [Hall Hs].
    simpl. destruct (Z.ltb_spec t (now - 60000)) as [Hold|Hnew].
    + destruct (IH Hs) as (H1 & H2 & H3 & H4).
      repeat split; try assumption.
      * rewrite H3. unfold windowCount. simpl.
        destruct (Z.leb_spec (now - 60000) t); [lia|reflexivity].
      * intros hi Hhi. apply Forall_cons in Hhi as [_ Hhi]. auto.
    + assert (Hrecent : Forall (fun s => now - 60000 <= s) (t :: ts)).
      { constructor; [exact Hnew|].
        eapply Forall_impl; [exact Hall|]. simpl. intros s Hs'. lia. }
      repeat split.
      * apply StronglySorted_cons. now split.
      * exact Hrecent.
      * now rewrite windowCount_recent.
      * auto.
Qed.

Lemma sorted_snoc (ts : list Z) (now : Z) :
  StronglySorted Z.le ts -> Forall (fun t => t <= now) ts ->
  StronglySorted Z.le (ts ++ [now]).
Proof.
  intros Hs Hle. apply StronglySorted_app. repeat split.
  - intros x1 x2 H1 H2. apply list_elem_of_singleton in H2 as ->.
    rewrite Forall_forall in Hle. now apply Hle.
  - exact Hs.
  - repeat constructor.
Qed.

Lemma admitCheck_kept (now : Z) (ts kept : list Z) (wait : option Z) :
  admitCheck now ts = (kept, wait) -> kept = prune now ts.
Proof. unfold admitCheck. now intros [= <- _]. Qed.

Lemma admitCheck_free (now : Z) (ts kept : list Z) :
  admitCheck now ts = (kept, None) -> (length kept < MAX_RPM)%nat.
Proof.
  unfold admitCheck. intros H.
  destruct (Nat.leb_spec MAX_RPM (length (prune now ts))) as [Hlen|Hlen];
    [discriminate|].
  injection H as <-. exact Hlen.
Qed.


Lemma step_decisions (s s' : Sched) (e : Step) :
  step s e = Some s' -> exists more, decisions s' = decisions s ++ more.
Proof.
  destruct e as [task now|task now]; unfold step.
  - destruct (suspended s !! task); [discriminate|].
    destruct (now <? time s); [discriminate|].
    destruct (admitCheck now (stamps s)) as [kept [ms|]];
      intros H; injection H as H; subst s'; simpl; eauto.
  - destruct (suspended s !! task) as [due|]; [|discriminate].
    destruct ((now <? time s) || (now <? due)); [discriminate|].
    intros H; injection H as H; subst s'. exists []. simpl. now rewrite app_nil_r.
Qed.

Lemma run_decisions (steps : list Step) :
  forall s s', run s steps = Some s' -> exists more, decisions s' = decisions s ++ more.
Proof.
  induction steps as [|e steps IH]; intros s s'.
  - intros [= <-]. exists []. now rewrite app_nil_r.
  - simpl. destruct (step s e) as [s1|] eqn:E; [|discriminate].
    intros H. apply IH in H as [m2 H2]. apply step_decisions in E as [m1 H1].
    exists (m1 ++ m2). now rewrite H2, H1, app_assoc.
Qed.

(** One step of a caller that overlaps nobody keeps the state orderly, and
    what it saw at its decision point was within the cap. *)
Lemma step_orderly (s s' : Sched) (e : Step) :
  Orderly s ->
  step s e = Some s' ->
  Forall Alone (added (decisions s) (decisions s')) ->
  Orderly s' /\ Forall WithinCap (added (decisions s) (decisions s')).
Proof.
  intros Hord Hstep Halone.
  destruct e as [task now|task now]; unfold step in Hstep.
  - (* a caller enters *)
    destruct (suspended s !! task) eqn:Elook; [discriminate|].
    destruct (now <? time s) eqn:Hnow; [discriminate|]. apply Z.ltb_ge in Hnow.
    destruct (admitCheck now (stamps s)) as [kept wait] eqn:Echeck.
    cbn beta iota in Hstep.
    assert (Hd : added (decisions s) (decisions s') =
                 [{| seen := windowCount now (stamps s);
                     overlapping := size (suspended s) |}]).
    { destruct wait as [ms|]; cbn beta iota in Hstep; injection Hstep as Hs;
        subst s'; simpl; apply added_app. }
    rewrite Hd in Halone |- *. apply Forall_cons in Halone as [Hal _].
    unfold Alone in Hal. simpl in Hal. apply map_size_empty_inv in Hal.
    destruct Hord as [(_ & Hsorted & Hle & Hcap)|(t & o & r & Hsus & _)];
      [|rewrite Hsus in Hal; exfalso; eapply (map_non_empty_singleton (M := gmap nat));
        exact Hal].
    destruct (prune_sorted now (stamps s) Hsorted) as (Hks & Hkr & Hklen & Hkle).
    assert (Hseen : (windowCount now (stamps s) <= MAX_RPM)%nat).
    { etransitivity; [apply (windowCount_mono (time s)); lia|exact Hcap]. }
    split; [|constructor; [exact Hseen|constructor]].
    pose proof (admitCheck_kept _ _ _ _ Echeck) as ->.
    destruct wait as [ms|]; cbn beta iota in Hstep; injection Hstep as Hs; subst s'.
    + (* the cap is reached: the caller suspends *)
      apply admitCheck_wait in Echeck as (oldest & rest & Hkept & Hfull & -> & _).
      right. exists task, oldest, rest. simpl. rewrite Hal, insert_empty.
      repeat split.
      * f_equal. lia.
      * exact Hkept.
      * exact Hks.
      * eapply Forall_impl; [apply Hkle; exact Hle|]. simpl. intros x Hx. lia.
      * rewrite Hklen. exact Hseen.
    + (* below the cap: the caller records its time and returns *)
      apply admitCheck_free in Echeck. left. simpl.
      assert (Hk : Forall (fun t => t <= now) (prune now (stamps s))).
      { eapply Forall_impl; [apply Hkle; exact Hle|]. simpl. intros x Hx. lia. }
      repeat split.
      * exact Hal.
      * apply sorted_snoc; assumption.
      * unfold admitRecord. apply Forall_app. split; [exact Hk|].
        constructor; [simpl; lia|constructor].
      * etransitivity; [apply windowCount_le_length|].
        unfold admitRecord. cbn [stamps]. rewrite length_app. simpl. lia.
  - (* a suspended caller wakes up *)
    destruct (suspended s !! task) as [due|] eqn:Elook; [|discriminate].
    destruct (now <? time s) eqn:Hnow; [discriminate|]. apply Z.ltb_ge in Hnow.
    destruct (now <? due) eqn:Hdue; [discriminate|]. apply Z.ltb_ge in Hdue.
    simpl in Hstep. injection Hstep as Hs. subst s'. simpl.
    assert (Hd : added (decisions s) (decisions s) = []).
    { rewrite <- (app_nil_r (decisions s)) at 2. apply added_app. }
    rewrite Hd. split; [|constructor].
    destruct Hord as [(Hsus & _)|(t & oldest & rest & Hsus & Hst & Hsorted & Hle & Hlen)].
    { rewrite Hsus, lookup_empty in Elook. discriminate. }
    rewrite Hsus in Elook. apply lookup_singleton_Some in Elook as [<- <-].
    left. unfold Idle. cbn [stamps time suspended]. repeat split.
    + rewrite Hsus. apply delete_singleton_eq.
    + apply sorted_snoc; [exact Hsorted|].
      eapply Forall_impl; [exact Hle|]. simpl. intros x Hx. lia.
    + unfold admitRecord. apply Forall_app. split.
      * eapply Forall_impl; [exact Hle|]. simpl. intros x Hx. lia.
      * constructor; [simpl; lia|constructor].
    + unfold admitRecord. rewrite Hst in Hlen |- *.
      change ((oldest :: rest) ++ [now]) with ([oldest] ++ (rest ++ [now])).
      rewrite (windowCount_app now [oldest]).
      assert (H0 : windowCount now [oldest] = 0%nat).
      { unfold windowCount. simpl.
        destruct (Z.leb_spec (now - 60000) oldest); [lia|reflexivity]. }
      rewrite H0. etransitivity; [apply windowCount_le_length|].
      rewrite length_app. simpl in *. lia.
Qed.

Lemma run_orderly (steps : list Step) :
  forall s s',
    Orderly s ->
    run s steps = Some s' ->
    Forall Alone (added (decisions s) (decisions s')) ->
    Forall WithinCap (added (decisions s) (decisions s')).
Proof.
  induction steps as [|e steps IH]; intros s s' Hord Hrun Halone.
  - injection Hrun as <-.
    rewrite <- (app_nil_r (decisions s)) at 2. rewrite added_app. constructor.
  - simpl in Hrun. destruct (step s e) as [s1|] eqn:Estep; [|discriminate].
    destruct (step_decisions _ _ _ Estep) as [m1 H1].
    destruct (run_decisions _ _ _ Hrun) as [m2 H2].
    rewrite H2, H1, <- app_assoc, added_app in Halone |- *.
    apply Forall_app in Halone as [Ha1 Ha2].
    destruct (step_orderly s s1 e Hord Estep) as [Hord1 Hw1].
    { now rewrite H1, added_app. }
    rewrite H1, added_app in Hw1.
    apply Forall_app. split; [exact Hw1|].
    specialize (IH s1 s' Hord1 Hrun). rewrite H2, added_app in IH. auto.
Qed.

Lemma start_orderly (t0 : Z) : Orderly (start t0).
Proof.
  left. unfold Idle, start. cbn [stamps time suspended].
  repeat split; try constructor. apply Nat.le_0_l.
Qed.


(** The pruning loop takes timestamps off the front, and only such as are
    more than 60 seconds old. *)
Lemma prune_split (now : Z) (ts : list Z) :
  exists old, ts = old ++ prune now ts /\ Forall (fun t => t < now - 60000) old.
Proof.
  induction ts as [|t ts (old & Heq & Hold)].
  - exists []. split; [reflexivity|constructor].
  - simpl. destruct (Z.ltb_spec t (now - 60000)).
    + exists (t :: old). split; [simpl; now rewrite <- Heq|now constructor].
    + exists []. split; [reflexivity|constructor].
Qed.

Lemma step_ledger (s s' : Sched) (e : Step) (pruned : list Z) :
  step s e = Some s' ->
  Forall (fun t => t < time s - 60000) pruned ->
  exists pruned',
    (pruned ++ stamps s) ++ recordedBy s e = pruned' ++ stamps s' /\
    Forall (fun t => t < time s' - 60000) pruned' /\
    (length (recordedBy s e) + size (suspended s') =
     requestsIn [e] + size (suspended s))%nat.
Proof.
  intros Hstep Hold.
  assert (Hmono : forall now, time s <= now ->
            Forall (fun t => t < now - 60000) pruned).
  { intros now Hnow. eapply Forall_impl; [exact Hold|]. cbn. intros t Ht. lia. }
  destruct e as [task now|task now]; unfold step in Hstep; cbn [recordedBy].
  - destruct (suspended s !! task) eqn:Etask; [discriminate|].
    destruct (Z.ltb_spec now (time s)); [discriminate|].
    destruct (prune_split now (stamps s)) as (old & Heq & Hnew).
    unfold admitCheck in *. cbn [snd] in *.
    destruct (MAX_RPM <=? length (prune now (stamps s)))%nat;
      injection Hstep as <-; cbn [stamps time suspended];
      exists (pruned ++ old).
    + split; [rewrite app_nil_r, <- app_assoc; now rewrite <- Heq|].
      split; [apply Forall_app; split; [now apply Hmono|exact Hnew]|].
      rewrite map_size_insert_None by exact Etask. cbn. lia.
    + unfold admitRecord.
      split; [rewrite Heq at 1; now rewrite <- !app_assoc|].
      split; [apply Forall_app; split; [now apply Hmono|exact Hnew]|].
      cbn. lia.
  - destruct (suspended s !! task) as [due|] eqn:Etask; [|discriminate].
    destruct (Z.ltb_spec now (time s)); [discriminate|].
    destruct (now <? due); [discriminate|].
    cbn [orb] in Hstep. injection Hstep as <-. cbn [stamps time suspended].
    exists pruned. unfold admitRecord.
    split; [now rewrite <- app_assoc|]. split; [now apply Hmono|].
    pose proof (map_size_delete task (suspended s)) as Hsize.
    rewrite Etask in Hsize.
    assert (size (suspended s) <> 0%nat).
    { intros H0. apply map_size_empty_inv in H0. rewrite H0 in Etask.
      now rewrite lookup_empty in Etask. }
    cbn. lia.
Qed.

Lemma run_ledger (steps : list Step) :
  forall (s s' : Sched) (pruned : list Z),
    run s steps = Some s' ->
    Forall (fun t => t < time s - 60000) pruned ->
    exists pruned',
      (pruned ++ stamps s) ++ recordedDuring s steps = pruned' ++ stamps s' /\
      Forall (fun t => t < time s' - 60000) pruned' /\
      (length (recordedDuring s steps) + size (suspended s') =
       requestsIn steps + size (suspended s))%nat.
Proof.
  induction steps as [|e steps IH]; intros s s' pruned Hrun Hold.
  - injection Hrun as <-. exists pruned. cbn. rewrite app_nil_r. auto.
  - cbn [run recordedDuring] in *. destruct (step s e) as [s1|] eqn:Estep; [|discriminate].
    destruct (step_ledger s s1 e pruned Estep Hold) as (p1 & Heq1 & Hold1 & Hn1).
    destruct (IH s1 s' p1 Hrun Hold1) as (p2 & Heq2 & Hold2 & Hn2).
    exists p2. split; [now rewrite app_assoc, Heq1|]. split; [exact Hold2|].
    rewrite length_app.
    assert (requestsIn (e :: steps) = requestsIn [e] + requestsIn steps)%nat
      by (destruct e; reflexivity).
    lia.
Qed.

(** C5 fails on the code: with two callers suspended at the same time, each
    records a timestamp on waking without looking at the array again, and
    the next caller finds nine timestamps inside the window, one more than
    [MAX_RPM] allows. *)
Lemma overlapping_callers_exceed_cap :
  (fun s => (stamps s, seen <$> decisions s)) <$> run (start 0) overlappingCallers =
  Some ([1000; 2000; 3000; 4000; 5000; 6000; 7000; 60500; 60500],
        [0; 1; 2; 3; 4; 5; 6; 7; 8; 8; 9]%nat) /\
  ~ (forall s, run (start 0) overlappingCallers = Some s ->
               Forall WithinCap (decisions s)).
Proof.
  split; [vm_compute; reflexivity|].
  intros H.
  destruct (run (start 0) overlappingCallers) as [s|] eqn:E;
    [|vm_compute in E; discriminate].
  specialize (H s eq_refl).
  assert (Hs : seen <$> decisions s = [0; 1; 2; 3; 4; 5; 6; 7; 8; 8; 9]%nat).
  { vm_compute in E. injection E as <-. reflexivity. }
  assert (Hall : Forall (fun n => (n <= MAX_RPM)%nat) (seen <$> decisions s)).
  { apply Forall_fmap. exact H. }
  rewrite Hs in Hall. rewrite !Forall_cons in Hall.
  unfold MAX_RPM in Hall. lia.
Qed.

(** C5, as the code has it.  In a run in which no caller enters
    [waitForRateLimit] while another one is suspended in it, the number of
    recorded timestamps inside the trailing 60 seconds never exceeds
    [MAX_RPM] at a decision point.  And in every run, however the callers
    interleave, no timestamp is lost or counted twice across a suspension:
    the timestamps recorded so far -- one by each caller admitted at once,
    at the time it asked, and one by each caller that has woken, at the time
    it woke -- are, in that order, those that the pruning loop has removed,
    all of them more than 60 seconds old, and then those in the array; and
    every call has recorded one timestamp or is still suspended. *)
Theorem cap_respected_by_callers_in_turn (t0 : Z) (steps : list Step) (s : Sched) :
  run (start t0) steps = Some s ->
  (Forall Alone (decisions s) -> Forall WithinCap (decisions s)) /\
  exists pruned,
    recordedDuring (start t0) steps = pruned ++ stamps s /\
    Forall (fun t => t < time s - 60000) pruned /\
    (length (recordedDuring (start t0) steps) + size (suspended s) = requestsIn steps)%nat.
Proof.
  intros Hrun. split.
  - intros Halone.
    pose proof (run_orderly steps (start t0) s (start_orderly t0) Hrun) as H.
    change (added (decisions (start t0)) (decisions s)) with (decisions s) in H.
    auto.
  - destruct (run_ledger steps (start t0) s [] Hrun (Forall_nil_2 _))
      as (pruned & Heq & Hold & Hcount).
    exists pruned. split; [exact Heq|]. split; [exact Hold|].
    change (size (suspended (start t0))) with 0%nat in Hcount. lia.
Qed.

Lemma cap_respected_by_callers_in_turn_witness :
  run (start 0) callersInTurn = Some callersInTurnEnd /\
  Forall Alone (decisions callersInTurnEnd) /\
  Forall WithinCap (decisions callersInTurnEnd) /\
  recordedDuring (start 0) callersInTurn = [0] ++ stamps callersInTurnEnd.
Proof.
  assert (Hrun : run (start 0) callersInTurn = Some callersInTurnEnd)
    by (vm_compute; reflexivity).
  assert (Halone : Forall Alone (decisions callersInTurnEnd))
    by (vm_compute; repeat constructor).
  split; [exact Hrun|]. split; [exact Halone|].
  split; [|vm_compute; reflexivity].
  exact (proj1 (cap_respected_by_callers_in_turn 0 callersInTurn callersInTurnEnd Hrun)
           Halone).
Defined.

End Interleaving.


(** ** What [evaluatePresentation] returns *)

(** A returned value is what some invocation of the unit of work gave. *)
Lemma success_is_a_reply {T : Type} (fn : Work T) (models : list string)
    (maxRetries : Z) (w w' : World) (v : T) :
  RateLimited.runChain fn models maxRetries w = (Success v, w') \/
  Basic.runChain fn models maxRetries w = (Success v, w') ->
  exists model k, outcome (fn model k) = Ok v.
Proof.
  intros [H|H].
  - destruct (overModels_spec fn models maxRetries models w) as (d & _ & _ & Hx).
    unfold RateLimited.runChain in H. rewrite H in Hx. cbn in Hx.
    apply lastOutcome_is_reply in Hx as (m & k & Hx). eauto.
  - destruct (basic_overModels_spec fn models maxRetries models None w)
      as (d & _ & _ & Hx).
    unfold Basic.runChain in H. rewrite H in Hx. cbn in Hx.
    apply lastOutcome_is_reply in Hx as (m & k & Hx). eauto.
Qed.

Lemma postprocess_fixed_fields (parseNumber : JsVal -> Num) (raw : JsVal)
    (level : CEFRLevel) (r : gmap string JsVal) :
  postprocess parseNumber raw level = Ok r ->
  r !! "mistakes"%string = Some (JArr []) /\
  r !! "keyVocabulary"%string = Some (JArr []) /\
  r !! "perceivedLevel"%string = Some (JStr (levelName level)).
Proof.
  intros H.
  assert (Hr : exists rest : gmap string JsVal,
             r = <["mistakes"%string := JArr []]>
                 (<["keyVocabulary"%string := JArr []]>
                 (<["perceivedLevel"%string := JStr (levelName level)]> rest))).
  { destruct raw; try discriminate; injection H as <-; eexists; reflexivity. }
  destruct Hr as [rest ->].
  repeat split.
  - apply lookup_insert_eq.
  - rewrite lookup_insert_ne by discriminate. apply lookup_insert_eq.
  - rewrite !lookup_insert_ne by discriminate. apply lookup_insert_eq.
Qed.

Lemma evaluationWork_reply (parseNumber : JsVal -> Num) (key : result string string)
    (remote : Work JsVal) (level : CEFRLevel) (model : string) (k : nat)
    (r : gmap string JsVal) :
  outcome (evaluationWork parseNumber key remote level model k) = Ok r ->
  exists raw, postprocess parseNumber raw level = Ok r.
Proof.
  unfold evaluationWork. destruct key as [key|msg]; [|discriminate].
  simpl. destruct (outcome (remote model k)) as [raw|err]; [|discriminate].
  eauto.
Qed.

(** C10. Whatever the remote response holds, a successful call of
    [evaluatePresentation] returns an object whose [mistakes] and
    [keyVocabulary] are empty arrays and whose [perceivedLevel] is the level
    the caller passed.  Both service files. *)
Theorem evaluation_fixed_fields (parseNumber : JsVal -> Num) (src : KeySources)
    (remote : Work JsVal) (level : CEFRLevel) (w w' : World)
    (r : gmap string JsVal) :
  RateLimited.evaluatePresentation parseNumber src remote level w = (Success r, w') \/
  Basic.evaluatePresentation parseNumber src remote level w = (Success r, w') ->
  r !! "mistakes"%string = Some (JArr []) /\
  r !! "keyVocabulary"%string = Some (JArr []) /\
  r !! "perceivedLevel"%string = Some (JStr (levelName level)).
Proof.
  intros H.
  assert (Hreply : exists raw, postprocess parseNumber raw level = Ok r).
  { destruct H as [H|H].
    - unfold RateLimited.evaluatePresentation, RateLimited.callWithModelFallback in H.
      destruct (success_is_a_reply _ _ _ _ _ _ (or_introl H)) as (m & k & Hk).
      eapply evaluationWork_reply; exact Hk.
    - unfold Basic.evaluatePresentation, Basic.callWithModelFallback in H.
      destruct (success_is_a_reply _ _ _ _ _ _ (or_intror H)) as (m & k & Hk).
      eapply evaluationWork_reply; exact Hk. }
  destruct Hreply as [raw Hraw].
  eapply postprocess_fixed_fields; exact Hraw.
Qed.


Lemma evaluation_fixed_fields_witness :
  (RateLimited.evaluatePresentation noParse sampleKeys sampleRemote B1 (Governor.boot 0)
     = (Success sampleResult, sampleEvaluation.2) \/
   Basic.evaluatePresentation noParse sampleKeys sampleRemote B1 (Governor.boot 0)
     = (Success sampleResult, sampleEvaluation.2)) /\
  sampleResult !! "mistakes"%string = Some (JArr []) /\
  sampleResult !! "keyVocabulary"%string = Some (JArr []) /\
  sampleResult !! "perceivedLevel"%string = Some (JStr (levelName B1)).
Proof.
  assert (H : RateLimited.evaluatePresentation noParse sampleKeys sampleRemote B1
                (Governor.boot 0) = (Success sampleResult, sampleEvaluation.2) \/
              Basic.evaluatePresentation noParse sampleKeys sampleRemote B1
                (Governor.boot 0) = (Success sampleResult, sampleEvaluation.2)).
  { left. vm_compute. reflexivity. }
  split; [exact H|].
  exact (evaluation_fixed_fields noParse sampleKeys sampleRemote B1 (Governor.boot 0)
           sampleEvaluation.2 sampleResult H).
Defined.

(** ** The normalizer *)


(** Division by a constant, as the multiplication [lra] understands. *)
Ltac constant_division :=
  unfold Qdiv in *;
  change (/ 10)%Q with (1 # 10)%Q in *; change (/ 6)%Q with (1 # 6)%Q in *.


Lemma Qle_bool_false (x y : Q) : Qle_bool x y = false -> (y < x)%Q.
Proof.
  intros H. apply Qnot_le_lt. intros Hle.
  apply Qle_bool_iff in Hle. congruence.
Qed.

Section Binary64Facts.

Local Open Scope Q_scope.

Lemma roundHalfEven_near (x : Q) : Qabs (inject_Z (roundHalfEven x) - x) <= 1 # 2.
Proof.
  unfold roundHalfEven.
  pose proof (Qfloor_le x) as Hlo.
  pose proof (Qlt_floor x) as Hhi. rewrite inject_Z_plus in Hhi.
  change (inject_Z 1) with 1 in Hhi.
  set (f := Qfloor x) in *. clearbody f.
  apply Qabs_Qle_condition.
  destruct (Qcompare_spec (x - inject_Z f) (1 # 2)) as [H|H|H].
  - destruct (Z.even f);
      [|rewrite inject_Z_plus; change (inject_Z 1) with 1]; lra.
  - lra.
  - rewrite inject_Z_plus. change (inject_Z 1) with 1. lra.
Qed.

Lemma roundHalfEven_sign (x : Q) :
  (0 <= x -> (0 <= roundHalfEven x)%Z) /\ (x <= 0 -> (roundHalfEven x <= 0)%Z).
Proof.
  pose proof (roundHalfEven_near x) as H. apply Qabs_Qle_condition in H.
  split; intros Hx.
  - assert (H' : inject_Z (-1) < inject_Z (roundHalfEven x)).
    { change (inject_Z (-1)) with (-1). lra. }
    rewrite <- Zlt_Qlt in H'. lia.
  - assert (H' : inject_Z (roundHalfEven x) < inject_Z 1).
    { change (inject_Z 1) with 1. lra. }
    rewrite <- Zlt_Qlt in H'. lia.
Qed.

Lemma pow2_pos (e : Z) : 0 < 2 ^ e.
Proof. apply Qpower_0_lt. reflexivity. Qed.

Lemma pow2_le (a b : Z) : (a <= b)%Z -> 2 ^ a <= 2 ^ b.
Proof. intros H. apply Qpower_le_compat_l; [exact H|discriminate]. Qed.

Lemma pow2_lt (a b : Z) : (a < b)%Z -> 2 ^ a < 2 ^ b.
Proof. intros H. apply Qpower_lt_compat_l; [exact H|reflexivity]. Qed.

Lemma pow2_plus (a b : Z) : 2 ^ (a + b) == 2 ^ a * 2 ^ b.
Proof. apply Qpower_plus. discriminate. Qed.

Lemma pow2_Z (n : Z) : (0 <= n)%Z -> 2 ^ n == inject_Z (2 ^ n).
Proof. intros H. symmetry. apply (Zpower_Qpower 2 n H). Qed.

(** The value of a fraction between bounds on its numerator and
    denominator. *)
Lemma Qabs_fraction (q : Q) :
  Qabs q == inject_Z (Z.abs (Qnum q)) / inject_Z (Zpos (Qden q)).
Proof.
  destruct q as [n d]. cbn [Qnum Qden]. rewrite <- Zabs_Qabs.
  unfold Qeq, Qdiv, Qmult, Qinv, inject_Z. cbn. lia.
Qed.

Lemma binade_spec (q : Q) :
  ~ q == 0 -> 2 ^ binade q <= Qabs q /\ Qabs q < 2 ^ (binade q + 1).
Proof.
  intros Hq. unfold binade.
  set (n := Z.abs (Qnum q)). set (d := Zpos (Qden q)).
  assert (Hn : (0 < n)%Z).
  { unfold n. destruct q as [[|p|p] dd]; cbn; try lia. destruct Hq. reflexivity. }
  assert (Hd : (0 < d)%Z) by (unfold d; lia).
  destruct (Z.log2_spec n Hn) as [Hn1 Hn2].
  destruct (Z.log2_spec d Hd) as [Hd1 Hd2].
  set (a := Z.log2 n) in *. set (b := Z.log2 d) in *.
  assert (Ha : (0 <= a)%Z) by apply Z.log2_nonneg.
  assert (Hb : (0 <= b)%Z) by apply Z.log2_nonneg.
  assert (Habs : Qabs q == inject_Z n / inject_Z d) by apply Qabs_fraction.
  assert (Hdq : 0 < inject_Z d) by (change 0 with (inject_Z 0); now rewrite <- Zlt_Qlt).
  assert (Hpa : 2 ^ a <= inject_Z n) by (rewrite pow2_Z by lia; now rewrite <- Zle_Qle).
  assert (Hpa' : inject_Z n < 2 ^ (a + 1))
    by (rewrite pow2_Z by lia; rewrite <- Zlt_Qlt; now rewrite Z.add_1_r).
  assert (Hpb : 2 ^ b <= inject_Z d) by (rewrite pow2_Z by lia; now rewrite <- Zle_Qle).
  assert (Hpb' : inject_Z d < 2 ^ (b + 1))
    by (rewrite pow2_Z by lia; rewrite <- Zlt_Qlt; now rewrite Z.add_1_r).
  (* 2^(a-b-1) < |q| < 2^(a-b+1) *)
  assert (Hlow : 2 ^ (a - b - 1) <= Qabs q).
  { rewrite Habs. apply Qle_shift_div_l; [exact Hdq|].
    assert (E : 2 ^ (a - b - 1) * 2 ^ (b + 1) == 2 ^ a).
    { rewrite <- pow2_plus. now replace (a - b - 1 + (b + 1))%Z with a by lia. }
    pose proof (pow2_pos (a - b - 1)). nra. }
  assert (Hhigh : Qabs q < 2 ^ (a - b + 1)).
  { rewrite Habs. apply Qlt_shift_div_r; [exact Hdq|].
    assert (E : 2 ^ (a - b + 1) * 2 ^ b == 2 ^ (a + 1)).
    { rewrite <- pow2_plus. now replace (a - b + 1 + b)%Z with (a + 1)%Z by lia. }
    pose proof (pow2_pos (a - b + 1)). nra. }
  destruct (Qle_bool (2 ^ (a - b)) (Qabs q)) eqn:E.
  - apply Qle_bool_iff in E. split; [exact E|exact Hhigh].
  - apply Qle_bool_false in E. split; [exact Hlow|].
    now replace (a - b - 1 + 1)%Z with (a - b)%Z by lia.
Qed.

Lemma ulp_pos (q : Q) : 0 < ulp q.
Proof. apply pow2_pos. Qed.

Lemma ulp_bound (q : Q) : ~ q == 0 -> ulp q <= Qabs q * (2 * eps) + 2 * tiny.
Proof.
  intros Hq. unfold ulp. destruct (binade_spec q Hq) as [Hlo _].
  pose proof (Qabs_nonneg q) as Hq0.
  assert (Htiny : 2 * tiny == 2 ^ (-1074)).
  { unfold tiny. change 2 with (2 ^ 1) at 1. rewrite <- pow2_plus. reflexivity. }
  assert (Heps : 2 * eps == 2 ^ (-52)) by reflexivity.
  destruct (Z.max_spec (binade q - 52) (-1074)) as [[_ ->]|[_ ->]].
  - rewrite <- Htiny. pose proof (pow2_pos (-1074)). rewrite <- Htiny in H.
    assert (0 <= Qabs q * (2 * eps)) by (apply Qmult_le_0_compat; [exact Hq0|discriminate]).
    lra.
  - assert (E : 2 ^ (binade q - 52) == 2 ^ binade q * (2 * eps)).
    { rewrite Heps, <- pow2_plus. reflexivity. }
    rewrite E. pose proof (pow2_pos (-1075)) as Ht. fold tiny in Ht.
    assert (2 ^ binade q * (2 * eps) <= Qabs q * (2 * eps)).
    { apply Qmult_le_compat_r; [exact Hlo|discriminate]. }
    lra.
Qed.

(** What [binary64] rounds to, before the test for overflow. *)
Lemma nearest_error (q : Q) :
  ~ q == 0 -> Qabs (nearest q - q) <= Qabs q * eps + tiny.
Proof.
  intros Hq. unfold nearest.
  pose proof (ulp_pos q) as Hu. pose proof (ulp_bound q Hq) as Hb.
  pose proof (roundHalfEven_near (q / ulp q)) as Hn.
  set (m := inject_Z (roundHalfEven (q / ulp q))) in *. clearbody m.
  set (u := ulp q) in *. clearbody u.
  assert (E : m * u - q == (m - q / u) * u) by (field; lra).
  rewrite E, Qabs_Qmult, (Qabs_pos u) by lra.
  assert (Qabs (m - q / u) * u <= (1 # 2) * u)
    by (apply Qmult_le_compat_r; [exact Hn|lra]).
  lra.
Qed.

Lemma nearest_sign (q : Q) :
  (0 <= q -> 0 <= nearest q) /\ (q <= 0 -> nearest q <= 0).
Proof.
  unfold nearest. pose proof (ulp_pos q) as Hu.
  destruct (roundHalfEven_sign (q / ulp q)) as [Hp Hn].
  split; intros Hq.
  - apply Qmult_le_0_compat; [|lra].
    change 0 with (inject_Z 0). rewrite <- Zle_Qle. apply Hp.
    apply Qle_shift_div_l; [exact Hu|]. lra.
  - assert (H : (roundHalfEven (q / ulp q) <= 0)%Z).
    { apply Hn. apply Qle_shift_div_r; [exact Hu|]. lra. }
    rewrite Zle_Qle in H. change (inject_Z 0) with 0 in H.
    set (m := inject_Z (roundHalfEven (q / ulp q))) in *. clearbody m. nra.
Qed.

Lemma binary64_cases (q : Q) :
  (q == 0 /\ binary64 q = Finite 0) \/
  (~ q == 0 /\ 2 ^ 1024 <= Qabs (nearest q) /\ binary64 q = Infinity (negativeQ q)) \/
  (~ q == 0 /\ Qabs (nearest q) < 2 ^ 1024 /\ binary64 q = Finite (Qred (nearest q))).
Proof.
  unfold binary64. fold (nearest q).
  destruct (Qeq_bool q 0) eqn:E0.
  - left. split; [now apply Qeq_bool_iff|reflexivity].
  - right. apply Qeq_bool_neq in E0.
    destruct (Qle_bool (2 ^ 1024) (Qabs (nearest q))) eqn:E.
    + left. apply Qle_bool_iff in E. auto.
    + right. apply Qle_bool_false in E. auto.
Qed.

Lemma tiny_small : 0 < tiny /\ tiny <= 1 # 2 ^ 60.
Proof.
  split; [apply pow2_pos|].
  unfold tiny. apply Qle_trans with (2 ^ (-60)); [apply pow2_le; lia|].
  apply Qle_bool_iff. vm_compute. reflexivity.
Qed.

(** A finite result is within the rounding error of the exact one, and on
    the same side of 0. *)
Lemma binary64_finite (q r : Q) :
  binary64 q = Finite r ->
  Qabs (r - q) <= Qabs q * eps + tiny /\
  (0 <= q -> 0 <= r) /\ (q <= 0 -> r <= 0).
Proof.
  pose proof tiny_small as [Ht _].
  destruct (binary64_cases q) as [[H0 ->]|[(_ & _ & ->)|(Hq & _ & ->)]];
    [|discriminate|]; intros [= <-].
  - split; [|split; intros; lra].
    assert (E : Qabs (0 - q) == 0) by (rewrite H0; reflexivity).
    assert (E' : Qabs q == 0) by (rewrite H0; reflexivity).
    rewrite E, E'. lra.
  - rewrite Qred_correct. split; [now apply nearest_error|apply nearest_sign].
Qed.

Lemma binary64_not_NaN (q : Q) : binary64 q <> NaN.
Proof.
  destruct (binary64_cases q) as [[_ ->]|[(_ & _ & ->)|(_ & _ & ->)]]; discriminate.
Qed.

(** Only a large number rounds to an infinity, and to the one on its
    side. *)
Lemma binary64_infinite (q : Q) (s : bool) :
  binary64 q = Infinity s ->
  2 ^ 1000 <= Qabs q /\ s = negativeQ q.
Proof.
  pose proof tiny_small as [Ht Ht'].
  destruct (binary64_cases q) as [[_ ->]|[(Hq & Hbig & ->)|(_ & _ & ->)]];
    [discriminate| |discriminate]; intros [= <-].
  split; [|reflexivity].
  pose proof (nearest_error q Hq) as He.
  pose proof (Qabs_triangle_reverse (nearest q) q) as Htr.
  pose proof (Qabs_nonneg q) as Hq0.
  assert (Heps : eps <= 1) by discriminate.
  assert (H24 : 2 ^ 1024 == 2 ^ 1000 * 2 ^ 24) by (rewrite <- pow2_plus; reflexivity).
  assert (H1000 : 1 <= 2 ^ 1000) by (change 1 with (2 ^ 0); apply pow2_le; lia).
  assert (Hv : 2 ^ 24 == 16777216) by reflexivity.
  assert (Hsmall : tiny <= 1) by (eapply Qle_trans; [exact Ht'|discriminate]).
  assert (Hqe : Qabs q * eps <= Qabs q).
  { assert (0 <= Qabs q * (1 - eps)) by (apply Qmult_le_0_compat; [exact Hq0|lra]). lra. }
  set (P := 2 ^ 1000) in *. clearbody P. rewrite Hv in H24.
  set (B := 2 ^ 1024) in *. clearbody B.
  set (aq := Qabs q) in *. clearbody aq.
  set (an := Qabs (nearest q)) in *. clearbody an.
  set (d := Qabs (nearest q - q)) in *. clearbody d.
  nra.
Qed.

End Binary64Facts.

Section Binary64Order.
Local Open Scope Q_scope.

Lemma roundHalfEven_comp (x y : Q) : x == y -> roundHalfEven x = roundHalfEven y.
Proof.
  intros E. unfold roundHalfEven. rewrite (Qfloor_comp x y E).
  assert (Ec : (x - inject_Z (Qfloor y) ?= 1 # 2) = (y - inject_Z (Qfloor y) ?= 1 # 2))
    by (rewrite E; reflexivity).
  rewrite Ec. reflexivity.
Qed.

Lemma roundHalfEven_whole (n : Z) : roundHalfEven (inject_Z n) = n.
Proof.
  unfold roundHalfEven. rewrite Qfloor_Z.
  assert (E : (inject_Z n - inject_Z n ?= 1 # 2) = Lt).
  { apply Qlt_alt. assert (Ez : inject_Z n - inject_Z n == 0) by ring. rewrite Ez. reflexivity. }
  rewrite E. reflexivity.
Qed.

Lemma roundHalfEven_mono (x y : Q) : x <= y -> (roundHalfEven x <= roundHalfEven y)%Z.
Proof.
  intros Hxy. pose proof (Qfloor_resp_le x y Hxy) as Hf.
  assert (Hx : (Qfloor x <= roundHalfEven x <= Qfloor x + 1)%Z).
  { unfold roundHalfEven. destruct (_ ?= _); [destruct (Z.even _)| |]; lia. }
  assert (Hy : (Qfloor y <= roundHalfEven y <= Qfloor y + 1)%Z).
  { unfold roundHalfEven. destruct (_ ?= _); [destruct (Z.even _)| |]; lia. }
  destruct (Z.eq_dec (Qfloor x) (Qfloor y)) as [E|Hne]; [|lia].
  unfold roundHalfEven. cbv zeta. rewrite <- E.
  destruct (x - inject_Z (Qfloor x) ?= 1 # 2) eqn:Cx;
    destruct (y - inject_Z (Qfloor x) ?= 1 # 2) eqn:Cy;
    try (destruct (Z.even (Qfloor x))); try lia;
    repeat match goal with
    | H : (_ ?= _) = Eq |- _ => apply (proj2 (Qeq_alt _ _)) in H
    | H : (_ ?= _) = Lt |- _ => apply (proj2 (Qlt_alt _ _)) in H
    | H : (_ ?= _) = Gt |- _ => apply (proj2 (Qgt_alt _ _)) in H
    end;
    exfalso; lra.
Qed.

Lemma ulp_grid (q : Q) : ulp q = 2 ^ grid q.
Proof. reflexivity. Qed.

(** A power of two on or above the grid is a whole number of units. *)
Lemma pow2_on_grid (e k : Z) : (k <= e)%Z -> 2 ^ e / 2 ^ k == inject_Z (2 ^ (e - k)).
Proof.
  intros H. rewrite <- pow2_Z by lia.
  replace e with ((e - k) + k)%Z at 1 by lia. rewrite pow2_plus.
  pose proof (pow2_pos k). field. lra.
Qed.

(** Rounding does not cross a point of the grid of the number. *)
Lemma nearest_le_point (q : Q) (n : Z) :
  q <= inject_Z n * ulp q -> nearest q <= inject_Z n * ulp q.
Proof.
  intros Hq. unfold nearest. pose proof (ulp_pos q) as Hu.
  apply Qmult_le_compat_r; [|lra]. rewrite <- Zle_Qle.
  rewrite <- (roundHalfEven_whole n). apply roundHalfEven_mono.
  apply Qle_shift_div_r; assumption.
Qed.

Lemma nearest_ge_point (q : Q) (n : Z) :
  inject_Z n * ulp q <= q -> inject_Z n * ulp q <= nearest q.
Proof.
  intros Hq. unfold nearest. pose proof (ulp_pos q) as Hu.
  apply Qmult_le_compat_r; [|lra]. rewrite <- Zle_Qle.
  rewrite <- (roundHalfEven_whole n) at 1. apply roundHalfEven_mono.
  apply Qle_shift_div_l; assumption.
Qed.

(** A power of two on or above the grid of a number is a point of it. *)
Lemma pow2_point (q : Q) (e : Z) :
  (grid q <= e)%Z -> 2 ^ e == inject_Z (2 ^ (e - grid q)) * ulp q.
Proof.
  intros H. rewrite ulp_grid, <- pow2_on_grid by exact H.
  pose proof (pow2_pos (grid q)). field. lra.
Qed.

Lemma binade_le (q q' : Q) :
  ~ q == 0 -> ~ q' == 0 -> Qabs q <= Qabs q' -> (binade q <= binade q')%Z.
Proof.
  intros Hq Hq' Hle.
  destruct (binade_spec q Hq) as [Hlo _]. destruct (binade_spec q' Hq') as [_ Hhi].
  destruct (Z_le_gt_dec (binade q) (binade q')) as [H|H]; [exact H|].
  assert (2 ^ (binade q' + 1) <= 2 ^ binade q) by (apply pow2_le; lia). lra.
Qed.

Lemma same_grid_mono (q q' : Q) :
  grid q = grid q' -> q <= q' -> nearest q <= nearest q'.
Proof.
  intros Hg Hle. unfold nearest. rewrite !ulp_grid, <- Hg.
  pose proof (pow2_pos (grid q)) as Hu.
  apply Qmult_le_compat_r; [|lra]. rewrite <- Zle_Qle. apply roundHalfEven_mono.
  apply Qmult_le_compat_r; [exact Hle|]. apply Qinv_le_0_compat. lra.
Qed.

(** Rounding to the nearest number keeps the order. *)
Lemma nearest_mono (q q' : Q) :
  ~ q == 0 -> ~ q' == 0 -> q <= q' -> nearest q <= nearest q'.
Proof.
  intros Hq Hq' Hle.
  destruct (binade_spec q Hq) as [Hlo Hhi].
  destruct (binade_spec q' Hq') as [Hlo' Hhi'].
  destruct (Qlt_le_dec q 0) as [Hneg|Hpos]; destruct (Qlt_le_dec q' 0) as [Hneg'|Hpos'].
  - (* both negative *)
    rewrite (Qabs_neg q) in Hlo, Hhi by lra. rewrite (Qabs_neg q') in Hlo', Hhi' by lra.
    assert (Hb : (binade q' <= binade q)%Z).
    { apply binade_le; try assumption. rewrite !Qabs_neg by lra. lra. }
    destruct (Z.eq_dec (grid q) (grid q')) as [Hg|Hg]; [now apply same_grid_mono|].
    assert (Hk : (grid q' < grid q)%Z) by (unfold grid in *; lia).
    assert (He : (binade q' + 1 <= binade q)%Z) by (unfold grid in *; lia).
    assert (Hpow : 2 ^ (binade q' + 1) <= 2 ^ binade q) by (apply pow2_le; lia).
    apply Qle_trans with (- 2 ^ binade q).
    + pose proof (pow2_point q (binade q)) as Hp.
      assert (Hpt : - 2 ^ binade q == inject_Z (- 2 ^ (binade q - grid q)) * ulp q).
      { assert (Hp' := Hp ltac:(unfold grid in *; lia)).
        rewrite inject_Z_opp, Hp'. ring. }
      rewrite Hpt. apply nearest_le_point. rewrite <- Hpt. lra.
    + pose proof (pow2_point q' (binade q)) as Hp.
      assert (Hpt : - 2 ^ binade q == inject_Z (- 2 ^ (binade q - grid q')) * ulp q').
      { assert (Hp' := Hp ltac:(unfold grid in *; lia)).
        rewrite inject_Z_opp, Hp'. ring. }
      rewrite Hpt. apply nearest_ge_point. rewrite <- Hpt. lra.
  - apply Qle_trans with 0; [apply nearest_sign; lra|apply nearest_sign; lra].
  - lra.
  - (* both positive *)
    rewrite (Qabs_pos q) in Hlo, Hhi by lra. rewrite (Qabs_pos q') in Hlo', Hhi' by lra.
    assert (Hb : (binade q <= binade q')%Z).
    { apply binade_le; try assumption. rewrite !Qabs_pos by lra. lra. }
    destruct (Z.eq_dec (grid q) (grid q')) as [Hg|Hg]; [now apply same_grid_mono|].
    assert (Hk : (grid q < grid q')%Z) by (unfold grid in *; lia).
    assert (He : (binade q + 1 <= binade q')%Z) by (unfold grid in *; lia).
    assert (Hpow : 2 ^ (binade q + 1) <= 2 ^ binade q') by (apply pow2_le; lia).
    apply Qle_trans with (2 ^ binade q').
    + assert (Hp := pow2_point q (binade q') ltac:(unfold grid in *; lia)).
      rewrite Hp. apply nearest_le_point. rewrite <- Hp. lra.
    + assert (Hp := pow2_point q' (binade q') ltac:(unfold grid in *; lia)).
      rewrite Hp. apply nearest_ge_point. rewrite <- Hp. lra.
Qed.

(** The finite results of rounding are in the order of the exact values. *)
Lemma binary64_mono (q q' r r' : Q) :
  q <= q' -> binary64 q = Finite r -> binary64 q' = Finite r' -> r <= r'.
Proof.
  intros Hle E E'.
  destruct (binary64_cases q) as [[H0 Ez]|[(_ & _ & Ei)|(Hq & _ & Ef)]];
    [|congruence|].
  - assert (r = 0) by congruence. subst r.
    apply binary64_finite in E' as (_ & Hpos & _). apply Hpos. lra.
  - destruct (binary64_cases q') as [[H0 Ez]|[(_ & _ & Ei)|(Hq' & _ & Ef')]];
      [|congruence|].
    + assert (r' = 0) by congruence. subst r'.
      apply binary64_finite in E as (_ & _ & Hneg). apply Hneg. lra.
    + assert (Er : r = Qred (nearest q)) by congruence.
      assert (Er' : r' = Qred (nearest q')) by congruence.
      rewrite Er, Er', !Qred_correct. now apply nearest_mono.
Qed.

End Binary64Order.

Section NormalizerFacts.
Variable parseNumber : JsVal -> Num.

Local Open Scope Q_scope.


(** The numbers the normalizer meets are small: their rounding is finite
    and close. *)
Lemma binary64_small (q : Q) :
  Qabs q <= 128 ->
  exists r, binary64 q = Finite r /\ Qabs (r - q) <= 1 # 2 ^ 45 /\
            (0 <= q -> 0 <= r) /\ (q <= 0 -> r <= 0).
Proof.
  intros Hq. pose proof tiny_small as [Ht Ht'].
  destruct (binary64 q) as [|s|r] eqn:E.
  - now destruct (binary64_not_NaN q).
  - apply binary64_infinite in E as [Hbig _].
    assert (2 ^ 8 <= 2 ^ 1000) by (apply pow2_le; lia).
    assert (Hv : 2 ^ 8 == 256) by reflexivity. lra.
  - exists r. split; [reflexivity|].
    apply binary64_finite in E as (He & Hs). split; [|exact Hs].
    unfold eps in He.
    assert (H60 : (1 # 2 ^ 60) <= 1 # 2 ^ 54) by discriminate.
    assert (H128 : Qabs q * (1 # 9007199254740992) <= 128 * (1 # 9007199254740992))
      by (apply Qmult_le_compat_r; [exact Hq|discriminate]).
    assert (Hv : 128 * (1 # 9007199254740992) + (1 # 2 ^ 54) <= 1 # 2 ^ 45) by discriminate.
    lra.
Qed.

Lemma tenths_0 : tenths 0 = Finite 0.
Proof. reflexivity. Qed.

Lemma tenths_100 : tenths 100 = Finite 10.
Proof. vm_compute. reflexivity. Qed.

(** A number of tenths between 0 and 100 is a number between 0 and 10,
    next to the fraction. *)
Lemma tenths_value (n : Z) :
  (0 <= n <= 100)%Z ->
  exists q, tenths n = Finite q /\ 0 <= q <= 10 /\
            Qabs (q - inject_Z n / 10) <= 1 # 2 ^ 49.
Proof.
  intros Hn.
  assert (Hlo : 0 <= inject_Z n) by (change 0 with (inject_Z 0); rewrite <- Zle_Qle; lia).
  assert (Hhi : inject_Z n <= 100) by (change 100 with (inject_Z 100); rewrite <- Zle_Qle; lia).
  destruct (Z.eq_dec n 100%Z) as [->|Hne].
  - exists 10. rewrite tenths_100. split; [reflexivity|]. split; [lra|]. discriminate.
  - assert (Hhi' : inject_Z n <= 99)
      by (change 99 with (inject_Z 99); rewrite <- Zle_Qle; lia).
    pose proof tiny_small as [Ht Ht'].
    unfold tenths. set (x := inject_Z n / 10).
    assert (Hx : 0 <= x <= 99 # 10) by (unfold x; constant_division; lra).
    destruct (binary64 x) as [|s|r] eqn:E.
    + now destruct (binary64_not_NaN x).
    + apply binary64_infinite in E as [Hbig _].
      assert (2 ^ 8 <= 2 ^ 1000) by (apply pow2_le; lia).
      assert (Hv : 2 ^ 8 == 256) by reflexivity.
      rewrite Qabs_pos in Hbig by lra. lra.
    + exists r. split; [reflexivity|].
      apply binary64_finite in E as (He & Hs & _).
      rewrite (Qabs_pos x) in He by lra. unfold eps in He.
      assert (H60 : (1 # 2 ^ 60) <= 1 # 2 ^ 54) by discriminate.
      assert (Hv : (99 # 10) * (1 # 9007199254740992) + (1 # 2 ^ 54) <= 1 # 2 ^ 49)
        by discriminate.
      assert (Hd : Qabs (r - x) <= 1 # 2 ^ 49) by lra.
      split; [|exact Hd].
      apply Qabs_Qle_condition in Hd.
      assert ((1 # 2 ^ 49) <= 1 # 10) by discriminate.
      split; [apply Hs|]; lra.
Qed.

(** Dividing a whole number by 10 and clamping the quotient gives a number
    of tenths. *)
Lemma clamp_tenths (N : Z) :
  Math_min (Finite 10) (Math_max (Finite 0) (fdiv (Finite (inject_Z N)) (Finite 10)))
  = tenths (Z.max 0%Z (Z.min 100%Z N)).
Proof.
  pose proof tiny_small as [Ht Ht'].
  unfold fdiv. cbn [num_div]. change (Qeq_bool 10 0) with false. cbn iota.
  cbn [rounded]. fold (tenths N).
  destruct (Z_lt_le_dec N 0%Z) as [Hneg|Hpos].
  - (* below 0 *)
    replace (Z.max 0%Z (Z.min 100%Z N)) with 0%Z by lia. rewrite tenths_0.
    assert (Hx : inject_Z N / 10 <= - (1 # 10)).
    { assert (inject_Z N <= inject_Z (-1)) by (rewrite <- Zle_Qle; lia).
      change (inject_Z (-1)) with (-1) in *. constant_division. lra. }
    unfold tenths. destruct (binary64 (inject_Z N / 10)) as [|s|r] eqn:E.
    + now destruct (binary64_not_NaN (inject_Z N / 10)).
    + apply binary64_infinite in E as [_ ->].
      assert (Es : negativeQ (inject_Z N / 10) = true).
      { unfold negativeQ. apply andb_true_intro. split.
        - apply Qle_bool_iff. lra.
        - apply negb_true_iff. destruct (Qeq_bool _ 0) eqn:E0; [|reflexivity].
          apply Qeq_bool_iff in E0. lra. }
      rewrite Es. reflexivity.
    + apply binary64_finite in E as (He & _ & Hs).
      assert (Hr : r <= 0) by (apply Hs; lra).
      cbn [Math_max]. destruct (Qle_bool 0 r) eqn:E0.
      * apply Qle_bool_iff in E0. cbn [Math_min].
        destruct (Qle_bool 10 r) eqn:E10; [apply Qle_bool_iff in E10; lra|].
        rewrite (Qabs_neg (inject_Z N / 10)) in He by lra.
        apply Qabs_Qle_condition in He. unfold eps in He.
        assert (H60 : (1 # 2 ^ 60) <= 1 # 100) by discriminate.
        exfalso. lra.
      * reflexivity.
  - destruct (Z_le_gt_dec 100%Z N) as [Hbig|Hsmall].
    + (* from 100 on *)
      replace (Z.max 0%Z (Z.min 100%Z N)) with 100%Z by lia. rewrite tenths_100.
      assert (Hx : 10 <= inject_Z N / 10).
      { assert (inject_Z 100 <= inject_Z N) by (rewrite <- Zle_Qle; lia).
        change (inject_Z 100) with 100 in *. constant_division. lra. }
      destruct (Z.eq_dec N 100%Z) as [->|Hne]; [rewrite tenths_100; reflexivity|].
      assert (Hx' : 101 # 10 <= inject_Z N / 10).
      { assert (inject_Z 101 <= inject_Z N) by (rewrite <- Zle_Qle; lia).
        change (inject_Z 101) with 101 in *. constant_division. lra. }
      unfold tenths. destruct (binary64 (inject_Z N / 10)) as [|s|r] eqn:E.
      * now destruct (binary64_not_NaN (inject_Z N / 10)).
      * apply binary64_infinite in E as [_ ->].
        assert (Es : negativeQ (inject_Z N / 10) = false).
        { unfold negativeQ. apply andb_false_intro1.
          destruct (Qle_bool _ 0) eqn:E0; [|reflexivity].
          apply Qle_bool_iff in E0. lra. }
        rewrite Es. reflexivity.
      * apply binary64_finite in E as (He & _ & _).
        rewrite (Qabs_pos (inject_Z N / 10)) in He by lra.
        apply Qabs_Qle_condition in He. unfold eps in He.
        assert (H60 : (1 # 2 ^ 60) <= 1 # 100) by discriminate.
        assert (Hr : 10 <= r).
        { set (x := inject_Z N / 10) in *. clearbody x. lra. }
        cbn [Math_max]. apply Qle_bool_iff in Hr as Hr10.
        assert (Hr0 : Qle_bool 0 r = true) by (apply Qle_bool_iff; lra).
        rewrite Hr0. cbn [Math_min]. now rewrite Hr10.
    + (* between *)
      replace (Z.max 0%Z (Z.min 100%Z N)) with N by lia.
      destruct (tenths_value N) as (q & Eq & Hq & Hd); [lia|].
      rewrite Eq. cbn [Math_max].
      assert (Hq0 : Qle_bool 0 q = true) by (apply Qle_bool_iff; lra).
      rewrite Hq0. cbn [Math_min].
      destruct (Qle_bool 10 q) eqn:E10; [|reflexivity].
      apply Qle_bool_iff in E10. exfalso.
      assert (inject_Z N <= inject_Z 99) by (rewrite <- Zle_Qle; lia).
      change (inject_Z 99) with 99 in *.
      apply Qabs_Qle_condition in Hd.
      assert ((1 # 2 ^ 49) <= 1 # 100) by discriminate. constant_division. lra.
Qed.


Lemma floor_bounds (y : Q) : inject_Z (Qfloor y) <= y /\ y < inject_Z (Qfloor y) + 1.
Proof.
  split; [apply Qfloor_le|].
  pose proof (Qlt_floor y) as H. rewrite inject_Z_plus in H. exact H.
Qed.

Lemma whole_le (a b : Z) : inject_Z a < inject_Z b + 1 -> (a <= b)%Z.
Proof.
  intros H. change 1 with (inject_Z 1) in H. rewrite <- inject_Z_plus in H.
  rewrite <- Zlt_Qlt in H. lia.
Qed.

Lemma whole_between (a : Z) (lo hi : Z) :
  (lo <= a <= hi)%Z -> inject_Z lo <= inject_Z a <= inject_Z hi.
Proof. intros [H1 H2]. split; rewrite <- Zle_Qle; assumption. Qed.

(** [normalize] on a finite number: the product by 10, rounded and
    clamped. *)
Lemma normalize_product (x : Q) :
  normalize parseNumber (JNum (Finite x)) = tenths (clamped (product x)).
Proof.
  unfold normalize, orElse, product. cbn [truthy].
  destruct (Qeq_bool x 0) eqn:E0; cbn [negb ToNumber].
  - apply Qeq_bool_iff in E0.
    change (fmul (Finite 0) (Finite 10)) with (Finite 0).
    destruct (binary64_cases (x * 10)) as [[_ ->]|[(Hne & _)|(Hne & _)]];
      [|destruct Hne; rewrite E0; ring..].
    cbn [Math_round]. apply clamp_tenths.
  - unfold fmul. cbn [num_mul rounded].
    destruct (binary64 (x * 10)) as [|[|]|t] eqn:E.
    + now destruct (binary64_not_NaN (x * 10)).
    + reflexivity.
    + vm_compute. reflexivity.
    + cbn [Math_round]. apply clamp_tenths.
Qed.

Lemma product_spec (x : Q) :
  (Qabs x <= 12 -> Qabs (product x - x * 10) <= 1 # 2 ^ 45) /\
  (x < 0 -> product x <= 0) /\
  (10 < x -> 100 <= product x + (1 # 2)).
Proof.
  pose proof tiny_small as [Ht Ht'].
  assert (Habs : Qabs (x * 10) == Qabs x * 10) by (rewrite Qabs_Qmult; reflexivity).
  unfold product. destruct (binary64 (x * 10)) as [|s|t] eqn:E.
  - now destruct (binary64_not_NaN (x * 10)).
  - apply binary64_infinite in E as [Hbig ->].
    assert (H8 : 2 ^ 8 <= 2 ^ 1000) by (apply pow2_le; lia).
    assert (Hv : 2 ^ 8 == 256) by reflexivity.
    destruct (negativeQ (x * 10)) eqn:Es.
    + apply andb_prop in Es as [Es _]. apply Qle_bool_iff in Es.
      split; [intros Hx; lra|]. split; [intros _; discriminate|intros Hx; lra].
    + split; [intros Hx; lra|]. split; [|intros _; discriminate].
      intros Hx. exfalso. unfold negativeQ in Es.
      apply andb_false_iff in Es as [Es|Es].
      * assert (Hc : Qle_bool (x * 10) 0 = true) by (apply Qle_bool_iff; lra).
        congruence.
      * apply negb_false_iff, Qeq_bool_iff in Es. lra.
  - apply binary64_finite in E as (He & Hpos & Hneg).
    rewrite Habs in He. unfold eps in He.
    assert (H60 : (1 # 2 ^ 60) <= 1 # 2 ^ 54) by discriminate.
    split; [|split].
    + intros Hx.
      assert (Hv : 12 * 10 * (1 # 9007199254740992) + (1 # 2 ^ 54) <= 1 # 2 ^ 45)
        by discriminate.
      set (a := Qabs x) in *. clearbody a. lra.
    + intros Hx. apply Hneg. lra.
    + intros Hx. rewrite (Qabs_pos x) in He by lra.
      apply Qabs_Qle_condition in He as [He _].
      assert ((1 # 2 ^ 54) <= 1 # 4) by discriminate. lra.
Qed.

Lemma normalize_finite (x : Q) :
  exists t,
    normalize parseNumber (JNum (Finite x)) = tenths (clamped t) /\
    (Qabs x <= 12 -> Qabs (t - x * 10) <= 1 # 2 ^ 45) /\
    (x < 0 -> t <= 0) /\
    (10 < x -> 100 <= t + (1 # 2)).
Proof. exists (product x). split; [apply normalize_product|apply product_spec]. Qed.

(** What the product says about the tenths. *)
Lemma clamped_Rounded (x t : Q) :
  (Qabs x <= 12 -> Qabs (t - x * 10) <= 1 # 2 ^ 45) ->
  (x < 0 -> t <= 0) ->
  (10 < x -> 100 <= t + (1 # 2)) ->
  (0 <= clamped t <= 100)%Z /\ Rounded x (clamped t).
Proof.
  intros Hnear Hneg Hbig. split; [unfold clamped; lia|].
  destruct (floor_bounds (t + (1 # 2))) as [Hlo Hhi].
  unfold Rounded, clamped, decimal. set (m := Qfloor (t + (1 # 2))) in *.
  split; [|split].
  - intros Hx. specialize (Hneg Hx).
    assert (m <= 0)%Z; [|lia].
    apply whole_le. change (inject_Z 0) with 0. lra.
  - intros Hx. specialize (Hbig Hx).
    assert (100 <= m)%Z; [|lia].
    apply whole_le. change (inject_Z 100) with 100. lra.
  - intros Hx.
    assert (Hx' : Qabs x <= 12) by (rewrite Qabs_pos by lra; lra).
    specialize (Hnear Hx'). apply Qabs_Qle_condition in Hnear as [Hn1 Hn2].
    assert (H45 : (1 # 2 ^ 45) <= 1 # 4) by discriminate.
    assert (Hm : (0 <= m <= 100)%Z).
    { split; apply whole_le; [change (inject_Z 0) with 0|change (inject_Z 100) with 100]; lra. }
    replace (Z.max 0 (Z.min 100 m)) with m by lia.
    assert (Hv : (1 # 2 ^ 45) * (1 # 10) <= 1 # 2 ^ 48) by discriminate.
    apply Qabs_Qle_condition. constant_division. split; lra.
Qed.

(** Every rubric field, whatever number was supplied or none, becomes a
    number of tenths. *)
Lemma normalize_spec (v : JsVal) :
  NumberOrUndefined v ->
  exists n, normalize parseNumber v = tenths n /\ Normalized v n.
Proof.
  intros [->|[[|[|]|x] ->]].
  - exists 0%Z. split; [reflexivity|]. split; [lia|reflexivity].
  - exists 0%Z. split; [reflexivity|]. split; [lia|reflexivity].
  - exists 0%Z. split; [reflexivity|]. split; [lia|reflexivity].
  - exists 100%Z. split; [vm_compute; reflexivity|]. split; [lia|reflexivity].
  - destruct (normalize_finite x) as (t & E & H1 & H2 & H3).
    exists (clamped t). split; [exact E|].
    destruct (clamped_Rounded x t H1 H2 H3) as [Hr HR]. split; assumption.
Qed.


Lemma plus_bounded (a b : Q) :
  0 <= a -> 0 <= b -> a + b <= 127 ->
  exists r, fadd (Finite a) (Finite b) = Finite r /\ 0 <= r /\
            - (1 # 2 ^ 45) <= r - (a + b) <= 1 # 2 ^ 45.
Proof.
  intros Ha Hb Hab. unfold fadd. cbn [num_add rounded].
  destruct (binary64_small (a + b)) as (r & E & Hd & Hpos & _).
  { rewrite Qabs_pos by lra. lra. }
  exists r. split; [exact E|]. split; [apply Hpos; lra|].
  apply Qabs_Qle_condition in Hd. exact Hd.
Qed.

(** The score of six numbers of tenths: a number of tenths within half a
    tenth of their mean. *)
Lemma score_near (n1 n2 n3 n4 n5 n6 : Z) :
  (0 <= n1 <= 100)%Z -> (0 <= n2 <= 100)%Z -> (0 <= n3 <= 100)%Z ->
  (0 <= n4 <= 100)%Z -> (0 <= n5 <= 100)%Z -> (0 <= n6 <= 100)%Z ->
  exists m,
    normalize parseNumber
      (JNum (fdiv (fadd (fadd (fadd (fadd (fadd
         (tenths n1) (tenths n2)) (tenths n3)) (tenths n4)) (tenths n5)) (tenths n6))
         (Finite 6))) = tenths m /\
    (0 <= m <= 100)%Z /\
    (- 3 <= 6 * m - (n1 + n2 + n3 + n4 + n5 + n6) <= 3)%Z.
Proof.
  intros H1 H2 H3 H4 H5 H6.
  destruct (tenths_value n1 H1) as (q1 & -> & R1 & D1).
  destruct (tenths_value n2 H2) as (q2 & -> & R2 & D2).
  destruct (tenths_value n3 H3) as (q3 & -> & R3 & D3).
  destruct (tenths_value n4 H4) as (q4 & -> & R4 & D4).
  destruct (tenths_value n5 H5) as (q5 & -> & R5 & D5).
  destruct (tenths_value n6 H6) as (q6 & -> & R6 & D6).
  apply Qabs_Qle_condition in D1, D2, D3, D4, D5, D6.
  assert (H45 : (1 # 2 ^ 45) <= 1 # 1000) by discriminate.
  assert (H49 : (1 # 2 ^ 49) <= 1 # 1000) by discriminate.
  destruct (plus_bounded q1 q2) as (a1 & -> & P1 & A1); [lra..|].
  destruct (plus_bounded a1 q3) as (a2 & -> & P2 & A2); [lra..|].
  destruct (plus_bounded a2 q4) as (a3 & -> & P3 & A3); [lra..|].
  destruct (plus_bounded a3 q5) as (a4 & -> & P4 & A4); [lra..|].
  destruct (plus_bounded a4 q6) as (a5 & -> & P5 & A5); [lra..|].
  unfold fdiv. cbn [num_div]. change (Qeq_bool 6 0) with false. cbn iota.
  cbn [rounded].
  assert (E6 : a5 / 6 == a5 * (1 # 6)) by reflexivity.
  destruct (binary64_small (a5 / 6)) as (avg & -> & Davg & Pavg & _).
  { rewrite E6, Qabs_pos by lra. lra. }
  rewrite E6 in Davg, Pavg. apply Qabs_Qle_condition in Davg.
  destruct (normalize_finite avg) as (t & -> & Dt & _ & _).
  assert (Hsmall : Qabs avg <= 12) by (rewrite Qabs_pos by lra; lra).
  specialize (Dt Hsmall). apply Qabs_Qle_condition in Dt.
  destruct (floor_bounds (t + (1 # 2))) as [Flo Fhi].
  unfold clamped. set (m := Qfloor (t + (1 # 2))) in *.
  set (k := (n1 + n2 + n3 + n4 + n5 + n6)%Z).
  assert (Hk : inject_Z k ==
               inject_Z n1 + inject_Z n2 + inject_Z n3 + inject_Z n4 + inject_Z n5 +
               inject_Z n6) by (unfold k; rewrite !inject_Z_plus; reflexivity).
  assert (H48 : (1 # 2 ^ 45) <= 1 # 2 ^ 40) by discriminate.
  assert (H49' : (1 # 2 ^ 49) <= 1 # 2 ^ 40) by discriminate.
  assert (H40 : (1 # 2 ^ 40) <= 1 # 100000) by discriminate.
  assert (Hm : (- 3 <= 6 * m - k <= 3)%Z).
  { constant_division. split.
    - assert (k - 3 <= 6 * m)%Z; [|lia]. apply whole_le.
      replace (k - 3)%Z with (k + - 3)%Z by lia.
      rewrite inject_Z_mult, inject_Z_plus, Hk.
      change (inject_Z 6) with 6. change (inject_Z (- 3)) with (- (3)). lra.
    - assert (6 * m <= k + 3)%Z; [|lia]. apply whole_le.
      rewrite inject_Z_mult, inject_Z_plus, Hk.
      change (inject_Z 6) with 6. change (inject_Z 3) with 3. lra. }
  exists m. split; [f_equal; unfold k in Hm; lia|].
  split; [unfold k in Hm; lia|exact Hm].
Qed.


(** More tenths are a larger number. *)
Lemma tenths_mono (n m : Z) (q s : Q) :
  (0 <= n <= 100)%Z -> (0 <= m <= 100)%Z -> (n <= m)%Z ->
  tenths n = Finite q -> tenths m = Finite s -> q <= s.
Proof.
  intros Hn Hm Hle Eq Es.
  destruct (Z.eq_dec n m) as [->|Hne].
  - assert (q = s) by congruence. subst. lra.
  - destruct (tenths_value n Hn) as (q' & Eq' & _ & Dq).
    destruct (tenths_value m Hm) as (s' & Es' & _ & Ds).
    assert (q' = q) by congruence. assert (s' = s) by congruence. subst.
    apply Qabs_Qle_condition in Dq, Ds.
    assert (H : inject_Z n + 1 <= inject_Z m).
    { change 1 with (inject_Z 1). rewrite <- inject_Z_plus, <- Zle_Qle. lia. }
    assert ((1 # 2 ^ 49) <= 1 # 100) by discriminate.
    constant_division. lra.
Qed.

(** A number of tenths is a fixed point of [normalize]. *)
Lemma normalize_fixes_tenths (n : Z) :
  (0 <= n <= 100)%Z -> normalize parseNumber (JNum (tenths n)) = tenths n.
Proof.
  intros Hn. destruct (tenths_value n Hn) as (q & Eq & Hq & Dq).
  rewrite Eq. destruct (normalize_finite q) as (t & -> & Dt & _ & _).
  rewrite <- Eq. f_equal.
  assert (Hsmall : Qabs q <= 12) by (rewrite Qabs_pos by lra; lra).
  specialize (Dt Hsmall). apply Qabs_Qle_condition in Dt, Dq.
  destruct (floor_bounds (t + (1 # 2))) as [Flo Fhi].
  unfold clamped. set (m := Qfloor (t + (1 # 2))) in *.
  assert (H45 : (1 # 2 ^ 45) <= 1 # 1000) by discriminate.
  assert (H49 : (1 # 2 ^ 49) <= 1 # 1000) by discriminate.
  assert (m = n); [|lia].
  constant_division.
  apply Z.le_antisymm; apply whole_le; lra.
Qed.


Lemma clamped_range (t : Q) : (0 <= clamped t <= 100)%Z.
Proof. unfold clamped. lia. Qed.

Lemma clamped_mono (t t' : Q) : t <= t' -> (clamped t <= clamped t')%Z.
Proof.
  intros H. unfold clamped.
  assert (Hf : (Qfloor (t + (1 # 2)) <= Qfloor (t' + (1 # 2)))%Z)
    by (apply Qfloor_resp_le; lra).
  lia.
Qed.

Lemma clamped_low (t : Q) : t <= 0 -> clamped t = 0%Z.
Proof.
  intros H. pose proof (clamped_mono t 0 H) as Hm. pose proof (clamped_range t).
  change (clamped 0) with 0%Z in Hm. lia.
Qed.

Lemma clamped_high (t : Q) : 100 <= t + (1 # 2) -> clamped t = 100%Z.
Proof.
  intros H. unfold clamped.
  assert (Hf : (Qfloor 100 <= Qfloor (t + (1 # 2)))%Z) by (apply Qfloor_resp_le; exact H).
  change (Qfloor 100) with 100%Z in Hf. lia.
Qed.

(** A larger number has a product of no fewer tenths. *)
Lemma product_mono (a b : Q) : a <= b -> (clamped (product a) <= clamped (product b))%Z.
Proof.
  intros Hle.
  destruct (product_spec a) as (_ & Ha_neg & Ha_big).
  destruct (product_spec b) as (_ & Hb_neg & Hb_big).
  pose proof (clamped_range (product a)) as Ra.
  pose proof (clamped_range (product b)) as Rb.
  assert (H8 : 2 ^ 8 <= 2 ^ 1000) by (apply pow2_le; lia).
  assert (Hv : 2 ^ 8 == 256) by reflexivity.
  destruct (binary64 (a * 10)) as [|[|]|ta] eqn:Ea.
  - now destruct (binary64_not_NaN (a * 10)).
  - (* the smaller one overflows below *)
    apply binary64_infinite in Ea as [Hbig Hs]. symmetry in Hs.
    apply andb_prop in Hs as [Hs _]. apply Qle_bool_iff in Hs.
    rewrite (clamped_low (product a)); [lia|]. apply Ha_neg.
    rewrite Qabs_neg in Hbig by exact Hs. lra.
  - (* the smaller one overflows above *)
    apply binary64_infinite in Ea as [Hbig Hs]. symmetry in Hs.
    assert (Hpos : 0 <= a * 10).
    { unfold negativeQ in Hs. apply andb_false_iff in Hs as [Hs|Hs].
      - destruct (Qlt_le_dec (a * 10) 0) as [Hlt|Hge]; [|exact Hge].
        assert (Hc : Qle_bool (a * 10) 0 = true) by (apply Qle_bool_iff; lra).
        congruence.
      - apply negb_false_iff, Qeq_bool_iff in Hs. lra. }
    rewrite Qabs_pos in Hbig by exact Hpos.
    rewrite (clamped_high (product b)); [lia|]. apply Hb_big. lra.
  - destruct (binary64 (b * 10)) as [|[|]|tb] eqn:Eb.
    + now destruct (binary64_not_NaN (b * 10)).
    + (* the larger one overflows below *)
      apply binary64_infinite in Eb as [Hbig Hs]. symmetry in Hs.
      apply andb_prop in Hs as [Hs _]. apply Qle_bool_iff in Hs.
      rewrite Qabs_neg in Hbig by exact Hs.
      rewrite (clamped_low (product a)); [lia|]. apply Ha_neg. lra.
    + (* the larger one overflows above *)
      apply binary64_infinite in Eb as [Hbig Hs]. symmetry in Hs.
      assert (Hpos : 0 <= b * 10).
      { unfold negativeQ in Hs. apply andb_false_iff in Hs as [Hs|Hs].
        - destruct (Qlt_le_dec (b * 10) 0) as [Hlt|Hge]; [|exact Hge].
          assert (Hc : Qle_bool (b * 10) 0 = true) by (apply Qle_bool_iff; lra).
          congruence.
        - apply negb_false_iff, Qeq_bool_iff in Hs. lra. }
      rewrite Qabs_pos in Hbig by exact Hpos.
      rewrite (clamped_high (product b)); [lia|]. apply Hb_big. lra.
    + apply clamped_mono. unfold product. rewrite Ea, Eb.
      apply (binary64_mono (a * 10) (b * 10)); [lra|assumption..].
Qed.

End NormalizerFacts.

Section Rubric.
Local Open Scope Q_scope.

Lemma rubric_lookup (props : gmap string JsVal) (level : CEFRLevel)
    (p f i v g t s : Num) (name : string) (x : Num) :
  In (name, x)
     [("pronunciation"%string, p); ("fluency"%string, f); ("intonation"%string, i);
      ("vocabulary"%string, v); ("grammar"%string, g); ("taskFulfillment"%string, t);
      ("score"%string, s)] ->
  (<["mistakes"%string := JArr []]>
   (<["keyVocabulary"%string := JArr []]>
   (<["perceivedLevel"%string := JStr (levelName level)]>
   (<["score"%string := JNum s]>
   (<["taskFulfillment"%string := JNum t]>
   (<["grammar"%string := JNum g]>
   (<["vocabulary"%string := JNum v]>
   (<["intonation"%string := JNum i]>
   (<["fluency"%string := JNum f]>
   (<["pronunciation"%string := JNum p]> props))))))))) : gmap string JsVal)
  !! name = Some (JNum x).
Proof.
  simpl. intros [H|[H|[H|[H|[H|[H|[H|[]]]]]]]]; injection H as <- <-;
    rewrite !lookup_insert_ne by discriminate; apply lookup_insert_eq.
Qed.

(** The result of the post-processing, field by field. *)
Lemma postprocess_tenths (parseNumber : JsVal -> Num) (props : gmap string JsVal)
    (level : CEFRLevel) :
  (forall name, In name rubricFields ->
                NumberOrUndefined (getProp (JObj props) name)) ->
  exists p f i v g t s,
    postprocess parseNumber (JObj props) level =
      Ok (<["mistakes"%string := JArr []]>
         (<["keyVocabulary"%string := JArr []]>
         (<["perceivedLevel"%string := JStr (levelName level)]>
         (<["score"%string := JNum (tenths s)]>
         (<["taskFulfillment"%string := JNum (tenths t)]>
         (<["grammar"%string := JNum (tenths g)]>
         (<["vocabulary"%string := JNum (tenths v)]>
         (<["intonation"%string := JNum (tenths i)]>
         (<["fluency"%string := JNum (tenths f)]>
         (<["pronunciation"%string := JNum (tenths p)]> props)))))))))) /\
    Normalized (getProp (JObj props) "pronunciation") p /\
    Normalized (getProp (JObj props) "fluency") f /\
    Normalized (getProp (JObj props) "intonation") i /\
    Normalized (getProp (JObj props) "vocabulary") v /\
    Normalized (getProp (JObj props) "grammar") g /\
    Normalized (getProp (JObj props) "taskFulfillment") t /\
    (0 <= s <= 100)%Z /\
    (- 3 <= 6 * s - (p + f + i + v + g + t) <= 3)%Z.
Proof.
  intros Hin.
  assert (Hfield : forall name, In name rubricFields ->
             exists n, normalize parseNumber (getProp (JObj props) name) = tenths n /\
                       Normalized (getProp (JObj props) name) n).
  { intros name Hname. apply normalize_spec. now apply Hin. }
  destruct (Hfield "pronunciation"%string) as (p & Ep & Hp); [simpl; tauto|].
  destruct (Hfield "fluency"%string) as (f & Ef & Hf); [simpl; tauto|].
  destruct (Hfield "intonation"%string) as (i & Ei & Hi); [simpl; tauto|].
  destruct (Hfield "vocabulary"%string) as (v & Ev & Hv); [simpl; tauto|].
  destruct (Hfield "grammar"%string) as (g & Eg & Hg); [simpl; tauto|].
  destruct (Hfield "taskFulfillment"%string) as (t & Et & Ht); [simpl; tauto|].
  destruct (score_near parseNumber p f i v g t) as (s & Es & Hs & Hnear);
    try (apply Hp || apply Hf || apply Hi || apply Hv || apply Hg || apply Ht).
  exists p, f, i, v, g, t, s.
  split.
  { unfold postprocess. cbv zeta. rewrite Ep, Ef, Ei, Ev, Eg, Et, Es. reflexivity. }
  tauto.
Qed.

(** C2, as the code has it.  For a response object whose six rubric fields
    are each missing, [undefined] or a number of any size and sign, the
    post-processing succeeds.  Each rubric field of the result is a whole
    number of tenths between 0 and 10: no tenths when the field was missing
    or not a number, and otherwise the supplied value clamped and rounded
    to a nearest tenth.  [score] is a whole number of tenths between 0 and
    10 as well, within half a tenth of the arithmetic mean of the six
    decimals: a nearest tenth of the mean, where a mean exactly half-way
    between two tenths may go either way.  A number of tenths is held as
    the number of JavaScript nearest to the decimal, which lies in [0, 10]
    and prints as the decimal. *)
Theorem rubric_normalized (parseNumber : JsVal -> Num) (props : gmap string JsVal)
    (level : CEFRLevel) :
  (forall name, In name rubricFields ->
                NumberOrUndefined (getProp (JObj props) name)) ->
  exists r p f i v g t s,
    postprocess parseNumber (JObj props) level = Ok r /\
    Field r (JObj props) "pronunciation" p /\
    Field r (JObj props) "fluency" f /\
    Field r (JObj props) "intonation" i /\
    Field r (JObj props) "vocabulary" v /\
    Field r (JObj props) "grammar" g /\
    Field r (JObj props) "taskFulfillment" t /\
    r !! "score"%string = Some (JNum (tenths s)) /\
    (0 <= s <= 100)%Z /\
    Qabs (decimal s -
          (decimal p + decimal f + decimal i + decimal v + decimal g + decimal t) / 6)
      <= 1 # 20 /\
    (forall n : Z, (0 <= n <= 100)%Z ->
       exists q, tenths n = Finite q /\ 0 <= q <= 10 /\
                 Qabs (q - decimal n) <= 1 # 2 ^ 49).
Proof.
  intros Hin.
  destruct (postprocess_tenths parseNumber props level Hin)
    as (p & f & i & v & g & t & s & E & Hp & Hf & Hi & Hv & Hg & Ht & Hs & Hnear).
  eexists _, p, f, i, v, g, t, s.
  split; [exact E|].
  split; [split; [apply rubric_lookup; simpl; tauto|exact Hp]|].
  split; [split; [apply rubric_lookup; simpl; tauto|exact Hf]|].
  split; [split; [apply rubric_lookup; simpl; tauto|exact Hi]|].
  split; [split; [apply rubric_lookup; simpl; tauto|exact Hv]|].
  split; [split; [apply rubric_lookup; simpl; tauto|exact Hg]|].
  split; [split; [apply rubric_lookup; simpl; tauto|exact Ht]|].
  split; [apply rubric_lookup; simpl; tauto|].
  split; [exact Hs|].
  split; [|exact tenths_value].
  destruct (whole_between (6 * s - (p + f + i + v + g + t)) (- 3) 3 Hnear) as [Hlo Hhi].
  replace (6 * s - (p + f + i + v + g + t))%Z
    with (6 * s + - (p + f + i + v + g + t))%Z in Hlo, Hhi by lia.
  rewrite inject_Z_plus, inject_Z_mult, inject_Z_opp, !inject_Z_plus in Hlo, Hhi.
  change (inject_Z 6) with 6 in *. change (inject_Z (- 3)) with (- (3)) in *.
  change (inject_Z 3) with 3 in *.
  apply Qabs_Qle_condition. unfold decimal. constant_division. split; lra.
Qed.

Lemma sampleProps_rubric (name : string) :
  In name rubricFields -> NumberOrUndefined (getProp (JObj sampleProps) name).
Proof.
  simpl. intros [<-|[<-|[<-|[<-|[<-|[<-|[]]]]]]]; unfold NumberOrUndefined;
    vm_compute; eauto.
Qed.

Lemma rubric_normalized_witness :
  (forall name, In name rubricFields ->
                NumberOrUndefined (getProp (JObj sampleProps) name)) /\
  exists r p f i v g t s,
    postprocess noParse (JObj sampleProps) B1 = Ok r /\
    Field r (JObj sampleProps) "pronunciation" p /\
    Field r (JObj sampleProps) "fluency" f /\
    Field r (JObj sampleProps) "intonation" i /\
    Field r (JObj sampleProps) "vocabulary" v /\
    Field r (JObj sampleProps) "grammar" g /\
    Field r (JObj sampleProps) "taskFulfillment" t /\
    r !! "score"%string = Some (JNum (tenths s)) /\
    (0 <= s <= 100)%Z /\
    Qabs (decimal s -
          (decimal p + decimal f + decimal i + decimal v + decimal g + decimal t) / 6)
      <= 1 # 20 /\
    (forall n : Z, (0 <= n <= 100)%Z ->
       exists q, tenths n = Finite q /\ 0 <= q <= 10 /\
                 Qabs (q - decimal n) <= 1 # 2 ^ 49).
Proof.
  split; [exact sampleProps_rubric|].
  exact (rubric_normalized noParse sampleProps B1 sampleProps_rubric).
Defined.

(** C2 fails on the code: the score is not the mean of the sub-scores
    rounded the way a sub-score is: for a lone pronunciation of 0.3 the sub-scores are 0.3 and five
    times 0, their mean is 0.05, which [normalize] takes to 0.1; the score
    returned is 0, the mean as the machine adds and divides being just
    below 0.05. *)
Lemma mean_is_not_rounded_like_a_subscore :
  exists r,
    postprocess noParse (JObj lonePronunciation) B1 = Ok r /\
    r !! "pronunciation"%string = Some (JNum (tenths 3)) /\
    (forall name, In name ["fluency"; "intonation"; "vocabulary"; "grammar";
                           "taskFulfillment"]%string ->
                  r !! name = Some (JNum (tenths 0))) /\
    r !! "score"%string = Some (JNum (tenths 0)) /\
    (decimal 3 + decimal 0 + decimal 0 + decimal 0 + decimal 0 + decimal 0) / 6 == 0.05 /\
    normalize noParse (JNum (literal 0.05)) = tenths 1 /\
    normalize noParse (JNum (Finite 0.05)) = tenths 1 /\
    tenths 0 <> tenths 1.
Proof.
  eexists. split; [reflexivity|].
  split; [vm_compute; reflexivity|].
  split.
  { simpl. intros name [<-|[<-|[<-|[<-|[<-|[]]]]]]; vm_compute; reflexivity. }
  split; [vm_compute; reflexivity|].
  split; [reflexivity|].
  split; [vm_compute; reflexivity|].
  split; [vm_compute; reflexivity|].
  vm_compute. discriminate.
Qed.

End Rubric.

(** ** The PCM decoder *)

Section AudioFacts.
Import Audio.

(** A loop that fills the slots [0 .. n-1] of an array one after the other. *)
Lemma foldl_insert_seq {A : Type} (F : nat -> option A -> A) (n : nat) :
  forall l : list A,
    (n <= length l)%nat ->
    foldl (fun acc i => <[i := F i (acc !! i)]> acc) l (seq 0 n) =
    ((fun i => F i (l !! i)) <$> seq 0 n) ++ drop n l.
Proof.
  induction n as [|n IH]; intros l Hlen.
  - reflexivity.
  - rewrite seq_S, foldl_app, IH by lia. cbn [foldl Nat.add].
    rewrite fmap_app. cbn [fmap list_fmap].
    assert (Hn : length ((fun i => F i (l !! i)) <$> seq 0 n) = n)
      by (now rewrite length_fmap, length_seq).
    rewrite lookup_app_r by lia. rewrite Hn, Nat.sub_diag.
    rewrite lookup_drop, Nat.add_0_r.
    rewrite insert_app_r_alt by lia. rewrite Hn, Nat.sub_diag.
    destruct (lookup_lt_is_Some_2 l n) as [x Hx]; [lia|].
    rewrite (drop_S l x n Hx). cbn. rewrite <- app_assoc. reflexivity.
Qed.

Lemma fillChannel_eq (dataInt16 : list Z) (numChannels frameCount channel : nat)
    (samples : list Num) :
  length samples = frameCount ->
  fillChannel dataInt16 numChannels frameCount channel samples =
  (fun i => scaled dataInt16 (i * numChannels + channel)) <$> seq 0 frameCount.
Proof.
  intros Hlen. unfold fillChannel.
  rewrite (foldl_insert_seq (fun i _ => scaled dataInt16 (i * numChannels + channel)))
    by lia.
  rewrite drop_ge by lia. apply app_nil_r.
Qed.


Lemma decodeAudioData_eq (data : list byte) (rate : Z) (numChannels : nat)
    (dataInt16 : list Z) :
  Int16Array data = Some dataInt16 ->
  (0 < numChannels)%nat ->
  decodeAudioData data rate numChannels =
  Some {| numberOfChannels := numChannels;
          frames := length dataInt16 / numChannels;
          sampleRate := rate;
          channelData :=
            deinterleaved dataInt16 numChannels (length dataInt16 / numChannels) |}.
Proof.
  intros Hview Hpos. unfold decodeAudioData. rewrite Hview. cbn [mbind option_bind].
  destruct (Nat.eqb_spec numChannels 0) as [|_]; [lia|].
  f_equal. unfold createBuffer. cbn [numberOfChannels frames sampleRate channelData].
  f_equal.
  set (fc := (length dataInt16 / numChannels)%nat).
  rewrite (foldl_insert_seq
             (fun channel o => fillChannel dataInt16 numChannels fc channel (default [] o)))
    by (rewrite length_replicate; lia).
  rewrite drop_ge by (rewrite length_replicate; lia).
  rewrite app_nil_r. unfold deinterleaved.
  apply list_fmap_ext. intros k channel Hk.
  apply lookup_seq in Hk as [-> Hk].
  rewrite lookup_replicate_2 by lia. cbn [default].
  apply fillChannel_eq. apply length_replicate.
Qed.

End AudioFacts.

Section AudioSamples.
Import Audio.

Lemma byte_range (b : byte) : 0 <= Z.of_N (Byte.to_N b) < 256.
Proof. pose proof (Byte.to_N_bounded b). lia. Qed.

Lemma byteOf_to_N (b : byte) : byteOf (Z.of_N (Byte.to_N b)) = b.
Proof. unfold byteOf. now rewrite N2Z.id, Byte.of_to_N. Qed.

Lemma int16_range (lo hi : byte) : -32768 <= int16 lo hi <= 32767.
Proof.
  unfold int16. pose proof (byte_range lo). pose proof (byte_range hi).
  destruct (Z.ltb_spec (Z.of_N (Byte.to_N lo) + 256 * Z.of_N (Byte.to_N hi)) 32768); lia.
Qed.

(** Writing a sample back as two bytes, low byte first, gives the bytes it
    was read from. *)
Lemma int16Bytes_int16 (lo hi : byte) : int16Bytes (int16 lo hi) = [lo; hi].
Proof.
  unfold int16Bytes, int16.
  pose proof (byte_range lo) as Hlo. pose proof (byte_range hi) as Hhi.
  set (a := Z.of_N (Byte.to_N lo)) in *. set (b := Z.of_N (Byte.to_N hi)) in *.
  assert (Hu : (if a + 256 * b <? 32768 then a + 256 * b else a + 256 * b - 65536)
               mod 65536 = a + 256 * b).
  { destruct (Z.ltb_spec (a + 256 * b) 32768).
    - apply Z.mod_small. lia.
    - symmetry. apply (Z.mod_unique_pos _ _ (-1)); lia. }
  rewrite Hu.
  assert (Ha : (a + 256 * b) mod 256 = a).
  { symmetry. apply (Z.mod_unique_pos _ _ b); lia. }
  assert (Hb : (a + 256 * b) / 256 = b).
  { symmetry. apply (Z.div_unique_pos _ _ _ a); lia. }
  rewrite Ha, Hb. subst a b. now rewrite !byteOf_to_N.
Qed.

(** Induction over a list two elements at a time. *)
Lemma pair_induction {A : Type} (P : list A -> Prop) :
  P [] -> (forall x, P [x]) -> (forall x y l, P l -> P (x :: y :: l)) ->
  forall l, P l.
Proof.
  intros H0 H1 H2 l.
  assert (H : P l /\ forall x, P (x :: l)).
  { induction l as [|a l [IH1 IH2]]; [split; auto|].
    split; [apply IH2|]. intros x. apply H2, IH1. }
  apply H.
Qed.

Lemma Int16Array_even (data : list byte) :
  Nat.Even (length data) -> exists dataInt16, Int16Array data = Some dataInt16.
Proof.
  induction data as [| x | x y l IH] using pair_induction; intros Hev.
  - exists []. reflexivity.
  - destruct Hev as [k Hk]. simpl in Hk. lia.
  - destruct IH as [rest Hrest].
    + destruct Hev as [k Hk]. simpl in Hk. exists (k - 1)%nat. lia.
    + exists (int16 x y :: rest). cbn [Int16Array]. now rewrite Hrest.
Qed.

Lemma Int16Array_spec (data : list byte) :
  forall dataInt16,
    Int16Array data = Some dataInt16 ->
    length data = (2 * length dataInt16)%nat /\
    Forall (fun s => -32768 <= s <= 32767) dataInt16 /\
    mjoin (int16Bytes <$> dataInt16) = data.
Proof.
  induction data as [| x | x y l IH] using pair_induction; intros dataInt16 H.
  - injection H as <-. repeat split. constructor.
  - discriminate.
  - cbn [Int16Array] in H.
    destruct (Int16Array l) as [rest|]; [|discriminate].
    injection H as <-. destruct (IH rest eq_refl) as (Hlen & Hrange & Hbytes).
    repeat split.
    + simpl length. lia.
    + constructor; [apply int16_range|exact Hrange].
    + cbn [fmap list_fmap mjoin list_join]. rewrite int16Bytes_int16.
      cbn [app]. f_equal. f_equal. exact Hbytes.
Qed.

Local Open Scope Q_scope.

Lemma Qfloor_unique (x : Q) (n : Z) :
  inject_Z n <= x -> x < inject_Z (n + 1) -> Qfloor x = n.
Proof.
  intros Hlo Hhi.
  assert (H1 : (n <= Qfloor x)%Z).
  { rewrite <- (Qfloor_Z n). now apply Qfloor_resp_le. }
  assert (H2 : (Qfloor x < n + 1)%Z).
  { rewrite Zlt_Qlt. eapply Qle_lt_trans; [apply Qfloor_le|exact Hhi]. }
  lia.
Qed.

(** Scaling a decoded sample by 32768, rounding and clamping gives the
    16-bit sample back. *)
Lemma toInt16_scaled (s : Z) :
  (-32768 <= s <= 32767)%Z ->
  toInt16 (num_div (Finite (inject_Z s)) (Finite 32768)) = s.
Proof.
  intros Hs. unfold toInt16. cbn [num_div].
  change (Qeq_bool 32768 0) with false. cbn iota. cbn [num_mul Math_round].
  assert (Hk : Qfloor (inject_Z s / 32768 * 32768 + (1 # 2)) = s).
  { apply Qfloor_unique.
    - assert (H : inject_Z s / 32768 * 32768 == inject_Z s) by field. lra.
    - rewrite inject_Z_plus.
      assert (H : inject_Z s / 32768 * 32768 == inject_Z s) by field.
      change (inject_Z 1) with 1. lra. }
  rewrite Hk. cbn [Math_max].
  assert (Hlo : Qle_bool (-32768) (inject_Z s) = true).
  { apply Qle_bool_iff. change (-32768) with (inject_Z (-32768)).
    rewrite <- Zle_Qle. lia. }
  rewrite Hlo. cbn [Math_min].
  destruct (Qle_bool 32767 (inject_Z s)) eqn:E.
  - apply Qle_bool_iff in E. change 32767 with (inject_Z 32767) in E.
    rewrite <- Zle_Qle in E. change (Qfloor 32767) with 32767%Z. lia.
  - apply Qfloor_Z.
Qed.

(** A decoded sample is the 16-bit sample over 32768 and lies in [-1, 1]. *)
Lemma scaled_spec (dataInt16 : list Z) (k : nat) (s : Z) :
  dataInt16 !! k = Some s ->
  (-32768 <= s <= 32767)%Z ->
  scaled dataInt16 k = Finite (inject_Z s / 32768) /\
  -1 <= inject_Z s / 32768 <= 1.
Proof.
  intros Hk Hs. unfold scaled. rewrite Hk. cbn [num_div].
  change (Qeq_bool 32768 0) with false. split; [reflexivity|].
  assert (H : inject_Z s / 32768 * 32768 == inject_Z s) by field.
  assert (Hlo : inject_Z (-32768) <= inject_Z s) by (rewrite <- Zle_Qle; lia).
  assert (Hhi : inject_Z s <= inject_Z 32767) by (rewrite <- Zle_Qle; lia).
  change (inject_Z (-32768)) with (-32768) in Hlo.
  change (inject_Z 32767) with 32767 in Hhi.
  set (x := inject_Z s / 32768) in *. clearbody x. lra.
Qed.

End AudioSamples.

Section AudioRoundTrip.
Import Audio.

(** Frame by frame and channel by channel is the order of the interleaved
    samples. *)
Lemma interleaved_order {A : Type} (B : nat -> list A) (numChannels frameCount : nat) :
  mjoin ((fun i => mjoin ((fun channel => B (i * numChannels + channel)%nat)
                            <$> seq 0 numChannels))
           <$> seq 0 frameCount) =
  mjoin (B <$> seq 0 (frameCount * numChannels)).
Proof.
  induction frameCount as [|n IH]; [reflexivity|].
  rewrite seq_S, fmap_app, join_app, IH. cbn [fmap list_fmap mjoin list_join Nat.add].
  rewrite app_nil_r.
  replace (S n * numChannels)%nat with (n * numChannels + numChannels)%nat by lia.
  rewrite seq_app, fmap_app, join_app. f_equal. cbn [Nat.add].
  f_equal.
  change (fun channel => B (n * numChannels + channel)%nat)
    with (B ∘ (fun channel => n * numChannels + channel)%nat).
  rewrite list_fmap_compose, fmap_add_seq, Nat.add_0_r. reflexivity.
Qed.

Lemma reencoded_samples (dataInt16 : list Z) :
  Forall (fun s => -32768 <= s <= 32767) dataInt16 ->
  (fun k => int16Bytes (toInt16 (scaled dataInt16 k))) <$> seq 0 (length dataInt16) =
  int16Bytes <$> dataInt16.
Proof.
  intros Hrange. apply list_eq. intros k.
  rewrite !list_lookup_fmap.
  destruct (dataInt16 !! k) as [s|] eqn:Ek.
  - rewrite (lookup_seq_lt 0 (length dataInt16) k) by (eapply lookup_lt_Some; eauto).
    cbn. f_equal. f_equal.
    assert (Hs : -32768 <= s <= 32767).
    { rewrite Forall_forall in Hrange. apply Hrange.
      eapply list_elem_of_lookup_2; eauto. }
    destruct (scaled_spec dataInt16 k s Ek Hs) as [-> _].
    change (Finite (inject_Z s / 32768)) with (num_div (Finite (inject_Z s)) (Finite 32768)).
    now apply toInt16_scaled.
  - rewrite lookup_seq_ge by (apply lookup_ge_None; exact Ek). reflexivity.
Qed.

Lemma frameBytes_deinterleaved (dataInt16 : list Z) (rate : Z)
    (numChannels frameCount i : nat) :
  (i < frameCount)%nat ->
  frameBytes {| numberOfChannels := numChannels;
                frames := frameCount;
                sampleRate := rate;
                channelData := deinterleaved dataInt16 numChannels frameCount |} i =
  mjoin ((fun channel =>
            int16Bytes (toInt16 (scaled dataInt16 (i * numChannels + channel))))
           <$> seq 0 numChannels).
Proof.
  intros Hi. unfold frameBytes, deinterleaved. cbn [channelData].
  rewrite <- list_fmap_compose. f_equal.
  apply list_fmap_ext. intros k channel _. cbn.
  rewrite list_lookup_fmap, lookup_seq_lt by exact Hi. reflexivity.
Qed.

(** C6. For a buffer of even length and a channel count that divides the
    number of 16-bit samples, [decodeAudioData] returns a buffer of
    [byteLength / 2 / numChannels] frames with one array per channel; the
    sample of frame [i] on a channel is the little-endian signed 16-bit
    sample at [i * numChannels + channel] divided by 32768, a value inside
    [-1, 1]; and scaling the samples by 32768, rounding, clamping to
    [-32768, 32767] and writing them back interleaved reproduces the
    original bytes. *)
Theorem decode_round_trip (data : list byte) (rate : Z) (numChannels : nat) :
  Nat.Even (length data) ->
  (0 < numChannels)%nat ->
  Nat.divide numChannels (length data / 2) ->
  exists buffer dataInt16,
    Int16Array data = Some dataInt16 /\
    decodeAudioData data rate numChannels = Some buffer /\
    frames buffer = (length data / 2 / numChannels)%nat /\
    length (channelData buffer) = numChannels /\
    (forall channel i,
        (channel < numChannels)%nat -> (i < frames buffer)%nat ->
        exists s,
          dataInt16 !! (i * numChannels + channel)%nat = Some s /\
          (channelData buffer !! channel) ≫= (fun samples => samples !! i) =
            Some (Finite (inject_Z s / 32768)) /\
          (-1 <= inject_Z s / 32768 <= 1)%Q) /\
    reencode buffer = data.
Proof.
  intros Heven Hpos Hdiv.
  destruct (Int16Array_even data Heven) as [dataInt16 Hview].
  destruct (Int16Array_spec data dataInt16 Hview) as (Hlen & Hrange & Hbytes).
  assert (Hhalf : (length data / 2 = length dataInt16)%nat).
  { rewrite Hlen, Nat.mul_comm. apply Nat.div_mul. lia. }
  rewrite Hhalf in Hdiv |- *. destruct Hdiv as [fc Hfc].
  assert (Hframes : (length dataInt16 / numChannels = fc)%nat).
  { rewrite Hfc. apply Nat.div_mul. lia. }
  eexists _, dataInt16. split; [exact Hview|].
  split; [apply (decodeAudioData_eq data rate numChannels dataInt16 Hview Hpos)|].
  cbn [frames channelData]. rewrite Hframes.
  split; [reflexivity|].
  split; [unfold deinterleaved; now rewrite length_fmap, length_seq|].
  split.
  - intros channel i Hch Hi.
    assert (Hidx : (i * numChannels + channel < length dataInt16)%nat) by nia.
    destruct (lookup_lt_is_Some_2 dataInt16 _ Hidx) as [s Hs].
    assert (Hsr : -32768 <= s <= 32767).
    { rewrite Forall_forall in Hrange. apply Hrange.
      eapply list_elem_of_lookup_2; eauto. }
    exists s. split; [exact Hs|].
    destruct (scaled_spec dataInt16 _ s Hs Hsr) as [Hscaled Hbound].
    split; [|exact Hbound].
    unfold deinterleaved.
    rewrite list_lookup_fmap, lookup_seq_lt by exact Hch. cbn.
    rewrite list_lookup_fmap, lookup_seq_lt by exact Hi. cbn.
    now rewrite Hscaled.
  - unfold reencode. cbn [frames].
    rewrite <- Hbytes, <- (reencoded_samples dataInt16 Hrange), Hfc.
    rewrite <- interleaved_order.
    f_equal. apply list_fmap_ext. intros k i Hk.
    apply lookup_seq in Hk as [-> Hk]. cbn [Nat.add].
    now apply frameBytes_deinterleaved.
Qed.

End AudioRoundTrip.


Lemma samplePcm_even : Nat.Even (length samplePcm).
Proof. exists 4%nat. reflexivity. Qed.

Lemma samplePcm_stereo : Nat.divide 2 (length samplePcm / 2).
Proof. exists 2%nat. reflexivity. Qed.

Lemma decode_round_trip_witness :
  Nat.Even (length samplePcm) /\
  (0 < 2)%nat /\
  Nat.divide 2 (length samplePcm / 2) /\
  exists buffer dataInt16,
    Audio.Int16Array samplePcm = Some dataInt16 /\
    Audio.decodeAudioData samplePcm 24000 2 = Some buffer /\
    Audio.frames buffer = (length samplePcm / 2 / 2)%nat /\
    length (Audio.channelData buffer) = 2%nat /\
    (forall channel i,
        (channel < 2)%nat -> (i < Audio.frames buffer)%nat ->
        exists s,
          dataInt16 !! (i * 2 + channel)%nat = Some s /\
          (Audio.channelData buffer !! channel) ≫= (fun samples => samples !! i) =
            Some (Finite (inject_Z s / 32768)) /\
          (-1 <= inject_Z s / 32768 <= 1)%Q) /\
    Audio.reencode buffer = samplePcm.
Proof.
  assert (Hpos : (0 < 2)%nat) by lia.
  split; [exact samplePcm_even|]. split; [exact Hpos|].
  split; [exact samplePcm_stereo|].
  exact (decode_round_trip samplePcm 24000 2 samplePcm_even Hpos samplePcm_stereo).
Defined.

(** ** The shape of a run *)

Lemma continues_added (w w' : World) (d : list Event) :
  continues w w' d -> added (trace w) (trace w') = d.
Proof. unfold continues. intros ->. apply added_app. Qed.

Lemma calls_visible (t : list Event) : calls (visible t) = calls t.
Proof.
  induction t as [|e t IH]; [reflexivity|].
  destruct e; unfold visible in *; simpl; now rewrite ?IH.
Qed.

Lemma backoffs_app (a b : list Event) : backoffs (a ++ b) = backoffs a ++ backoffs b.
Proof.
  induction a as [|e a IH]; [reflexivity|].
  destruct e; simpl; now rewrite IH.
Qed.

Lemma backoffs_visible (t : list Event) : backoffs (visible t) = backoffs t.
Proof.
  induction t as [|e t IH]; [reflexivity|].
  destruct e; unfold visible in *; simpl; now rewrite ?IH.
Qed.

Lemma calls_pass (m : string) (ds : list Q) :
  calls (pass m ds) = replicate (S (length ds)) m.
Proof.
  unfold pass. simpl. f_equal.
  induction ds as [|b ds IH]; [reflexivity|]. simpl. now rewrite IH.
Qed.

Lemma backoffs_pass (m : string) (ds : list Q) : backoffs (pass m ds) = ds.
Proof.
  unfold pass. simpl.
  induction ds as [|b ds IH]; [reflexivity|]. simpl. now rewrite IH.
Qed.

Lemma calls_passes (dss : list (list Q)) :
  forall models, calls (passes dss models) = blocks ((fun ds => S (length ds)) <$> dss) models.
Proof.
  induction dss as [|ds dss IH]; intros [|m models]; try reflexivity.
  cbn [passes fmap list_fmap blocks]. now rewrite calls_app, calls_pass, IH.
Qed.

Lemma backoffs_passes (dss : list (list Q)) :
  forall models, (length dss <= length models)%nat ->
                 backoffs (passes dss models) = mjoin dss.
Proof.
  induction dss as [|ds dss IH]; intros [|m models] Hlen; try reflexivity.
  - simpl in Hlen. lia.
  - cbn [passes mjoin list_join]. rewrite backoffs_app, backoffs_pass, IH; [reflexivity|].
    simpl in Hlen. lia.
Qed.

Lemma pass_cons (m : string) (b : Q) (ds : list Q) :
  pass m (b :: ds) = EvAttempt m :: EvBackoff b :: pass m ds.
Proof. reflexivity. Qed.

Lemma pass_between (m : string) (ds : list Q) : BackoffsBetweenAttempts (pass m ds).
Proof.
  induction ds as [|b ds IH]; intros i ms Hi.
  - destruct i as [|[|i]]; discriminate.
  - rewrite pass_cons in *.
    destruct i as [|[|i]]; [discriminate| |].
    + exists m. split; [lia|]. split; reflexivity.
    + cbn in Hi. destruct (IH i ms Hi) as (m' & Hpos & Hb & Ha).
      exists m'. split; [lia|]. split.
      * replace (S (S i) - 1)%nat with (S (S (i - 1))) by lia. exact Hb.
      * exact Ha.
Qed.

Lemma between_app (a b : list Event) :
  BackoffsBetweenAttempts a -> BackoffsBetweenAttempts b ->
  BackoffsBetweenAttempts (a ++ b).
Proof.
  intros Ha Hb i ms Hi.
  apply lookup_app_Some in Hi as [Hi|[Hlen Hi]].
  - destruct (Ha i ms Hi) as (m & Hpos & H1 & H2).
    exists m. split; [exact Hpos|]. split; apply lookup_app_l_Some; assumption.
  - destruct (Hb _ ms Hi) as (m & Hpos & H1 & H2).
    exists m. split; [lia|]. split.
    + rewrite lookup_app_r by lia.
      replace (i - 1 - length a)%nat with (i - length a - 1)%nat by lia. exact H1.
    + rewrite lookup_app_r by lia.
      replace (i + 1 - length a)%nat with (i - length a + 1)%nat by lia. exact H2.
Qed.

Lemma passes_between (dss : list (list Q)) :
  forall models, BackoffsBetweenAttempts (passes dss models).
Proof.
  induction dss as [|ds dss IH]; intros [|m models]; try (intros i ms Hi; discriminate).
  cbn [passes]. apply between_app; [apply pass_between|apply IH].
Qed.

Section RateLimitedShape.
Import RateLimited.
Context {T : Type}.
Variable fn : Work T.
Variable models : list string.
Variable maxRetries : Z.

Lemma pow2_succ (j : nat) : 2 ^ Z.of_nat (S j) = 2 * 2 ^ Z.of_nat j.
Proof. rewrite Nat2Z.inj_succ. apply Z.pow_succ_r. lia. Qed.

(** What a pass over one model adds to the trace: invocations against
    that model with a delay between them, the [j]-th delay being the
    current one (after a server error) or twice that (after a rate-limit
    error). *)
Lemma tryModel_shape (model : string) (remaining : nat) :
  forall (attempt delay : Z) (w : World),
    Z.of_nat (S remaining) = maxRetries - attempt -> 0 < delay ->
    exists d (ds : list Z),
      continues w (tryModel fn models maxRetries model (S remaining) attempt delay w).2 d /\
      visible d = pass model (inject_Z <$> ds) /\
      (length ds <= remaining)%nat /\
      (forall j b, ds !! j = Some b ->
                   delay * 2 ^ Z.of_nat j <= b <= delay * 2 ^ Z.of_nat (S j)).
Proof.
  induction remaining as [|r IH]; intros attempt delay w Hfuel Hdelay;
    rewrite tryModel_S;
    destruct (invoked_continues fn model w) as (d0 & Hd0 & _ & Hv0 & _).
  - assert (Hlast : (attempt <? maxRetries - 1) = false) by (apply Z.ltb_ge; lia).
    assert (Hstop : forall x : LoopExit T,
               exists d (ds : list Z),
                 continues w (x, invoked fn model w).2 d /\
                 visible d = pass model (inject_Z <$> ds) /\
                 (length ds <= 0)%nat /\
                 (forall j b, ds !! j = Some b ->
                              delay * 2 ^ Z.of_nat j <= b <= delay * 2 ^ Z.of_nat (S j))).
    { intros x. exists (d0 ++ [EvAttempt model]), []. cbn [fst snd].
      split; [exact Hd0|]. split; [now rewrite visible_app, Hv0|].
      split; [reflexivity|]. intros j b Hj. discriminate. }
    destruct (outcome (fn model (attempts (trace (admitted w))))) as [v|err];
      [apply Hstop|].
    destruct (isNotFound err); [apply Hstop|].
    rewrite Hlast, !andb_false_r.
    destruct (hasNext model models); apply Hstop.
  - assert (Hstop : forall x : LoopExit T,
               exists d (ds : list Z),
                 continues w (x, invoked fn model w).2 d /\
                 visible d = pass model (inject_Z <$> ds) /\
                 (length ds <= S r)%nat /\
                 (forall j b, ds !! j = Some b ->
                              delay * 2 ^ Z.of_nat j <= b <= delay * 2 ^ Z.of_nat (S j))).
    { intros x. exists (d0 ++ [EvAttempt model]), []. cbn [fst snd].
      split; [exact Hd0|]. split; [now rewrite visible_app, Hv0|].
      split; [simpl; lia|]. intros j b Hj. discriminate. }
    assert (Hagain : forall ms,
               delay <= ms <= delay * 2 ->
               exists d (ds : list Z),
                 continues w
                   (tryModel fn models maxRetries model (S r) (attempt + 1) (delay * 2)
                      (backedOff ms (invoked fn model w))).2 d /\
                 visible d = pass model (inject_Z <$> ds) /\
                 (length ds <= S r)%nat /\
                 (forall j b, ds !! j = Some b ->
                              delay * 2 ^ Z.of_nat j <= b <= delay * 2 ^ Z.of_nat (S j))).
    { intros ms Hms.
      destruct (IH (attempt + 1) (delay * 2) (backedOff ms (invoked fn model w)))
        as (d & ds & Hd & Hv & Hlen & Hb); [lia|lia|].
      exists ((d0 ++ [EvAttempt model]) ++ [EvBackoff (inject_Z ms)] ++ d), (ms :: ds).
      split; [|split; [|split]].
      - eapply continues_trans; [exact Hd0|].
        eapply continues_trans; [apply backedOff_continues|exact Hd].
      - rewrite !visible_app, Hv0, Hv. reflexivity.
      - simpl. lia.
      - intros [|j] b Hj.
        + injection Hj as <-. change (Z.of_nat 0) with 0.
          rewrite pow2_succ. change (2 ^ 0) with 1. lia.
        + cbn in Hj. specialize (Hb j b Hj).
          rewrite !pow2_succ in *. lia. }
    destruct (outcome (fn model (attempts (trace (admitted w))))) as [v|err];
      [apply Hstop|].
    destruct (isNotFound err); [apply Hstop|].
    destruct (isRateLimit err && (attempt <? maxRetries - 1)); [apply Hagain; lia|].
    destruct (isServerError err && (attempt <? maxRetries - 1)); [apply Hagain; lia|].
    destruct (hasNext model models); apply Hstop.
Qed.

Lemma overModels_idle (rest : list string) (w : World) :
  Z.to_nat maxRetries = 0%nat ->
  overModels fn models maxRetries rest w = (Exhausted exhaustedMessage, w).
Proof.
  intros Hz. induction rest as [|m rest IH]; [reflexivity|].
  rewrite overModels_cons, Hz. exact IH.
Qed.

Lemma overModels_shape (rest : list string) :
  forall w : World,
    1 <= maxRetries ->
    exists d (dss : list (list Z)),
      continues w (overModels fn models maxRetries rest w).2 d /\
      (length dss <= length rest)%nat /\
      visible d = passes ((fun ds : list Z => inject_Z <$> ds) <$> dss) rest /\
      Forall (PassDelaysX maxRetries) dss.
Proof.
  induction rest as [|model rest IH]; intros w Hmax.
  - exists [], []. repeat split; try reflexivity; try constructor. apply continues_refl.
  - rewrite overModels_cons.
    destruct (Z.to_nat maxRetries) as [|n] eqn:En; [lia|].
    destruct (tryModel_shape model n 0 3000 w) as (d1 & ds & Hd1 & Hv1 & Hlen1 & Hb1);
      [lia|lia|].
    assert (Hds : PassDelaysX maxRetries ds) by (split; [lia|exact Hb1]).
    destruct (tryModel fn models maxRetries model (S n) 0 3000 w) as [x w1].
    cbn [fst snd] in *.
    assert (Hstop : forall r : Outcome T,
               exists d (dss : list (list Z)),
                 continues w (r, w1).2 d /\
                 (length dss <= length (model :: rest))%nat /\
                 visible d = passes ((fun ds : list Z => inject_Z <$> ds) <$> dss) (model :: rest) /\
                 Forall (PassDelaysX maxRetries) dss).
    { intros r. exists d1, [ds]. cbn [fst snd]. split; [exact Hd1|].
      split; [simpl; lia|]. split; [|constructor; [exact Hds|constructor]].
      cbn [fmap list_fmap passes]. rewrite Hv1.
      destruct rest; now rewrite app_nil_r. }
    destruct x as [v|err|]; [apply Hstop|apply Hstop|].
    destruct (IH w1 Hmax) as (d2 & dss & Hd2 & Hlen2 & Hv2 & Hall).
    exists (d1 ++ d2), (ds :: dss). split; [|split; [|split]].
    + eapply continues_trans; eassumption.
    + simpl. lia.
    + rewrite visible_app, Hv1, Hv2. reflexivity.
    + constructor; assumption.
Qed.

End RateLimitedShape.

Section BasicShape.
Import Basic.
Context {T : Type}.
Variable fn : Work T.
Variable models : list string.
Variable maxRetries : Z.

Lemma grown_succ (factor first : Q) (j : nat) :
  grown factor first (S j) = grown factor (first * factor)%Q j.
Proof. exact (Nat.iter_succ_r j (fun d => (d * factor)%Q) first). Qed.

Lemma grown_seq (factor first : Q) (n : nat) :
  grown factor first <$> seq 0 (S n) =
  first :: (grown factor (first * factor)%Q <$> seq 0 n).
Proof.
  cbn [seq fmap list_fmap]. f_equal.
  rewrite <- fmap_S_seq, <- list_fmap_compose.
  apply list_fmap_ext. intros i j _. apply grown_succ.
Qed.

Lemma basic_tryModel_shape (model : string) (remaining : nat) :
  forall (attempt : Z) (delay : Q) (lastError : option JsError) (w : World),
    Z.of_nat (S remaining) = maxRetries - attempt ->
    exists n,
      (n <= remaining)%nat /\
      continues w
        (tryModel fn models maxRetries model (S remaining) attempt delay lastError w).2
        (pass model (grown 2.5 delay <$> seq 0 n)).
Proof.
  induction remaining as [|r IH]; intros attempt delay lastError w Hfuel;
    rewrite basic_tryModel_S.
  - assert (Hlast : (attempt <? maxRetries - 1) = false) by (apply Z.ltb_ge; lia).
    assert (Hstop : forall x : LoopExit T * option JsError,
               exists n, (n <= 0)%nat /\
                 continues w (x, invokedB fn model w).2
                   (pass model (grown 2.5 delay <$> seq 0 n))).
    { intros x. exists 0%nat. split; [lia|]. reflexivity. }
    destruct (outcome (fn model (attempts (trace w)))) as [v|err]; [apply Hstop|].
    rewrite Hlast, andb_false_r.
    destruct (hasNext model models); apply Hstop.
  - assert (Hstop : forall x : LoopExit T * option JsError,
               exists n, (n <= S r)%nat /\
                 continues w (x, invokedB fn model w).2
                   (pass model (grown 2.5 delay <$> seq 0 n))).
    { intros x. exists 0%nat. split; [lia|]. reflexivity. }
    destruct (outcome (fn model (attempts (trace w)))) as [v|err]; [apply Hstop|].
    destruct ((isRateLimit err || isServerError err) && (attempt <? maxRetries - 1)).
    + destruct (IH (attempt + 1) (delay * 2.5)%Q (Some err)
                   (backedOffB delay (invokedB fn model w))) as (n & Hn & Hd); [lia|].
      exists (S n). split; [lia|].
      rewrite grown_seq, pass_cons.
      unfold continues in *. rewrite Hd. cbn [backedOffB invokedB trace elapse record].
      now rewrite <- !app_assoc.
    + destruct (hasNext model models); apply Hstop.
Qed.

Lemma basic_overModels_idle (rest : list string) (lastError : option JsError) (w : World) :
  Z.to_nat maxRetries = 0%nat ->
  overModels fn models maxRetries rest lastError w =
  (Exhausted (exhaustedMessage (length models) lastError), w).
Proof.
  intros Hz. revert lastError. induction rest as [|m rest IH]; intros lastError;
    [reflexivity|].
  rewrite basic_overModels_cons, Hz. apply IH.
Qed.

Lemma basic_overModels_shape (rest : list string) :
  forall (lastError : option JsError) (w : World),
    1 <= maxRetries ->
    exists counts : list nat,
      (length counts <= length rest)%nat /\
      Forall (fun n => 1 <= n <= Z.to_nat maxRetries)%nat counts /\
      continues w (overModels fn models maxRetries rest lastError w).2
        (passes (basicDelays <$> counts) rest).
Proof.
  induction rest as [|model rest IH]; intros lastError w Hmax.
  - exists []. repeat split; try constructor. apply continues_refl.
  - rewrite basic_overModels_cons.
    destruct (Z.to_nat maxRetries) as [|n] eqn:En; [lia|].
    destruct (basic_tryModel_shape model n 0 1500%Q lastError w) as (k & Hk & Hd1); [lia|].
    destruct (tryModel fn models maxRetries model (S n) 0 1500%Q lastError w)
      as [[x le] w1]. cbn [fst snd] in *.
    assert (Hpass : basicDelays (S k) = grown 2.5 1500 <$> seq 0 k).
    { unfold basicDelays. now rewrite Nat.sub_succ, Nat.sub_0_r. }
    assert (Hstop : forall r : Outcome T,
               exists counts : list nat,
                 (length counts <= length (model :: rest))%nat /\
                 Forall (fun c => 1 <= c <= S n)%nat counts /\
                 continues w (r, w1).2 (passes (basicDelays <$> counts) (model :: rest))).
    { intros r. exists [S k]. split; [simpl; lia|].
      split; [constructor; [lia|constructor]|].
      cbn [fmap list_fmap passes fst snd]. rewrite Hpass.
      destruct rest; now rewrite app_nil_r. }
    destruct x as [v|err|]; [apply Hstop|apply Hstop|].
    destruct (IH le w1 Hmax) as (counts & Hlen & Hall & Hd2).
    exists (S k :: counts). split; [simpl; lia|].
    split; [constructor; [lia|exact Hall]|].
    cbn [fmap list_fmap passes]. rewrite Hpass.
    eapply continues_trans; eassumption.
Qed.

End BasicShape.

(** ** A run stops at the first success *)

Lemma AllThrew_nil {T} (fn : Work T) (base : nat) : AllThrew fn base [].
Proof. intros i m H. discriminate. Qed.

Lemma AllThrew_earlier {T} (fn : Work T) (base : nat) (cs : list string) :
  AllThrew fn base cs -> EarlierThrew fn base cs.
Proof. intros H i m Hi _. now apply H. Qed.

Lemma AllThrew_app {T} (fn : Work T) (base : nat) (a b : list string) :
  AllThrew fn base a -> AllThrew fn (base + length a) b -> AllThrew fn base (a ++ b).
Proof.
  intros Ha Hb i m Hi. apply lookup_app_Some in Hi as [Hi|[Hlen Hi]].
  - now apply Ha.
  - specialize (Hb _ _ Hi).
    replace (base + length a + (i - length a))%nat with (base + i)%nat in Hb by lia.
    exact Hb.
Qed.

Lemma EarlierThrew_app {T} (fn : Work T) (base : nat) (a b : list string) :
  AllThrew fn base a -> EarlierThrew fn (base + length a) b ->
  EarlierThrew fn base (a ++ b).
Proof.
  intros Ha Hb i m Hi Hlt. rewrite length_app in Hlt.
  apply lookup_app_Some in Hi as [Hi|[Hlen Hi]].
  - now apply Ha.
  - assert (Hlt' : (i - length a + 1 < length b)%nat) by lia.
    specialize (Hb _ _ Hi Hlt').
    replace (base + length a + (i - length a))%nat with (base + i)%nat in Hb by lia.
    exact Hb.
Qed.

Lemma FinalOutcome_app {T} (fn : Work T) (base : nat) (a b : list string)
    (o : result T JsError) :
  FinalOutcome fn (base + length a) b o -> FinalOutcome fn base (a ++ b) o.
Proof.
  intros (m & Hlast & Ho). exists m.
  assert (Hb : (0 < length b)%nat).
  { destruct b; [discriminate|simpl; lia]. }
  split.
  - rewrite last_app, Hlast. reflexivity.
  - rewrite length_app.
    replace (base + (length a + length b) - 1)%nat
      with (base + length a + length b - 1)%nat by lia.
    exact Ho.
Qed.

Lemma AllThrew_replicate_S {T} (fn : Work T) (base n : nat) (m : string) :
  threw (outcome (fn m base)) ->
  AllThrew fn (S base) (replicate n m) ->
  AllThrew fn base (replicate (S n) m).
Proof.
  intros H0 Hn [|i] m' Hi.
  - injection Hi as <-. now rewrite Nat.add_0_r.
  - cbn in Hi. specialize (Hn i m' Hi).
    now replace (base + S i)%nat with (S base + i)%nat by lia.
Qed.

Lemma EarlierThrew_replicate_S {T} (fn : Work T) (base n : nat) (m : string) :
  threw (outcome (fn m base)) ->
  EarlierThrew fn (S base) (replicate n m) ->
  EarlierThrew fn base (replicate (S n) m).
Proof.
  intros H0 Hn [|i] m' Hi Hlt.
  - injection Hi as <-. now rewrite Nat.add_0_r.
  - cbn in Hi. cbn [replicate length] in Hlt.
    assert (Hlt' : (i + 1 < length (replicate n m))%nat) by lia.
    specialize (Hn i m' Hi Hlt').
    now replace (base + S i)%nat with (S base + i)%nat by lia.
Qed.

Lemma FinalOutcome_replicate_S {T} (fn : Work T) (base n : nat) (m : string)
    (o : result T JsError) :
  FinalOutcome fn (S base) (replicate n m) o ->
  FinalOutcome fn base (replicate (S n) m) o.
Proof.
  intros H. change (replicate (S n) m) with ([m] ++ replicate n m).
  apply FinalOutcome_app. simpl length.
  now replace (base + 1)%nat with (S base) by lia.
Qed.

Lemma FinalOutcome_one {T} (fn : Work T) (base : nat) (m : string) :
  FinalOutcome fn base [m] (outcome (fn m base)).
Proof.
  exists m. split; [reflexivity|]. simpl length.
  now replace (base + 1 - 1)%nat with base by lia.
Qed.

Section RateLimitedFailures.
Import RateLimited.
Context {T : Type}.
Variable fn : Work T.
Variable models : list string.
Variable maxRetries : Z.

Lemma tryModel_failures (model : string) (remaining : nat) :
  forall (attempt delay : Z) (w : World),
    exists n,
      calls (added (trace w)
               (trace (tryModel fn models maxRetries model remaining attempt delay w).2)) =
        replicate n model /\
      (exists d, continues w
                   (tryModel fn models maxRetries model remaining attempt delay w).2 d) /\
      PassStops fn (attempts (trace w)) (replicate n model)
        (tryModel fn models maxRetries model remaining attempt delay w).1.
Proof.
  induction remaining as [|r IH]; intros attempt delay w.
  - exists 0%nat. cbn [tryModel]. unfold mret, M_ret. cbn [fst snd].
    split; [|split].
    + rewrite <- (app_nil_r (trace w)) at 2. now rewrite added_app.
    + exists []. apply continues_refl.
    + apply AllThrew_nil.
  - rewrite tryModel_S.
    destruct (invoked_continues fn model w) as (d0 & Hd0 & _ & _ & Hc0).
    rewrite admitted_attempts.
    assert (Hstop : forall x : LoopExit T,
               PassStops fn (attempts (trace w)) [model] x ->
               exists n,
                 calls (added (trace w) (trace (x, invoked fn model w).2)) =
                   replicate n model /\
                 (exists d, continues w (x, invoked fn model w).2 d) /\
                 PassStops fn (attempts (trace w)) (replicate n model)
                   (x, invoked fn model w).1).
    { intros x Hx. exists 1%nat. cbn [fst snd]. split; [|split].
      - rewrite (continues_added _ _ _ Hd0), calls_app, Hc0. reflexivity.
      - eauto.
      - exact Hx. }
    assert (Hagain : forall ms delay' attempt',
               threw (outcome (fn model (attempts (trace w)))) ->
               exists n,
                 calls (added (trace w)
                          (trace (tryModel fn models maxRetries model r attempt' delay'
                                    (backedOff ms (invoked fn model w))).2)) =
                   replicate n model /\
                 (exists d, continues w
                              (tryModel fn models maxRetries model r attempt' delay'
                                 (backedOff ms (invoked fn model w))).2 d) /\
                 PassStops fn (attempts (trace w)) (replicate n model)
                   (tryModel fn models maxRetries model r attempt' delay'
                      (backedOff ms (invoked fn model w))).1).
    { intros ms delay' attempt' Hthrew.
      destruct (IH attempt' delay' (backedOff ms (invoked fn model w)))
        as (n & Hcalls & [d Hd] & Hx).
      rewrite backedOff_attempts, invoked_attempts in Hx.
      rewrite (continues_added _ _ _ Hd) in Hcalls.
      assert (Hall : continues w
                       (tryModel fn models maxRetries model r attempt' delay'
                          (backedOff ms (invoked fn model w))).2
                       ((d0 ++ [EvAttempt model]) ++ [EvBackoff (inject_Z ms)] ++ d)).
      { eapply continues_trans; [exact Hd0|].
        eapply continues_trans; [apply backedOff_continues|exact Hd]. }
      exists (S n). split; [|split].
      - rewrite (continues_added _ _ _ Hall), !calls_app, Hc0, Hcalls. reflexivity.
      - eauto.
      - destruct (tryModel fn models maxRetries model r attempt' delay'
                    (backedOff ms (invoked fn model w))).1 as [v|err|];
          cbn [PassStops] in *.
        + destruct Hx as [Hf He]. split.
          * now apply FinalOutcome_replicate_S.
          * now apply EarlierThrew_replicate_S.
        + destruct Hx as [Hf Ha]. split.
          * now apply FinalOutcome_replicate_S.
          * now apply AllThrew_replicate_S.
        + now apply AllThrew_replicate_S. }
    pose proof (FinalOutcome_one fn (attempts (trace w)) model) as Hone.
    assert (Hfail : forall err, outcome (fn model (attempts (trace w))) = Throw err ->
                                AllThrew fn (attempts (trace w)) [model]).
    { intros err He [|i] m Hi; [|discriminate]. injection Hi as <-.
      rewrite Nat.add_0_r. exists err. exact He. }
    destruct (outcome (fn model (attempts (trace w)))) as [v|err] eqn:Eo.
    + apply Hstop. split; [exact Hone|]. intros [|i] m Hi Hlt; simpl in Hlt; lia.
    + assert (Hthrew : threw (@Throw T JsError err)) by (exists err; reflexivity).
      destruct (isNotFound err); [apply Hstop; eapply Hfail; reflexivity|].
      destruct (isRateLimit err && (attempt <? maxRetries - 1)); [now apply Hagain|].
      destruct (isServerError err && (attempt <? maxRetries - 1)); [now apply Hagain|].
      destruct (hasNext model models); apply Hstop.
      * eapply Hfail; reflexivity.
      * split; [exact Hone|eapply Hfail; reflexivity].
Qed.

Lemma overModels_failures (rest : list string) :
  forall w : World,
    exists d,
      continues w (overModels fn models maxRetries rest w).2 d /\
      StopsAtFirstSuccess fn (attempts (trace w)) (calls d)
        (overModels fn models maxRetries rest w).1.
Proof.
  induction rest as [|model rest IH]; intros w.
  - exists []. split; [apply continues_refl|]. apply AllThrew_nil.
  - rewrite overModels_cons.
    destruct (tryModel_failures model (Z.to_nat maxRetries) 0 3000 w)
      as (n & Hcalls & [d1 Hd1] & Hx).
    rewrite (continues_added _ _ _ Hd1) in Hcalls.
    destruct (tryModel fn models maxRetries model (Z.to_nat maxRetries) 0 3000 w)
      as [x w1]. cbn [fst snd] in *.
    destruct x as [v|err|]; cbn [PassStops] in Hx.
    + exists d1. cbn [fst snd StopsAtFirstSuccess]. rewrite Hcalls. now split.
    + exists d1. cbn [fst snd StopsAtFirstSuccess]. rewrite Hcalls. now split.
    + destruct (IH w1) as (d2 & Hd2 & Hx2).
      exists (d1 ++ d2). split; [eapply continues_trans; eassumption|].
      assert (Hbase : attempts (trace w1) =
                      (attempts (trace w) + length (replicate n model))%nat).
      { rewrite Hd1, attempts_app, (attempts_calls d1), Hcalls. reflexivity. }
      rewrite Hbase in Hx2. rewrite calls_app, Hcalls.
      destruct (overModels fn models maxRetries rest w1).1 as [v|err|msg];
        cbn [StopsAtFirstSuccess] in *.
      * destruct Hx2 as [Hf He]. split.
        -- now apply FinalOutcome_app.
        -- now apply EarlierThrew_app.
      * destruct Hx2 as [Hf Ha]. split.
        -- now apply FinalOutcome_app.
        -- now apply AllThrew_app.
      * now apply AllThrew_app.
Qed.

End RateLimitedFailures.

Section BasicFailures.
Import Basic.
Context {T : Type}.
Variable fn : Work T.
Variable models : list string.
Variable maxRetries : Z.

Lemma invokedB_attempts (model : string) (w : World) :
  attempts (trace (invokedB fn model w)) = S (attempts (trace w)).
Proof. unfold invokedB. simpl. rewrite attempts_app. cbn. lia. Qed.

Lemma backedOffB_attempts (ms : Q) (w : World) :
  attempts (trace (backedOffB ms w)) = attempts (trace w).
Proof. unfold backedOffB. simpl. rewrite attempts_app. cbn. lia. Qed.

Lemma basic_tryModel_failures (model : string) (remaining : nat) :
  forall (attempt : Z) (delay : Q) (lastError : option JsError) (w : World),
    exists n d,
      continues w
        (tryModel fn models maxRetries model remaining attempt delay lastError w).2 d /\
      calls d = replicate n model /\
      PassStops fn (attempts (trace w)) (replicate n model)
        (tryModel fn models maxRetries model remaining attempt delay lastError w).1.1.
Proof.
  induction remaining as [|r IH]; intros attempt delay lastError w.
  - exists 0%nat, []. cbn [tryModel]. unfold mret, M_ret. cbn [fst snd].
    split; [apply continues_refl|]. split; [reflexivity|]. apply AllThrew_nil.
  - rewrite basic_tryModel_S.
    assert (Hd0 : continues w (invokedB fn model w) [EvAttempt model]) by reflexivity.
    assert (Hstop : forall x : LoopExit T * option JsError,
               PassStops fn (attempts (trace w)) [model] x.1 ->
               exists n d,
                 continues w (x, invokedB fn model w).2 d /\
                 calls d = replicate n model /\
                 PassStops fn (attempts (trace w)) (replicate n model)
                   (x, invokedB fn model w).1.1).
    { intros x Hx. exists 1%nat, [EvAttempt model]. cbn [fst snd].
      split; [exact Hd0|]. split; [reflexivity|exact Hx]. }
    pose proof (FinalOutcome_one fn (attempts (trace w)) model) as Hone.
    assert (Hfail : forall err, outcome (fn model (attempts (trace w))) = Throw err ->
                                AllThrew fn (attempts (trace w)) [model]).
    { intros err He [|i] m Hi; [|discriminate]. injection Hi as <-.
      rewrite Nat.add_0_r. exists err. exact He. }
    destruct (outcome (fn model (attempts (trace w)))) as [v|err] eqn:Eo.
    + apply (Hstop (Returned v, lastError)). split; [exact Hone|].
      intros [|i] m Hi Hlt; simpl in Hlt; lia.
    + assert (Hthrew : threw (@Throw T JsError err)) by (exists err; reflexivity).
      destruct ((isRateLimit err || isServerError err) && (attempt <? maxRetries - 1)).
      * destruct (IH (attempt + 1) (delay * 2.5)%Q (Some err)
                     (backedOffB delay (invokedB fn model w)))
          as (n & d & Hd & Hcalls & Hx).
        rewrite backedOffB_attempts, invokedB_attempts in Hx.
        exists (S n), ([EvAttempt model] ++ [EvBackoff delay] ++ d).
        split; [|split].
        -- eapply continues_trans; [exact Hd0|].
           eapply continues_trans; [|exact Hd]. reflexivity.
        -- rewrite !calls_app, Hcalls. reflexivity.
        -- destruct (tryModel fn models maxRetries model r (attempt + 1)
                       (delay * 2.5)%Q (Some err)
                       (backedOffB delay (invokedB fn model w))).1.1 as [v|e|];
             cbn [PassStops] in *.
           ++ destruct Hx as [Hf He]. split.
              ** now apply FinalOutcome_replicate_S.
              ** apply EarlierThrew_replicate_S; [now rewrite Eo|exact He].
           ++ destruct Hx as [Hf Ha]. split.
              ** now apply FinalOutcome_replicate_S.
              ** apply AllThrew_replicate_S; [now rewrite Eo|exact Ha].
           ++ apply AllThrew_replicate_S; [now rewrite Eo|exact Hx].
      * destruct (hasNext model models).
        -- apply (Hstop (NextModel, Some err)). eapply Hfail; reflexivity.
        -- apply (Hstop (Rethrown err, Some err)).
           split; [exact Hone|eapply Hfail; reflexivity].
Qed.

Lemma basic_overModels_failures (rest : list string) :
  forall (lastError : option JsError) (w : World),
    exists d,
      continues w (overModels fn models maxRetries rest lastError w).2 d /\
      StopsAtFirstSuccess fn (attempts (trace w)) (calls d)
        (overModels fn models maxRetries rest lastError w).1.
Proof.
  induction rest as [|model rest IH]; intros lastError w.
  - exists []. split; [apply continues_refl|]. apply AllThrew_nil.
  - rewrite basic_overModels_cons.
    destruct (basic_tryModel_failures model (Z.to_nat maxRetries) 0 1500%Q lastError w)
      as (n & d1 & Hd1 & Hcalls & Hx).
    destruct (tryModel fn models maxRetries model (Z.to_nat maxRetries) 0 1500%Q lastError w)
      as [[x le] w1]. cbn [fst snd] in *.
    destruct x as [v|err|]; cbn [PassStops] in Hx.
    + exists d1. cbn [fst snd StopsAtFirstSuccess]. rewrite Hcalls. now split.
    + exists d1. cbn [fst snd StopsAtFirstSuccess]. rewrite Hcalls. now split.
    + destruct (IH le w1) as (d2 & Hd2 & Hx2).
      exists (d1 ++ d2). split; [eapply continues_trans; eassumption|].
      assert (Hbase : attempts (trace w1) =
                      (attempts (trace w) + length (replicate n model))%nat).
      { rewrite Hd1, attempts_app, (attempts_calls d1), Hcalls. reflexivity. }
      rewrite Hbase in Hx2. rewrite calls_app, Hcalls.
      destruct (overModels fn models maxRetries rest le w1).1 as [v|err|msg];
        cbn [StopsAtFirstSuccess] in *.
      * destruct Hx2 as [Hf He]. split.
        -- now apply FinalOutcome_app.
        -- now apply EarlierThrew_app.
      * destruct Hx2 as [Hf Ha]. split.
        -- now apply FinalOutcome_app.
        -- now apply AllThrew_app.
      * now apply AllThrew_app.
Qed.

End BasicFailures.

Lemma added_same {A} (t : list A) : added t t = [].
Proof. rewrite <- (app_nil_r t) at 2. apply added_app. Qed.

(** X1. A run of the orchestrator returns what its last invocation of the
    unit of work returned and every invocation before that one threw, so
    nothing is invoked once an invocation has succeeded; a run that ends in
    a thrown error made only invocations that threw, and when it rethrows a
    provider error that is the error of its last invocation.  Both service
    files. *)
Theorem run_stops_at_first_success {T : Type} (fn : Work T) (models : list string)
    (maxRetries : Z) (w : World) :
  StopsAtFirstSuccess fn (attempts (trace w))
    (calls (added (trace w) (trace (RateLimited.runChain fn models maxRetries w).2)))
    (RateLimited.runChain fn models maxRetries w).1 /\
  StopsAtFirstSuccess fn (attempts (trace w))
    (calls (added (trace w) (trace (Basic.runChain fn models maxRetries w).2)))
    (Basic.runChain fn models maxRetries w).1.
Proof.
  split.
  - destruct (overModels_failures fn models maxRetries models w) as (d & Hd & Hx).
    unfold RateLimited.runChain. now rewrite (continues_added _ _ _ Hd).
  - destruct (basic_overModels_failures fn models maxRetries models None w)
      as (d & Hd & Hx).
    unfold Basic.runChain. now rewrite (continues_added _ _ _ Hd).
Qed.

(** X2. In the rate-limited service file a run invokes the unit of work
    against the models in the order of the chain, never going back to an
    earlier model and never leaving one out: against each model it gets to
    it makes at least one and at most [maxRetries] invocations. *)
Theorem models_tried_in_chain_order {T : Type} (fn : Work T) (models : list string)
    (maxRetries : Z) (w : World) :
  exists counts : list nat,
    (length counts <= length models)%nat /\
    Forall (fun n => 1 <= n <= Z.to_nat maxRetries)%nat counts /\
    calls (added (trace w) (trace (RateLimited.runChain fn models maxRetries w).2)) =
      blocks counts models.
Proof.
  unfold RateLimited.runChain.
  destruct (Z.to_nat maxRetries) as [|n] eqn:En.
  - exists []. rewrite overModels_idle by exact En. cbn [snd].
    repeat split; [apply Nat.le_0_l|constructor|].
    now rewrite added_same.
  - destruct (overModels_shape fn models maxRetries models w)
      as (d & dss & Hd & Hlen & Hv & Hall); [lia|].
    exists ((fun ds => S (length ds)) <$> dss).
    split; [now rewrite length_fmap|]. split.
    + apply Forall_fmap. eapply Forall_impl; [exact Hall|].
      intros ds [Hds _]. cbn. lia.
    + rewrite (continues_added _ _ _ Hd), <- calls_visible, Hv, calls_passes.
      rewrite <- list_fmap_compose. f_equal. apply list_fmap_ext.
      intros i ds _. cbn. now rewrite length_fmap.
Qed.

(** X3. In the rate-limited service file every retry delay of a run lies
    between two invocations against the same model -- a run never sleeps
    before moving to the next model or before giving up -- and lasts at
    least 3000 ms and at most 3000 * 2 ^ (maxRetries - 1) ms.  A run sleeps
    at most [maxRetries - 1] times per model: what it adds to the trace is,
    model after model in the order of the chain, one pass of invocations
    with at most [maxRetries - 1] delays between them. *)
Theorem backoffs_lie_between_attempts {T : Type} (fn : Work T) (models : list string)
    (maxRetries : Z) (w : World) :
  let d := added (trace w) (trace (RateLimited.runChain fn models maxRetries w).2) in
  BackoffsBetweenAttempts (visible d) /\
  Forall (fun ms => 3000 <= ms <= inject_Z (3000 * 2 ^ (maxRetries - 1)))%Q (backoffs d) /\
  (length (backoffs d) <= Z.to_nat (maxRetries - 1) * length models)%nat /\
  exists delays : list (list Q),
    (length delays <= length models)%nat /\
    visible d = passes delays models /\
    backoffs d = mjoin delays /\
    Forall (fun ds => (length ds <= Z.to_nat (maxRetries - 1))%nat) delays.
Proof.
  cbv zeta. unfold RateLimited.runChain.
  destruct (Z.to_nat maxRetries) as [|n] eqn:En.
  - rewrite overModels_idle by exact En. cbn [snd].
    rewrite added_same. cbn.
    split; [intros i ms Hi; discriminate|]. split; [constructor|]. split; [lia|].
    exists []. repeat split; [apply Nat.le_0_l|constructor].
  - destruct (overModels_shape fn models maxRetries models w)
      as (d & dss & Hd & Hlen & Hv & Hall); [lia|].
    rewrite (continues_added _ _ _ Hd), Hv, <- backoffs_visible, Hv.
    rewrite backoffs_passes by (now rewrite length_fmap).
    assert (Hsum : forall l : list (list Z),
               Forall (PassDelaysX maxRetries) l ->
               (length (mjoin ((fun ds : list Z => inject_Z <$> ds) <$> l))
                <= Z.to_nat (maxRetries - 1) * length l)%nat).
    { induction l as [|ds l IH]; intros Hl; [simpl; lia|].
      apply Forall_cons in Hl as [[Hds _] Hl].
      cbn [fmap list_fmap mjoin list_join length].
      rewrite length_app, length_fmap. specialize (IH Hl).
      change (list_join ((fun ds0 : list Z => inject_Z <$> ds0) <$> l))
        with (mjoin ((fun ds0 : list Z => inject_Z <$> ds0) <$> l)).
      assert (Hk : (length ds <= Z.to_nat (maxRetries - 1))%nat) by lia.
      rewrite Nat.mul_succ_r, Nat.add_comm. apply Nat.add_le_mono; assumption. }
    split; [apply passes_between|]. split; [|split].
    + apply Forall_forall. intros ms Hin.
      apply list_elem_of_join in Hin as (qs & Hin & Hqs).
      apply list_elem_of_fmap in Hqs as (ds & -> & Hds).
      apply list_elem_of_fmap in Hin as (b & -> & Hb).
      rewrite Forall_forall in Hall. destruct (Hall ds Hds) as [Hlen' Hbound].
      apply list_elem_of_lookup in Hb as [j Hj].
      specialize (Hbound j b Hj).
      assert (Hj' : (j < length ds)%nat) by (eapply lookup_lt_Some; eauto).
      assert (Hpow1 : 0 < 2 ^ Z.of_nat j) by (apply Z.pow_pos_nonneg; lia).
      assert (Hpow2 : 2 ^ Z.of_nat (S j) <= 2 ^ (maxRetries - 1))
        by (apply Z.pow_le_mono_r; lia).
      change 3000%Q with (inject_Z 3000). rewrite <- !Zle_Qle. lia.
    + etransitivity; [apply Hsum; exact Hall|].
      apply Nat.mul_le_mono_l. exact Hlen.
    + exists ((fun ds : list Z => inject_Z <$> ds) <$> dss).
      split; [now rewrite length_fmap|]. split; [reflexivity|]. split; [reflexivity|].
      apply Forall_fmap. eapply Forall_impl; [exact Hall|].
      intros ds [Hds _]. cbn. rewrite length_fmap. lia.
Qed.

(** X4. In the gemini-1.5 service file what a run adds to the trace is
    fixed by the number of invocations it makes against each model: the
    invocations against a model come with the delays 1500 ms,
    1500 * 2.5 ms, 1500 * 2.5 * 2.5 ms, ... between them, the delay
    starting again at 1500 ms with every model, and the models come in the
    order of the chain, each with at least one and at most [maxRetries]
    invocations. *)
Theorem basic_run_schedule {T : Type} (fn : Work T) (models : list string)
    (maxRetries : Z) (w : World) :
  (exists counts : list nat,
      (length counts <= length models)%nat /\
      Forall (fun n => 1 <= n <= Z.to_nat maxRetries)%nat counts /\
      added (trace w) (trace (Basic.runChain fn models maxRetries w).2) =
        passes (basicDelays <$> counts) models) /\
  (forall j : nat, grown 2.5 1500 j == 1500 * (5 # 2) ^ Z.of_nat j)%Q.
Proof.
  split.
  - unfold Basic.runChain.
    destruct (Z.to_nat maxRetries) as [|n] eqn:En.
    + exists []. rewrite basic_overModels_idle by exact En. cbn [snd].
      repeat split; [apply Nat.le_0_l|constructor|].
      apply added_same.
    + destruct (basic_overModels_shape fn models maxRetries models None w)
        as (counts & Hlen & Hall & Hd); [lia|].
      exists counts. rewrite En in Hall.
      split; [exact Hlen|]. split; [exact Hall|].
      now apply continues_added.
  - induction j as [|j IH].
    + reflexivity.
    + change (grown 2.5 1500 (S j)) with (grown 2.5 1500 j * 2.5)%Q.
      rewrite Nat2Z.inj_succ, <- Z.add_1_r.
      transitivity (1500 * ((5 # 2) ^ Z.of_nat j * (5 # 2) ^ 1))%Q.
      * transitivity (1500 * (5 # 2) ^ Z.of_nat j * 2.5)%Q.
        -- apply Qmult_comp; [exact IH|reflexivity].
        -- change ((5 # 2) ^ 1)%Q with (5 # 2)%Q. ring.
      * apply Qmult_comp; [reflexivity|].
        symmetry. apply Qpower_plus. discriminate.
Qed.

(** ** The timestamps the rate governor keeps *)

Section Preservation.
Import RateLimited.
Context {T : Type}.
Variable fn : Work T.
Variable models : list string.
Variable maxRetries : Z.
Variable P : World -> Prop.
Hypothesis P_invoked : forall model w, P w -> P (invoked fn model w).
Hypothesis P_backedOff : forall ms w, P w -> P (backedOff ms w).

Lemma tryModel_preserves (model : string) (remaining : nat) :
  forall (attempt delay : Z) (w : World),
    P w -> P (tryModel fn models maxRetries model remaining attempt delay w).2.
Proof.
  induction remaining as [|r IH]; intros attempt delay w Hw; [exact Hw|].
  rewrite tryModel_S.
  pose proof (P_invoked model w Hw) as Hi.
  destruct (outcome (fn model (attempts (trace (admitted w))))) as [v|err]; [exact Hi|].
  destruct (isNotFound err); [exact Hi|].
  destruct (isRateLimit err && (attempt <? maxRetries - 1)); [apply IH; auto|].
  destruct (isServerError err && (attempt <? maxRetries - 1)); [apply IH; auto|].
  destruct (hasNext model models); exact Hi.
Qed.

Lemma overModels_preserves (rest : list string) :
  forall w : World, P w -> P (overModels fn models maxRetries rest w).2.
Proof.
  induction rest as [|model rest IH]; intros w Hw; [exact Hw|].
  rewrite overModels_cons.
  pose proof (tryModel_preserves model (Z.to_nat maxRetries) 0 3000 w Hw) as H1.
  destruct (tryModel fn models maxRetries model (Z.to_nat maxRetries) 0 3000 w)
    as [[v|err|] w1]; cbn [snd] in *; auto.
Qed.

End Preservation.

Section SettledFacts.
Import RateLimited.

Lemma prune_length (now : Z) (ts : list Z) : (length (prune now ts) <= length ts)%nat.
Proof.
  induction ts as [|t ts IH]; [reflexivity|].
  simpl. destruct (t <? now - 60000); simpl; lia.
Qed.

Lemma Settled_kept (w : World) :
  Settled w -> (length (prune (clock w) (requestTimestamps w)) <= MAX_RPM)%nat.
Proof.
  intros (_ & _ & [Hlen|(Hlen & oldest & Hhead & Hold)]).
  - etransitivity; [apply prune_length|exact Hlen].
  - destruct (requestTimestamps w) as [|t ts]; [discriminate|].
    injection Hhead as ->. simpl in Hlen. simpl.
    destruct (Z.ltb_spec oldest (clock w - 60000)); [|lia].
    etransitivity; [apply prune_length|]. lia.
Qed.

Lemma Settled_elapse (ms : Z) (w : World) : Settled w -> Settled (elapse ms w).
Proof.
  intros (Hs & Hle & Hlen). unfold Settled, elapse. cbn [clock requestTimestamps].
  split; [exact Hs|]. split.
  - eapply Forall_impl; [exact Hle|]. simpl. intros t Ht. lia.
  - destruct Hlen as [Hlen|(Hlen & oldest & Hhead & Hold)]; [now left|].
    right. split; [exact Hlen|]. exists oldest. split; [exact Hhead|lia].
Qed.

Lemma Settled_record (e : Event) (w : World) : Settled w -> Settled (record e w).
Proof. intros H. exact H. Qed.

Lemma Settled_admitted (w : World) : Settled w -> Settled (waitForRateLimit w).2.
Proof.
  intros Hw. pose proof (Settled_kept w Hw) as Hk.
  destruct Hw as (Hs & Hle & _).
  destruct (prune_sorted (clock w) (requestTimestamps w) Hs) as (Hks & _ & _ & Hkle).
  specialize (Hkle (clock w) Hle).
  rewrite waitForRateLimit_eq.
  destruct (admitCheck (clock w) (requestTimestamps w)) as [kept [ms|]] eqn:E;
    pose proof (admitCheck_kept _ _ _ _ E) as ->; cbn [snd].
  - apply admitCheck_wait in E as (oldest & rest & Hkept & Hfull & -> & Hms).
    unfold Settled, admitRecord. cbn [clock requestTimestamps].
    assert (Hpast : Forall (fun t => t <= clock w + Z.max 0 (oldest + 60000 - clock w + 500))
                      (prune (clock w) (requestTimestamps w))).
    { eapply Forall_impl; [exact Hkle|]. simpl. intros t Ht. lia. }
    split; [now apply sorted_snoc|]. split.
    + apply Forall_app. split; [exact Hpast|]. constructor; [lia|constructor].
    + right. rewrite length_app. simpl length. split; [lia|].
      exists oldest. rewrite Hkept. split; [reflexivity|lia].
  - apply admitCheck_free in E.
    unfold Settled, admitRecord. cbn [clock requestTimestamps].
    split; [now apply sorted_snoc|]. split.
    + apply Forall_app. split; [exact Hkle|]. constructor; [lia|constructor].
    + left. rewrite length_app. simpl length. lia.
Qed.

Lemma clock_admitted (w : World) : clock w <= clock (waitForRateLimit w).2.
Proof.
  rewrite waitForRateLimit_eq.
  destruct (admitCheck (clock w) (requestTimestamps w)) as [kept [ms|]]; cbn; lia.
Qed.

End SettledFacts.

(** X5. For a caller that runs alone, a run of the orchestrator of the
    rate-limited service file keeps the governor's array in order: started
    with timestamps that are in time order, not in the future and at most
    [MAX_RPM] in number (or one more, the oldest having left the window), it
    ends in such a state again.  So the array never holds more than
    [MAX_RPM + 1] timestamps however many runs follow one another, and the
    clock never goes back. *)
Theorem governor_array_stays_bounded {T : Type} (fn : Work T) (models : list string)
    (maxRetries : Z) (w : World) :
  Settled w ->
  let w' := (RateLimited.runChain fn models maxRetries w).2 in
  Settled w' /\
  (length (requestTimestamps w') <= RateLimited.MAX_RPM + 1)%nat /\
  clock w <= clock w'.
Proof.
  intros Hw w'.
  assert (Hinv : Settled w' /\ clock w <= clock w').
  { subst w'. unfold RateLimited.runChain.
    apply (overModels_preserves fn models maxRetries
             (fun w0 => Settled w0 /\ clock w <= clock w0)).
    - intros model w0 [Hs Hc]. unfold invoked, admitted. split.
      + apply Settled_elapse, Settled_record, Settled_admitted, Hs.
      + pose proof (clock_admitted w0). cbn [elapse record clock]. lia.
    - intros ms w0 [Hs Hc]. unfold backedOff. split.
      + apply Settled_elapse, Settled_record, Hs.
      + cbn [elapse record clock]. lia.
    - split; [exact Hw|lia]. }
  destruct Hinv as [Hs Hc]. split; [exact Hs|]. split; [|exact Hc].
  destruct Hs as (_ & _ & [Hlen|[Hlen _]]); lia.
Qed.

Lemma boot_Settled (t0 : Z) : Settled (Governor.boot t0).
Proof.
  unfold Settled, Governor.boot. cbn [clock requestTimestamps].
  repeat split; try constructor. simpl. lia.
Qed.

Lemma governor_array_stays_bounded_witness :
  Settled (Governor.boot 0) /\
  Settled (RateLimited.runChain alwaysThrottled RateLimited.MODEL_FALLBACK_CHAIN 2
             (Governor.boot 0)).2 /\
  (length (requestTimestamps
             (RateLimited.runChain alwaysThrottled RateLimited.MODEL_FALLBACK_CHAIN 2
                (Governor.boot 0)).2) <= RateLimited.MAX_RPM + 1)%nat /\
  clock (Governor.boot 0) <=
  clock (RateLimited.runChain alwaysThrottled RateLimited.MODEL_FALLBACK_CHAIN 2
           (Governor.boot 0)).2.
Proof.
  split; [exact (boot_Settled 0)|].
  exact (governor_array_stays_bounded alwaysThrottled RateLimited.MODEL_FALLBACK_CHAIN 2
           (Governor.boot 0) (boot_Settled 0)).
Defined.

(** ** Failures that are not retried *)

Lemma indexOf_middle (m : string) (pre post : list string) :
  ~ In m pre -> indexOf m (pre ++ m :: post) = Z.of_nat (length pre).
Proof.
  induction pre as [|a pre IH]; intros Hin.
  - simpl. now rewrite String.eqb_refl.
  - simpl app. simpl indexOf.
    destruct (String.eqb a m) eqn:E.
    + apply String.eqb_eq in E. exfalso. apply Hin. now left.
    + rewrite IH by (intros H; apply Hin; now right).
      destruct (Z.ltb_spec (Z.of_nat (length pre)) 0); [lia|].
      simpl length. lia.
Qed.

Lemma hasNext_middle (m : string) (pre post : list string) :
  List.NoDup (pre ++ m :: post) ->
  hasNext m (pre ++ m :: post) = negb (bool_decide (post = [])).
Proof.
  intros Hnd. apply List.NoDup_remove_2 in Hnd.
  unfold hasNext. rewrite indexOf_middle by (intros H; apply Hnd, in_or_app; now left).
  rewrite length_app. simpl length.
  destruct post as [|p post]; simpl.
  - apply Z.ltb_ge. lia.
  - apply Z.ltb_lt. lia.
Qed.

Section OneTryPerModel.
Import RateLimited.
Context {T : Type}.
Variable fn : Work T.
Variable maxRetries : Z.
Hypothesis one_try : 1 <= maxRetries.

Lemma unknown_everywhere (models rest : list string) :
  (forall m k, exists err, outcome (fn m k) = Throw err /\ isNotFound err = true) ->
  forall w : World,
    (overModels fn models maxRetries rest w).1 = Exhausted exhaustedMessage /\
    visible (trace (overModels fn models maxRetries rest w).2) =
      visible (trace w) ++ (EvAttempt <$> rest).
Proof.
  intros Hall. induction rest as [|model rest IH]; intros w.
  - split; [reflexivity|]. simpl. now rewrite app_nil_r.
  - rewrite overModels_cons.
    destruct (Z.to_nat maxRetries) as [|n] eqn:En; [lia|].
    rewrite tryModel_S.
    destruct (Hall model (attempts (trace (admitted w)))) as (err & -> & ->).
    destruct (IH (invoked fn model w)) as [H1 H2].
    split; [exact H1|].
    rewrite H2, invoked_visible, <- app_assoc. reflexivity.
Qed.

Lemma failureKind_Other (err : JsError) :
  failureKind err = OtherFailure ->
  isNotFound err = false /\ isRateLimit err = false /\ isServerError err = false.
Proof.
  unfold failureKind.
  destruct (isNotFound err); [discriminate|].
  destruct (isRateLimit err); [discriminate|].
  destruct (isServerError err); [discriminate|]. auto.
Qed.

Lemma other_failures (rest : list string) :
  (forall m k, exists err,
      outcome (fn m k) = Throw err /\ failureKind err = OtherFailure) ->
  forall (pre : list string) (w : World),
    List.NoDup (pre ++ rest) ->
    rest <> [] ->
    exists err m,
      last rest = Some m /\
      outcome (fn m (attempts (trace w) + length rest - 1)%nat) = Throw err /\
      (overModels fn (pre ++ rest) maxRetries rest w).1 = RawError err /\
      visible (trace (overModels fn (pre ++ rest) maxRetries rest w).2) =
        visible (trace w) ++ (EvAttempt <$> rest).
Proof.
  intros Hall. induction rest as [|model rest IH]; intros pre w Hnd Hne;
    [congruence|].
  rewrite overModels_cons.
  destruct (Z.to_nat maxRetries) as [|n] eqn:En; [lia|].
  rewrite tryModel_S, admitted_attempts.
  destruct (Hall model (attempts (trace w))) as (err & Herr & Hk).
  rewrite Herr.
  apply failureKind_Other in Hk as (-> & -> & ->). cbn [andb].
  rewrite (hasNext_middle model pre rest Hnd).
  destruct rest as [|next rest'].
  - cbn [bool_decide negb]. rewrite bool_decide_eq_true_2 by reflexivity. cbn [negb].
    exists err, model. cbn [fst snd].
    split; [reflexivity|]. split.
    + simpl length. now replace (attempts (trace w) + 1 - 1)%nat
        with (attempts (trace w)) by lia.
    + split; [reflexivity|]. apply invoked_visible.
  - rewrite bool_decide_eq_false_2 by discriminate. cbn [negb].
    replace (pre ++ model :: next :: rest') with ((pre ++ [model]) ++ next :: rest')
      in * by (now rewrite <- app_assoc).
    destruct (IH (pre ++ [model]) (invoked fn model w) Hnd) as (e & m & Hlast & Ho & Hr & Hv);
      [discriminate|].
    exists e, m. split; [exact Hlast|]. split.
    + rewrite invoked_attempts in Ho.
      now replace (attempts (trace w) + length (model :: next :: rest') - 1)%nat
        with (S (attempts (trace w)) + length (next :: rest') - 1)%nat by (simpl; lia).
    + split; [exact Hr|].
      rewrite Hv, invoked_visible, <- app_assoc. reflexivity.
Qed.

End OneTryPerModel.

Section OneTryPerModelBasic.
Import Basic.
Context {T : Type}.
Variable fn : Work T.
Variable maxRetries : Z.
Hypothesis one_try : 1 <= maxRetries.

Lemma failureKind_Other_basic (err : JsError) :
  failureKind err = OtherFailure ->
  isRateLimit err = false /\ isServerError err = false.
Proof.
  intros H. apply failureKind_Other in H as (_ & Hr & Hs).
  split; [|exact Hs].
  unfold RateLimited.isRateLimit in Hr. apply orb_false_elim in Hr as [Hr _].
  exact Hr.
Qed.

Lemma basic_other_failures (rest : list string) :
  (forall m k, exists err,
      outcome (fn m k) = Throw err /\ failureKind err = OtherFailure) ->
  forall (pre : list string) (lastError : option JsError) (w : World),
    List.NoDup (pre ++ rest) ->
    rest <> [] ->
    exists err m,
      last rest = Some m /\
      outcome (fn m (attempts (trace w) + length rest - 1)%nat) = Throw err /\
      (overModels fn (pre ++ rest) maxRetries rest lastError w).1 = RawError err /\
      trace (overModels fn (pre ++ rest) maxRetries rest lastError w).2 =
        trace w ++ (EvAttempt <$> rest).
Proof.
  intros Hall. induction rest as [|model rest IH]; intros pre lastError w Hnd Hne;
    [congruence|].
  rewrite basic_overModels_cons.
  destruct (Z.to_nat maxRetries) as [|n] eqn:En; [lia|].
  rewrite basic_tryModel_S.
  destruct (Hall model (attempts (trace w))) as (err & Herr & Hk).
  rewrite Herr.
  apply failureKind_Other_basic in Hk as (-> & ->). cbn [andb orb].
  rewrite (hasNext_middle model pre rest Hnd).
  destruct rest as [|next rest'].
  - rewrite bool_decide_eq_true_2 by reflexivity. cbn [negb].
    exists err, model. cbn [fst snd].
    split; [reflexivity|]. split.
    + simpl length. now replace (attempts (trace w) + 1 - 1)%nat
        with (attempts (trace w)) by lia.
    + split; reflexivity.
  - rewrite bool_decide_eq_false_2 by discriminate. cbn [negb].
    replace (pre ++ model :: next :: rest') with ((pre ++ [model]) ++ next :: rest')
      in * by (now rewrite <- app_assoc).
    destruct (IH (pre ++ [model]) (Some err) (invokedB fn model w) Hnd)
      as (e & m & Hlast & Ho & Hr & Hv); [discriminate|].
    exists e, m. split; [exact Hlast|]. split.
    + rewrite invokedB_attempts in Ho.
      now replace (attempts (trace w) + length (model :: next :: rest') - 1)%nat
        with (S (attempts (trace w)) + length (next :: rest') - 1)%nat by (simpl; lia).
    + split; [exact Hr|].
      rewrite Hv. unfold invokedB. cbn [trace elapse record].
      rewrite <- app_assoc. reflexivity.
Qed.

End OneTryPerModelBasic.

Lemma visible_added_eq (w w' : World) (v : list Event) :
  (exists d, continues w w' d) ->
  visible (trace w') = visible (trace w) ++ v ->
  visible (added (trace w) (trace w')) = v.
Proof. intros [d Hd] Hv. eapply visible_added; eassumption. Qed.

(** X6. In the rate-limited service file, when every model of the chain
    answers with a not-found error, a run invokes the unit of work exactly
    once against each model, in the order of the chain and with no delay in
    between, and then throws the message about the exhausted quota. *)
Theorem unknown_models_end_in_the_quota_message {T : Type} (fn : Work T)
    (models : list string) (maxRetries : Z) (w : World) :
  1 <= maxRetries ->
  (forall m k, exists err,
      outcome (fn m k) = Throw err /\ RateLimited.isNotFound err = true) ->
  (RateLimited.runChain fn models maxRetries w).1 =
    Exhausted RateLimited.exhaustedMessage /\
  visible (added (trace w) (trace (RateLimited.runChain fn models maxRetries w).2)) =
    EvAttempt <$> models.
Proof.
  intros Hmax Hall. unfold RateLimited.runChain.
  destruct (unknown_everywhere fn maxRetries Hmax models models Hall w) as [H1 H2].
  split; [exact H1|].
  apply visible_added_eq; [|exact H2].
  destruct (overModels_spec fn models maxRetries models w) as (d & Hd & _). eauto.
Qed.

Lemma unknown_models_end_in_the_quota_message_witness :
  1 <= 2 /\
  (forall m k, exists err,
      outcome (alwaysUnknown m k) = Throw err /\ RateLimited.isNotFound err = true) /\
  (RateLimited.runChain alwaysUnknown RateLimited.MODEL_FALLBACK_CHAIN 2 (Governor.boot 0)).1 =
    Exhausted RateLimited.exhaustedMessage /\
  visible (added (trace (Governor.boot 0))
             (trace (RateLimited.runChain alwaysUnknown RateLimited.MODEL_FALLBACK_CHAIN 2
                       (Governor.boot 0)).2)) =
    EvAttempt <$> RateLimited.MODEL_FALLBACK_CHAIN.
Proof.
  assert (H0 : 1 <= 2) by lia.
  assert (H1 : forall (m : string) (k : nat), exists err,
             outcome (alwaysUnknown m k) = Throw err /\ RateLimited.isNotFound err = true)
    by (intros m k; exists notFoundError; split; reflexivity).
  split; [exact H0|]. split; [exact H1|].
  exact (unknown_models_end_in_the_quota_message alwaysUnknown
           RateLimited.MODEL_FALLBACK_CHAIN 2 (Governor.boot 0) H0 H1).
Defined.

(** X7. An error that the catch block recognises neither as not-found nor
    as a rate limit nor as a server error is never retried: when every
    invocation throws such an error, a run over a chain without repetitions
    invokes the unit of work exactly once against each model, in the order
    of the chain and without any delay, and rethrows the error of the last
    invocation as it is.  Both service files. *)
Theorem other_failures_are_not_retried {T : Type} (fn : Work T)
    (models : list string) (maxRetries : Z) (w : World) :
  1 <= maxRetries ->
  List.NoDup models ->
  models <> [] ->
  (forall m k, exists err,
      outcome (fn m k) = Throw err /\ failureKind err = OtherFailure) ->
  exists err m,
    last models = Some m /\
    outcome (fn m (attempts (trace w) + length models - 1)%nat) = Throw err /\
    (RateLimited.runChain fn models maxRetries w).1 = RawError err /\
    visible (added (trace w) (trace (RateLimited.runChain fn models maxRetries w).2)) =
      EvAttempt <$> models /\
    (Basic.runChain fn models maxRetries w).1 = RawError err /\
    added (trace w) (trace (Basic.runChain fn models maxRetries w).2) =
      EvAttempt <$> models.
Proof.
  intros Hmax Hnd Hne Hall.
  destruct (other_failures fn maxRetries Hmax models Hall [] w Hnd Hne)
    as (err & m & Hlast & Ho & Hr & Hv).
  destruct (basic_other_failures fn maxRetries Hmax models Hall [] None w Hnd Hne)
    as (err' & m' & Hlast' & Ho' & Hr' & Hv').
  cbn [app] in *.
  assert (m' = m) by congruence. subst m'.
  assert (err' = err) by congruence. subst err'.
  exists err, m. unfold RateLimited.runChain, Basic.runChain.
  split; [exact Hlast|]. split; [exact Ho|]. split; [exact Hr|]. split.
  - apply visible_added_eq; [|exact Hv].
    destruct (overModels_spec fn models maxRetries models w) as (d & Hd & _). eauto.
  - split; [exact Hr'|]. rewrite Hv'. apply added_app.
Qed.

Lemma alwaysBroken_other (m : string) (k : nat) :
  exists err, outcome (alwaysBroken m k) = Throw err /\ failureKind err = OtherFailure.
Proof. eexists. split; reflexivity. Qed.

Lemma other_failures_are_not_retried_witness :
  1 <= 2 /\
  List.NoDup RateLimited.MODEL_FALLBACK_CHAIN /\
  RateLimited.MODEL_FALLBACK_CHAIN <> [] /\
  (forall m k, exists err,
      outcome (alwaysBroken m k) = Throw err /\ failureKind err = OtherFailure) /\
  exists err m,
    last RateLimited.MODEL_FALLBACK_CHAIN = Some m /\
    outcome (alwaysBroken m (attempts (trace (Governor.boot 0)) +
                             length RateLimited.MODEL_FALLBACK_CHAIN - 1)%nat) = Throw err /\
    (RateLimited.runChain alwaysBroken RateLimited.MODEL_FALLBACK_CHAIN 2
       (Governor.boot 0)).1 = RawError err /\
    visible (added (trace (Governor.boot 0))
               (trace (RateLimited.runChain alwaysBroken RateLimited.MODEL_FALLBACK_CHAIN 2
                         (Governor.boot 0)).2)) =
      EvAttempt <$> RateLimited.MODEL_FALLBACK_CHAIN /\
    (Basic.runChain alwaysBroken RateLimited.MODEL_FALLBACK_CHAIN 2 (Governor.boot 0)).1 =
      RawError err /\
    added (trace (Governor.boot 0))
      (trace (Basic.runChain alwaysBroken RateLimited.MODEL_FALLBACK_CHAIN 2
                (Governor.boot 0)).2) =
      EvAttempt <$> RateLimited.MODEL_FALLBACK_CHAIN.
Proof.
  assert (H0 : 1 <= 2) by lia.
  assert (Hne : RateLimited.MODEL_FALLBACK_CHAIN <> []) by discriminate.
  split; [exact H0|]. split; [exact fallback_chain_NoDup|]. split; [exact Hne|].
  split; [exact alwaysBroken_other|].
  exact (other_failures_are_not_retried alwaysBroken RateLimited.MODEL_FALLBACK_CHAIN 2
           (Governor.boot 0) H0 fallback_chain_NoDup Hne alwaysBroken_other).
Defined.

Lemma basic_chain_NoDup : List.NoDup Basic.MODEL_FALLBACK_CHAIN.
Proof. repeat constructor; simpl; intuition discriminate. Qed.

Lemma missing_key_work (parseNumber : JsVal -> Num) (msg : string)
    (remote : Work JsVal) (level : CEFRLevel) (m : string) (k : nat) :
  exists err,
    outcome (evaluationWork parseNumber (Throw msg) remote level m k) = Throw err /\
    failureKind err = OtherFailure.
Proof. exists (newError msg). split; reflexivity. Qed.

(** X8. Without a usable key [evaluatePresentation] fails with the message
    that sends the user to the settings: the unit of work throws it before
    any request is made, whatever the remote service would answer, the
    orchestrator does not retry it, and so the unit of work is invoked once
    against each model of the chain and the message of the last invocation
    reaches the caller.  Both service files. *)
Theorem missing_key_reaches_the_caller (parseNumber : JsVal -> Num) (src : KeySources)
    (remote : Work JsVal) (level : CEFRLevel) (w : World) :
  (RateLimited.getApiKey src = Throw missingKeyMessage ->
   (RateLimited.evaluatePresentation parseNumber src remote level w).1 =
     RawError (newError missingKeyMessage) /\
   visible (added (trace w)
              (trace (RateLimited.evaluatePresentation parseNumber src remote level w).2)) =
     EvAttempt <$> RateLimited.MODEL_FALLBACK_CHAIN) /\
  (Basic.getApiKey src = Throw missingKeyMessage ->
   (Basic.evaluatePresentation parseNumber src remote level w).1 =
     RawError (newError missingKeyMessage) /\
   added (trace w)
     (trace (Basic.evaluatePresentation parseNumber src remote level w).2) =
     EvAttempt <$> Basic.MODEL_FALLBACK_CHAIN).
Proof.
  assert (Hone : 1 <= RateLimited.defaultMaxRetries) by (unfold RateLimited.defaultMaxRetries; lia).
  assert (Hone' : 1 <= Basic.defaultMaxRetries) by (unfold Basic.defaultMaxRetries; lia).
  set (fn := evaluationWork parseNumber (Throw missingKeyMessage) remote level).
  assert (Hall : forall m k, exists err,
             outcome (fn m k) = Throw err /\ failureKind err = OtherFailure)
    by apply missing_key_work.
  split; intros Hkey.
  - unfold RateLimited.evaluatePresentation, RateLimited.callWithModelFallback,
      RateLimited.runChain.
    rewrite Hkey. fold fn.
    destruct (other_failures fn RateLimited.defaultMaxRetries Hone
                RateLimited.MODEL_FALLBACK_CHAIN Hall [] w fallback_chain_NoDup)
      as (err & m & _ & Ho & Hr & Hv); [discriminate|].
    cbn [app] in *. injection Ho as <-. split; [exact Hr|].
    apply visible_added_eq; [|exact Hv].
    destruct (overModels_spec fn RateLimited.MODEL_FALLBACK_CHAIN
                RateLimited.defaultMaxRetries RateLimited.MODEL_FALLBACK_CHAIN w)
      as (d & Hd & _). eauto.
  - unfold Basic.evaluatePresentation, Basic.callWithModelFallback, Basic.runChain.
    rewrite Hkey. fold fn. cbn [Basic.modelsFor].
    destruct (basic_other_failures fn Basic.defaultMaxRetries Hone'
                Basic.MODEL_FALLBACK_CHAIN Hall [] None w basic_chain_NoDup)
      as (err & m & _ & Ho & Hr & Hv); [discriminate|].
    cbn [app] in *. injection Ho as <-. split; [exact Hr|].
    rewrite Hv. apply added_app.
Qed.

Lemma missing_key_reaches_the_caller_witness :
  RateLimited.getApiKey noKeys = Throw missingKeyMessage /\
  Basic.getApiKey noKeys = Throw missingKeyMessage /\
  (RateLimited.evaluatePresentation noParse noKeys sampleRemote B1 (Governor.boot 0)).1 =
    RawError (newError missingKeyMessage) /\
  (Basic.evaluatePresentation noParse noKeys sampleRemote B1 (Governor.boot 0)).1 =
    RawError (newError missingKeyMessage).
Proof.
  assert (H1 : RateLimited.getApiKey noKeys = Throw missingKeyMessage) by reflexivity.
  assert (H2 : Basic.getApiKey noKeys = Throw missingKeyMessage) by reflexivity.
  split; [exact H1|]. split; [exact H2|].
  destruct (missing_key_reaches_the_caller noParse noKeys sampleRemote B1 (Governor.boot 0))
    as [HR HB].
  split; [exact (proj1 (HR H1))|exact (proj1 (HB H2))].
Defined.

(** ** The plain retry loop *)

Section RetryFacts.
Import Retry.
Context {T : Type}.
Variable fn : Work T.
Variable model : string.
Variable maxRetries : Z.

Lemma retryLoop_S (r : nat) (i : Z) (delay : Q) (w : World) :
  retryLoop fn model maxRetries (S r) i delay w =
  match outcome (fn model (attempts (trace w))) with
  | Ok v => (Success v, invokedB fn model w)
  | Throw err =>
      if isQuota err && (i <? maxRetries - 1) then
        retryLoop fn model maxRetries r (i + 1) (delay * 2.5)%Q
          (backedOffB delay (invokedB fn model w))
      else (RawError err, invokedB fn model w)
  end.
Proof.
  unfold invokedB. simpl retryLoop.
  unfold mbind, M_bind, mret, M_ret, invoke.
  destruct (outcome (fn model (attempts (trace w)))) as [v|err]; [reflexivity|].
  destruct (isQuota err && (i <? maxRetries - 1)); reflexivity.
Qed.

Lemma retryLoop_spec (remaining : nat) :
  forall (i : Z) (delay : Q) (w : World),
    Z.of_nat remaining = Z.max 0 (maxRetries - i) ->
    exists n,
      (n <= remaining)%nat /\
      continues w (retryLoop fn model maxRetries remaining i delay w).2
        (paced model delay n) /\
      (forall j, (j + 1 < n)%nat ->
                 threwQuota (outcome (fn model (attempts (trace w) + j)%nat))) /\
      RetryEnd fn model remaining (attempts (trace w)) n
        (retryLoop fn model maxRetries remaining i delay w).1.
Proof.
  induction remaining as [|r IH]; intros i delay w Hfuel.
  - exists 0%nat. cbn [retryLoop]. unfold mret, M_ret. cbn [fst snd paced RetryEnd].
    split; [lia|]. split; [apply continues_refl|]. split; [intros j Hj; lia|].
    repeat split.
  - rewrite retryLoop_S.
    destruct (outcome (fn model (attempts (trace w)))) as [v|err] eqn:Eo.
    + exists 1%nat. cbn [fst snd paced RetryEnd]. split; [lia|].
      split; [reflexivity|]. split; [intros j Hj; lia|]. split; [lia|].
      now replace (attempts (trace w) + 1 - 1)%nat with (attempts (trace w)) by lia.
    + destruct (isQuota err) eqn:Eq; cbn [andb].
      * destruct (Z.ltb_spec i (maxRetries - 1)) as [Hlt|Hge].
        -- destruct (IH (i + 1) (delay * 2.5)%Q (backedOffB delay (invokedB fn model w)))
             as (n & Hn & Hd & Hq & He); [lia|].
           rewrite backedOffB_attempts, invokedB_attempts in Hq, He.
           assert (Hpos : (1 <= n)%nat).
           { destruct (retryLoop fn model maxRetries r (i + 1) (delay * 2.5)%Q
                         (backedOffB delay (invokedB fn model w))).1 as [v|e|msg];
               cbn [RetryEnd] in He; try tauto.
             destruct He as (_ & _ & Hr). lia. }
           exists (S n). split; [lia|]. split; [|split].
           ++ destruct n as [|k]; [lia|].
              cbn [paced]. rewrite grown_seq, pass_cons.
              unfold continues in *. rewrite Hd.
              cbn [backedOffB invokedB trace elapse record paced].
              now rewrite <- !app_assoc.
           ++ intros [|j] Hj.
              ** rewrite Nat.add_0_r, Eo. exists err. now split.
              ** replace (attempts (trace w) + S j)%nat
                   with (S (attempts (trace w)) + j)%nat by lia.
                 apply Hq. lia.
           ++ destruct (retryLoop fn model maxRetries r (i + 1) (delay * 2.5)%Q
                          (backedOffB delay (invokedB fn model w))).1 as [v|e|msg];
                cbn [RetryEnd] in *.
              ** destruct He as [_ He]. split; [lia|].
                 now replace (attempts (trace w) + S n - 1)%nat
                   with (S (attempts (trace w)) + n - 1)%nat by lia.
              ** destruct He as (_ & He & Hwhy). split; [lia|]. split.
                 --- now replace (attempts (trace w) + S n - 1)%nat
                       with (S (attempts (trace w)) + n - 1)%nat by lia.
                 --- destruct Hwhy as [Hwhy| ->]; [now left|now right].
              ** lia.
        -- exists 1%nat. cbn [fst snd paced RetryEnd]. split; [lia|].
           split; [reflexivity|]. split; [intros j Hj; lia|]. split; [lia|].
           split.
           ++ now replace (attempts (trace w) + 1 - 1)%nat with (attempts (trace w)) by lia.
           ++ right. lia.
      * exists 1%nat. cbn [fst snd paced RetryEnd]. split; [lia|].
        split; [reflexivity|]. split; [intros j Hj; lia|]. split; [lia|].
        split.
        -- now replace (attempts (trace w) + 1 - 1)%nat with (attempts (trace w)) by lia.
        -- now left.
Qed.

End RetryFacts.

(** X9. [callWithRetry] makes at most [maxRetries] invocations, all of them
    of the same unit of work, and sleeps between two invocations and nowhere
    else: 1500 ms before the second invocation and 2.5 times the previous
    delay before every further one. *)
Theorem callWithRetry_schedule {T : Type} (fn : Work T) (model : string)
    (maxRetries : Z) (w : World) :
  exists n,
    (n <= Z.to_nat maxRetries)%nat /\
    added (trace w) (trace (Retry.callWithRetry fn model maxRetries w).2) =
      paced model 1500 n.
Proof.
  destruct (retryLoop_spec fn model maxRetries (Z.to_nat maxRetries) 0 1500%Q w)
    as (n & Hn & Hd & _); [lia|].
  exists n. split; [exact Hn|]. now apply continues_added.
Qed.

(** X10. [callWithRetry] goes round again only after a quota error (status
    429, or the word quota in the stringified error): every invocation
    before the last one threw such an error.  It returns what its last
    invocation returned; it rethrows the error of its last invocation as it
    is when that error is not a quota error or when the last of the
    [maxRetries] invocations has been made; and it throws its own message
    about the busy server only when [maxRetries] allows no invocation at
    all. *)
Theorem callWithRetry_retries_quota_errors_only {T : Type} (fn : Work T)
    (model : string) (maxRetries : Z) (w : World) :
  let n := attempts (added (trace w) (trace (Retry.callWithRetry fn model maxRetries w).2)) in
  (forall j, (j + 1 < n)%nat ->
             threwQuota (outcome (fn model (attempts (trace w) + j)%nat))) /\
  RetryEnd fn model (Z.to_nat maxRetries) (attempts (trace w)) n
    (Retry.callWithRetry fn model maxRetries w).1.
Proof.
  cbv zeta.
  destruct (retryLoop_spec fn model maxRetries (Z.to_nat maxRetries) 0 1500%Q w)
    as (n & Hn & Hd & Hq & He); [lia|].
  unfold Retry.callWithRetry.
  assert (Hcount : attempts (paced model 1500 n) = n).
  { destruct n as [|k]; [reflexivity|].
    cbn [paced]. rewrite attempts_calls, calls_pass, length_replicate.
    now rewrite length_fmap, length_seq. }
  rewrite (continues_added _ _ _ Hd), Hcount. now split.
Qed.

(** X11. When the quota stays exhausted, the caller of [callWithRetry] gets
    the provider's own error and not the message about the busy server:
    with [maxRetries] at least 1 and a unit of work that throws a quota
    error every time, the run makes exactly [maxRetries] invocations and
    rethrows the error of the last one. *)
Theorem callWithRetry_rethrows_the_quota_error {T : Type} (fn : Work T)
    (model : string) (maxRetries : Z) (w : World) :
  1 <= maxRetries ->
  (forall k, threwQuota (outcome (fn model k))) ->
  exists err,
    (Retry.callWithRetry fn model maxRetries w).1 = RawError err /\
    Retry.isQuota err = true /\
    outcome (fn model (attempts (trace w) + Z.to_nat maxRetries - 1)%nat) = Throw err /\
    added (trace w) (trace (Retry.callWithRetry fn model maxRetries w).2) =
      paced model 1500 (Z.to_nat maxRetries).
Proof.
  intros Hmax Hall.
  destruct (retryLoop_spec fn model maxRetries (Z.to_nat maxRetries) 0 1500%Q w)
    as (n & Hn & Hd & _ & He); [lia|].
  unfold Retry.callWithRetry.
  rewrite (continues_added _ _ _ Hd).
  destruct (Retry.retryLoop fn model maxRetries (Z.to_nat maxRetries) 0 1500%Q w).1
    as [v|err|msg]; cbn [RetryEnd] in He.
  - destruct He as [_ He].
    destruct (Hall (attempts (trace w) + n - 1)%nat) as (e & He' & _). congruence.
  - destruct He as (Hpos & He & Hwhy).
    destruct (Hall (attempts (trace w) + n - 1)%nat) as (e & He' & Hq).
    assert (e = err) by congruence. subst e.
    destruct Hwhy as [Hwhy| ->]; [congruence|].
    exists err. repeat split; assumption.
  - destruct He as (_ & _ & Hz). lia.
Qed.

Lemma alwaysThrottled_quota (k : nat) :
  threwQuota (outcome (alwaysThrottled "gemini-3-pro-preview" k)).
Proof. exists quotaError. split; reflexivity. Qed.

Lemma callWithRetry_rethrows_the_quota_error_witness :
  1 <= Retry.defaultMaxRetries /\
  (forall k, threwQuota (outcome (alwaysThrottled "gemini-3-pro-preview" k))) /\
  exists err,
    (Retry.callWithRetry alwaysThrottled "gemini-3-pro-preview" Retry.defaultMaxRetries
       (Governor.boot 0)).1 = RawError err /\
    Retry.isQuota err = true /\
    outcome (alwaysThrottled "gemini-3-pro-preview"
               (attempts (trace (Governor.boot 0)) +
                Z.to_nat Retry.defaultMaxRetries - 1)%nat) = Throw err /\
    added (trace (Governor.boot 0))
      (trace (Retry.callWithRetry alwaysThrottled "gemini-3-pro-preview"
                Retry.defaultMaxRetries (Governor.boot 0)).2) =
      paced "gemini-3-pro-preview" 1500 (Z.to_nat Retry.defaultMaxRetries).
Proof.
  assert (H0 : 1 <= Retry.defaultMaxRetries) by (unfold Retry.defaultMaxRetries; lia).
  split; [exact H0|]. split; [exact alwaysThrottled_quota|].
  exact (callWithRetry_rethrows_the_quota_error alwaysThrottled "gemini-3-pro-preview"
           Retry.defaultMaxRetries (Governor.boot 0) H0 alwaysThrottled_quota).
Defined.

Example callWithRetry_default_delays :
  backoffs (trace (Retry.callWithRetry alwaysThrottled "gemini-3-pro-preview"
                     Retry.defaultMaxRetries (Governor.boot 0)).2) =
  [1500; 1500 * 2.5; 1500 * 2.5 * 2.5]%Q.
Proof. reflexivity. Qed.

(** ** The order of the scores *)

Section NormalizerTheorems.
Local Open Scope Q_scope.

(** X12. [normalize] keeps the order of the numbers it is given: of two
    finite numbers the larger one never gets the smaller normalized value,
    so a better raw sub-score is never shown as a worse one. *)
Theorem normalize_is_monotone (parseNumber : JsVal -> Num) (a b : Q) :
  a <= b ->
  exists x y,
    normalize parseNumber (JNum (Finite a)) = Finite x /\
    normalize parseNumber (JNum (Finite b)) = Finite y /\
    x <= y.
Proof.
  intros Hle. rewrite !(normalize_product parseNumber).
  pose proof (clamped_range (product a)) as Ra.
  pose proof (clamped_range (product b)) as Rb.
  destruct (tenths_value _ Ra) as (x & Ex & _).
  destruct (tenths_value _ Rb) as (y & Ey & _).
  exists x, y. split; [exact Ex|]. split; [exact Ey|].
  apply (tenths_mono (clamped (product a)) (clamped (product b))); try assumption.
  now apply product_mono.
Qed.

Lemma normalize_is_monotone_witness :
  7.24 <= 7.25 /\
  exists x y,
    normalize noParse (JNum (Finite 7.24)) = Finite x /\
    normalize noParse (JNum (Finite 7.25)) = Finite y /\
    x <= y.
Proof.
  assert (H : 7.24 <= 7.25) by (vm_compute; discriminate).
  split; [exact H|].
  exact (normalize_is_monotone noParse 7.24 7.25 H).
Defined.

(** X13. [normalize] is idempotent on what the response schema allows: the
    normalized value of a field that was missing or any number is a fixed
    point, normalizing it again gives the same number. *)
Theorem normalize_is_idempotent (parseNumber : JsVal -> Num) (v : JsVal) :
  NumberOrUndefined v ->
  exists q,
    normalize parseNumber v = Finite q /\
    normalize parseNumber (JNum (Finite q)) = Finite q.
Proof.
  intros Hv.
  destruct (normalize_spec parseNumber v Hv) as (n & En & Hn & _).
  destruct (tenths_value n Hn) as (q & Eq & _).
  exists q. split; [congruence|].
  rewrite <- Eq. now apply normalize_fixes_tenths.
Qed.

Lemma normalize_is_idempotent_witness :
  NumberOrUndefined (JNum (literal 7.25)) /\
  exists q,
    normalize noParse (JNum (literal 7.25)) = Finite q /\
    normalize noParse (JNum (Finite q)) = Finite q.
Proof.
  assert (H : NumberOrUndefined (JNum (literal 7.25))) by (right; eexists; reflexivity).
  split; [exact H|].
  exact (normalize_is_idempotent noParse (JNum (literal 7.25)) H).
Defined.

(** X14. The [score] that [evaluatePresentation] returns is never below the
    lowest and never above the highest of the six normalized sub-scores it
    returns with it (for a response whose rubric fields are each missing or
    a number). *)
Theorem score_lies_between_the_subscores (parseNumber : JsVal -> Num)
    (props : gmap string JsVal) (level : CEFRLevel) :
  (forall name, In name rubricFields ->
                NumberOrUndefined (getProp (JObj props) name)) ->
  exists r s,
    postprocess parseNumber (JObj props) level = Ok r /\
    r !! "score"%string = Some (JNum (Finite s)) /\
    (exists name q, In name rubricFields /\
                    r !! name = Some (JNum (Finite q)) /\ q <= s) /\
    (exists name q, In name rubricFields /\
                    r !! name = Some (JNum (Finite q)) /\ s <= q).
Proof.
  intros Hin.
  destruct (postprocess_tenths parseNumber props level Hin)
    as (p & f & i & v & g & t & s &
        E & [Hp _] & [Hf _] & [Hi _] & [Hv _] & [Hg _] & [Ht _] & Hs & Hnear).
  destruct (tenths_value s Hs) as (qs & Es & _).
  assert (Hget : forall name n,
             In (name, n) [("pronunciation"%string, p); ("fluency"%string, f);
                           ("intonation"%string, i); ("vocabulary"%string, v);
                           ("grammar"%string, g); ("taskFulfillment"%string, t)] ->
             (0 <= n <= 100)%Z /\ In name rubricFields).
  { simpl. intros name n [H|[H|[H|[H|[H|[H|[]]]]]]]; injection H as <- <-; tauto. }
  assert (Hlow : exists name n,
             In (name, n) [("pronunciation"%string, p); ("fluency"%string, f);
                           ("intonation"%string, i); ("vocabulary"%string, v);
                           ("grammar"%string, g); ("taskFulfillment"%string, t)] /\
             (n <= s)%Z).
  { destruct (Z_le_gt_dec p s); [exists "pronunciation"%string, p; split; [simpl; auto 10|assumption]|].
    destruct (Z_le_gt_dec f s); [exists "fluency"%string, f; split; [simpl; auto 10|assumption]|].
    destruct (Z_le_gt_dec i s); [exists "intonation"%string, i; split; [simpl; auto 10|assumption]|].
    destruct (Z_le_gt_dec v s); [exists "vocabulary"%string, v; split; [simpl; auto 10|assumption]|].
    destruct (Z_le_gt_dec g s); [exists "grammar"%string, g; split; [simpl; auto 10|assumption]|].
    exists "taskFulfillment"%string, t. split; [simpl; auto 10|lia]. }
  assert (Hhigh : exists name n,
             In (name, n) [("pronunciation"%string, p); ("fluency"%string, f);
                           ("intonation"%string, i); ("vocabulary"%string, v);
                           ("grammar"%string, g); ("taskFulfillment"%string, t)] /\
             (s <= n)%Z).
  { destruct (Z_le_gt_dec s p); [exists "pronunciation"%string, p; split; [simpl; auto 10|assumption]|].
    destruct (Z_le_gt_dec s f); [exists "fluency"%string, f; split; [simpl; auto 10|assumption]|].
    destruct (Z_le_gt_dec s i); [exists "intonation"%string, i; split; [simpl; auto 10|assumption]|].
    destruct (Z_le_gt_dec s v); [exists "vocabulary"%string, v; split; [simpl; auto 10|assumption]|].
    destruct (Z_le_gt_dec s g); [exists "grammar"%string, g; split; [simpl; auto 10|assumption]|].
    exists "taskFulfillment"%string, t. split; [simpl; auto 10|lia]. }
  eexists _, qs. split; [exact E|].
  split; [rewrite <- Es; apply rubric_lookup; simpl; tauto|].
  split.
  - destruct Hlow as (name & n & Hname & Hle).
    destruct (Hget name n Hname) as [Hn Hfield].
    destruct (tenths_value n Hn) as (q & Eq & _).
    exists name, q. split; [exact Hfield|].
    split.
    { rewrite <- Eq. apply rubric_lookup. simpl in Hname.
      destruct Hname as [H|[H|[H|[H|[H|[H|[]]]]]]]; injection H as <- <-;
        simpl; auto 10. }
    now apply (tenths_mono n s).
  - destruct Hhigh as (name & n & Hname & Hle).
    destruct (Hget name n Hname) as [Hn Hfield].
    destruct (tenths_value n Hn) as (q & Eq & _).
    exists name, q. split; [exact Hfield|].
    split.
    { rewrite <- Eq. apply rubric_lookup. simpl in Hname.
      destruct Hname as [H|[H|[H|[H|[H|[H|[]]]]]]]; injection H as <- <-;
        simpl; auto 10. }
    now apply (tenths_mono s n).
Qed.

Lemma score_lies_between_the_subscores_witness :
  (forall name, In name rubricFields ->
                NumberOrUndefined (getProp (JObj sampleProps) name)) /\
  exists r s,
    postprocess noParse (JObj sampleProps) B1 = Ok r /\
    r !! "score"%string = Some (JNum (Finite s)) /\
    (exists name q, In name rubricFields /\
                    r !! name = Some (JNum (Finite q)) /\ q <= s) /\
    (exists name q, In name rubricFields /\
                    r !! name = Some (JNum (Finite q)) /\ s <= q).
Proof.
  split; [exact sampleProps_rubric|].
  exact (score_lies_between_the_subscores noParse sampleProps B1 sampleProps_rubric).
Defined.

End NormalizerTheorems.

(** ** The exported WAV file *)

Example wav_of_sample :
  Wav.wavFile sampleBuffer =
  Some (wavHeader 2 2 24000 ++
        [Byte.x00; Byte.x00; Byte.x00; Byte.x00;
         Byte.x01; Byte.x80; Byte.xfe; Byte.x7f]).
Proof. vm_compute. reflexivity. Qed.

Section WavFacts.
Import Audio Wav.

Lemma writeHeader_eq (numChannels rate frames : Z) (rest : list byte) :
  writeHeader numChannels rate frames (replicate 44 Byte.x00 ++ rest) =
  Some (wavHeader numChannels frames rate ++ rest).
Proof. reflexivity. Qed.

Lemma wavHeader_length (numChannels frames rate : Z) :
  length (wavHeader numChannels frames rate) = 44%nat.
Proof. reflexivity. Qed.

Lemma store_end (pre bytes : list byte) (r : nat) :
  store (length pre) bytes (pre ++ replicate (length bytes + r) Byte.x00) =
  Some ((pre ++ bytes) ++ replicate r Byte.x00).
Proof.
  unfold store. rewrite length_app, length_replicate.
  destruct (Nat.leb_spec (length pre + length bytes) (length pre + (length bytes + r)));
    [|lia].
  rewrite take_app_length.
  rewrite drop_app_ge by lia.
  replace (length pre + length bytes - length pre)%nat with (length bytes) by lia.
  rewrite drop_replicate.
  replace (length bytes + r - length bytes)%nat with r by lia.
  now rewrite <- app_assoc.
Qed.

Lemma littleEndian_length (n : nat) (v : Z) : length (littleEndian n v) = n.
Proof. revert v. induction n as [|n IH]; intros v; [reflexivity|]. simpl. now rewrite IH. Qed.

Lemma writeSample_eq (buffer : AudioBuffer) (i ch : nat) (samples : list Num)
    (pre : list byte) (r : nat) :
  channelData buffer !! ch = Some samples ->
  writeSample buffer i ch (length pre, pre ++ replicate (2 + r) Byte.x00) =
  Some ((length pre + 2)%nat,
        (pre ++ littleEndian 2 (pcm16 (default NaN (samples !! i))))
        ++ replicate r Byte.x00).
Proof.
  intros Hs. unfold writeSample. rewrite Hs. cbn [mbind option_bind fst snd].
  unfold setInt16.
  change (littleEndian 2 match num_mul _ _ with Finite q => truncate q | _ => 0 end)
    with (littleEndian 2 (pcm16 (default NaN (samples !! i)))).
  set (bytes := littleEndian 2 _).
  assert (Hl : length bytes = 2%nat) by apply littleEndian_length.
  rewrite <- Hl at 1. rewrite store_end. reflexivity.
Qed.

(** One frame of the export. *)
Lemma inner_loop (buffer : AudioBuffer) (i : nat) (c : nat) :
  forall (c0 : nat) (pre : list byte) (r : nat),
    (c0 + c <= length (channelData buffer))%nat ->
    forEach (fun ch => writeSample buffer i ch) (seq c0 c)
            (length pre, pre ++ replicate (2 * c + r) Byte.x00) =
    Some (length pre + 2 * c,
          (pre ++ (samples ← take c (drop c0 (channelData buffer));
                   littleEndian 2 (pcm16 (default NaN (samples !! i)))))
          ++ replicate r Byte.x00)%nat.
Proof.
  induction c as [|c IH]; intros c0 pre r Hlen.
  - cbn [seq forEach take]. rewrite Nat.mul_0_r, Nat.add_0_r. cbn. now rewrite app_nil_r.
  - cbn [seq forEach].
    destruct (lookup_lt_is_Some_2 (channelData buffer) c0) as [samples Hs]; [lia|].
    replace (2 * S c + r)%nat with (2 + (2 * c + r))%nat by lia.
    rewrite (writeSample_eq buffer i c0 samples pre _ Hs). cbn [mbind option_bind].
    set (bytes := littleEndian 2 (pcm16 (default NaN (samples !! i)))).
    assert (Hl : length bytes = 2%nat) by apply littleEndian_length.
    replace (length pre + 2)%nat with (length (pre ++ bytes))
      by (rewrite length_app; lia).
    rewrite IH by lia.
    rewrite length_app, Hl. f_equal. f_equal; [lia|].
    f_equal. rewrite <- app_assoc. f_equal.
    rewrite (drop_S _ _ _ Hs). reflexivity.
Qed.

Lemma bind_length {A B : Type} (f : A -> list B) (k : nat) (l : list A) :
  (forall x, length (f x) = k) -> length (l ≫= f) = (k * length l)%nat.
Proof.
  intros Hf. induction l as [|x l IH]; [simpl; lia|].
  rewrite bind_cons, length_app, Hf, IH. simpl. lia.
Qed.

Lemma frame_length (buffer : AudioBuffer) (i : nat) :
  length (samples ← channelData buffer;
          littleEndian 2 (pcm16 (default NaN (samples !! i)))) =
  (2 * length (channelData buffer))%nat.
Proof. apply bind_length. intros x. apply littleEndian_length. Qed.

Lemma outer_loop (buffer : AudioBuffer) (n : nat) :
  forall (i0 : nat) (pre : list byte) (r : nat),
    forEach (fun i => forEach (fun ch => writeSample buffer i ch)
                              (seq 0 (length (channelData buffer))))
            (seq i0 n)
            (length pre,
             pre ++ replicate (2 * length (channelData buffer) * n + r) Byte.x00) =
    Some (length pre + 2 * length (channelData buffer) * n,
          (pre ++ (i ← seq i0 n;
                   samples ← channelData buffer;
                   littleEndian 2 (pcm16 (default NaN (samples !! i)))))
          ++ replicate r Byte.x00)%nat.
Proof.
  induction n as [|n IH]; intros i0 pre r.
  - cbn [seq forEach]. rewrite Nat.mul_0_r, Nat.add_0_r. cbn. now rewrite app_nil_r.
  - cbn [seq forEach].
    replace (2 * length (channelData buffer) * S n + r)%nat
      with (2 * length (channelData buffer) +
            (2 * length (channelData buffer) * n + r))%nat by lia.
    rewrite inner_loop by lia. cbn [mbind option_bind].
    rewrite drop_0, firstn_all.
    set (frame := samples ← channelData buffer;
                  littleEndian 2 (pcm16 (default NaN (samples !! i0)))).
    assert (Hf : length frame = (2 * length (channelData buffer))%nat)
      by apply frame_length.
    replace (length pre + 2 * length (channelData buffer))%nat with (length (pre ++ frame))
      by (rewrite length_app; lia).
    rewrite IH. rewrite length_app, Hf. f_equal. f_equal; [lia|].
    f_equal. rewrite <- app_assoc. reflexivity.
Qed.

Lemma wavPayload_length (buffer : AudioBuffer) :
  length (wavPayload buffer) =
  (2 * length (channelData buffer) * frames buffer)%nat.
Proof.
  unfold wavPayload.
  rewrite (bind_length _ (2 * length (channelData buffer))), length_seq; [reflexivity|].
  intros i. apply frame_length.
Qed.

Lemma wavFile_eq (buffer : AudioBuffer) :
  length (channelData buffer) = numberOfChannels buffer ->
  wavFile buffer =
  Some (wavHeader (Z.of_nat (numberOfChannels buffer)) (Z.of_nat (frames buffer))
          (sampleRate buffer) ++ wavPayload buffer).
Proof.
  intros Hch. unfold wavFile. cbv zeta.
  replace (Z.to_nat (44 + Z.of_nat (frames buffer) * Z.of_nat (numberOfChannels buffer) * 2))
    with (44 + (2 * length (channelData buffer) * frames buffer + 0))%nat by (rewrite Hch; lia).
  rewrite replicate_add, writeHeader_eq. cbn [mbind option_bind].
  unfold writeSamples. rewrite <- Hch.
  set (hdr := wavHeader _ _ _).
  change 44%nat with (length hdr).
  rewrite outer_loop. cbn [mbind option_bind snd]. cbn [replicate].
  now rewrite app_nil_r.
Qed.

End WavFacts.

Section WavRoundTrip.
Import Audio Wav.

Lemma byteOf_value (z : Z) : 0 <= z < 256 -> Z.of_N (Byte.to_N (byteOf z)) = z.
Proof.
  intros Hz. unfold byteOf.
  destruct (Byte.of_N (Z.to_N z)) as [b|] eqn:E.
  - apply Byte.to_of_N in E. simpl. rewrite E. lia.
  - apply Byte.of_N_None_iff in E. lia.
Qed.

Lemma uint_littleEndian (n : nat) :
  forall v : Z, uint (littleEndian n v) = v mod 256 ^ Z.of_nat n.
Proof.
  induction n as [|n IH]; intros v.
  - cbn. now rewrite Z.mod_1_r.
  - cbn [littleEndian uint foldr]. fold (uint (littleEndian n (v / 256))).
    rewrite IH, byteOf_value by (apply Z.mod_pos_bound; lia).
    rewrite Nat2Z.inj_succ, Z.pow_succ_r by lia.
    rewrite Z.rem_mul_r by lia. reflexivity.
Qed.

Lemma littleEndian_int16Bytes (s : Z) : littleEndian 2 s = int16Bytes s.
Proof.
  unfold int16Bytes. cbn [littleEndian]. f_equal; [|f_equal].
  - f_equal. change 65536 with (256 * 256). rewrite Z.rem_mul_r by lia.
    rewrite Z.mul_comm, Z.mod_add by lia. now rewrite Z.mod_mod by lia.
  - f_equal. change 65536 with (256 * 256). rewrite Z.rem_mul_r by lia.
    rewrite Z.mul_comm, Z.div_add by lia.
    rewrite (Z.div_small (s mod 256) 256) by (apply Z.mod_pos_bound; lia).
    reflexivity.
Qed.

Lemma int16_int16Bytes (s : Z) (rest : list byte) :
  -32768 <= s <= 32767 ->
  Int16Array (int16Bytes s ++ rest) = cons s <$> Int16Array rest.
Proof.
  intros Hs. unfold int16Bytes. cbn [app Int16Array]. f_equal. f_equal.
  unfold int16.
  assert (Hu : 0 <= s mod 65536 < 65536) by (apply Z.mod_pos_bound; lia).
  set (u := s mod 65536) in *.
  assert (Hsum : u mod 256 + 256 * (u / 256) = u)
    by (pose proof (Z.div_mod u 256); lia).
  assert (Hmod : u = s \/ u = s + 65536).
  { subst u. destruct (Z.ltb_spec s 0).
    - right. symmetry. apply (Z.mod_unique_pos _ _ (-1)); lia.
    - left. apply Z.mod_small. lia. }
  rewrite !byteOf_value.
  - rewrite Hsum. destruct (Z.ltb_spec u 32768); lia.
  - split; [apply Z.div_pos; lia|apply Z.div_lt_upper_bound; lia].
  - apply Z.mod_pos_bound. lia.
Qed.

Lemma Int16Array_int16Bytes (l : list Z) :
  Forall (fun s => -32768 <= s <= 32767) l ->
  Int16Array (mjoin (int16Bytes <$> l)) = Some l.
Proof.
  induction l as [|s l IH]; intros Hl; [reflexivity|].
  apply Forall_cons in Hl as [Hs Hl].
  change (mjoin (int16Bytes <$> s :: l)) with (int16Bytes s ++ mjoin (int16Bytes <$> l)).
  rewrite int16_int16Bytes by exact Hs. now rewrite IH.
Qed.

Local Open Scope Q_scope.

Lemma pcm16_scaled (s : Z) :
  (-32768 <= s <= 32767)%Z ->
  pcm16 (num_div (Finite (inject_Z s)) (Finite 32768)) = towardZero s.
Proof.
  intros Hs. unfold pcm16. cbn [num_div].
  change (Qeq_bool 32768 0) with false. cbn iota.
  assert (Hx : inject_Z s / 32768 * 32768 == inject_Z s) by field.
  assert (Hlo : inject_Z (-32768) <= inject_Z s) by (rewrite <- Zle_Qle; lia).
  assert (Hhi : inject_Z s <= inject_Z 32767) by (rewrite <- Zle_Qle; lia).
  change (inject_Z (-32768)) with (-32768) in Hlo.
  change (inject_Z 32767) with 32767 in Hhi.
  set (x := inject_Z s / 32768) in *.
  assert (H1 : Qle_bool 1 x = false).
  { destruct (Qle_bool 1 x) eqn:E; [|reflexivity]. apply Qle_bool_iff in E. lra. }
  assert (H2 : Qle_bool (-1) x = true) by (apply Qle_bool_iff; lra).
  cbn [Math_min]. rewrite H1. cbn [Math_max]. rewrite H2. cbn [num_mul].
  unfold truncate, towardZero.
  destruct (Z.ltb_spec 0 s) as [Hpos|Hnp].
  - assert (Hs' : inject_Z 1 <= inject_Z s) by (rewrite <- Zle_Qle; lia).
    change (inject_Z 1) with 1 in Hs'.
    assert (H0 : Qle_bool 0 (x * 32767) = true) by (apply Qle_bool_iff; lra).
    rewrite H0. apply Qfloor_unique.
    + replace (s - 1)%Z with (s + -1)%Z by lia. rewrite inject_Z_plus.
      change (inject_Z (-1)) with (-1). lra.
    + replace (s - 1 + 1)%Z with s by lia. lra.
  - destruct (Z.ltb_spec s 0) as [Hneg|Hz].
    + assert (Hs' : inject_Z s <= inject_Z (-1)) by (rewrite <- Zle_Qle; lia).
      change (inject_Z (-1)) with (-1) in Hs'.
      assert (H0 : Qle_bool 0 (x * 32767) = false).
      { destruct (Qle_bool 0 (x * 32767)) eqn:E; [|reflexivity].
        apply Qle_bool_iff in E. lra. }
      rewrite H0. unfold Qceiling.
      assert (Hf : Qfloor (- (x * 32767)) = (- s - 1)%Z).
      { apply Qfloor_unique.
        - replace (- s - 1)%Z with (- s + -1)%Z by lia.
          rewrite inject_Z_plus, inject_Z_opp. change (inject_Z (-1)) with (-1). lra.
        - replace (- s - 1 + 1)%Z with (- s)%Z by lia. rewrite inject_Z_opp. lra. }
      rewrite Hf. lia.
    + assert (s = 0%Z) by lia. subst s. reflexivity.
Qed.

End WavRoundTrip.

Section WavOfDecoded.
Import Audio Wav.

Lemma bind_as_join {A B : Type} (f : A -> list B) (l : list A) :
  l ≫= f = mjoin (f <$> l).
Proof.
  induction l as [|x l IH]; [reflexivity|].
  rewrite bind_cons, IH. reflexivity.
Qed.

Lemma exported_samples (dataInt16 : list Z) :
  Forall (fun s => -32768 <= s <= 32767) dataInt16 ->
  (fun k => littleEndian 2 (pcm16 (scaled dataInt16 k))) <$> seq 0 (length dataInt16) =
  int16Bytes <$> (towardZero <$> dataInt16).
Proof.
  intros Hrange. apply list_eq. intros k.
  rewrite !list_lookup_fmap.
  destruct (dataInt16 !! k) as [s|] eqn:Ek.
  - rewrite (lookup_seq_lt 0 (length dataInt16) k) by (eapply lookup_lt_Some; eauto).
    change (Some (littleEndian 2 (pcm16 (scaled dataInt16 k))) =
            Some (int16Bytes (towardZero s))).
    f_equal. rewrite littleEndian_int16Bytes. f_equal.
    assert (Hs : -32768 <= s <= 32767).
    { rewrite Forall_forall in Hrange. apply Hrange.
      eapply list_elem_of_lookup_2; eauto. }
    unfold scaled. rewrite Ek. now apply pcm16_scaled.
  - rewrite lookup_seq_ge by (apply lookup_ge_None; exact Ek). reflexivity.
Qed.

Lemma decoded_payload (dataInt16 : list Z) (rate : Z) (numChannels frameCount : nat) :
  Forall (fun s => -32768 <= s <= 32767) dataInt16 ->
  length dataInt16 = (frameCount * numChannels)%nat ->
  wavPayload {| numberOfChannels := numChannels;
                frames := frameCount;
                sampleRate := rate;
                channelData := deinterleaved dataInt16 numChannels frameCount |} =
  mjoin (int16Bytes <$> (towardZero <$> dataInt16)).
Proof.
  intros Hrange Hlen. unfold wavPayload. cbn [frames channelData].
  rewrite <- (exported_samples dataInt16 Hrange), Hlen.
  rewrite <- (interleaved_order
                (fun k => littleEndian 2 (pcm16 (scaled dataInt16 k)))
                numChannels frameCount).
  rewrite bind_as_join. f_equal.
  apply list_fmap_ext. intros k i Hk. apply lookup_seq in Hk as [-> Hk]. cbn [Nat.add].
  unfold deinterleaved. rewrite list_fmap_bind, bind_as_join. f_equal.
  apply list_fmap_ext. intros j ch _. cbn.
  rewrite list_lookup_fmap, lookup_seq_lt by exact Hk. reflexivity.
Qed.

End WavOfDecoded.

(** X15. For a buffer that has an array of samples for each of its channels,
    the export for the download button never writes outside the buffer it
    allocated and produces the 44-byte header of a 16-bit PCM WAV file
    followed by the samples frame by frame, the channels of a frame next to
    each other, each sample clamped to [-1, 1], multiplied by 32767, cut to
    an integer and stored in two bytes, low byte first; the file is
    [44 + 2 * channels * frames] bytes long and becomes the audio of the
    download link. *)
Theorem wav_file_layout (buffer : Audio.AudioBuffer) (url : option (list byte)) :
  length (Audio.channelData buffer) = Audio.numberOfChannels buffer ->
  exists file,
    Wav.wavFile buffer = Some file /\
    file = wavHeader (Z.of_nat (Audio.numberOfChannels buffer))
                     (Z.of_nat (Audio.frames buffer)) (Audio.sampleRate buffer)
           ++ wavPayload buffer /\
    length file = (44 + 2 * Audio.numberOfChannels buffer * Audio.frames buffer)%nat /\
    Wav.generateAudioForDownload (Ok buffer) url = Some file.
Proof.
  intros Hch. eexists. split; [apply wavFile_eq; exact Hch|].
  split; [reflexivity|]. split.
  - rewrite length_app, wavHeader_length, wavPayload_length, Hch. reflexivity.
  - unfold Wav.generateAudioForDownload. now rewrite wavFile_eq.
Qed.

Lemma sampleBuffer_channels :
  length (Audio.channelData sampleBuffer) = Audio.numberOfChannels sampleBuffer.
Proof. reflexivity. Qed.

Lemma wav_file_layout_witness :
  length (Audio.channelData sampleBuffer) = Audio.numberOfChannels sampleBuffer /\
  exists file,
    Wav.wavFile sampleBuffer = Some file /\
    file = wavHeader (Z.of_nat (Audio.numberOfChannels sampleBuffer))
                     (Z.of_nat (Audio.frames sampleBuffer)) (Audio.sampleRate sampleBuffer)
           ++ wavPayload sampleBuffer /\
    length file =
      (44 + 2 * Audio.numberOfChannels sampleBuffer * Audio.frames sampleBuffer)%nat /\
    Wav.generateAudioForDownload (Ok sampleBuffer) None = Some file.
Proof.
  split; [exact sampleBuffer_channels|].
  exact (wav_file_layout sampleBuffer None sampleBuffer_channels).
Defined.

(** X16. The sizes in the header of the exported file agree with the file:
    as long as the file is shorter than 2^32 bytes and the channel count
    and the byte rate fit their fields, the RIFF chunk size at offset 4 is
    the length of the file less 8, the data size at offset 40 is the length
    of the file less 44, the channel count is at offset 22, the block size
    at offset 32 is two bytes per channel with 16 bits per sample at offset
    34, and the byte rate at offset 28 is the sample rate at offset 24 times
    the block size. *)
Theorem wav_header_sizes_agree (buffer : Audio.AudioBuffer) (file : list byte) :
  length (Audio.channelData buffer) = Audio.numberOfChannels buffer ->
  Wav.wavFile buffer = Some file ->
  Z.of_nat (length file) < 2 ^ 32 ->
  Z.of_nat (Audio.numberOfChannels buffer) < 2 ^ 15 ->
  0 <= Audio.sampleRate buffer < 2 ^ 32 ->
  Audio.sampleRate buffer * Z.of_nat (Audio.numberOfChannels buffer) * 2 < 2 ^ 32 ->
  field 4 4 file = Z.of_nat (length file) - 8 /\
  field 40 4 file = Z.of_nat (length file) - 44 /\
  field 22 2 file = Z.of_nat (Audio.numberOfChannels buffer) /\
  field 32 2 file = 2 * Z.of_nat (Audio.numberOfChannels buffer) /\
  field 34 2 file = 16 /\
  field 24 4 file = Audio.sampleRate buffer /\
  field 28 4 file = field 24 4 file * field 32 2 file.
Proof.
  intros Hch Hfile Hsize Hchan [Hrate Hrate'] Hbytes.
  rewrite (wavFile_eq buffer Hch) in Hfile. apply (inj Some) in Hfile. subst file.
  rewrite length_app, wavHeader_length, wavPayload_length, Hch in Hsize |- *.
  set (c := Z.of_nat (Audio.numberOfChannels buffer)) in *.
  set (n := Z.of_nat (Audio.frames buffer)) in *.
  set (rate := Audio.sampleRate buffer) in *.
  assert (Hlen : Z.of_nat (44 + 2 * Audio.numberOfChannels buffer * Audio.frames buffer)
                 = 44 + n * c * 2) by (subst c n; lia).
  rewrite Hlen in *.
  assert (Hc : 0 <= c) by (subst c; lia).
  assert (Hn : 0 <= n) by (subst n; lia).
  assert (Hnc : 0 <= n * c) by (apply Z.mul_nonneg_nonneg; assumption).
  assert (Hrc : 0 <= rate * c) by (apply Z.mul_nonneg_nonneg; assumption).
  assert (Hfield : forall offset k v,
             (offset + k <= 44)%nat ->
             take k (drop offset (wavHeader c n rate)) = Wav.littleEndian k v ->
             0 <= v < 256 ^ Z.of_nat k ->
             field offset k (wavHeader c n rate ++ wavPayload buffer) = v).
  { intros offset k v Hin Hbytes' Hv. unfold field.
    rewrite drop_app_le by (rewrite wavHeader_length; lia).
    rewrite take_app_le by (rewrite length_drop, wavHeader_length; lia).
    rewrite Hbytes', uint_littleEndian. now apply Z.mod_small. }
  change (2 ^ 32) with 4294967296 in *. change (2 ^ 15) with 32768 in *.
  assert (H4 : field 4 4 (wavHeader c n rate ++ wavPayload buffer) = 36 + n * c * 2).
  { apply Hfield; [lia|reflexivity|]. change (256 ^ Z.of_nat 4) with 4294967296. lia. }
  assert (H40 : field 40 4 (wavHeader c n rate ++ wavPayload buffer) = n * c * 2).
  { apply Hfield; [lia|reflexivity|]. change (256 ^ Z.of_nat 4) with 4294967296. lia. }
  assert (H22 : field 22 2 (wavHeader c n rate ++ wavPayload buffer) = c).
  { apply Hfield; [lia|reflexivity|]. change (256 ^ Z.of_nat 2) with 65536. lia. }
  assert (H32 : field 32 2 (wavHeader c n rate ++ wavPayload buffer) = c * 2).
  { apply Hfield; [lia|reflexivity|]. change (256 ^ Z.of_nat 2) with 65536. lia. }
  assert (H34 : field 34 2 (wavHeader c n rate ++ wavPayload buffer) = 16).
  { apply Hfield; [lia|reflexivity|]. change (256 ^ Z.of_nat 2) with 65536. lia. }
  assert (H24 : field 24 4 (wavHeader c n rate ++ wavPayload buffer) = rate).
  { apply Hfield; [lia|reflexivity|]. change (256 ^ Z.of_nat 4) with 4294967296. lia. }
  assert (H28 : field 28 4 (wavHeader c n rate ++ wavPayload buffer) = rate * c * 2).
  { apply Hfield; [lia|reflexivity|]. change (256 ^ Z.of_nat 4) with 4294967296. lia. }
  rewrite H4, H40, H22, H32, H34, H24, H28. repeat split; lia.
Qed.

Lemma sampleBuffer_wav :
  Wav.wavFile sampleBuffer =
  Some (wavHeader 2 2 24000 ++
        [Byte.x00; Byte.x00; Byte.x00; Byte.x00;
         Byte.x01; Byte.x80; Byte.xfe; Byte.x7f]).
Proof. vm_compute. reflexivity. Qed.

Lemma wav_header_sizes_agree_witness :
  let file := wavHeader 2 2 24000 ++
              [Byte.x00; Byte.x00; Byte.x00; Byte.x00;
               Byte.x01; Byte.x80; Byte.xfe; Byte.x7f] in
  length (Audio.channelData sampleBuffer) = Audio.numberOfChannels sampleBuffer /\
  Wav.wavFile sampleBuffer = Some file /\
  Z.of_nat (length file) < 2 ^ 32 /\
  Z.of_nat (Audio.numberOfChannels sampleBuffer) < 2 ^ 15 /\
  0 <= Audio.sampleRate sampleBuffer < 2 ^ 32 /\
  Audio.sampleRate sampleBuffer * Z.of_nat (Audio.numberOfChannels sampleBuffer) * 2 < 2 ^ 32 /\
  field 4 4 file = Z.of_nat (length file) - 8 /\
  field 40 4 file = Z.of_nat (length file) - 44 /\
  field 22 2 file = Z.of_nat (Audio.numberOfChannels sampleBuffer) /\
  field 32 2 file = 2 * Z.of_nat (Audio.numberOfChannels sampleBuffer) /\
  field 34 2 file = 16 /\
  field 24 4 file = Audio.sampleRate sampleBuffer /\
  field 28 4 file = field 24 4 file * field 32 2 file.
Proof.
  intros file.
  assert (H1 : Z.of_nat (length file) < 2 ^ 32) by (vm_compute; reflexivity).
  assert (H2 : Z.of_nat (Audio.numberOfChannels sampleBuffer) < 2 ^ 15)
    by (vm_compute; reflexivity).
  assert (H3 : 0 <= Audio.sampleRate sampleBuffer < 2 ^ 32)
    by (vm_compute; split; [discriminate|reflexivity]).
  assert (H4 : Audio.sampleRate sampleBuffer *
               Z.of_nat (Audio.numberOfChannels sampleBuffer) * 2 < 2 ^ 32)
    by (vm_compute; reflexivity).
  split; [exact sampleBuffer_channels|]. split; [exact sampleBuffer_wav|].
  split; [exact H1|]. split; [exact H2|]. split; [exact H3|]. split; [exact H4|].
  exact (wav_header_sizes_agree sampleBuffer file sampleBuffer_channels sampleBuffer_wav
           H1 H2 H3 H4).
Defined.

(** X17. Exporting what [decodeAudioData] decoded does not give the PCM data
    back: every sample of the WAV file is the 16-bit sample it was decoded
    from moved one step towards zero (the decoder divides by 32768, the
    export multiplies by 32767 and drops the fraction), so only samples that
    are 0 survive unchanged.  The payload is as long as the data. *)
Theorem exported_wav_is_one_step_quieter (data : list byte) (rate : Z)
    (numChannels : nat) :
  Nat.Even (length data) ->
  (0 < numChannels)%nat ->
  Nat.divide numChannels (length data / 2) ->
  exists buffer dataInt16 file,
    Audio.Int16Array data = Some dataInt16 /\
    Audio.decodeAudioData data rate numChannels = Some buffer /\
    Wav.wavFile buffer = Some file /\
    length file = (44 + length data)%nat /\
    Audio.Int16Array (drop 44 file) = Some (towardZero <$> dataInt16).
Proof.
  intros Heven Hpos Hdiv.
  destruct (Int16Array_even data Heven) as [dataInt16 Hview].
  destruct (Int16Array_spec data dataInt16 Hview) as (Hlen & Hrange & _).
  assert (Hhalf : (length data / 2 = length dataInt16)%nat).
  { rewrite Hlen, Nat.mul_comm. apply Nat.div_mul. lia. }
  rewrite Hhalf in Hdiv. destruct Hdiv as [fc Hfc].
  assert (Hframes : (length dataInt16 / numChannels = fc)%nat).
  { rewrite Hfc. apply Nat.div_mul. lia. }
  pose proof (decodeAudioData_eq data rate numChannels dataInt16 Hview Hpos) as Hdec.
  rewrite Hframes in Hdec.
  set (buffer := {| Audio.numberOfChannels := numChannels;
                    Audio.frames := fc;
                    Audio.sampleRate := rate;
                    Audio.channelData := deinterleaved dataInt16 numChannels fc |}) in *.
  assert (Hch : length (Audio.channelData buffer) = Audio.numberOfChannels buffer).
  { subst buffer. cbn. unfold deinterleaved. now rewrite length_fmap, length_seq. }
  assert (Hpay : wavPayload buffer = mjoin (Audio.int16Bytes <$> (towardZero <$> dataInt16)))
    by (apply decoded_payload; assumption).
  assert (Hshrunk : Forall (fun s => -32768 <= s <= 32767) (towardZero <$> dataInt16)).
  { apply Forall_fmap. eapply Forall_impl; [exact Hrange|].
    intros s Hs. cbn in Hs |- *. unfold towardZero.
    destruct (Z.ltb_spec 0 s); [lia|]. destruct (Z.ltb_spec s 0); lia. }
  exists buffer, dataInt16. eexists.
  split; [exact Hview|]. split; [exact Hdec|].
  split; [apply wavFile_eq; exact Hch|]. split.
  - rewrite length_app, wavHeader_length, wavPayload_length, Hch. subst buffer. cbn.
    rewrite Hlen, Hfc. nia.
  - rewrite drop_app_length' by reflexivity.
    rewrite Hpay. now apply Int16Array_int16Bytes.
Qed.

Lemma exported_wav_is_one_step_quieter_witness :
  Nat.Even (length samplePcm) /\
  (0 < 2)%nat /\
  Nat.divide 2 (length samplePcm / 2) /\
  exists buffer dataInt16 file,
    Audio.Int16Array samplePcm = Some dataInt16 /\
    Audio.decodeAudioData samplePcm 24000 2 = Some buffer /\
    Wav.wavFile buffer = Some file /\
    length file = (44 + length samplePcm)%nat /\
    Audio.Int16Array (drop 44 file) = Some (towardZero <$> dataInt16).
Proof.
  assert (Hpos : (0 < 2)%nat) by lia.
  split; [exact samplePcm_even|]. split; [exact Hpos|].
  split; [exact samplePcm_stereo|].
  exact (exported_wav_is_one_step_quieter samplePcm 24000 2 samplePcm_even Hpos
           samplePcm_stereo).
Defined.

(** ** The application component *)

Section StringLists.

Lemma rev_app_list (s1 s2 : string) :
  list_ascii_of_string (String.rev_app s1 s2) =
  List.rev (list_ascii_of_string s1) ++ list_ascii_of_string s2.
Proof.
  revert s2. induction s1 as [|c s1 IH]; intros s2; [reflexivity|].
  cbn [String.rev_app list_ascii_of_string List.rev]. rewrite IH.
  cbn [list_ascii_of_string]. now rewrite <- app_assoc.
Qed.

Lemma rev_list (s : string) :
  list_ascii_of_string (String.rev s) = List.rev (list_ascii_of_string s).
Proof. unfold String.rev. rewrite rev_app_list. apply app_nil_r. Qed.

Lemma string_of_list_inj (s t : string) :
  list_ascii_of_string s = list_ascii_of_string t -> s = t.
Proof.
  intros H. rewrite <- (string_of_list_ascii_of_string s), H.
  apply string_of_list_ascii_of_string.
Qed.

End StringLists.

Section AppFacts.

Local Open Scope string_scope.

Lemma orStr_nonempty (a : option string) (fallback : string) :
  fallback <> "" -> default "" (orStr a (Some fallback)) <> "".
Proof.
  intros Hf. unfold orStr, truthyStr.
  destruct a as [[|c s]|]; cbn; first [exact Hf | discriminate].
Qed.

Lemma append_nonempty (a b : string) : a <> "" -> (a +:+ b) <> "".
Proof. destruct a; [congruence|discriminate]. Qed.

Lemma step_keeps_panels (s : App.State) (e : App.Event) :
  PanelsHaveContent s -> PanelsHaveContent (App.step s e).
Proof.
  intros [Herr Hres].
  assert (Hmsg : forall err fallback, fallback <> "" ->
            exists text, Some (default "" (orStr (message err) (Some fallback))) = Some text
                         /\ text <> "").
  { intros err fb Hfb. eexists. split; [reflexivity|]. now apply orStr_nonempty. }
  destruct e; cbn [App.step]; try (split; [exact Herr|exact Hres]).
  - (* Mounted *)
    unfold App.onMount. destruct (truthyStr _); split; assumption.
  - (* SettingsSaved *)
    unfold App.saveSettings.
    destruct (negb _); [split; assumption|].
    destruct (truthyStr (App.errorMessage s)) eqn:Em.
    + destruct (App.status s) eqn:Es;
        try (split; cbn; intros H; [congruence|apply Hres; congruence]).
      destruct (App.presentation s); split; discriminate.
    + split; cbn; assumption.
  - (* GenerateClicked *)
    unfold App.handleGenerate. destruct (truthyStr _); cbn; [|split; assumption].
    split; discriminate.
  - (* Generated *)
    unfold App.generated. destruct answer as [[img data]|err].
    + destruct (App.points data); cbn.
      * split; discriminate.
      * split; [|discriminate]. intros _. eexists. split; [reflexivity|discriminate].
    + cbn. split; [|discriminate]. intros _. apply Hmsg. discriminate.
  - (* Microphone *)
    unfold App.microphone. destruct granted; cbn; split; discriminate.
  - (* RecorderStopped *)
    unfold App.onstop. destruct recorded; cbn; [split; assumption|split; discriminate].
  - (* StopClicked *)
    cbn. split; discriminate.
  - (* SubmitClicked *)
    unfold App.handleSubmitEvaluation. destruct (App.recordedBlob s) as [blob|];
      [destruct (App.size blob <? 1000)%Z|]; cbn; try (split; assumption).
    split; discriminate.
  - (* Evaluated *)
    unfold App.evaluated. destruct answer as [r|err]; cbn.
    + split; [discriminate|]. intros _. now exists r.
    + split; [|discriminate]. intros _. eexists. split; [reflexivity|].
      apply append_nonempty. discriminate.
  - (* RetryClicked *) cbn. split; discriminate.
  - (* TryAgainClicked *) cbn. split; discriminate.
  - (* ResetClicked *) cbn. split; discriminate.
Qed.

Lemma run_snoc (s : App.State) (events : list App.Event) (e : App.Event) :
  App.run s (events ++ [e]) = App.step (App.run s events) e.
Proof. unfold App.run. now rewrite foldl_app. Qed.


Lemma saveSettings_stores (s : App.State) (key : string) :
  Trimmed (App.apiKey s) key -> key <> "" ->
  App.localStorage (App.saveSettings s) =
    <["speakpro_api_key" := key]> (App.localStorage s) /\
  App.showSettings (App.saveSettings s) = false.
Proof.
  intros Ht Hk. apply Trimmed_trim in Ht. subst key. apply nonEmpty_true in Hk. unfold App.saveSettings. rewrite Hk. cbn [negb].
  destruct (truthyStr (App.errorMessage s)); [|split; reflexivity].
  destruct (App.status s); try (split; reflexivity).
  destruct (App.presentation s); split; reflexivity.
Qed.

Lemma usable_trim (typed key : string) :
  Trimmed typed key -> key <> "" -> usable (Some key) = Some key.
Proof.
  intros Ht Hk. apply Trimmed_trim in Ht. subst key.
  cbn [usable]. rewrite trim_trim.
  apply nonEmpty_true in Hk. now rewrite Hk.
Qed.

(** A blank key is refused. *)
Lemma saveSettings_blank (s : App.State) :
  Blank (App.apiKey s) -> App.saveSettings s = App.alert "Vui lòng nhập API Key!" s.
Proof.
  intros Hb. unfold App.saveSettings. now rewrite (trim_Blank _ Hb).
Qed.

Lemma missing_key_outcome (parseNumber : JsVal -> Num) (src : KeySources)
    (remote : Work JsVal) (level : CEFRLevel) (w : World) :
  (RateLimited.getApiKey src = Throw missingKeyMessage ->
   (RateLimited.evaluatePresentation parseNumber src remote level w).1 =
     RawError (newError missingKeyMessage)) /\
  (Basic.getApiKey src = Throw missingKeyMessage ->
   (Basic.evaluatePresentation parseNumber src remote level w).1 =
     RawError (newError missingKeyMessage)).
Proof.
  set (fn := evaluationWork parseNumber (Throw missingKeyMessage) remote level).
  assert (Hone : (1 <= RateLimited.defaultMaxRetries)%Z) by (vm_compute; discriminate).
  assert (Hone' : (1 <= Basic.defaultMaxRetries)%Z) by (vm_compute; discriminate).
  assert (Hall : forall m k, exists err,
             outcome (fn m k) = Throw err /\ failureKind err = OtherFailure)
    by apply missing_key_work.
  split; intros Hkey.
  - unfold RateLimited.evaluatePresentation, RateLimited.callWithModelFallback,
      RateLimited.runChain.
    rewrite Hkey. fold fn.
    destruct (other_failures fn RateLimited.defaultMaxRetries Hone
                RateLimited.MODEL_FALLBACK_CHAIN Hall [] w fallback_chain_NoDup)
      as (err & m & _ & Ho & Hr & _); [discriminate|].
    cbn [app] in *. injection Ho as <-. exact Hr.
  - unfold Basic.evaluatePresentation, Basic.callWithModelFallback, Basic.runChain.
    rewrite Hkey. fold fn. cbn [Basic.modelsFor].
    destruct (basic_other_failures fn Basic.defaultMaxRetries Hone'
                Basic.MODEL_FALLBACK_CHAIN Hall [] None w basic_chain_NoDup)
      as (err & m & _ & Ho & Hr & _); [discriminate|].
    cbn [app] in *. injection Ho as <-. exact Hr.
Qed.

(** The error panel after an evaluation that threw [text], and the state
    once a key has been typed and saved. *)
Lemma evaluation_error_repaired (s : App.State) (p : App.PresentationData)
    (text typed key : string) :
  App.presentation s = Some p ->
  text <> "" ->
  Trimmed typed key -> key <> "" ->
  let failed := App.evaluated (Throw (newError text)) s in
  let saved := App.saveSettings (App.setApiKey typed failed) in
  App.status failed = App.ERROR /\
  App.errorMessage failed = Some (App.evaluationFailed +:+ text) /\
  App.status saved = App.READY /\
  App.errorMessage saved = None /\
  App.presentation saved = Some p /\
  App.recordedBlob saved = App.recordedBlob s /\
  App.localStorage saved =
    <["speakpro_api_key" := key]> (App.localStorage s).
Proof.
  intros Hp Ht Htrim Hk failed saved. apply Trimmed_trim in Htrim. subst key.
  assert (Hm : App.errorMessage failed = Some (App.evaluationFailed +:+ text)).
  { unfold failed, App.evaluated. cbn. destruct text; [congruence|reflexivity]. }
  split; [reflexivity|]. split; [exact Hm|].
  apply nonEmpty_true in Hk.
  unfold saved, App.saveSettings.
  change (App.apiKey (App.setApiKey typed failed)) with typed. rewrite Hk. cbn [negb].
  change (App.errorMessage (App.setApiKey typed failed)) with (App.errorMessage failed).
  rewrite Hm.
  change (truthyStr (Some (App.evaluationFailed +:+ text))) with true. cbn iota.
  change (App.status (App.setApiKey typed failed)) with App.ERROR. cbn iota.
  change (App.presentation (App.setApiKey typed failed)) with (App.presentation s).
  rewrite Hp. repeat split. exact Hp.
Qed.

End AppFacts.

Section AppTheorems.

Local Open Scope string_scope.

(** X18. Whatever happens to the component, in whatever order, the error
    panel has a message to show that is not empty and the result panel has
    a result: the status is never [ERROR] without the one, nor [RESULT]
    without the other. *)
Theorem panels_always_have_content (storage : gmap string string)
    (events : list App.Event) :
  PanelsHaveContent (App.run (App.initial storage) events).
Proof.
  induction events as [|e events IH] using rev_ind.
  - split; discriminate.
  - rewrite run_snoc. now apply step_keeps_panels.
Qed.


(** X20. A key saved in the settings is the key the next request uses:
    when what was typed is not empty once the white space at its two ends,
    ASCII or not, is taken off, [saveSettings] stores it so, and closes the
    settings, and [getApiKey] of either service file then returns it,
    whatever the environment holds.  When what was typed is white space
    from end to end, [saveSettings] does nothing but alert. *)
Theorem saved_key_is_the_key_used (s : App.State) (API_KEY GEMINI_API_KEY : option string) :
  (forall key,
     Trimmed (App.apiKey s) key -> key <> "" ->
     let s' := App.saveSettings s in
     App.localStorage s' !! "speakpro_api_key" = Some key /\
     App.showSettings s' = false /\
     RateLimited.getApiKey (App.keySources s' API_KEY GEMINI_API_KEY) = Ok key /\
     Basic.getApiKey (App.keySources s' API_KEY GEMINI_API_KEY) = Ok key) /\
  (Blank (App.apiKey s) ->
   App.saveSettings s = App.alert "Vui lòng nhập API Key!" s).
Proof.
  split; [|apply saveSettings_blank].
  intros key Ht Hk s'. destruct (saveSettings_stores s key Ht Hk) as [Hst Hshow].
  fold s' in Hst, Hshow.
  assert (Hl : App.localStorage s' !! "speakpro_api_key" = Some key).
  { rewrite Hst. apply lookup_insert_eq. }
  split; [exact Hl|]. split; [exact Hshow|].
  unfold RateLimited.getApiKey, Basic.getApiKey, App.keySources.
  cbn [stored_speakpro_api_key]. rewrite Hl, (usable_trim _ _ Ht Hk). split; reflexivity.
Qed.

Lemma saved_key_is_the_key_used_witness :
  let s := App.setApiKey (utf8 160 +:+ " sk-user" +:+ utf8 8232) (App.initial ∅) in
  Trimmed (App.apiKey s) "sk-user" /\
  "sk-user" <> "" /\
  RateLimited.getApiKey (App.keySources (App.saveSettings s) (Some "sk-env") None)
    = Ok "sk-user".
Proof.
  intros s.
  assert (Ht : Trimmed (App.apiKey s) "sk-user") by (apply Trimmed_iff; reflexivity).
  assert (Hk : "sk-user" <> "") by discriminate.
  split; [exact Ht|]. split; [exact Hk|].
  exact (proj1 (proj2 (proj2
    (proj1 (saved_key_is_the_key_used s (Some "sk-env") None) "sk-user" Ht Hk)))).
Defined.

(** X21. A missing key is repaired in the settings without losing the
    work: when [evaluatePresentation] fails for want of a key, the error
    panel shows the message that sends the user to the settings; typing
    there a key that is not empty once the white space at its two ends,
    ASCII or not, is taken off, and saving it, clears the error and brings
    the component back to [READY] with the presentation and the recording
    it had, and [getApiKey] then returns the key without that white space.
    Both service files. *)
Theorem missing_key_is_repaired_in_the_settings (parseNumber : JsVal -> Num)
    (remote : Work JsVal) (w : World) (s : App.State) (p : App.PresentationData)
    (typed key : string) (API_KEY GEMINI_API_KEY : option string) :
  App.presentation s = Some p ->
  Trimmed typed key -> key <> "" ->
  let src := App.keySources s API_KEY GEMINI_API_KEY in
  let repaired (answer : Awaited (gmap string JsVal)) :=
    let failed := App.evaluated answer s in
    let saved := App.saveSettings (App.setApiKey typed failed) in
    App.status failed = App.ERROR /\
    App.errorMessage failed = Some (App.evaluationFailed +:+ missingKeyMessage) /\
    App.status saved = App.READY /\
    App.errorMessage saved = None /\
    App.presentation saved = Some p /\
    App.recordedBlob saved = App.recordedBlob s /\
    RateLimited.getApiKey (App.keySources saved API_KEY GEMINI_API_KEY) = Ok key /\
    Basic.getApiKey (App.keySources saved API_KEY GEMINI_API_KEY) = Ok key in
  (RateLimited.getApiKey src = Throw missingKeyMessage ->
   repaired (settled (RateLimited.evaluatePresentation parseNumber src remote
                        (App.level s) w).1)) /\
  (Basic.getApiKey src = Throw missingKeyMessage ->
   repaired (settled (Basic.evaluatePresentation parseNumber src remote
                        (App.level s) w).1)).
Proof.
  intros Hp Ht Hk src repaired.
  assert (Hgo : repaired (Throw (newError missingKeyMessage))).
  { assert (Hm : missingKeyMessage <> "") by discriminate.
    destruct (evaluation_error_repaired s p missingKeyMessage typed key Hp Hm Ht Hk)
      as (H1 & H2 & H3 & H4 & H5 & H6 & H7).
    unfold repaired. repeat (split; [assumption|]).
    unfold RateLimited.getApiKey, Basic.getApiKey, App.keySources.
    cbn [stored_speakpro_api_key]. rewrite H7, lookup_insert_eq, (usable_trim _ _ Ht Hk).
    split; reflexivity. }
  destruct (missing_key_outcome parseNumber src remote (App.level s) w) as [Hr Hb].
  split; intros Hkey; [rewrite (Hr Hkey)|rewrite (Hb Hkey)]; exact Hgo.
Qed.

Lemma missing_key_is_repaired_in_the_settings_witness :
  let typed := utf8 12288 +:+ "sk-user" +:+ utf8 160 in
  App.presentation samplePage = Some samplePresentation /\
  Trimmed typed "sk-user" /\
  "sk-user" <> "" /\
  RateLimited.getApiKey (App.keySources samplePage None None) = Throw missingKeyMessage /\
  let failed :=
    App.evaluated
      (settled (RateLimited.evaluatePresentation noParse
                  (App.keySources samplePage None None) sampleRemote
                  (App.level samplePage) (Governor.boot 0)).1) samplePage in
  let saved := App.saveSettings (App.setApiKey typed failed) in
  App.status failed = App.ERROR /\
  App.status saved = App.READY /\
  RateLimited.getApiKey (App.keySources saved None None) = Ok "sk-user".
Proof.
  intros typed.
  assert (Ht : Trimmed typed "sk-user") by (apply Trimmed_iff; reflexivity).
  assert (Hk : "sk-user" <> "") by discriminate.
  assert (Hkey : RateLimited.getApiKey (App.keySources samplePage None None)
                 = Throw missingKeyMessage) by reflexivity.
  split; [reflexivity|]. split; [exact Ht|]. split; [exact Hk|]. split; [exact Hkey|].
  destruct (proj1 (missing_key_is_repaired_in_the_settings noParse sampleRemote
                     (Governor.boot 0) samplePage samplePresentation typed "sk-user"
                     None None eq_refl Ht Hk) Hkey)
    as (H1 & _ & H3 & _ & _ & _ & H7 & _).
  split; [exact H1|]. split; [exact H3|exact H7].
Defined.

End AppTheorems.

(** ** What the component shows and what the requests hold *)

Section StringFacts.

Local Open Scope string_scope.
Local Open Scope nat_scope.

Lemma list_of_append (a b : string) :
  list_ascii_of_string (a +:+ b) = (list_ascii_of_string a ++ list_ascii_of_string b)%list.
Proof.
  induction a as [|c a IH]; [reflexivity|].
  change (String c a +:+ b) with (String c (a +:+ b)).
  cbn [list_ascii_of_string]. now rewrite IH.
Qed.

Lemma append_assoc (a b c : string) : (a +:+ b) +:+ c = a +:+ (b +:+ c).
Proof.
  induction a as [|x a IH]; [reflexivity|].
  change (String x a +:+ b) with (String x (a +:+ b)).
  change (String x (a +:+ b) +:+ c) with (String x ((a +:+ b) +:+ c)).
  change (String x a +:+ (b +:+ c)) with (String x (a +:+ (b +:+ c))).
  now rewrite IH.
Qed.

Lemma split_nonempty (sep : ascii) (s : string) : split sep s <> [].
Proof.
  destruct s as [|c rest]; [discriminate|]. cbn.
  destruct (Ascii.eqb c sep); [discriminate|].
  destruct (split sep rest); discriminate.
Qed.

(** Joining the pieces with the separator gives the string back. *)
Lemma split_joined (sep : ascii) (s : string) :
  foldr (fun piece rest => (piece +:+ String sep "") +:+ rest) "" (split sep s)
  = s +:+ String sep "".
Proof.
  induction s as [|c rest IH]; [reflexivity|].
  cbn [split]. destruct (Ascii.eqb_spec c sep) as [->|Hc].
  - cbn [foldr]. now rewrite IH.
  - destruct (split sep rest) as [|piece pieces] eqn:E;
      [now destruct (split_nonempty sep rest)|].
    cbn [foldr] in IH |- *.
    change (String c rest +:+ String sep "") with (String c (rest +:+ String sep "")).
    now rewrite <- IH.
Qed.

(** No piece holds the separator. *)
Lemma split_pieces (sep : ascii) (s piece : string) :
  piece ∈ split sep s -> ~ occurs sep piece.
Proof.
  unfold occurs. revert piece. induction s as [|c rest IH]; intros piece Hin.
  - apply list_elem_of_singleton in Hin as ->. cbn. apply not_elem_of_nil.
  - cbn [split] in Hin. destruct (Ascii.eqb_spec c sep) as [->|Hc].
    + apply elem_of_cons in Hin as [->|Hin]; [cbn; apply not_elem_of_nil|now apply IH].
    + destruct (split sep rest) as [|first pieces] eqn:E;
        [now destruct (split_nonempty sep rest)|].
      apply elem_of_cons in Hin as [->|Hin].
      * cbn. intros [H|H]%elem_of_cons; [congruence|].
        apply (IH first); [left|exact H].
      * apply IH. now right.
Qed.

(** A string without the separator is one piece. *)
Lemma split_whole (sep : ascii) (s : string) : ~ occurs sep s -> split sep s = [s].
Proof.
  unfold occurs. induction s as [|c rest IH]; intros Hs; [reflexivity|].
  cbn [split]. destruct (Ascii.eqb_spec c sep) as [->|Hc].
  - destruct Hs. cbn. left.
  - rewrite IH; [reflexivity|]. intros H. apply Hs. cbn. now right.
Qed.

Lemma lowerChar_fixes (c : ascii) :
  (nat_of_ascii c < 65 \/ 90 < nat_of_ascii c) -> lowerChar c = c.
Proof.
  intros H. unfold lowerChar.
  destruct (65 <=? nat_of_ascii c) eqn:E1; [|reflexivity].
  destruct (nat_of_ascii c <=? 90) eqn:E2; [|reflexivity].
  apply Nat.leb_le in E1, E2. lia.
Qed.

(** Only a capital letter changes, and into a small one. *)
Lemma lowerChar_cases (c : ascii) :
  lowerChar c = c \/
  (97 <= nat_of_ascii (lowerChar c) /\ nat_of_ascii (lowerChar c) <= 122).
Proof.
  unfold lowerChar.
  destruct (65 <=? nat_of_ascii c) eqn:E1; [|left; reflexivity].
  destruct (nat_of_ascii c <=? 90) eqn:E2; [|left; reflexivity].
  apply Nat.leb_le in E1, E2. right. cbn [andb].
  rewrite nat_ascii_embedding by lia. lia.
Qed.

Lemma occurs_toLowerCase (c : ascii) (s : string) :
  (nat_of_ascii c < 65 \/ 122 < nat_of_ascii c \/
   (90 < nat_of_ascii c /\ nat_of_ascii c < 97)) ->
  occurs c (toLowerCase s) <-> occurs c s.
Proof.
  intros Hc. unfold occurs. induction s as [|x s IH]; [reflexivity|].
  cbn [toLowerCase list_ascii_of_string]. rewrite !elem_of_cons, IH.
  split; (intros [H|H]; [left|now right]).
  - destruct (lowerChar_cases x) as [E|E]; [congruence|]. rewrite <- H in E. lia.
  - subst x. symmetry. apply lowerChar_fixes. lia.
Qed.

Lemma occurs_dropChars (class : list ascii) (c : ascii) (s : string) :
  occurs c (dropChars class s) <-> occurs c s /\ c ∉ class.
Proof.
  unfold occurs. induction s as [|x s IH].
  - cbn. split; [intros H; now apply not_elem_of_nil in H|intros [H _]; exact H].
  - cbn [dropChars list_ascii_of_string]. destruct (bool_decide_reflect (x ∈ class)) as [Hx|Hx].
    + rewrite IH, elem_of_cons. split; [intros [H1 H2]; split; [now right|exact H2]|].
      intros [[->|H1] H2]; [contradiction|now split].
    + cbn [list_ascii_of_string]. rewrite !elem_of_cons, IH.
      split; [intros [->|[H1 H2]]; split; auto|].
      intros [[->|H1] H2]; [now left|right; now split].
Qed.

End StringFacts.

Section TimeFacts.

Local Open Scope string_scope.
Local Open Scope nat_scope.

Lemma pad_seconds (secs : nat) :
  secs < 60 ->
  exists tens units t u,
    padStart 2 "0" (pretty secs) = String tens (String units "") /\
    digitValue tens = Some t /\ digitValue units = Some u /\ secs = 10 * t + u.
Proof.
  intros H.
  do 60 (destruct secs as [|secs];
         [do 4 eexists; vm_compute; repeat split; reflexivity|]).
  lia.
Qed.

Lemma digitValue_inj (a b : ascii) (n : nat) :
  digitValue a = Some n -> digitValue b = Some n -> a = b.
Proof.
  unfold digitValue. intros Ha Hb.
  destruct (48 <=? nat_of_ascii a) eqn:A1; [|discriminate].
  destruct (nat_of_ascii a <=? 57) eqn:A2; [|discriminate].
  destruct (48 <=? nat_of_ascii b) eqn:B1; [|discriminate].
  destruct (nat_of_ascii b <=? 57) eqn:B2; [|discriminate].
  cbn in Ha, Hb. apply Nat.leb_le in A1, B1.
  rewrite <- (ascii_nat_embedding a), <- (ascii_nat_embedding b). f_equal.
  injection Ha as Ha. injection Hb as Hb. lia.
Qed.

Lemma formatTime_shape (seconds : nat) :
  exists tens units t u,
    App.formatTime seconds =
      pretty (seconds / 60) +:+ ":" +:+ String tens (String units "") /\
    digitValue tens = Some t /\ digitValue units = Some u /\
    seconds mod 60 = 10 * t + u.
Proof.
  destruct (pad_seconds (seconds mod 60)) as (tens & units & t & u & H1 & H2 & H3 & H4).
  { apply Nat.mod_upper_bound. discriminate. }
  exists tens, units, t, u. unfold App.formatTime. rewrite H1. auto.
Qed.

End TimeFacts.

Section RenderFacts.

Local Open Scope string_scope.

Lemma shown_fmap (f : string -> App.Span) (words : list string) :
  (forall word, App.children (f word) = word +:+ " ") ->
  shown (f <$> words) =
    foldr (fun piece rest => (piece +:+ " ") +:+ rest) "" words.
Proof.
  intros Hf. induction words as [|word words IH]; [reflexivity|].
  cbn [fmap list_fmap foldr shown]. unfold shown in IH. rewrite Hf.
  f_equal. exact IH.
Qed.

(** What [renderEnhancedScript] gives when it gives spans. *)
Lemma renderEnhancedScript_spans (s : App.State) (text sectionColor : string)
    (spans : list App.Span) :
  App.renderEnhancedScript s text sectionColor = Some (Ok spans) ->
  exists p vocab,
    App.presentation s = Some p /\
    App.lessonVocab (App.scriptData p) = Some vocab /\
    spans =
      (fun word =>
         {| App.className :=
              if bool_decide (App.cleanWord word ∈
                                (fun v => toLowerCase (App.word v)) <$> vocab)
              then App.newWordClass else sectionColor;
            App.children := word +:+ " " |}) <$> split " " text.
Proof.
  unfold App.renderEnhancedScript. intros H.
  destruct (App.presentation s) as [p|]; [|discriminate].
  destruct (App.lessonVocab (App.scriptData p)) as [vocab|] eqn:Ev; [|discriminate].
  exists p, vocab. split; [reflexivity|]. split; [exact Ev|].
  injection H as <-. reflexivity.
Qed.

Lemma punctuation_fixed (c : ascii) :
  c ∈ App.punctuation ->
  (nat_of_ascii c < 65 \/ 122 < nat_of_ascii c \/
   (90 < nat_of_ascii c /\ nat_of_ascii c < 97))%nat.
Proof.
  unfold App.punctuation. rewrite !elem_of_cons, elem_of_nil.
  intros [->|[->|[->|[->|[->|[->|[->|[]]]]]]]]; vm_compute; lia.
Qed.

End RenderFacts.

Section GenerationFacts.

Local Open Scope string_scope.

Lemma firstImage_Ok (parts : list Generation.ResponsePart) (img : string) :
  Generation.firstImage parts = Ok img ->
  exists data,
    firstInline parts = Some data /\
    img = "data:image/png;base64," +:+ interpolate data.
Proof.
  unfold firstInline. induction parts as [|part parts IH]; [discriminate|].
  cbn [Generation.firstImage omap list_omap].
  destruct (Generation.inlineData part) as [data|].
  - intros H. injection H as <-. exists data. split; reflexivity.
  - exact IH.
Qed.

Lemma illustrationWork_reply (key : result string string)
    (remote : string -> Work (list Generation.ResponsePart)) (theme model : string)
    (k : nat) (img : string) :
  outcome (Generation.illustrationWork key remote theme model k) = Ok img ->
  exists parts,
    outcome (remote (Generation.illustrationPrompt theme) model k) = Ok parts /\
    Generation.firstImage parts = Ok img.
Proof.
  unfold Generation.illustrationWork. destruct key as [key|msg]; [|discriminate].
  cbn [outcome].
  destruct (outcome (remote (Generation.illustrationPrompt theme) model k))
    as [parts|err]; [|discriminate].
  intros H. now exists parts.
Qed.

(** The pieces of a data URI of an image. *)
Lemma split_dataUri (payload : string) :
  split "," ("data:image/png;base64," +:+ payload) =
    "data:image/png;base64" :: split "," payload.
Proof.
  pose proof (split_nonempty "," payload) as Hne.
  unfold String.app. cbn. destruct (split "," payload); [congruence|reflexivity].
Qed.

Lemma scriptParts_dataUri (payload theme : string) (level : CEFRLevel) :
  exists text,
    Generation.scriptParts ("data:image/png;base64," +:+ payload) theme level =
      [Generation.InlineData "image/png" (head (split "," payload));
       Generation.Text text].
Proof.
  unfold Generation.scriptParts.
  change (nonEmpty ("data:image/png;base64," +:+ payload)) with true.
  change (String.length ("data:image/png;base64," +:+ payload))
    with (22 + String.length payload)%nat.
  replace (0 <? Z.of_nat (22 + String.length payload))%Z with true
    by (symmetry; apply Z.ltb_lt; lia).
  cbn [andb]. rewrite split_dataUri. eexists.
  destruct (split "," payload); reflexivity.
Qed.

End GenerationFacts.

Section ViewTheorems.

Local Open Scope string_scope.

(** X22. [formatTime] shows the minutes, a colon and the seconds in exactly
    two digits, and two times are shown alike only when they are the same
    time. *)
Theorem formatTime_tells_times_apart (seconds : nat) :
  (exists tens units t u,
     App.formatTime seconds =
       pretty (seconds / 60)%nat +:+ ":" +:+ String tens (String units "") /\
     digitValue tens = Some t /\ digitValue units = Some u /\
     (seconds mod 60 = 10 * t + u)%nat) /\
  (forall other, App.formatTime other = App.formatTime seconds -> other = seconds).
Proof.
  split; [apply formatTime_shape|].
  intros other H.
  destruct (formatTime_shape seconds) as (a & b & t & u & Hs & Ha & Hb & Hm).
  destruct (formatTime_shape other) as (a' & b' & t' & u' & Hs' & Ha' & Hb' & Hm').
  rewrite Hs, Hs' in H.
  apply (f_equal list_ascii_of_string) in H.
  rewrite !list_of_append in H.
  apply app_inj_2 in H as [H1 H2]; [|reflexivity].
  apply string_of_list_inj, (inj pretty) in H1.
  assert (a' = a /\ b' = b) as [-> ->]
    by (unfold String.app in H2; cbn in H2; split; congruence).
  assert (t' = t) by congruence. assert (u' = u) by congruence. subst.
  rewrite (Nat.div_mod_eq other 60), (Nat.div_mod_eq seconds 60). lia.
Qed.

(** X23. The spans [renderEnhancedScript] makes show the text it was given,
    whole and in order, every word followed by a space; there is one span
    for each piece between two spaces, and its class is the class of a new
    word or the colour of the section. *)
Theorem script_is_shown_whole (s : App.State) (text sectionColor : string)
    (spans : list App.Span) :
  App.renderEnhancedScript s text sectionColor = Some (Ok spans) ->
  shown spans = text +:+ " " /\
  length spans = length (split " " text) /\
  Forall (fun span => App.className span = App.newWordClass \/
                      App.className span = sectionColor) spans.
Proof.
  intros H. destruct (renderEnhancedScript_spans _ _ _ _ H) as (p & vocab & _ & _ & ->).
  split; [|split].
  - rewrite shown_fmap by reflexivity. apply (split_joined " ").
  - apply length_fmap.
  - apply Forall_fmap, Forall_forall. intros word _. cbn.
    destruct (bool_decide _); [now left|now right].
Qed.

Lemma script_is_shown_whole_witness :
  exists spans,
    App.renderEnhancedScript sampleLesson "I see a Cat." "text-slate-700" = Some (Ok spans) /\
    shown spans = "I see a Cat. ".
Proof.
  eexists. split; [reflexivity|].
  exact (proj1 (script_is_shown_whole sampleLesson "I see a Cat." "text-slate-700" _ eq_refl)).
Defined.

(** X24. For a text and a vocabulary of ASCII characters alone: a span has
    the class of a new word only for a word of the text that, in small
    letters and without its punctuation, is an entry of the vocabulary in
    small letters.  Such an entry holds no space and none of the
    punctuation marks: an entry of several words, or one written with such
    a mark, is never marked in the script. *)
Theorem only_single_words_are_marked (s : App.State) (text sectionColor : string)
    (spans : list App.Span) (span : App.Span) :
  AsciiText text ->
  (forall p vocab entry,
     App.presentation s = Some p ->
     App.lessonVocab (App.scriptData p) = Some vocab ->
     entry ∈ vocab -> AsciiText (App.word entry)) ->
  App.renderEnhancedScript s text sectionColor = Some (Ok spans) ->
  sectionColor <> App.newWordClass ->
  span ∈ spans ->
  App.className span = App.newWordClass ->
  exists p vocab entry word,
    App.presentation s = Some p /\
    App.lessonVocab (App.scriptData p) = Some vocab /\
    entry ∈ vocab /\
    word ∈ split " " text /\
    App.children span = word +:+ " " /\
    toLowerCase (App.word entry) = App.cleanWord word /\
    ~ occurs " " (App.word entry) /\
    (forall mark, mark ∈ App.punctuation -> ~ occurs mark (App.word entry)).
Proof.
  intros _ _ H Hcolor Hin Hclass.
  destruct (renderEnhancedScript_spans _ _ _ _ H) as (p & vocab & Hp & Hv & ->).
  apply list_elem_of_fmap in Hin as (word & -> & Hword). cbn in Hclass.
  destruct (bool_decide_reflect
              (App.cleanWord word ∈ (fun v => toLowerCase (App.word v)) <$> vocab))
    as [Hnew|Hold]; [|congruence].
  apply list_elem_of_fmap in Hnew as (entry & Heq & Hentry).
  exists p, vocab, entry, word.
  repeat (split; [first [assumption | reflexivity | now symmetry]|]).
  split.
  - intros Hsp.
    assert (Hspace : (nat_of_ascii " " < 65 \/ 122 < nat_of_ascii " " \/
                      (90 < nat_of_ascii " " /\ nat_of_ascii " " < 97))%nat)
      by (vm_compute; lia).
    apply (proj2 (occurs_toLowerCase " " (App.word entry) Hspace)) in Hsp.
    rewrite <- Heq in Hsp. unfold App.cleanWord in Hsp.
    apply (proj1 (occurs_dropChars _ _ _)) in Hsp as [Hsp _].
    apply (proj1 (occurs_toLowerCase " " word Hspace)) in Hsp.
    exact (split_pieces " " text word Hword Hsp).
  - intros mark Hmark Hocc.
    apply (proj2 (occurs_toLowerCase mark (App.word entry)
                    (punctuation_fixed mark Hmark))) in Hocc.
    rewrite <- Heq in Hocc. unfold App.cleanWord in Hocc.
    apply (proj1 (occurs_dropChars _ _ _)) in Hocc as [_ Hocc]. contradiction.
Qed.

Lemma only_single_words_are_marked_witness :
  let span := {| App.className := App.newWordClass; App.children := "Cat. " |} in
  AsciiText "I see a Cat." /\
  (forall p vocab entry,
     App.presentation sampleLesson = Some p ->
     App.lessonVocab (App.scriptData p) = Some vocab ->
     entry ∈ vocab -> AsciiText (App.word entry)) /\
  exists spans,
    App.renderEnhancedScript sampleLesson "I see a Cat." "text-slate-700" = Some (Ok spans) /\
    "text-slate-700" <> App.newWordClass /\
    span ∈ spans /\
    exists entry, App.children span = "Cat. " /\ ~ occurs " " (App.word entry).
Proof.
  intros span.
  assert (Htext : AsciiText "I see a Cat.") by reflexivity.
  assert (Hvocab : forall p vocab entry,
             App.presentation sampleLesson = Some p ->
             App.lessonVocab (App.scriptData p) = Some vocab ->
             entry ∈ vocab -> AsciiText (App.word entry)).
  { intros p vocab entry Hp Hv Hentry. injection Hp as <-. injection Hv as <-.
    apply elem_of_cons in Hentry as [->|Hentry]; [reflexivity|].
    apply elem_of_cons in Hentry as [->|Hentry]; [reflexivity|].
    now apply elem_of_nil in Hentry. }
  split; [exact Htext|]. split; [exact Hvocab|].
  eexists.
  assert (Hc : "text-slate-700" <> App.newWordClass) by discriminate.
  assert (Hin : span ∈ [ {| App.className := "text-slate-700"; App.children := "I " |};
                         {| App.className := "text-slate-700"; App.children := "see " |};
                         {| App.className := "text-slate-700"; App.children := "a " |};
                         span ]) by (do 3 right; left).
  split; [reflexivity|]. split; [exact Hc|]. split; [exact Hin|].
  destruct (only_single_words_are_marked sampleLesson "I see a Cat." "text-slate-700"
              _ span Htext Hvocab eq_refl Hc Hin eq_refl)
    as (p & vocab & entry & word & _ & _ & _ & _ & _ & _ & Hsp & _).
  exists entry. split; [reflexivity|exact Hsp].
Defined.

End ViewTheorems.

Section GenerationTheorems.

Local Open Scope string_scope.

(** X25. The illustration reaches the request for the script.  What
    [generateIllustration] returns is a data URI of the first inline part
    of some response, and [generatePresentationScript], given that URI,
    sends as the image what follows the header up to the first comma:
    the data of that part itself when it holds no comma, as base64 text
    never does.  Both service files. *)
Theorem script_request_carries_the_illustration (src : KeySources)
    (remote : string -> Work (list Generation.ResponsePart)) (theme : string)
    (w w' : World) (img : string) :
  RateLimitedGeneration.generateIllustration src remote theme w = (Success img, w') \/
  BasicGeneration.generateIllustration src remote theme w = (Success img, w') ->
  exists model k parts data,
    outcome (remote (Generation.illustrationPrompt theme) model k) = Ok parts /\
    firstInline parts = Some data /\
    img = "data:image/png;base64," +:+ interpolate data /\
    forall theme' level,
      exists sent text,
        Generation.scriptParts img theme' level =
          [Generation.InlineData "image/png" (Some sent); Generation.Text text] /\
        head (split "," (interpolate data)) = Some sent /\
        (~ occurs "," (interpolate data) -> sent = interpolate data).
Proof.
  intros H.
  assert (Hreply : exists key model k,
             outcome (Generation.illustrationWork key remote theme model k) = Ok img).
  { destruct H as [H|H].
    - unfold RateLimitedGeneration.generateIllustration, RateLimited.callWithModelFallback in H.
      exists (RateLimited.getApiKey src).
      exact (success_is_a_reply _ _ _ _ _ _ (or_introl H)).
    - unfold BasicGeneration.generateIllustration, Basic.callWithModelFallback in H.
      exists (Basic.getApiKey src).
      exact (success_is_a_reply _ _ _ _ _ _ (or_intror H)). }
  destruct Hreply as (key & model & k & Hk).
  apply illustrationWork_reply in Hk as (parts & Hparts & Himg).
  apply firstImage_Ok in Himg as (data & Hdata & ->).
  exists model, k, parts, data. repeat (split; [assumption || reflexivity|]).
  intros theme' level.
  destruct (scriptParts_dataUri (interpolate data) theme' level) as [text Htext].
  destruct (split "," (interpolate data)) as [|sent pieces] eqn:Es;
    [now destruct (split_nonempty "," (interpolate data))|].
  exists sent, text. split; [exact Htext|]. split; [reflexivity|].
  intros Hno. rewrite (split_whole _ _ Hno) in Es. congruence.
Qed.

Lemma script_request_carries_the_illustration_witness :
  RateLimitedGeneration.generateIllustration sampleKeys sampleImageRemote "cats"
    (Governor.boot 0)
  = (Success "data:image/png;base64,QUJD",
     (RateLimitedGeneration.generateIllustration sampleKeys sampleImageRemote "cats"
        (Governor.boot 0)).2) /\
  exists sent text,
    Generation.scriptParts "data:image/png;base64,QUJD" "cats" Starters =
      [Generation.InlineData "image/png" (Some sent); Generation.Text text].
Proof.
  assert (Hrun : RateLimitedGeneration.generateIllustration sampleKeys sampleImageRemote
                   "cats" (Governor.boot 0)
                 = (Success "data:image/png;base64,QUJD",
                    (RateLimitedGeneration.generateIllustration sampleKeys
                       sampleImageRemote "cats" (Governor.boot 0)).2))
    by (vm_compute; reflexivity).
  split; [exact Hrun|].
  destruct (script_request_carries_the_illustration sampleKeys sampleImageRemote "cats"
              (Governor.boot 0) _ _ (or_introl Hrun))
    as (model & k & parts & data & _ & _ & _ & Hsent).
  destruct (Hsent "cats" Starters) as (sent & text & Hparts & _ & _).
  exists sent, text. exact Hparts.
Defined.

End GenerationTheorems.
